(** * Readable: a shallow embedding of scripts.js

    The development follows the layout of the script:
    - [JS]        strings as sequences of UTF-16 code units, the string
                  primitives the script calls (split, join, trim,
                  encodeURIComponent, Number and the subtraction of
                  Numbers);
    - [Resolver]  buildAudioUrl, audioExists and the existence cache;
    - [Dataset]   buildModel;
    - [Player]    the "now playing" slot, the sentence-button handler,
                  stopLessonPlayback, playOne, playLessonInOrder and the
                  lesson-button handler, run by an event loop;
    - [Csv]       parseCSV and parseCSVLine;
    - [Addresses] the syntax of the addresses buildAudioUrl makes, and
                  audioExists under interleaved calls;
    - [Images]    updateLessonImage and its load and error callbacks;
    - [Sequencer] the runs of playLessonInOrder that are still live;
    - [Ui]        hydratePreferences, persistPreferences, the listeners of
                  wireUI, init, and render on the page.  *)

From Stdlib Require Import ZArith List Lia Bool Permutation Sorted.
From stdpp Require Import gmap list option strings.
Import ListNotations.
Local Open Scope Z_scope.

(** ** JavaScript strings *)

Module JS.

(** A string value is its sequence of UTF-16 code units. *)
Abbreviation jsstring := (list Z).

(** Code units of an ASCII literal. *)
Fixpoint str (s : string) : jsstring :=
  match s with
  | EmptyString => []
  | String a r => Z.of_N (Ascii.N_of_ascii a) :: str r
  end.

Definition slash : Z := 47.
Definition percent : Z := 37.

Definition isLeadingSurrogate (c : Z) : bool := (0xD800 <=? c) && (c <=? 0xDBFF).
Definition isTrailingSurrogate (c : Z) : bool := (0xDC00 <=? c) && (c <=? 0xDFFF).

(** String.prototype.isWellFormed: no lone surrogate. *)
Fixpoint isWellFormed (s : jsstring) : bool :=
  match s with
  | [] => true
  | c :: rest =>
      if isLeadingSurrogate c then
        match rest with
        | c2 :: rest' => isTrailingSurrogate c2 && isWellFormed rest'
        | [] => false
        end
      else if isTrailingSurrogate c then false
      else isWellFormed rest
  end.

(** [s.split(sep)] for a one-unit separator: always at least one piece. *)
Fixpoint split (sep : Z) (s : jsstring) : list jsstring :=
  match s with
  | [] => [[]]
  | c :: r =>
      if c =? sep then [] :: split sep r
      else match split sep r with
           | seg :: segs => (c :: seg) :: segs
           | [] => [[c]]
           end
  end.

(** [parts.join(sep)]. *)
Fixpoint join (sep : Z) (parts : list jsstring) : jsstring :=
  match parts with
  | [] => []
  | [x] => x
  | x :: r => x ++ sep :: join sep r
  end.

(** uriUnescaped of ECMA-262: letters, digits and - _ . ! ~ * ' ( ) *)
Definition uriUnescaped (c : Z) : bool :=
  ((65 <=? c) && (c <=? 90)) || ((97 <=? c) && (c <=? 122)) ||
  ((48 <=? c) && (c <=? 57)) ||
  (c =? 45) || (c =? 95) || (c =? 46) || (c =? 33) || (c =? 126) ||
  (c =? 42) || (c =? 39) || (c =? 40) || (c =? 41).

Definition UTF16SurrogatePairToCodePoint (lead trail : Z) : Z :=
  (lead - 0xD800) * 0x400 + (trail - 0xDC00) + 0x10000.

(** The UTF-8 octets of a code point. *)
Definition utf8 (cp : Z) : list Z :=
  if cp <? 0x80 then [cp]
  else if cp <? 0x800 then
    [Z.lor 0xC0 (Z.shiftr cp 6); Z.lor 0x80 (Z.land cp 0x3F)]
  else if cp <? 0x10000 then
    [Z.lor 0xE0 (Z.shiftr cp 12);
     Z.lor 0x80 (Z.land (Z.shiftr cp 6) 0x3F);
     Z.lor 0x80 (Z.land cp 0x3F)]
  else
    [Z.lor 0xF0 (Z.shiftr cp 18);
     Z.lor 0x80 (Z.land (Z.shiftr cp 12) 0x3F);
     Z.lor 0x80 (Z.land (Z.shiftr cp 6) 0x3F);
     Z.lor 0x80 (Z.land cp 0x3F)].

(** Upper-case hexadecimal digit of a nibble. *)
Definition hexDigit (n : Z) : Z :=
  if n <? 10 then 48 + n else 55 + n.

Definition percentEncode (octet : Z) : jsstring :=
  [percent; hexDigit (Z.land (Z.shiftr octet 4) 0xF); hexDigit (Z.land octet 0xF)].

Definition escapeCodePoint (cp : Z) : jsstring :=
  concat (map percentEncode (utf8 cp)).

(** encodeURIComponent (the Encode operation of ECMA-262 with the empty
    extra set).  [None] is the URIError raised on an unpaired surrogate. *)
Fixpoint encodeURIComponent (s : jsstring) : option jsstring :=
  match s with
  | [] => Some []
  | c :: rest =>
      if uriUnescaped c then cons c <$> encodeURIComponent rest
      else if isLeadingSurrogate c then
        match rest with
        | c2 :: rest' =>
            if isTrailingSurrogate c2 then
              app (escapeCodePoint (UTF16SurrogatePairToCodePoint c c2))
                <$> encodeURIComponent rest'
            else None
        | [] => None
        end
      else if isTrailingSurrogate c then None
      else app (escapeCodePoint c) <$> encodeURIComponent rest
  end.

(** Number of occurrences of a code unit. *)
Fixpoint occurrences (c : Z) (s : jsstring) : nat :=
  match s with
  | [] => 0
  | x :: r => ((if Z.eqb x c then 1 else 0) + occurrences c r)%nat
  end.

(** WhiteSpace and LineTerminator code points, as String.prototype.trim
    and Number strip them. *)
Definition isWhiteSpace (c : Z) : bool :=
  ((9 <=? c) && (c <=? 13)) || (c =? 32) || (c =? 160) || (c =? 5760) ||
  ((8192 <=? c) && (c <=? 8202)) || (c =? 8232) || (c =? 8233) ||
  (c =? 8239) || (c =? 8287) || (c =? 12288) || (c =? 65279).

Fixpoint trimStart (s : jsstring) : jsstring :=
  match s with
  | [] => []
  | c :: r => if isWhiteSpace c then trimStart r else s
  end.

Definition trim (s : jsstring) : jsstring :=
  rev (trimStart (rev (trimStart s))).

Definition isDigit (c : Z) : bool := (48 <=? c) && (c <=? 57).

Fixpoint digitsValue (acc : Z) (s : jsstring) : option Z :=
  match s with
  | [] => Some acc
  | c :: r => if isDigit c then digitsValue (10 * acc + (c - 48)) r else None
  end.

Definition unsignedInteger (s : jsstring) : option Z :=
  match s with
  | [] => None
  | _ => digitsValue 0 s
  end.

(** A Number value: NaN, an infinity, or a finite double.  Every finite
    double is an integer multiple of 2^-1074, and [Double k] is the double
    k * 2^-1074.  The sign of zero is left out: the script subtracts its
    numbers and compares the result with zero, which does not tell -0 from
    +0. *)
Inductive number :=
  | NaN
  | Infinity (negative : bool)
  | Double (k : Z).

(** The double of an integer of magnitude at most 2^53. *)
Definition ofZ (n : Z) : number := Double (n * 2 ^ 1074).

(** The double nearest to num/den (num >= 0, den > 0), ties to even; a
    result of 2^1024 or more is Infinity.  Near x the doubles are 2^s units
    apart, where s = 0 below 2^53 units and the 53 leading bits count
    above. *)
Definition roundToDouble (num den : Z) : number :=
  let x := num * 2 ^ 1074 in
  let s := Z.max 0 (Z.log2 (x / den) - 52) in
  let d := den * 2 ^ s in
  let q := x / d in
  let r := x mod d in
  let q := if (d <? 2 * r) || ((d =? 2 * r) && Z.odd q) then q + 1 else q in
  if 2 ^ 2098 <=? q * 2 ^ s then Infinity false else Double (q * 2 ^ s).

Definition numNeg (v : number) : number :=
  match v with
  | NaN => NaN
  | Infinity s => Infinity (negb s)
  | Double k => Double (- k)
  end.

(** x - y: the exact difference, rounded. *)
Definition numSub (x y : number) : number :=
  match x, y with
  | NaN, _ | _, NaN => NaN
  | Infinity sx, Infinity sy => if Bool.eqb sx sy then NaN else x
  | Infinity _, Double _ => x
  | Double _, Infinity sy => Infinity (negb sy)
  | Double a, Double b =>
      if a - b <? 0 then numNeg (roundToDouble (b - a) (2 ^ 1074))
      else roundToDouble (a - b) (2 ^ 1074)
  end.

(** The longest run of decimal digits at the head of [s]: its value after
    [acc], its length after [len], and what follows it. *)
Fixpoint readDigits (s : jsstring) (acc len : Z) : Z * Z * jsstring :=
  match s with
  | c :: r =>
      if isDigit c then readDigits r (10 * acc + (c - 48)) (len + 1)
      else (acc, len, s)
  | [] => (acc, len, [])
  end.

(** ExponentPart, or nothing, up to the end of the string. *)
Definition exponentPart (s : jsstring) : option Z :=
  match s with
  | [] => Some 0
  | c :: r =>
      if (c =? 101) || (c =? 69) then
        match r with
        | [] => None
        | d :: r' =>
            if d =? 43 then unsignedInteger r'
            else if d =? 45 then Z.opp <$> unsignedInteger r'
            else unsignedInteger r
        end
      else None
  end.

(** StrUnsignedDecimalLiteral other than Infinity: digits with an optional
    fraction and exponent, "5." and ".5" included; the value is m * 10^e. *)
Definition decimalLiteral (s : jsstring) : option (Z * Z) :=
  let '(i, ni, r) := readDigits s 0 0 in
  match r with
  | [] => if ni =? 0 then None else Some (i, 0)
  | c :: r' =>
      if c =? 46 then
        let '(m, nf, r'') := readDigits r' i 0 in
        if (ni =? 0) && (nf =? 0) then None
        else e ← exponentPart r''; Some (m, e - nf)
      else if ni =? 0 then None
      else e ← exponentPart r; Some (i, e)
  end.

Definition digitOf (radix c : Z) : option Z :=
  let d := if (48 <=? c) && (c <=? 57) then c - 48
           else if (97 <=? c) && (c <=? 102) then c - 87
           else if (65 <=? c) && (c <=? 70) then c - 55
           else radix in
  if d <? radix then Some d else None.

Fixpoint radixValue (radix acc : Z) (s : jsstring) : option Z :=
  match s with
  | [] => Some acc
  | c :: r => d ← digitOf radix c; radixValue radix (radix * acc + d) r
  end.

(** NonDecimalIntegerLiteral: 0x, 0o or 0b (either case) and digits. *)
Definition nonDecimalLiteral (s : jsstring) : option Z :=
  match s with
  | z :: p :: (_ :: _) as ds =>
      if z =? 48 then
        if (p =? 120) || (p =? 88) then radixValue 16 0 ds
        else if (p =? 111) || (p =? 79) then radixValue 8 0 ds
        else if (p =? 98) || (p =? 66) then radixValue 2 0 ds
        else None
      else None
  | _ => None
  end.

(** The Number of m * 10^e, m >= 0. *)
Definition decimalValue (m e : Z) : number :=
  if 0 <=? e then roundToDouble (m * 10 ^ e) 1
  else roundToDouble m (10 ^ (- e)).

(** Number(s), the StringToNumber of ECMA-262: white space is trimmed; the
    empty string is 0; then a literal with a radix prefix, or an optional
    sign before Infinity or a decimal literal; anything else is NaN.  The
    value is rounded to the nearest double, as the engines do for literals
    of any length. *)
Definition toNumber (s : jsstring) : number :=
  let t := trim s in
  match t with
  | [] => Double 0
  | c :: r =>
      match nonDecimalLiteral t with
      | Some n => roundToDouble n 1
      | None =>
          let '(negative, u) :=
            if c =? 43 then (false, r)
            else if c =? 45 then (true, r) else (false, t) in
          let v := if bool_decide (u = str "Infinity") then Some (Infinity false)
                   else '(m, e) ← decimalLiteral u; Some (decimalValue m e) in
          match v with
          | Some v => if negative then numNeg v else v
          | None => NaN
          end
      end
  end.

(** The sign of a comparator's result, which is all a sort reads of it; a
    NaN counts as +0. *)
Definition signOf (v : number) : Z :=
  match v with
  | NaN => 0
  | Infinity negative => if negative then -1 else 1
  | Double k => Z.sgn k
  end.

(** !v for a Number: NaN and zero are falsy. *)
Definition falsyNumber (v : number) : bool :=
  match v with
  | NaN => true
  | Infinity _ => false
  | Double k => k =? 0
  end.

(** x <= y for Numbers that are not NaN. *)
Definition numLe (x y : number) : Prop :=
  match x, y with
  | NaN, _ | _, NaN => False
  | Infinity sx, Infinity sy => sx = true ∨ sy = false
  | Infinity sx, Double _ => sx = true
  | Double _, Infinity sy => sy = false
  | Double a, Double b => a ≤ b
  end.

End JS.

Import JS.

(** ** Audio resource resolver: addresses *)

Module Resolver.

Definition AUDIO_DIR : jsstring := str "Audio".
Definition AUDIO_EXT : jsstring := str "m4a".

(** function buildAudioUrl(language, sentenceText) *)
Definition buildAudioUrl (language sentenceText : jsstring) : option jsstring :=
  let filename := sentenceText ++ str "." ++ AUDIO_EXT in
  let path := AUDIO_DIR ++ str "/" ++ language ++ str "/" ++ filename in
  join slash <$> mapM encodeURIComponent (split slash path).

(** The path before it is split and escaped. *)
Definition audioPath (language sentenceText : jsstring) : jsstring :=
  AUDIO_DIR ++ str "/" ++ language ++ str "/" ++ sentenceText ++ str "." ++ AUDIO_EXT.

(** The existence cache (audioExistsCache) and the HEAD requests sent so
    far, oldest first. *)
Record Probes := mkProbes {
  audioExistsCache : gmap jsstring bool;
  requests : list jsstring }.

(** How a fetch ends: a response with its [ok] flag, or a network error. *)
Inductive FetchOutcome :=
  | Response (ok : bool)
  | NetworkError.

(** async function audioExists(url), up to [await fetch(...)]: the cached
    answer, or a HEAD request and no answer yet. *)
Definition audioExists (url : jsstring) (p : Probes) : Probes * option bool :=
  match audioExistsCache p !! url with
  | Some b => (p, Some b)
  | None => (mkProbes (audioExistsCache p) (requests p ++ [url]), None)
  end.

(** The rest of audioExists once the fetch is settled. *)
Definition audioExists_settled (url : jsstring) (o : FetchOutcome) (p : Probes)
    : Probes * bool :=
  let ok := match o with
            | Response ok => ok
            | NetworkError => false
            end in
  (mkProbes (<[url := ok]> (audioExistsCache p)) (requests p), ok).

End Resolver.

Import Resolver.

(** ** Dataset model *)

Module Dataset.

(** A row object built by parseCSV: its properties in enumeration order. *)
Abbreviation Row := (list (jsstring * jsstring)).

(** r[key]; None is undefined. *)
Fixpoint get (key : jsstring) (r : Row) : option jsstring :=
  match r with
  | [] => None
  | (k, v) :: rest => if bool_decide (k = key) then Some v else get key rest
  end.

(** String(v) *)
Definition toString (v : option jsstring) : jsstring :=
  default (str "undefined") v.

(** v ?? "" *)
Definition orEmpty (v : option jsstring) : jsstring := default [] v.

(** A line: { lineNo, texts }. *)
Record Line := mkLine { lineNo : number; texts : Row }.

(** A lesson: { lessonId, cefr, lines }. *)
Record Lesson := mkLesson {
  lessonId : jsstring; cefr : jsstring; lines : list Line }.

(** array.sort(comparefn).  The sort of ECMA-262 is stable; with a
    consistent comparator its result is the stably sorted permutation,
    which insertion from the right computes. *)
Fixpoint insertBy {A} (cmp : A → A → Z) (x : A) (l : list A) : list A :=
  match l with
  | [] => [x]
  | y :: r => if cmp x y <=? 0 then x :: l else y :: insertBy cmp x r
  end.

Definition sortBy {A} (cmp : A → A → Z) (l : list A) : list A :=
  foldr (insertBy cmp) [] l.

(** (x, y) => x.lineNo - y.lineNo; a NaN result counts as +0. *)
Definition compareLines (x y : Line) : Z :=
  signOf (numSub (lineNo x) (lineNo y)).

(** byLesson.has(lessonId) *)
Definition hasLesson (id : jsstring) (byLesson : list Lesson) : bool :=
  existsb (λ l, bool_decide (lessonId l = id)) byLesson.

(** byLesson.get(id) *)
Definition getLesson (id : jsstring) (byLesson : list Lesson) : option Lesson :=
  List.find (λ l, bool_decide (lessonId l = id)) byLesson.

(** byLesson.get(lessonId).lines.push(line) *)
Definition pushLine (id : jsstring) (ln : Line) (byLesson : list Lesson)
    : list Lesson :=
  map (λ l, if bool_decide (lessonId l = id)
            then mkLesson (lessonId l) (cefr l) (lines l ++ [ln]) else l)
      byLesson.

(** The columns that are languages. *)
Definition languageColsOf (row0 : Row) : list jsstring :=
  List.filter
    (λ c, negb (bool_decide (c ∈ [str "Lesson"; str "Line"; str "CEFR"])))
    (map fst row0).

(** The line object made from a row. *)
Definition lineOf (languageCols : list jsstring) (r : Row) : Line :=
  mkLine (toNumber (trim (toString (get (str "Line") r))))
         (map (λ lang, (lang, trim (orEmpty (get lang r)))) languageCols).

Definition rowLesson (r : Row) : jsstring :=
  trim (toString (get (str "Lesson") r)).

(** The body of [for (const r of rows)]; the Map [byLesson] is the list of
    its values in insertion order. *)
Definition addRow (languageCols : list jsstring) (byLesson : list Lesson)
    (r : Row) : list Lesson :=
  let lessonId := rowLesson r in
  let cefr := trim (orEmpty (get (str "CEFR") r)) in
  match lessonId with
  | [] => byLesson
  | _ =>
      let byLesson :=
        if hasLesson lessonId byLesson then byLesson
        else byLesson ++ [mkLesson lessonId cefr []] in
      pushLine lessonId (lineOf languageCols r) byLesson
  end.

Definition byLessonOf (languageCols : list jsstring) (rows : list Row)
    : list Lesson :=
  foldl (addRow languageCols) [] rows.

Definition sortLines (l : Lesson) : Lesson :=
  mkLesson (lessonId l) (cefr l) (sortBy compareLines (lines l)).

(** let model = { lessons, lessonIds, languages, currentLessonId,
    currentLanguage, helperLanguage }; null is None. *)
Record Model := mkModel {
  lessons : list Lesson;
  lessonIds : list jsstring;
  languages : list jsstring;
  currentLessonId : option jsstring;
  currentLanguage : option jsstring;
  helperLanguage : option jsstring }.

Inductive Result :=
  | Built (m : Model)
  | Thrown (message : string).

Definition truthy (v : option jsstring) : bool :=
  match v with
  | Some (_ :: _) => true
  | _ => false
  end.

(** array.includes(v) for a string or null [v]. *)
Definition includes (l : list jsstring) (v : option jsstring) : bool :=
  match v with
  | Some s => bool_decide (s ∈ l)
  | None => false
  end.

Section BuildModel.

(** String.prototype.localeCompare depends on the locale of the browser. *)
Variable localeCompare : jsstring → jsstring → Z.

(** (a, b) => Number(a) - Number(b) || a.localeCompare(b) *)
Definition compareIds (a b : jsstring) : Z :=
  let v := numSub (toNumber a) (toNumber b) in
  if falsyNumber v then localeCompare a b else signOf v.

Definition lessonIdsOf (byLesson : list Lesson) : list jsstring :=
  sortBy compareIds (map lessonId byLesson).

Definition lessonsOf (byLesson : list Lesson) : list Lesson :=
  omap (λ id, sortLines <$> getLesson id byLesson) (lessonIdsOf byLesson).

(** The defaults at the end of buildModel. *)
Definition withDefaults (lessons : list Lesson) (lessonIds languages : list jsstring)
    (model : Model) : Model :=
  let lessonId :=
    if negb (truthy (currentLessonId model))
       || negb (includes lessonIds (currentLessonId model))
    then head lessonIds else currentLessonId model in
  let language :=
    if negb (truthy (currentLanguage model))
       || negb (includes languages (currentLanguage model))
    then (if includes languages (Some (str "English"))
          then Some (str "English") else head languages)
    else currentLanguage model in
  let helper :=
    if truthy (helperLanguage model)
       && negb (includes languages (helperLanguage model))
    then None else helperLanguage model in
  let helper := if bool_decide (helper = language) then None else helper in
  mkModel lessons lessonIds languages lessonId language helper.

(** function buildModel(rows) of scripts.js *)
Definition buildModel (rows : list Row) (model : Model) : Result :=
  match rows with
  | [] => Thrown "CSV contains no rows."
  | row0 :: _ =>
      match languageColsOf row0 with
      | [] =>
          Thrown "No language columns found (expected columns besides Lesson/Line/CEFR)."
      | languageCols =>
          let byLesson := byLessonOf languageCols rows in
          Built (withDefaults (lessonsOf byLesson) (lessonIdsOf byLesson)
                   languageCols model)
      end
  end.

(** ln.cefr of a line object: lines have no such property. *)
Definition lineCefr (ln : Line) : option jsstring := None.

(** The earlier buildModel fills an empty lesson.cefr from its lines. *)
Definition fillCefr (l : Lesson) : Lesson :=
  match cefr l with
  | [] =>
      match List.find (λ ln, truthy (lineCefr ln)) (lines l) with
      | Some ln => mkLesson (lessonId l) (orEmpty (lineCefr ln)) (lines l)
      | None => l
      end
  | _ => l
  end.

(** function buildModel(rows) of the earlier script (no helper language). *)
Definition buildModel_early (rows : list Row) (model : Model) : Result :=
  match rows with
  | [] => Thrown "CSV contains no rows."
  | row0 :: _ =>
      match languageColsOf row0 with
      | [] =>
          Thrown "No language columns found (expected columns besides Lesson/Line/CEFR)."
      | languageCols =>
          let byLesson := byLessonOf languageCols rows in
          let m := withDefaults (fillCefr <$> lessonsOf byLesson)
                     (lessonIdsOf byLesson) languageCols model in
          Built (mkModel (lessons m) (lessonIds m) (languages m)
                   (currentLessonId m) (currentLanguage m) (helperLanguage model))
      end
  end.

End BuildModel.

(** The lines of the lesson [id] of a model. *)
Definition lessonLines (id : jsstring) (m : Model) : option (list Line) :=
  lines <$> getLesson id (lessons m).

(** Line numbers in ascending order; NaN is not ordered. *)
Definition lineLe (x y : Line) : Prop := numLe (lineNo x) (lineNo y).

(** A line whose number is a number. *)
Definition numbered (ln : Line) : Prop := lineNo ln ≠ NaN.

(** The lines made from the rows of lesson [id], in row order. *)
Definition linesFor (cols : list jsstring) (id : jsstring) (rows : list Row)
    : list Line :=
  lineOf cols <$> filter (λ r, rowLesson r = id) rows.

Definition linesOfId (id : jsstring) (m : list Lesson) : option (list Line) :=
  lines <$> getLesson id m.

(** The two rows of the example. *)
Definition rowHi : Row :=
  [(str "Lesson", str "1"); (str "Line", str "2"); (str "English", str "Hi")].
Definition rowHello : Row :=
  [(str "Lesson", str "1"); (str "Line", str "1"); (str "English", str "Hello")].

(** A row of lesson "1" whose sentence is the text of its Line field. *)
Definition lineRow (line : string) : Row :=
  [(str "Lesson", str "1"); (str "Line", str line); (str "English", str line)].

(** The sentences of a list of lines. *)
Definition sentencesOf (ls : list Line) : list (option jsstring) :=
  (λ ln, get (str "English") (texts ln)) <$> ls.

End Dataset.

Import Dataset.

(** ** Single-clip player and lesson sequencer *)

Module Player.

(** The script runs on the single thread of the browser.  An async function
    runs until its next [await]; what follows the await runs in a later
    turn, once the awaited promise is settled.  Each async function is
    therefore given by the functions of its synchronous pieces, and the
    suspended remainders are data of the state: [pendingPlays] for sentence
    listeners waiting on play(), [runs] for lesson listeners waiting inside
    playOne or sleep.  [step] is one turn of the loop.  The browser chooses
    the events (clicks, settled promises, "ended" and "error", timers,
    finished existence checks) freely, which covers every interleaving.
    Building the DOM, images and stored preferences take no part in playback
    and are left out. *)

(** Argument of getOrCreateAudio: an address or null.  The cache holds one
    Audio object per argument, so the argument also names the object. *)
Abbreviation Url := (option jsstring).

(** The four texts the script writes into buttons. *)
Inductive BtnText :=
  | Glyph_play          (* "▶" *)
  | Glyph_pause         (* "⏸" *)
  | Text_play_lesson    (* "Play lesson" *)
  | Text_stop.          (* "Stop" *)

(** A button: its "is-playing" class and its textContent. *)
Record Button := mkButton { is_playing : bool; textContent : BtnText }.

Definition sentenceIdle : Button := mkButton false Glyph_play.
Definition sentencePlaying : Button := mkButton true Glyph_pause.
Definition lessonIdle : Button := mkButton false Text_play_lesson.
Definition lessonPlaying : Button := mkButton true Text_stop.

(** An Audio element: the media flags the script reads or writes and its
    two expando properties __missing and __wired ([preload] is set once and
    never read). *)
Record Audio := mkAudio {
  paused : bool; currentTime : Z; missing : bool; wired : bool }.

Definition newAudio : Audio := mkAudio true 0 false false.

(** let currentlyPlaying = { audio, btn } *)
Record NowPlaying := mkNowPlaying { audio : option Url; btn : option nat }.

(** let lessonPlayback = { running, token, btn } *)
Record LessonPlayback := mkLessonPlayback {
  running : bool; token : Z; lessonBtn : option nat }.

(** [n++] on a number: exact below 2^53, where a double stops counting. *)
Definition incr (n : Z) : Z := if n <? 2 ^ 53 then n + 1 else n.

(** What one render pass keeps in its closures. *)
Record Render := mkRender {
  r_language : jsstring;
  r_sentences : list jsstring;
  sentenceUrls : list Url;
  sentenceBtns : list (option nat);
  r_complete : bool }.

(** Calls into the browser that make or stop sound, or start a timer. *)
Inductive MediaCall :=
  | CallPlay (a : Url)
  | CallPause (a : Url)
  | CallSleep (ms : Z).

(** The progress of one run of playLessonInOrder, for the statements about
    order (not part of the script's state). *)
Inductive RunStep :=
  | StartClip (i : nat) (url : Url)
  | ClipEnded (i : nat)
  | StartDelay (i : nat) (ms : Z)
  | DelayOver (i : nat).

(** Where a lesson-button handler is suspended: in playOne (with the inner
    [await audio.play()] settled or not), or in sleep. *)
Inductive Suspension :=
  | AwaitPlayOne (playSettled : bool)
  | AwaitSleep.

(** A suspended lesson-button handler: the closure (sentenceUrls, the render
    pass whose sentenceBtns it reads, btn), runToken, and the loop variable. *)
Record Run := mkRun {
  urls : list Url;
  btnsRef : Z;
  runToken : Z;
  runBtn : nat;
  index : nat;
  suspended : Suspension;
  history : list RunStep }.

Inductive Outcome :=
  | Suspended (r : Run)
  | Returned (r : Run).

Record State := mkState {
  audioCache : gmap Url Audio;
  currentlyPlaying : NowPlaying;
  lessonPlayback : LessonPlayback;
  renderToken : Z;
  renders : gmap Z Render;
  playBtns : gmap nat Button;          (* sentence buttons *)
  lessonBtns : gmap nat Button;        (* "Play lesson" buttons *)
  clickAudio : gmap nat Url;           (* click listener of a sentence button *)
  lessonClick : gmap nat (list Url * Z); (* click listener of a lesson button *)
  nextBtn : nat;                       (* next element created *)
  pendingPlays : list Url;             (* sentence handlers at await audio.play() *)
  runs : list Run;                     (* suspended lesson handlers *)
  finished : list Run;                 (* lesson handlers that returned *)
  trace : list MediaCall }.            (* media calls so far, oldest first *)

Definition set_audioCache (f : _ → _) (st : State) : State :=
  mkState (f (audioCache st)) (currentlyPlaying st) (lessonPlayback st)
    (renderToken st) (renders st) (playBtns st) (lessonBtns st)
    (clickAudio st) (lessonClick st) (nextBtn st) (pendingPlays st) (runs st)
    (finished st) (trace st).

Definition set_currentlyPlaying (f : _ → _) (st : State) : State :=
  mkState (audioCache st) (f (currentlyPlaying st)) (lessonPlayback st)
    (renderToken st) (renders st) (playBtns st) (lessonBtns st)
    (clickAudio st) (lessonClick st) (nextBtn st) (pendingPlays st) (runs st)
    (finished st) (trace st).

Definition set_lessonPlayback (f : _ → _) (st : State) : State :=
  mkState (audioCache st) (currentlyPlaying st) (f (lessonPlayback st))
    (renderToken st) (renders st) (playBtns st) (lessonBtns st)
    (clickAudio st) (lessonClick st) (nextBtn st) (pendingPlays st) (runs st)
    (finished st) (trace st).

Definition set_renderToken (f : _ → _) (st : State) : State :=
  mkState (audioCache st) (currentlyPlaying st) (lessonPlayback st)
    (f (renderToken st)) (renders st) (playBtns st) (lessonBtns st)
    (clickAudio st) (lessonClick st) (nextBtn st) (pendingPlays st) (runs st)
    (finished st) (trace st).

Definition set_renders (f : _ → _) (st : State) : State :=
  mkState (audioCache st) (currentlyPlaying st) (lessonPlayback st)
    (renderToken st) (f (renders st)) (playBtns st) (lessonBtns st)
    (clickAudio st) (lessonClick st) (nextBtn st) (pendingPlays st) (runs st)
    (finished st) (trace st).

Definition set_playBtns (f : _ → _) (st : State) : State :=
  mkState (audioCache st) (currentlyPlaying st) (lessonPlayback st)
    (renderToken st) (renders st) (f (playBtns st)) (lessonBtns st)
    (clickAudio st) (lessonClick st) (nextBtn st) (pendingPlays st) (runs st)
    (finished st) (trace st).

Definition set_lessonBtns (f : _ → _) (st : State) : State :=
  mkState (audioCache st) (currentlyPlaying st) (lessonPlayback st)
    (renderToken st) (renders st) (playBtns st) (f (lessonBtns st))
    (clickAudio st) (lessonClick st) (nextBtn st) (pendingPlays st) (runs st)
    (finished st) (trace st).

Definition set_clickAudio (f : _ → _) (st : State) : State :=
  mkState (audioCache st) (currentlyPlaying st) (lessonPlayback st)
    (renderToken st) (renders st) (playBtns st) (lessonBtns st)
    (f (clickAudio st)) (lessonClick st) (nextBtn st) (pendingPlays st)
    (runs st) (finished st) (trace st).

Definition set_lessonClick (f : _ → _) (st : State) : State :=
  mkState (audioCache st) (currentlyPlaying st) (lessonPlayback st)
    (renderToken st) (renders st) (playBtns st) (lessonBtns st)
    (clickAudio st) (f (lessonClick st)) (nextBtn st) (pendingPlays st)
    (runs st) (finished st) (trace st).

Definition set_nextBtn (f : _ → _) (st : State) : State :=
  mkState (audioCache st) (currentlyPlaying st) (lessonPlayback st)
    (renderToken st) (renders st) (playBtns st) (lessonBtns st)
    (clickAudio st) (lessonClick st) (f (nextBtn st)) (pendingPlays st)
    (runs st) (finished st) (trace st).

Definition set_pendingPlays (f : _ → _) (st : State) : State :=
  mkState (audioCache st) (currentlyPlaying st) (lessonPlayback st)
    (renderToken st) (renders st) (playBtns st) (lessonBtns st)
    (clickAudio st) (lessonClick st) (nextBtn st) (f (pendingPlays st))
    (runs st) (finished st) (trace st).

Definition set_runs (f : _ → _) (st : State) : State :=
  mkState (audioCache st) (currentlyPlaying st) (lessonPlayback st)
    (renderToken st) (renders st) (playBtns st) (lessonBtns st)
    (clickAudio st) (lessonClick st) (nextBtn st) (pendingPlays st)
    (f (runs st)) (finished st) (trace st).

Definition set_finished (f : _ → _) (st : State) : State :=
  mkState (audioCache st) (currentlyPlaying st) (lessonPlayback st)
    (renderToken st) (renders st) (playBtns st) (lessonBtns st)
    (clickAudio st) (lessonClick st) (nextBtn st) (pendingPlays st) (runs st)
    (f (finished st)) (trace st).

Definition set_trace (f : _ → _) (st : State) : State :=
  mkState (audioCache st) (currentlyPlaying st) (lessonPlayback st)
    (renderToken st) (renders st) (playBtns st) (lessonBtns st)
    (clickAudio st) (lessonClick st) (nextBtn st) (pendingPlays st) (runs st)
    (finished st) (f (trace st)).

Definition init : State :=
  mkState ∅ (mkNowPlaying None None) (mkLessonPlayback false 0 None) 0 ∅
          ∅ ∅ ∅ ∅ 0 [] [] [] [].

Definition log (c : MediaCall) : State → State := set_trace (λ t, t ++ [c]).

(** *** Audio helpers *)

(** function getOrCreateAudio(url); the result is the object named [url]. *)
Definition getOrCreateAudio (url : Url) (st : State) : State :=
  match audioCache st !! url with
  | Some _ => st
  | None => set_audioCache (<[url := newAudio]>) st
  end.

(** audio.pause(); audio.currentTime = 0 *)
Definition pauseAndRewind (a : Url) : State → State :=
  set_audioCache (alter (λ x, mkAudio true 0 (missing x) (wired x)) a).

(** audio.play(): the element leaves the paused state at once; the promise
    returned is settled later by the browser. *)
Definition play (a : Url) (st : State) : State :=
  log (CallPlay a)
    (set_audioCache
       (alter (λ x, mkAudio false (currentTime x) (missing x) (wired x)) a) st).

Definition setCurrentTime (a : Url) (t : Z) : State → State :=
  set_audioCache (alter (λ x, mkAudio (paused x) t (missing x) (wired x)) a).

Definition setMissing (a : Url) : State → State :=
  set_audioCache (alter (λ x, mkAudio (paused x) (currentTime x) true (wired x)) a).

Definition setWired (a : Url) : State → State :=
  set_audioCache (alter (λ x, mkAudio (paused x) (currentTime x) (missing x) true) a).

(** function stopCurrentAudio() *)
Definition stopCurrentAudio (st : State) : State :=
  let st1 := match audio (currentlyPlaying st) with
             | Some a => log (CallPause a) (pauseAndRewind a st)
             | None => st
             end in
  let st2 := match btn (currentlyPlaying st) with
             | Some b => set_playBtns (<[b := sentenceIdle]>) st1
             | None => st1
             end in
  set_currentlyPlaying (λ _, mkNowPlaying None None) st2.

(** function stopLessonPlayback() *)
Definition stopLessonPlayback (st : State) : State :=
  let st := set_lessonPlayback
              (λ lp, mkLessonPlayback false (incr (token lp)) (lessonBtn lp)) st in
  let st := stopCurrentAudio st in
  match lessonBtn (lessonPlayback st) with
  | Some b => set_lessonBtns (<[b := lessonIdle]>) st
  | None => st
  end.

(** function attachAudioButton(playBtn, language, sentence): everything but
    the body of the click listener, which is [onSentenceClick]. *)
Definition attachAudioButton (playBtn : nat) (language sentence : jsstring)
    (st : State) : State :=
  match buildAudioUrl language sentence with
  | None => st                                   (* URIError *)
  | Some url =>
      let st := getOrCreateAudio (Some url) st in
      let st := setWired (Some url) st in
      set_clickAudio (<[playBtn := Some url]>) st
  end.

Definition isPaused (a : Url) (st : State) : bool :=
  match audioCache st !! a with
  | Some x => paused x
  | None => true
  end.

(** The click listener of a sentence button, up to [await audio.play()]. *)
Definition onSentenceClick (playBtn : nat) (a : Url) (st : State) : State :=
  let st := if running (lessonPlayback st) then stopLessonPlayback st else st in
  let st := match audio (currentlyPlaying st) with
            | Some c => if bool_decide (c ≠ a) then stopCurrentAudio st else st
            | None => st
            end in
  if bool_decide (audio (currentlyPlaying st) = Some a) && negb (isPaused a st)
  then stopCurrentAudio st
  else
    let st := stopCurrentAudio st in
    let st := set_playBtns (<[playBtn := sentencePlaying]>) st in
    let st := set_currentlyPlaying (λ _, mkNowPlaying (Some a) (Some playBtn)) st in
    let st := play a st in
    set_pendingPlays (λ l, l ++ [a]) st.

(** The rest of that listener, once the promise of play() is settled. *)
Definition onPlaySettled (a : Url) (ok : bool) (st : State) : State :=
  if ok then st else stopCurrentAudio (setMissing a st).

(** *** Lesson playback *)

(** async function playOne(url, sentenceBtn), up to [await audio.play()]. *)
Definition playOne (url : Url) (sentenceBtn : option nat) (st : State) : State :=
  let st := getOrCreateAudio url st in
  let st := stopCurrentAudio st in
  let st := match sentenceBtn with
            | Some b => set_playBtns (<[b := sentencePlaying]>) st
            | None => st
            end in
  let st := set_currentlyPlaying (λ _, mkNowPlaying (Some url) sentenceBtn) st in
  let st := setCurrentTime url 0 st in
  play url st.

(** btns[i] || null, read from the array of the render pass [ref]. *)
Definition sentenceBtnAt (ref : Z) (i : nat) (st : State) : option nat :=
  r ← renders st !! ref; mjoin (sentenceBtns r !! i).

Definition step_to (r : Run) (i : nat) (s : Suspension) (h : list RunStep) : Run :=
  mkRun (urls r) (btnsRef r) (runToken r) (runBtn r) i s (history r ++ h).

(** async function playLessonInOrder(urls, btns, token): the loop from the
    test of iteration [i] to the next suspension or the return. *)
Definition playLessonInOrder (r : Run) (i : nat) (st : State) : State * Outcome :=
  match urls r !! i with
  | None => (st, Returned r)
  | Some url =>
      if bool_decide (token (lessonPlayback st) ≠ runToken r) then (st, Returned r)
      else (playOne url (sentenceBtnAt (btnsRef r) i st) st,
            Suspended (step_to r i (AwaitPlayOne false) [StartClip i url]))
  end.

(** The loop body after [await playOne(...)] has resolved. *)
Definition afterPlayOne (r : Run) (st : State) : State * Outcome :=
  let i := index r in
  let r := step_to r i (suspended r) [ClipEnded i] in
  if bool_decide (S i < length (urls r))%nat then
    if bool_decide (token (lessonPlayback st) ≠ runToken r) then (st, Returned r)
    else (log (CallSleep 1000) st,
          Suspended (step_to r i AwaitSleep [StartDelay i 1000]))
  else playLessonInOrder r (S i) st.

(** The loop after [await sleep(1000)]. *)
Definition afterSleep (r : Run) (st : State) : State * Outcome :=
  let i := index r in
  playLessonInOrder (step_to r i (suspended r) [DelayOver i]) (S i) st.

(** playOne rejected (its onError listener, or play() itself failed): the
    loop is left by the exception. *)
Definition afterReject (r : Run) (st : State) : State * Outcome :=
  (st, Returned r).

(** The [catch {}] and [finally] of the lesson-button listener. *)
Definition finishRun (r : Run) (st : State) : State :=
  let st :=
    if bool_decide (token (lessonPlayback st) = runToken r) then
      let st := set_lessonPlayback
                  (λ lp, mkLessonPlayback false (token lp) (lessonBtn lp)) st in
      let st := set_lessonBtns (<[runBtn r := lessonIdle]>) st in
      stopCurrentAudio st
    else st in
  set_finished (λ l, l ++ [r]) st.

(** The click listener of the lesson button, up to its first suspension. *)
Definition onLessonClick (b : nat) (sentenceUrls : list Url) (ref : Z)
    (st : State) : State :=
  if running (lessonPlayback st) then stopLessonPlayback st
  else
    let st := set_lessonPlayback
                (λ lp, mkLessonPlayback true (incr (token lp)) (lessonBtn lp)) st in
    let runToken := token (lessonPlayback st) in
    let st := set_lessonBtns (<[b := lessonPlaying]>) st in
    match playLessonInOrder (mkRun sentenceUrls ref runToken b 0 AwaitSleep []) 0 st with
    | (st, Suspended r) => set_runs (λ l, l ++ [r]) st
    | (st, Returned r) => finishRun r st
    end.

(** *** Rendering, as far as playback depends on it *)

Definition falsy (u : Url) : bool :=
  match u with
  | None | Some [] => true
  | Some (_ :: _) => false
  end.

(** The addresses pushed by the forEach of render, and whether the loop
    ran to its end (buildAudioUrl may raise). *)
Fixpoint collectUrls (language : jsstring) (sentences : list jsstring)
    : list Url * bool :=
  match sentences with
  | [] => ([], true)
  | [] :: rest =>
      let '(us, ok) := collectUrls language rest in (None :: us, ok)
  | sentence :: rest =>
      match buildAudioUrl language sentence with
      | None => ([], false)
      | Some url =>
          let '(us, ok) := collectUrls language rest in (Some url :: us, ok)
      end
  end.

(** function render(): [view] is the current language and the trimmed
    sentence of every line of the current lesson, or None without lesson. *)
Definition render (view : option (jsstring * list jsstring)) (st : State) : State :=
  let st := set_renderToken incr st in
  let myToken := renderToken st in
  match view with
  | None => st
  | Some (language, sentences) =>
      let '(us, ok) := collectUrls language sentences in
      set_renders
        (<[myToken := mkRender language sentences us
                        (replicate (length sentences) None) ok]>) st
  end.

(** The callback of [audioExists(url).then(...)] for line [i]. *)
Definition onSentenceChecked (myToken : Z) (i : nat) (exists_ : bool)
    (st : State) : State :=
  match renders st !! myToken with
  | None => st
  | Some r =>
      match r_sentences r !! i, sentenceUrls r !! i with
      | Some (c :: s), Some _ =>
          if bool_decide (renderToken st ≠ myToken) then st
          else if negb exists_ then st
          else
            let playBtn := nextBtn st in
            let st := set_nextBtn S st in
            let st := set_playBtns (<[playBtn := sentenceIdle]>) st in
            let st := set_renders
                        (<[myToken := mkRender (r_language r) (r_sentences r)
                             (sentenceUrls r)
                             (<[i := Some playBtn]> (sentenceBtns r))
                             (r_complete r)]>) st in
            attachAudioButton playBtn (r_language r) (c :: s) st
      | _, _ => st
      end
  end.

(** The three tests of render before the lesson button is made. *)
Definition lessonGate (sentenceUrls : list Url) (results : list bool)
    (renderToken tokenAtStart : Z) : bool :=
  negb (existsb falsy sentenceUrls)
  && bool_decide (renderToken = tokenAtStart)
  && negb (existsb negb results).

(** The end of render's async block: the lesson button and its listener. *)
Definition offerLessonButton (sentenceUrls : list Url) (ref : Z) (st : State)
    : State :=
  let b := nextBtn st in
  let st := set_nextBtn S st in
  let st := set_lessonBtns (<[b := lessonIdle]>) st in
  let st := set_lessonPlayback
              (λ lp, mkLessonPlayback (running lp) (token lp) (Some b)) st in
  set_lessonClick (<[b := (sentenceUrls, ref)]>) st.

(** render's async block once its existence checks are in. *)
Definition onLessonChecked (myToken : Z) (results : list bool) (st : State)
    : State :=
  match renders st !! myToken with
  | None => st
  | Some r =>
      if r_complete r
         && lessonGate (sentenceUrls r) results (renderToken st) myToken
      then offerLessonButton (sentenceUrls r) myToken st
      else st
  end.

(** *** The event loop *)

(** A run listens on audio [a] while it is inside playOne for it. *)
Definition awaits (a : Url) (r : Run) : bool :=
  match suspended r with
  | AwaitPlayOne _ => bool_decide (urls r !! index r = Some a)
  | AwaitSleep => false
  end.

(** Resume, oldest first, every run selected by [sel]. *)
Fixpoint dispatch (f : Run → State → State * Outcome) (sel : Run → bool)
    (rs : list Run) (st : State) : State * list Run :=
  match rs with
  | [] => (st, [])
  | r :: rest =>
      if sel r then
        match f r st with
        | (st, Suspended r') =>
            let '(st, rest') := dispatch f sel rest st in (st, r' :: rest')
        | (st, Returned r') => dispatch f sel rest (finishRun r' st)
        end
      else
        let '(st, rest') := dispatch f sel rest st in (st, r :: rest')
  end.

Definition resumeAll (f : Run → State → State * Outcome) (sel : Run → bool)
    (st : State) : State :=
  let '(st', rs) := dispatch f sel (runs st) st in set_runs (λ _, rs) st'.

(** Resume the run at position [k] of the pool. *)
Definition resumeAt (k : nat) (f : Run → State → State * Outcome) (st : State)
    : State :=
  match runs st !! k with
  | None => st
  | Some r =>
      match f r st with
      | (st, Suspended r') => set_runs (<[k := r']>) st
      | (st, Returned r') => finishRun r' (set_runs (delete k) st)
      end
  end.

(** The listeners attachAudioButton wires once per audio. *)
Definition wiredEnded (a : Url) (st : State) : State :=
  match audioCache st !! a with
  | Some x =>
      if wired x && bool_decide (audio (currentlyPlaying st) = Some a)
      then stopCurrentAudio st else st
  | None => st
  end.

Definition wiredError (a : Url) (st : State) : State :=
  match audioCache st !! a with
  | Some x =>
      if wired x then
        let st := setMissing a st in
        if bool_decide (audio (currentlyPlaying st) = Some a)
        then stopCurrentAudio st else st
      else st
  | None => st
  end.

Inductive Event :=
  | Navigate (view : option (jsstring * list jsstring))
      (* a change/prev/next listener or init: stopLessonPlayback(); render() *)
  | SentenceChecked (myToken : Z) (i : nat) (exists_ : bool)
  | LessonChecked (myToken : Z) (results : list bool)
  | ClickSentence (playBtn : nat)
  | ClickLesson (b : nat)
  | PlaySettled (k : nat) (ok : bool)     (* play() of sentence handler k *)
  | RunPlaySettled (k : nat) (ok : bool)  (* play() inside playOne of run k *)
  | TimerFired (k : nat)                  (* the sleep of run k is over *)
  | MediaEnded (a : Url)                  (* "ended" on an audio *)
  | MediaError (a : Url)                  (* "error" on an audio *)
  | TimeUpdate (a : Url) (t : Z).         (* playback position advances *)

(** One turn of the event loop: the listener of the event, run until every
    continuation it wakes is suspended again. *)
Definition step (e : Event) (st : State) : State :=
  match e with
  | Navigate view => render view (stopLessonPlayback st)
  | SentenceChecked myToken i exists_ => onSentenceChecked myToken i exists_ st
  | LessonChecked myToken results => onLessonChecked myToken results st
  | ClickSentence playBtn =>
      match clickAudio st !! playBtn with
      | Some a => onSentenceClick playBtn a st
      | None => st
      end
  | ClickLesson b =>
      match lessonClick st !! b with
      | Some (us, ref) => onLessonClick b us ref st
      | None => st
      end
  | PlaySettled k ok =>
      match pendingPlays st !! k with
      | Some a => onPlaySettled a ok (set_pendingPlays (delete k) st)
      | None => st
      end
  | RunPlaySettled k ok =>
      match runs st !! k with
      | Some r =>
          match suspended r with
          | AwaitPlayOne false =>
              if ok then
                set_runs (<[k := step_to r (index r) (AwaitPlayOne true) []]>) st
              else resumeAt k afterReject st
          | _ => st
          end
      | None => st
      end
  | TimerFired k =>
      match runs st !! k with
      | Some r =>
          match suspended r with
          | AwaitSleep => resumeAt k afterSleep st
          | _ => st
          end
      | None => st
      end
  | MediaEnded a =>
      let st := set_audioCache
                  (alter (λ x, mkAudio true (currentTime x) (missing x) (wired x)) a)
                  st in
      resumeAll afterPlayOne (awaits a) (wiredEnded a st)
  | MediaError a =>
      resumeAll afterReject (awaits a) (wiredError a st)
  | TimeUpdate a t =>
      if isPaused a st then st else setCurrentTime a t st
  end.

(** The state after a sequence of events, oldest first. *)
Definition exec (es : list Event) (st : State) : State :=
  foldl (λ st e, step e st) st es.

(** The order in which an undisturbed run goes through [urls]. *)
Fixpoint canonFrom (i : nat) (urls : list Url) : list RunStep :=
  match urls with
  | [] => []
  | [u] => [StartClip i u; ClipEnded i]
  | u :: rest =>
      StartClip i u :: ClipEnded i :: StartDelay i 1000 :: DelayOver i ::
        canonFrom (S i) rest
  end.

(** Number of audio elements that are sounding. *)
Definition activeSessions (st : State) : nat :=
  length (filter (λ kv, paused kv.2 = false) (map_to_list (audioCache st))).

(** Number of sentence buttons shown as playing. *)
Definition activeButtons (st : State) : nat :=
  length (filter (λ kv, is_playing kv.2 = true) (map_to_list (playBtns st))).

(** The calls of audioExists that render makes before it returns: one for
    each line with a sentence (the forEach) and then, unless a line has no
    address, one for each line again (the Promise.all of the async block). *)
Definition checkAll (us : list Url) (p : Probes) : Probes :=
  foldl (λ p u, match u with
                | Some url => (audioExists url p).1
                | None => p
                end) p us.

Definition renderChecks (language : jsstring) (sentences : list jsstring)
    (p : Probes) : Probes :=
  let '(us, ok) := collectUrls language sentences in
  let p := checkAll us p in
  if ok && negb (existsb falsy us) then checkAll us p else p.

(** *** Properties of states *)

(** Every sounding audio is the one in the slot, and every sentence button
    shown as playing is the one in the slot. *)
Definition slotOwns (st : State) : Prop :=
  (∀ a x, audioCache st !! a = Some x → paused x = false →
          audio (currentlyPlaying st) = Some a)
  ∧ (∀ b x, playBtns st !! b = Some x → is_playing x = true →
            btn (currentlyPlaying st) = Some b).

(** Nothing sounds, no sentence button shows as playing, the slot is empty. *)
Definition silent (st : State) : Prop :=
  (∀ a x, audioCache st !! a = Some x → paused x = true)
  ∧ (∀ b x, playBtns st !! b = Some x → is_playing x = false)
  ∧ currentlyPlaying st = mkNowPlaying None None.

(** The pause that stopCurrentAudio calls, if any. *)
Definition stopCalls (st : State) : list MediaCall :=
  match audio (currentlyPlaying st) with
  | Some a => [CallPause a]
  | None => []
  end.

(** The addresses on which play() was called, in order. *)
Definition plays (t : list MediaCall) : list Url :=
  omap (λ c, match c with CallPlay a => Some a | _ => None end) t.

(** The events of an undisturbed run: each clip ends, each delay elapses. *)
Fixpoint naturalEvents (us : list Url) : list Event :=
  match us with
  | [] => []
  | [u] => [MediaEnded u]
  | u :: rest => MediaEnded u :: TimerFired 0 :: naturalEvents rest
  end.

(** Position in the canonical order of a suspended run. *)
Definition position (r : Run) : nat :=
  match suspended r with
  | AwaitPlayOne _ => 4 * index r + 1
  | AwaitSleep => 4 * index r + 3
  end.

(** A suspended run is where the canonical order of its list puts it. *)
Definition onTrack (r : Run) : Prop :=
  is_Some (urls r !! index r)
  ∧ (suspended r = AwaitSleep → (S (index r) < length (urls r))%nat)
  ∧ history r = take (position r) (canonFrom 0 (urls r)).

(** The steps of a run are an initial part of the canonical order. *)
Definition inOrder (r : Run) : Prop :=
  history r `prefix_of` canonFrom 0 (urls r).

Definition outcomeIs (Qp Qf : Run → Prop) (o : Outcome) : Prop :=
  match o with
  | Suspended r => Qp r
  | Returned r => Qf r
  end.

(** [Qp] holds of the suspended runs, [Qf] of the runs that returned, [L] of
    the closures of the lesson-button listeners. *)
Definition poolOk (Qp Qf : Run → Prop) (L : list Url * Z → Prop) (st : State)
    : Prop :=
  Forall Qp (runs st) ∧ Forall Qf (finished st)
  ∧ (∀ b c, lessonClick st !! b = Some c → L c).

(** Every audio of [m] is still in [m'], flagged if it was. *)
Definition flagsLe (m m' : gmap Url Audio) : Prop :=
  ∀ a x, m !! a = Some x →
    ∃ y, m' !! a = Some y ∧ (missing x = true → missing y = true).

Definition keepsFlags (st st' : State) : Prop :=
  flagsLe (audioCache st) (audioCache st').

(** No suspended run has a token above the current one. *)
Definition tokensBelow (st : State) : Prop :=
  Forall (λ r, runToken r ≤ token (lessonPlayback st)) (runs st).

(** An address that passes the test [!u] of render. *)
Definition resolved (u : Url) : Prop := falsy u = false.

(** A lesson of two sentences, both with audio, rendered and checked. *)
Definition demoUrls : list Url :=
  [Some (str "Audio/English/Hi..m4a"); Some (str "Audio/English/Go..m4a")].

Definition demoState : State :=
  exec [Navigate (Some (str "English", [str "Hi."; str "Go."]));
        SentenceChecked 1 0 true; SentenceChecked 1 1 true;
        LessonChecked 1 [true; true]] init.

End Player.

Import Player.

(** ** Reading the CSV *)

Module Csv.

Definition comma : Z := 44.
Definition dquote : Z := 34.
Definition CR : Z := 13.
Definition LF : Z := 10.

(** function parseCSVLine(line): the loop from the unit at hand, with the
    fields pushed so far ([out]), the field being read ([cur]) and
    [inQuotes]. *)
Fixpoint parseCSVLine_loop (line : jsstring) (out : list jsstring)
    (cur : jsstring) (inQuotes : bool) : list jsstring :=
  match line with
  | [] => out ++ [trim cur]
  | ch :: rest =>
      if inQuotes then
        if ch =? dquote then
          match rest with
          | next :: rest' =>
              if next =? dquote
              then parseCSVLine_loop rest' out (cur ++ [dquote]) true
              else parseCSVLine_loop rest out cur false
          | [] => parseCSVLine_loop rest out cur false
          end
        else parseCSVLine_loop rest out (cur ++ [ch]) true
      else if ch =? comma then parseCSVLine_loop rest (out ++ [trim cur]) [] false
      else if ch =? dquote then parseCSVLine_loop rest out cur true
      else parseCSVLine_loop rest out (cur ++ [ch]) false
  end.

Definition parseCSVLine (line : jsstring) : list jsstring :=
  parseCSVLine_loop line [] [] false.

(** text.replace(/\r\n/g, "\n") *)
Fixpoint replaceCRLF (s : jsstring) : jsstring :=
  match s with
  | [] => []
  | c :: rest =>
      match rest with
      | d :: rest' =>
          if (c =? CR) && (d =? LF) then LF :: replaceCRLF rest'
          else c :: replaceCRLF rest
      | [] => [c]
      end
  end.

(** s.replace(/\r/g, "\n") *)
Definition replaceCR (s : jsstring) : jsstring :=
  map (λ c, if c =? CR then LF else c) s.

(** (l) => l.trim().length > 0 *)
Definition nonBlank (l : jsstring) : bool :=
  (0 <? length (trim l))%nat.

(** The array [lines] of parseCSV. *)
Definition linesOf (text : jsstring) : list jsstring :=
  List.filter nonBlank (split LF (replaceCR (replaceCRLF text))).

(** An array index: a decimal numeral without leading zero, below 2^32 - 1.
    The keys of an object that are array indices are enumerated first, in
    ascending order; the other keys follow in the order of creation. *)
Definition arrayIndex (key : jsstring) : option Z :=
  match key with
  | [] => None
  | c :: r =>
      if (c =? 48) && negb (bool_decide (r = [])) then None
      else n ← digitsValue 0 key; if n <? 2 ^ 32 - 1 then Some n else None
  end.

(** A new property with array index [n] takes its place among the indices. *)
Fixpoint insertIndex (n : Z) (key v : jsstring) (row : Row) : Row :=
  match row with
  | [] => [(key, v)]
  | (k, x) :: rest =>
      match arrayIndex k with
      | Some m =>
          if m <? n then (k, x) :: insertIndex n key v rest
          else (key, v) :: row
      | None => (key, v) :: row
      end
  end.

(** A property that exists keeps its place and takes the new value. *)
Fixpoint overwrite (key v : jsstring) (row : Row) : Row :=
  match row with
  | [] => []
  | (k, x) :: rest =>
      if bool_decide (k = key) then (k, v) :: rest
      else (k, x) :: overwrite key v rest
  end.

(** row[key] = v for a string [v], on an object made by [{}]; the key
    "__proto__" is the accessor of Object.prototype, whose setter ignores a
    string. *)
Definition setProp (key v : jsstring) (row : Row) : Row :=
  if bool_decide (key = str "__proto__") then row
  else
    match get key row with
    | Some _ => overwrite key v row
    | None =>
        match arrayIndex key with
        | Some n => insertIndex n key v row
        | None => row ++ [(key, v)]
        end
    end.

(** for (let c = 0; c < header.length; c++) row[header[c]] = values[c] ?? "",
    from column [c] on. *)
Fixpoint fillRow (header : list jsstring) (c : nat) (values : list jsstring)
    (row : Row) : Row :=
  match header with
  | [] => row
  | key :: rest =>
      fillRow rest (S c) values (setProp key (orEmpty (values !! c)) row)
  end.

(** function parseCSV(text) *)
Definition parseCSV (text : jsstring) : list Row :=
  match linesOf text with
  | [] => []
  | line0 :: rest =>
      let header := parseCSVLine line0 in
      omap (λ line,
              let values := parseCSVLine line in
              if bool_decide (length values = 0%nat) then None
              else Some (fillRow header 0 values []))
           rest
  end.

(** A field written between quotes, its quotes doubled. *)
Fixpoint escapeQuotes (f : jsstring) : jsstring :=
  match f with
  | [] => []
  | c :: r => if c =? dquote then dquote :: dquote :: escapeQuotes r
              else c :: escapeQuotes r
  end.

(** A field as a CSV writer puts it on a line: between quotes, or as it is
    when it has neither comma nor quote. *)
Definition writeField (quoted : bool) (f : jsstring) : jsstring :=
  if quoted then dquote :: escapeQuotes f ++ [dquote] else f.

Definition writable (quoted : bool) (f : jsstring) : Prop :=
  quoted = false → (comma ∉ f) ∧ (dquote ∉ f).

(** Lines put together with their terminators. *)
Fixpoint unlines (ls : list (jsstring * jsstring)) (last : jsstring) : jsstring :=
  match ls with
  | [] => last
  | (l, t) :: rest => l ++ t ++ unlines rest last
  end.

Definition terminator (t : jsstring) : Prop :=
  t = [LF] ∨ t = [CR] ∨ t = [CR; LF].

Definition oneLine (l : jsstring) : Prop := (CR ∉ l) ∧ (LF ∉ l).

End Csv.

Import Csv.

Module DatasetProps.

(** Ascending numeric order of identifiers that read as numbers. *)
Definition idLe (a b : jsstring) : Prop := numLe (toNumber a) (toNumber b).

(** The rows of a lesson, in row order. *)
Definition rowsOf (id : jsstring) (rows : list Row) : list Row :=
  filter (λ r, rowLesson r = id) rows.

End DatasetProps.

Import DatasetProps.

Module Addresses.

Definition isUpperHex (c : Z) : bool :=
  ((48 <=? c) && (c <=? 57)) || ((65 <=? c) && (c <=? 70)).

(** A relative path of the kind buildAudioUrl writes: unreserved
    characters, "/", and escapes "%XX" with two upper-case hexadecimal
    digits. *)
Fixpoint escapedPath (t : jsstring) : bool :=
  match t with
  | [] => true
  | c :: r =>
      if c =? percent then
        match r with
        | h1 :: h2 :: r' => isUpperHex h1 && isUpperHex h2 && escapedPath r'
        | _ => false
        end
      else (uriUnescaped c || (c =? slash)) && escapedPath r
  end.

(** The calls of audioExists that wait for their fetch, oldest first, next
    to the cache and the requests sent. *)
Record Checks := mkChecks { probes : Probes; pending : list jsstring }.

Inductive CheckEvent :=
  | CallExists (url : jsstring)               (* audioExists(url) is called *)
  | FetchSettled (k : nat) (o : FetchOutcome). (* the fetch of call k settles *)

Definition checkStep (e : CheckEvent) (c : Checks) : Checks :=
  match e with
  | CallExists url =>
      match audioExists url (probes c) with
      | (p, Some _) => mkChecks p (pending c)
      | (p, None) => mkChecks p (pending c ++ [url])
      end
  | FetchSettled k o =>
      match pending c !! k with
      | Some url =>
          mkChecks (audioExists_settled url o (probes c)).1 (delete k (pending c))
      | None => c
      end
  end.

Definition checkExec (es : list CheckEvent) (c : Checks) : Checks :=
  foldl (λ c e, checkStep e c) c es.

(** The requests sent for [url]. *)
Definition requestsFor (url : jsstring) (c : Checks) : list jsstring :=
  filter (λ u, u = url) (requests (probes c)).

(** Every cached address was requested, every requested address is cached
    or still waited for, and every address waited for was requested. *)
Definition accounted (c : Checks) : Prop :=
  (∀ url, is_Some (audioExistsCache (probes c) !! url) →
          url ∈ requests (probes c))
  ∧ (∀ url, url ∈ requests (probes c) →
            url ∈ pending c ∨ is_Some (audioExistsCache (probes c) !! url))
  ∧ (∀ url, url ∈ pending c → url ∈ requests (probes c)).

End Addresses.

Import Addresses.

Module Images.

Definition IMAGES_DIR : jsstring := str "Images".
Definition IMAGE_EXT : jsstring := str "png".

(** `${IMAGES_DIR}/Lesson ${lessonId}.${IMAGE_EXT}` *)
Definition imageSrc (lessonId : jsstring) : jsstring :=
  IMAGES_DIR ++ str "/Lesson " ++ lessonId ++ str "." ++ IMAGE_EXT.

(** `Lesson ${lessonId} illustration` *)
Definition imageAlt (lessonId : jsstring) : jsstring :=
  str "Lesson " ++ lessonId ++ str " illustration".

(** style.display of the wrapper: what the page came with, or what the
    script wrote. *)
Inductive Display := DisplayUnset | DisplayNone | DisplayBlock.

Record Picture := mkPicture {
  elements : bool;          (* els.lessonImageWrap and els.lessonImage exist *)
  display : Display;        (* els.lessonImageWrap.style.display *)
  src : option jsstring;    (* the src attribute of els.lessonImage *)
  alt : jsstring;           (* els.lessonImage.alt *)
  loading : list jsstring   (* lesson ids of the Images created whose load
                               or error event is still to come, oldest first *)
}.

Definition updateLessonImage (lessonId : jsstring) (s : Picture) : Picture :=
  if negb (elements s) then s
  else mkPicture (elements s) DisplayNone None [] (loading s ++ [lessonId]).

(** img.onload of the Image created for [lessonId]. *)
Definition onload (lessonId : jsstring) (s : Picture) : Picture :=
  mkPicture (elements s) DisplayBlock (Some (imageSrc lessonId))
            (imageAlt lessonId) (loading s).

(** img.onerror. *)
Definition onerror (s : Picture) : Picture :=
  mkPicture (elements s) DisplayNone (src s) (alt s) (loading s).

Inductive ImageEvent :=
  | Update (lessonId : jsstring)   (* render calls updateLessonImage *)
  | Loaded (k : nat)               (* the k-th Image still loading loads *)
  | Failed (k : nat).              (* ... or fails *)

Definition settle (k : nat) (s : Picture) : Picture :=
  mkPicture (elements s) (display s) (src s) (alt s) (delete k (loading s)).

Definition imageStep (e : ImageEvent) (s : Picture) : Picture :=
  match e with
  | Update lessonId => updateLessonImage lessonId s
  | Loaded k =>
      match loading s !! k with
      | Some lessonId => onload lessonId (settle k s)
      | None => s
      end
  | Failed k =>
      match loading s !! k with
      | Some _ => onerror (settle k s)
      | None => s
      end
  end.

Definition imageExec (es : list ImageEvent) (s : Picture) : Picture :=
  foldl (λ s e, imageStep e s) s es.

(** The lessons updateLessonImage was called for. *)
Definition updatesOf (es : list ImageEvent) : list jsstring :=
  omap (λ e, match e with Update lessonId => Some lessonId | _ => None end) es.

(** What the picture and its text are about: nothing, or one lesson among
    [asked]. *)
Definition pictureOf (asked : list jsstring) (s : Picture) : Prop :=
  (src s = None ∧ alt s = [] ∧ display s = DisplayNone)
  ∨ (∃ lessonId, lessonId ∈ asked
       ∧ src s = Some (imageSrc lessonId) ∧ alt s = imageAlt lessonId
       ∧ display s ≠ DisplayUnset).

Definition pictureInv (asked : list jsstring) (s : Picture) : Prop :=
  elements s = true ∧ pictureOf asked s ∧ Forall (λ l, l ∈ asked) (loading s).

End Images.

Import Images.

Module Sequencer.

(** Number of runs of [rs] that hold the token [T]. *)
Definition holding (T : Z) (rs : list Run) : nat :=
  length (filter (λ r, runToken r = T) rs).

(** The suspended runs that hold the current token: those the next check
    of the token lets go on. *)
Definition liveRuns (st : State) : list Run :=
  filter (λ r, runToken r = token (lessonPlayback st)) (runs st).

(** The running flag says whether a suspended run holds the current token,
    and no two do. *)
Definition oneLive (st : State) : Prop :=
  tokensBelow st
  ∧ holding (token (lessonPlayback st)) (runs st)
    = if running (lessonPlayback st) then 1%nat else 0%nat.

(** The two events that are clicks on the buttons of the player. *)
Definition isClick (e : Event) : bool :=
  match e with
  | ClickSentence _ | ClickLesson _ => true
  | _ => false
  end.

(** A run that does not hold the token returns when it is resumed, and
    nothing but the list of finished runs changes. *)
Definition returnsStale (f : Run → State → State * Outcome) : Prop :=
  ∀ r st, token (lessonPlayback st) ≠ runToken r →
    ∃ r', f r st = (st, Returned r') ∧ runToken r' = runToken r.

(** The calls that start a clip or a delay, in order: the trace without
    its pauses. *)
Definition schedule (t : list MediaCall) : list MediaCall :=
  List.filter (λ c, match c with CallPause _ => false | _ => true end) t.

(** The calls of an undisturbed run over [us]: play() on each address in
    turn, sleep(1000) between two of them and none after the last. *)
Fixpoint canonCalls (us : list Url) : list MediaCall :=
  match us with
  | [] => []
  | [u] => [CallPlay u]
  | u :: rest => CallPlay u :: CallSleep 1000 :: canonCalls rest
  end.

(** The delays asked of the browser: the arguments of the calls of sleep. *)
Definition sleeps (t : list MediaCall) : list Z :=
  omap (λ c, match c with CallSleep ms => Some ms | _ => None end) t.

(** The delays a run has gone into, by its steps. *)
Definition delaysOf (r : Run) : list Z :=
  omap (λ s, match s with StartDelay _ ms => Some ms | _ => None end)
    (history r).

Definition delaysIn (rs : list Run) : nat := length (rs ≫= delaysOf).

(** Every delay a run went into was asked of the browser by a call of
    sleep(1000), and sleep is called for nothing else. *)
Definition sleepsAccounted (st : State) : Prop :=
  length (sleeps (trace st)) = (delaysIn (runs st) + delaysIn (finished st))%nat
  ∧ Forall (λ ms, ms = 1000) (sleeps (trace st)).

(** A run suspended in sleep is there by the call of sleep(1000) that its
    last step records. *)
Definition sleepingByCall (r : Run) : Prop :=
  suspended r = AwaitSleep →
  last (history r) = Some (StartDelay (index r) 1000).

End Sequencer.

Import Sequencer.

(** ** Preferences, navigation and start-up *)

Module Ui.

Definition STORAGE_lesson : jsstring := str "readable.lesson".
Definition STORAGE_lang : jsstring := str "readable.lang".
Definition STORAGE_helperLang : jsstring := str "readable.helperLang".

(** localStorage: getItem gives null (None) for a key that is not stored.
    The store is taken to accept every write. *)
Abbreviation Storage := (gmap jsstring jsstring).

(** x || null, and x ? x : null *)
Definition orNull (v : option jsstring) : option jsstring :=
  if truthy v then v else None.

(** let model = { lessons: [], ..., helperLanguage: null } *)
Definition emptyModel : Model := mkModel [] [] [] None None None.

Definition set_currentLessonId (v : option jsstring) (m : Model) : Model :=
  mkModel (lessons m) (lessonIds m) (languages m) v (currentLanguage m)
    (helperLanguage m).

Definition set_currentLanguage (v : option jsstring) (m : Model) : Model :=
  mkModel (lessons m) (lessonIds m) (languages m) (currentLessonId m) v
    (helperLanguage m).

Definition set_helperLanguage (v : option jsstring) (m : Model) : Model :=
  mkModel (lessons m) (lessonIds m) (languages m) (currentLessonId m)
    (currentLanguage m) v.

(** function hydratePreferences() *)
Definition hydratePreferences (localStorage : Storage) (model : Model) : Model :=
  let savedLesson := localStorage !! STORAGE_lesson in
  let savedLang := localStorage !! STORAGE_lang in
  let savedHelperLang := localStorage !! STORAGE_helperLang in
  mkModel (lessons model) (lessonIds model) (languages model)
    (orNull savedLesson) (orNull savedLang) (orNull savedHelperLang).

(** function persistPreferences() *)
Definition persistPreferences (model : Model) (localStorage : Storage) : Storage :=
  let s := <[STORAGE_lesson := orEmpty (currentLessonId model)]> localStorage in
  let s := <[STORAGE_lang := orEmpty (currentLanguage model)]> s in
  match helperLanguage model with
  | Some (c :: h) => <[STORAGE_helperLang := c :: h]> s
  | _ => delete STORAGE_helperLang s
  end.

(** array.indexOf(v) for a string or null [v]; -1 when it is not there. *)
Fixpoint indexOf_from (l : list jsstring) (v : jsstring) (i : Z) : Z :=
  match l with
  | [] => -1
  | x :: r => if bool_decide (x = v) then i else indexOf_from r v (i + 1)
  end.

Definition indexOf (l : list jsstring) (v : option jsstring) : Z :=
  match v with
  | Some s => indexOf_from l s 0
  | None => -1
  end.

(** model.lessons.find((l) => l.lessonId === model.currentLessonId) *)
Definition currentLesson (model : Model) : option Lesson :=
  List.find (λ l, bool_decide (Some (lessonId l) = currentLessonId model))
    (lessons model).

(** (line.texts[model.currentLanguage] || "").trim() *)
Definition sentenceOf (language : jsstring) (line : Line) : jsstring :=
  trim (match get language (texts line) with
        | Some (c :: s) => c :: s
        | _ => []
        end).

(** What render reads for playback: the current language and the sentence
    of every line of the current lesson.  A lesson is found only once
    buildModel has run, and from then on the language is a string; null,
    which hydratePreferences may leave before, would read as "null". *)
Definition viewOf (model : Model) : option (jsstring * list jsstring) :=
  lesson ← currentLesson model;
  let language := default (str "null") (currentLanguage model) in
  Some (language, sentenceOf language <$> lines lesson).

(** What init catches and shows: an Error thrown with a message, the Error
    of fetchText for a response that is not ok, a rejected fetch, or the
    URIError of encodeURIComponent raised inside render. *)
Inductive Failure :=
  | Raised (message : string)
  | HttpStatus (status : Z)
  | FetchRejected
  | URIError.

(** The page, as far as the listeners of wireUI and init read or write it:
    the model, the stored preferences, the disabled flags of the two lesson
    buttons, the player, and the error text init may show.  The options and
    values of the three selects are written but never read back, except as
    the value a change event brings; the image panel is modelled apart. *)
Record Page := mkPage {
  model : Model;
  localStorage : Storage;
  prevDisabled : bool;
  nextDisabled : bool;
  player : Player.State;
  errorShown : option Failure }.

(** function render(), with what it does to the two lesson buttons. *)
Definition renderPage (p : Page) : Page :=
  let player := Player.render (viewOf (model p)) (player p) in
  match currentLesson (model p) with
  | None =>
      mkPage (model p) (localStorage p) (prevDisabled p) (nextDisabled p)
        player (errorShown p)
  | Some _ =>
      let idx := indexOf (lessonIds (model p)) (currentLessonId (model p)) in
      mkPage (model p) (localStorage p)
        (idx <=? 0) (Z.of_nat (length (lessonIds (model p))) - 1 <=? idx)
        player (errorShown p)
  end.

(** persistPreferences(); stopLessonPlayback(); render(); with the model
    the listener has just written. *)
Definition commit (m : Model) (p : Page) : Page :=
  renderPage (mkPage m (persistPreferences m (localStorage p))
            (prevDisabled p) (nextDisabled p)
            (stopLessonPlayback (player p)) (errorShown p)).

(** The change listener of lessonSelect; [value] is els.lessonSelect.value. *)
Definition onLessonSelectChange (value : jsstring) (p : Page) : Page :=
  commit (set_currentLessonId (Some value) (model p)) p.

(** The change listener of languageSelect. *)
Definition onLanguageSelectChange (value : jsstring) (p : Page) : Page :=
  let m := set_currentLanguage (Some value) (model p) in
  let m := if bool_decide (helperLanguage m = currentLanguage m)
           then set_helperLanguage None m else m in
  commit m p.

(** The change listener of helperLanguageSelect. *)
Definition onHelperLanguageSelectChange (v : jsstring) (p : Page) : Page :=
  let m := set_helperLanguage (orNull (Some v)) (model p) in
  let m := if bool_decide (helperLanguage m = currentLanguage m)
           then set_helperLanguage None m else m in
  commit m p.

(** The click listener of prevLessonBtn. *)
Definition onPrevLessonClick (p : Page) : Page :=
  let idx := indexOf (lessonIds (model p)) (currentLessonId (model p)) in
  if 0 <? idx then
    commit (set_currentLessonId (lessonIds (model p) !! Z.to_nat (idx - 1))
              (model p)) p
  else p.

(** The first click listener of nextLessonBtn: its test compares with a
    property the model does not have, and its block is empty. *)
Definition onNextLessonClick_placeholder (p : Page) : Page := p.

(** The second click listener of nextLessonBtn. *)
Definition onNextLessonClick (p : Page) : Page :=
  let idx := indexOf (lessonIds (model p)) (currentLessonId (model p)) in
  if (0 <=? idx) && (idx <? Z.of_nat (length (lessonIds (model p))) - 1) then
    commit (set_currentLessonId (lessonIds (model p) !! Z.to_nat (idx + 1))
              (model p)) p
  else p.

(** button.click(), and a click of the user: a disabled button sends no
    click event. *)
Definition clickPrev (p : Page) : Page :=
  if prevDisabled p then p else onPrevLessonClick p.

Definition clickNext (p : Page) : Page :=
  if nextDisabled p then p
  else onNextLessonClick (onNextLessonClick_placeholder p).

(** The keydown listener of window. *)
Definition onKeyDown (key : jsstring) (p : Page) : Page :=
  let p := if bool_decide (key = str "ArrowLeft") then clickPrev p else p in
  if bool_decide (key = str "ArrowRight") then clickNext p else p.

(** function initializeUIFromModel(): the options it makes are those of
    lessonIds and languages; it ends with persistPreferences(). *)
Definition initializeUIFromModel (p : Page) : Page :=
  mkPage (model p) (persistPreferences (model p) (localStorage p))
    (prevDisabled p) (nextDisabled p) (player p) (errorShown p).

(** How [await fetchText(CSV_PATH)] ends: the text, a response that is not
    ok, or a failed request. *)
Inductive Fetched :=
  | FetchedText (text : jsstring)
  | FetchedStatus (status : Z)
  | FetchFailed.

(** Whether the forEach of render raises: buildAudioUrl does on a sentence
    or language with a lone surrogate. *)
Definition renderRaises (m : Model) : bool :=
  match viewOf m with
  | Some (language, sentences) => negb (collectUrls language sentences).2
  | None => false
  end.

Section Init.

Variable localeCompare : jsstring → jsstring → Z.

(** async function init(), up to [await fetchText(CSV_PATH)]; wireUI adds
    the listeners, which are the functions above. *)
Definition init_start (p : Page) : Page :=
  mkPage (hydratePreferences (localStorage p) (model p)) (localStorage p)
    (prevDisabled p) (nextDisabled p) (player p) (errorShown p).

(** The catch of init. *)
Definition showError (err : Failure) (p : Page) : Page :=
  mkPage (model p) (localStorage p) (prevDisabled p) (nextDisabled p)
    (player p) (Some err).

(** The rest of init once the fetch is settled. *)
Definition init_loaded (f : Fetched) (p : Page) : Page :=
  match f with
  | FetchedText csvText =>
      match buildModel localeCompare (parseCSV csvText) (model p) with
      | Built m =>
          let p := mkPage m (localStorage p) (prevDisabled p) (nextDisabled p)
                     (player p) (errorShown p) in
          let p := initializeUIFromModel p in
          let p := renderPage (mkPage (model p) (localStorage p) (prevDisabled p)
                             (nextDisabled p) (stopLessonPlayback (player p))
                             (errorShown p)) in
          if renderRaises (model p) then showError URIError p else p
      | Thrown message => showError (Raised message) p
      end
  | FetchedStatus status => showError (HttpStatus status) p
  | FetchFailed => showError FetchRejected p
  end.

End Init.

Inductive UiEvent :=
  | LessonSelectChange (value : jsstring)
  | LanguageSelectChange (value : jsstring)
  | HelperLanguageSelectChange (value : jsstring)
  | PrevLessonClick
  | NextLessonClick
  | KeyDown (key : jsstring)
  | Playback (e : Player.Event).

(** One turn of the event loop for the page.  The player's own events are
    those of [Player.step]; its [Navigate] stands for the listeners above
    and is no event of its own here. *)
Definition pageStep (e : UiEvent) (p : Page) : Page :=
  match e with
  | LessonSelectChange value => onLessonSelectChange value p
  | LanguageSelectChange value => onLanguageSelectChange value p
  | HelperLanguageSelectChange value => onHelperLanguageSelectChange value p
  | PrevLessonClick => clickPrev p
  | NextLessonClick => clickNext p
  | KeyDown key => onKeyDown key p
  | Playback (Navigate _) => p
  | Playback e =>
      mkPage (model p) (localStorage p) (prevDisabled p) (nextDisabled p)
        (Player.step e (player p)) (errorShown p)
  end.

Definition pageExec (es : list UiEvent) (p : Page) : Page :=
  foldl (λ p e, pageStep e p) p es.

(** A select brings one of its options: a lesson, a language, or for the
    helper a language or "" (Off). *)
Definition offered (m : Model) (e : UiEvent) : Prop :=
  match e with
  | LessonSelectChange value => value ∈ lessonIds m
  | LanguageSelectChange value => value ∈ languages m
  | HelperLanguageSelectChange value => value = [] ∨ value ∈ languages m
  | _ => True
  end.

(** The three preferences of a model. *)
Definition preferences (m : Model)
    : option jsstring * option jsstring * option jsstring :=
  (currentLessonId m, currentLanguage m, helperLanguage m).

(** The current lesson is one of the model (or there is none at all), the
    current language is one of the model, and the helper language is off
    or another language of the model. *)
Definition settled (m : Model) : Prop :=
  ((lessonIds m = [] ∧ currentLessonId m = None)
   ∨ ∃ id, currentLessonId m = Some id ∧ id ∈ lessonIds m)
  ∧ (∃ lang, currentLanguage m = Some lang ∧ lang ∈ languages m)
  ∧ (helperLanguage m = None
     ∨ ∃ h, helperLanguage m = Some h ∧ h ≠ [] ∧ h ∈ languages m
            ∧ Some h ≠ currentLanguage m).

(** The page when the script starts: the model empty, the player idle;
    what is stored and whether the markup disables the lesson buttons is
    given. *)
Definition blank (s : Storage) (prev next : bool) : Page :=
  mkPage emptyModel s prev next Player.init None.

(** Whether the preferences of the page are the ones in its store. *)
Definition stored (p : Page) : Prop :=
  ∃ s, localStorage p = persistPreferences (model p) s.

(** What a listener of the page does to the player is what a sequence of
    the player's events does. *)
Definition playerMoves (p p' : Page) : Prop :=
  ∃ pes, player p' = Player.exec pes (player p).

(** A model of two lessons in one language, and a page that shows it. *)
Definition demoModel : Model :=
  mkModel
    [mkLesson (str "1") [] [mkLine (ofZ 1) [(str "English", str "Hi.")]];
     mkLesson (str "2") [] [mkLine (ofZ 1) [(str "English", str "Go.")]]]
    [str "1"; str "2"] [str "English"]
    (Some (str "1")) (Some (str "English")) None.

Definition demoPage : Page := mkPage demoModel ∅ false false Player.init None.

(** A CSV text of two lessons in two languages. *)
Definition demoCsv : jsstring :=
  str "Lesson,Line,CEFR,English,Norsk" ++ [LF]
  ++ str "1,1,A1,Hi.,Hei." ++ [LF]
  ++ str "2,1,A1,Go.,Dra.".

(** The lists of the model stay; its preferences stay valid and stored. *)
Definition kept (m0 : Model) (p : Page) : Prop :=
  lessons (model p) = lessons m0 ∧ lessonIds (model p) = lessonIds m0
  ∧ languages (model p) = languages m0
  ∧ settled (model p) ∧ stored p.

End Ui.

(** * Facts *)

(** ** Strings *)

Section StringFacts.

Lemma list_pair_ind {A} (P : list A → Prop) :
  P [] → (∀ x, P [x]) → (∀ x y l, P l → P (y :: l) → P (x :: y :: l)) →
  ∀ l, P l.
Proof.
  intros H0 H1 H2 l.
  assert (P l ∧ ∀ x, P (x :: l)) as [? _]; [|done].
  induction l as [|y l [IH1 IH2]]; split; auto.
Qed.

Lemma split_nonempty sep s : split sep s ≠ [].
Proof.
  destruct s as [|c r]; simpl; [done|].
  destruct (c =? sep); [done|]. by destruct (split sep r).
Qed.

Lemma split_no_sep sep s : sep ∉ s → split sep s = [s].
Proof.
  induction s as [|c r IH]; intros Hn; simpl; [done|].
  apply not_elem_of_cons in Hn as [Hc Hr].
  destruct (Z.eqb_spec c sep); [congruence|]. by rewrite IH.
Qed.

Lemma split_app_sep sep a b :
  split sep (a ++ sep :: b) = split sep a ++ split sep b.
Proof.
  induction a as [|c a IH]; simpl.
  - by rewrite Z.eqb_refl.
  - destruct (c =? sep); [by rewrite IH|].
    rewrite IH. pose proof (split_nonempty sep a).
    by destruct (split sep a).
Qed.

Lemma split_join sep segs :
  segs ≠ [] → Forall (λ seg, sep ∉ seg) segs → split sep (join sep segs) = segs.
Proof.
  induction segs as [|x r IH]; intros Hne Hall; [done|].
  apply Forall_cons in Hall as [Hx Hr].
  destruct r as [|y r]; simpl.
  - by apply split_no_sep.
  - rewrite split_app_sep, split_no_sep by done.
    simpl. f_equal. by apply IH.
Qed.

Lemma length_split sep s : length (split sep s) = S (occurrences sep s).
Proof.
  induction s as [|c r IH]; simpl; [done|].
  destruct (c =? sep); simpl; [by rewrite IH|].
  pose proof (split_nonempty sep r).
  destruct (split sep r); [done|]. simpl in *. done.
Qed.

Lemma occurrences_app c a b :
  occurrences c (a ++ b) = (occurrences c a + occurrences c b)%nat.
Proof. induction a as [|x a IH]; simpl; [done|]. rewrite IH. lia. Qed.

Lemma occurrences_pos c s : c ∈ s → (0 < occurrences c s)%nat.
Proof.
  induction 1 as [|x y r ? IH]; simpl.
  - rewrite Z.eqb_refl. lia.
  - lia.
Qed.

Lemma occurrences_zero c s : c ∉ s → occurrences c s = 0%nat.
Proof.
  induction s as [|x r IH]; simpl; [done|].
  intros [Hx Hr]%not_elem_of_cons.
  destruct (Z.eqb_spec x c); [congruence|]. by rewrite IH.
Qed.

Lemma uriUnescaped_not_slash c : uriUnescaped c = true → c ≠ slash.
Proof. unfold uriUnescaped, slash. lia. Qed.

Lemma uriUnescaped_not_surrogate c :
  uriUnescaped c = true →
  isLeadingSurrogate c = false ∧ isTrailingSurrogate c = false.
Proof. unfold uriUnescaped, isLeadingSurrogate, isTrailingSurrogate. lia. Qed.

Lemma hexDigit_not_slash n : 0 ≤ n → hexDigit n ≠ slash.
Proof. unfold hexDigit, slash. intros. destruct (Z.ltb_spec n 10); lia. Qed.

Lemma percentEncode_no_slash o : slash ∉ percentEncode o.
Proof.
  unfold percentEncode. rewrite !not_elem_of_cons. repeat split.
  - done.
  - intros E. symmetry in E. revert E. apply hexDigit_not_slash.
    apply Z.land_nonneg. lia.
  - intros E. symmetry in E. revert E. apply hexDigit_not_slash.
    apply Z.land_nonneg. lia.
  - apply not_elem_of_nil.
Qed.

Lemma escapeCodePoint_no_slash cp : slash ∉ escapeCodePoint cp.
Proof.
  unfold escapeCodePoint. intros Hin.
  apply list_elem_of_In, in_concat in Hin as (l & Hl & Hin).
  apply in_map_iff in Hl as (o & <- & _).
  by apply list_elem_of_In, percentEncode_no_slash in Hin.
Qed.

Lemma encodeURIComponent_cons c rest :
  encodeURIComponent (c :: rest) =
    if uriUnescaped c then cons c <$> encodeURIComponent rest
    else if isLeadingSurrogate c then
      match rest with
      | c2 :: rest' =>
          if isTrailingSurrogate c2 then
            app (escapeCodePoint (UTF16SurrogatePairToCodePoint c c2))
              <$> encodeURIComponent rest'
          else None
      | [] => None
      end
    else if isTrailingSurrogate c then None
    else app (escapeCodePoint c) <$> encodeURIComponent rest.
Proof. done. Qed.

Lemma isWellFormed_cons c rest :
  isWellFormed (c :: rest) =
    if isLeadingSurrogate c then
      match rest with
      | c2 :: rest' => isTrailingSurrogate c2 && isWellFormed rest'
      | [] => false
      end
    else if isTrailingSurrogate c then false
    else isWellFormed rest.
Proof. done. Qed.

Lemma split_cons sep c r :
  split sep (c :: r) =
    if c =? sep then [] :: split sep r
    else match split sep r with
         | seg :: segs => (c :: seg) :: segs
         | [] => [[c]]
         end.
Proof. done. Qed.

(** The escaped text never contains the separator. *)
Lemma encodeURIComponent_no_slash s :
  ∀ o, encodeURIComponent s = Some o → slash ∉ o.
Proof.
  induction s as [| x | x y l IH1 IH2] using list_pair_ind; intros o.
  - intros [= <-]. apply not_elem_of_nil.
  - rewrite encodeURIComponent_cons. simpl.
    destruct (uriUnescaped x) eqn:Hu.
    + intros [= <-]. apply uriUnescaped_not_slash in Hu.
      rewrite not_elem_of_cons. split; [done|apply not_elem_of_nil].
    + destruct (isLeadingSurrogate x); [done|].
      destruct (isTrailingSurrogate x); [done|].
      intros [= <-]. rewrite app_nil_r. apply escapeCodePoint_no_slash.
  - rewrite encodeURIComponent_cons.
    destruct (uriUnescaped x) eqn:Hu.
    + destruct (encodeURIComponent (y :: l)) as [o'|] eqn:E; [|done].
      intros [= <-]. apply uriUnescaped_not_slash in Hu.
      rewrite not_elem_of_cons. split; [done|by apply IH2].
    + destruct (isLeadingSurrogate x).
      * destruct (isTrailingSurrogate y); [|done].
        destruct (encodeURIComponent l) as [o'|] eqn:E; [|done].
        intros [= <-]. rewrite not_elem_of_app. split.
        -- apply escapeCodePoint_no_slash.
        -- by apply IH1.
      * destruct (isTrailingSurrogate x); [done|].
        destruct (encodeURIComponent (y :: l)) as [o'|] eqn:E; [|done].
        intros [= <-]. rewrite not_elem_of_app. split.
        -- apply escapeCodePoint_no_slash.
        -- by apply IH2.
Qed.

(** No URIError on a well-formed string. *)
Lemma isWellFormed_encode s :
  isWellFormed s = true → is_Some (encodeURIComponent s).
Proof.
  induction s as [| x | x y l IH1 IH2] using list_pair_ind.
  - by eexists.
  - rewrite isWellFormed_cons, encodeURIComponent_cons. simpl.
    destruct (uriUnescaped x); [by eexists|].
    destruct (isLeadingSurrogate x); [done|].
    destruct (isTrailingSurrogate x); [done|]. by eexists.
  - rewrite isWellFormed_cons, encodeURIComponent_cons.
    destruct (uriUnescaped x) eqn:Hu.
    + apply uriUnescaped_not_surrogate in Hu as [-> ->].
      intros [o ->]%IH2. by eexists.
    + destruct (isLeadingSurrogate x).
      * intros [-> [o ->]%IH1]%andb_true_iff. by eexists.
      * destruct (isTrailingSurrogate x); [done|].
        intros [o ->]%IH2. by eexists.
Qed.

Lemma isWellFormed_app a b :
  isWellFormed a = true → isWellFormed b = true → isWellFormed (a ++ b) = true.
Proof.
  induction a as [| x | x y l IH1 IH2] using list_pair_ind; intros Ha Hb.
  - done.
  - revert Ha. simpl app. rewrite !isWellFormed_cons.
    destruct (isLeadingSurrogate x); [done|].
    by destruct (isTrailingSurrogate x).
  - revert Ha. change ((x :: y :: l) ++ b) with (x :: (y :: l) ++ b).
    rewrite !isWellFormed_cons.
    destruct (isLeadingSurrogate x).
    + simpl app. intros [-> ?]%andb_true_iff. simpl. by apply IH1.
    + destruct (isTrailingSurrogate x); [done|]. intros. by apply IH2.
Qed.

Lemma surrogate_not_slash c :
  isLeadingSurrogate c || isTrailingSurrogate c = true → (c =? slash) = false.
Proof. unfold isLeadingSurrogate, isTrailingSurrogate, slash. lia. Qed.

(** Splitting at slashes never cuts a surrogate pair. *)
Lemma isWellFormed_split s :
  isWellFormed s = true → Forall (λ seg, isWellFormed seg = true) (split slash s).
Proof.
  induction s as [| x | x y l IH1 IH2] using list_pair_ind.
  - intros _. by repeat constructor.
  - rewrite isWellFormed_cons. simpl.
    destruct (x =? slash); [by repeat constructor|].
    intros H. repeat constructor. by rewrite isWellFormed_cons.
  - rewrite isWellFormed_cons.
    destruct (isLeadingSurrogate x) eqn:Hl.
    + intros [Hy Hw]%andb_true_iff.
      rewrite split_cons, surrogate_not_slash by (rewrite Hl; done).
      rewrite split_cons, surrogate_not_slash by (rewrite Hy; apply orb_true_r).
      specialize (IH1 Hw). pose proof (split_nonempty slash l).
      destruct (split slash l) as [|seg segs]; [done|].
      apply Forall_cons in IH1 as [Hseg Hsegs].
      constructor; [|done].
      rewrite isWellFormed_cons, Hl. simpl. by rewrite Hy.
    + destruct (isTrailingSurrogate x) eqn:Ht; [done|].
      intros Hw. specialize (IH2 Hw). rewrite split_cons.
      destruct (x =? slash); [by constructor|].
      pose proof (split_nonempty slash (y :: l)).
      destruct (split slash (y :: l)) as [|seg segs]; [done|].
      apply Forall_cons in IH2 as [Hseg Hsegs].
      constructor; [|done]. by rewrite isWellFormed_cons, Hl, Ht.
Qed.

(** Escaping distributes over concatenation after a well-formed prefix. *)
Lemma encodeURIComponent_app a b :
  isWellFormed a = true →
  encodeURIComponent (a ++ b) =
    a' ← encodeURIComponent a; b' ← encodeURIComponent b; Some (a' ++ b').
Proof.
  induction a as [| x | x y l IH1 IH2] using list_pair_ind.
  - intros _. simpl. by destruct (encodeURIComponent b).
  - rewrite isWellFormed_cons. simpl app.
    rewrite !encodeURIComponent_cons.
    destruct (uriUnescaped x); simpl.
    { intros _. by destruct (encodeURIComponent b). }
    destruct (isLeadingSurrogate x); [done|].
    destruct (isTrailingSurrogate x); [done|]. intros _. simpl.
    destruct (encodeURIComponent b); simpl; [|done]. by rewrite app_nil_r.
  - rewrite isWellFormed_cons.
    change ((x :: y :: l) ++ b) with (x :: (y :: l) ++ b).
    rewrite (encodeURIComponent_cons x ((y :: l) ++ b)).
    rewrite (encodeURIComponent_cons x (y :: l)).
    destruct (uriUnescaped x) eqn:Hu.
    + apply uriUnescaped_not_surrogate in Hu as [-> ->]. intros Hw.
      rewrite IH2 by done.
      destruct (encodeURIComponent (y :: l)); simpl; [|done].
      by destruct (encodeURIComponent b).
    + destruct (isLeadingSurrogate x).
      * simpl app. intros [-> Hw]%andb_true_iff. rewrite IH1 by done.
        destruct (encodeURIComponent l); simpl; [|done].
        destruct (encodeURIComponent b); simpl; [|done]. by rewrite app_assoc.
      * destruct (isTrailingSurrogate x); [done|]. intros Hw.
        rewrite IH2 by done.
        destruct (encodeURIComponent (y :: l)); simpl; [|done].
        destruct (encodeURIComponent b); simpl; [|done]. by rewrite app_assoc.
Qed.

End StringFacts.

(** ** The address as a path *)

Section PathFacts.

Implicit Types t a b : jsstring.

Lemma escapedPath_app_aux (n : nat) : ∀ a b,
  (length a ≤ n)%nat → escapedPath a = true →
  escapedPath (a ++ b) = escapedPath b.
Proof.
  induction n as [|n IH]; intros a b Hn Ha.
  - by destruct a; [|simpl in Hn; lia].
  - destruct a as [|c a]; [done|]. simpl in *.
    destruct (c =? percent).
    + destruct a as [|h1 [|h2 a]]; try done. simpl in *.
      apply andb_true_iff in Ha as [Hh Ha]. rewrite Hh. simpl.
      apply IH; [lia|done].
    + apply andb_true_iff in Ha as [Hc Ha]. rewrite Hc. simpl.
      apply IH; [lia|done].
Qed.

Lemma escapedPath_app a b :
  escapedPath a = true → escapedPath (a ++ b) = escapedPath b.
Proof. by apply (escapedPath_app_aux (length a)). Qed.

Lemma hexDigit_upperHex n : 0 ≤ n < 16 → isUpperHex (hexDigit n) = true.
Proof. unfold isUpperHex, hexDigit. intros. destruct (Z.ltb_spec n 10); lia. Qed.

Lemma land_15 x : 0 ≤ Z.land x 0xF < 16.
Proof.
  change 0xF with (Z.ones 4). rewrite Z.land_ones by lia.
  apply Z.mod_pos_bound. lia.
Qed.

Lemma percentEncode_path o b :
  escapedPath (percentEncode o ++ b) = escapedPath b.
Proof.
  unfold percentEncode. simpl.
  by rewrite !hexDigit_upperHex by apply land_15.
Qed.

Lemma escapeCodePoint_path cp b :
  escapedPath (escapeCodePoint cp ++ b) = escapedPath b.
Proof.
  unfold escapeCodePoint, utf8.
  repeat case_match; cbn [map concat]; rewrite <- ?app_assoc;
    by rewrite ?percentEncode_path.
Qed.

Lemma encodeURIComponent_path s : ∀ o,
  encodeURIComponent s = Some o → escapedPath o = true.
Proof.
  induction s as [| x | x y l IH1 IH2] using list_pair_ind; intros o.
  - by intros [= <-].
  - rewrite encodeURIComponent_cons. simpl.
    destruct (uriUnescaped x) eqn:Hu.
    + intros [= <-]. simpl. rewrite Hu.
      destruct (Z.eqb_spec x percent) as [->|]; [done|done].
    + destruct (isLeadingSurrogate x); [done|].
      destruct (isTrailingSurrogate x); [done|].
      intros [= <-]. by rewrite escapeCodePoint_path.
  - rewrite encodeURIComponent_cons.
    destruct (uriUnescaped x) eqn:Hu.
    + destruct (encodeURIComponent (y :: l)) as [o'|] eqn:E; [|done].
      intros [= <-]. cbn [escapedPath]. rewrite Hu.
      destruct (Z.eqb_spec x percent) as [->|]; [done|]. by apply IH2.
    + destruct (isLeadingSurrogate x).
      * destruct (isTrailingSurrogate y); [|done].
        destruct (encodeURIComponent l) as [o'|] eqn:E; [|done].
        intros [= <-]. rewrite escapeCodePoint_path. by apply IH1.
      * destruct (isTrailingSurrogate x); [done|].
        destruct (encodeURIComponent (y :: l)) as [o'|] eqn:E; [|done].
        intros [= <-]. rewrite escapeCodePoint_path. by apply IH2.
Qed.

Lemma join_path (parts : list jsstring) :
  Forall (λ p, escapedPath p = true) parts →
  escapedPath (join slash parts) = true.
Proof.
  induction 1 as [|p parts Hp _ IH]; [done|].
  destruct parts as [|q parts]; [done|].
  change (join slash (p :: q :: parts)) with (p ++ slash :: join slash (q :: parts)).
  rewrite escapedPath_app by done. done.
Qed.

Lemma escapedPath_alphabet t :
  escapedPath t = true →
  Forall (λ c, uriUnescaped c = true ∨ c = percent ∨ c = slash) t.
Proof.
  assert (∀ n t, (length t ≤ n)%nat → escapedPath t = true →
            Forall (λ c, uriUnescaped c = true ∨ c = percent ∨ c = slash) t)
    as H; [|by apply (H (length t))].
  clear t. induction n as [|n IH]; intros t Hn Ht.
  - destruct t; [constructor|simpl in Hn; lia].
  - destruct t as [|c t]; [constructor|]. simpl in *.
    destruct (Z.eqb_spec c percent) as [->|Hc].
    + destruct t as [|h1 [|h2 t]]; try done. simpl in *.
      apply andb_true_iff in Ht as [Hh Ht].
      apply andb_true_iff in Hh as [Hh1 Hh2].
      constructor; [auto|]. constructor.
      { left. unfold isUpperHex, uriUnescaped in *. lia. }
      constructor.
      { left. unfold isUpperHex, uriUnescaped in *. lia. }
      apply IH; [lia|done].
    + apply andb_true_iff in Ht as [Hu Ht]. constructor.
      * apply orb_true_iff in Hu as [?|?%Z.eqb_eq]; auto.
      * apply IH; [lia|done].
Qed.

End PathFacts.

(** ** Audio addresses *)

Section AddressFacts.

Implicit Types language sentenceText : jsstring.

Lemma audioPath_wellFormed language sentenceText :
  isWellFormed language = true → isWellFormed sentenceText = true →
  isWellFormed (audioPath language sentenceText) = true.
Proof.
  intros Hl Hs. unfold audioPath.
  repeat (apply isWellFormed_app; [done|]). done.
Qed.

Lemma audioPath_occurrences language sentenceText :
  occurrences slash (audioPath language sentenceText) =
    (2 + occurrences slash language + occurrences slash sentenceText)%nat.
Proof.
  unfold audioPath. rewrite !occurrences_app.
  change (occurrences slash AUDIO_DIR) with 0%nat.
  change (occurrences slash (str "/")) with 1%nat.
  change (occurrences slash (str ".")) with 0%nat.
  change (occurrences slash AUDIO_EXT) with 0%nat. lia.
Qed.

Lemma buildAudioUrl_wellFormed language sentenceText :
  isWellFormed language = true → isWellFormed sentenceText = true →
  ∃ segs,
    mapM encodeURIComponent (split slash (audioPath language sentenceText)) = Some segs
    ∧ buildAudioUrl language sentenceText = Some (join slash segs)
    ∧ split slash (join slash segs) = segs
    ∧ length segs = (3 + occurrences slash language + occurrences slash sentenceText)%nat.
Proof.
  intros Hl Hs.
  pose proof (isWellFormed_split _ (audioPath_wellFormed _ _ Hl Hs)) as Hwf.
  destruct (mapM_is_Some_2 encodeURIComponent
              (split slash (audioPath language sentenceText))) as [segs Hsegs].
  { eapply Forall_impl; [exact Hwf|]. intros seg. apply isWellFormed_encode. }
  exists segs. split; [done|].
  assert (length segs =
            (3 + occurrences slash language + occurrences slash sentenceText)%nat)
    as Hlen.
  { rewrite <- (length_mapM _ _ _ Hsegs), length_split, audioPath_occurrences. lia. }
  repeat split; [| |done].
  - unfold buildAudioUrl. fold (audioPath language sentenceText).
    by rewrite Hsegs.
  - apply split_join.
    + intros ->. simpl in Hlen. lia.
    + apply mapM_Some_1 in Hsegs. clear -Hsegs.
      induction Hsegs as [|x y l k Hxy _ IH]; constructor; [|done].
      by eapply encodeURIComponent_no_slash.
Qed.

Lemma encodeURIComponent_unreserved s :
  Forall (λ c, uriUnescaped c = true) s → encodeURIComponent s = Some s.
Proof.
  induction 1 as [|c s Hc _ IH]; [done|].
  rewrite encodeURIComponent_cons, Hc. destruct s; [done|]. by rewrite IH.
Qed.

Lemma unreserved_no_slash s :
  Forall (λ c, uriUnescaped c = true) s → slash ∉ s.
Proof.
  intros H Hin. rewrite Forall_forall in H. apply H in Hin. done.
Qed.

(** The escape of a unit below 128: "%" and its two hexadecimal digits. *)
Lemma encodeURIComponent_ascii c :
  0 ≤ c < 128 → uriUnescaped c = false →
  encodeURIComponent [c] = Some [percent; hexDigit (c / 16); hexDigit (c mod 16)].
Proof.
  intros Hc Hu. simpl. rewrite Hu.
  assert (isLeadingSurrogate c = false) as ->
    by (unfold isLeadingSurrogate; lia).
  assert (isTrailingSurrogate c = false) as ->
    by (unfold isTrailingSurrogate; lia).
  simpl. unfold escapeCodePoint, utf8.
  destruct (Z.ltb_spec c 0x80); [|lia]. simpl. unfold percentEncode.
  change 0xF with (Z.ones 4). rewrite !Z.land_ones by lia.
  rewrite Z.shiftr_div_pow2 by lia. change (2 ^ 4) with 16.
  rewrite (Z.mod_small (c / 16)); [done|].
  split; [apply Z.div_pos; lia|]. apply Z.div_lt_upper_bound; lia.
Qed.

Lemma buildAudioUrl_escapedPath language sentenceText url :
  buildAudioUrl language sentenceText = Some url → escapedPath url = true.
Proof.
  intros Hb. unfold buildAudioUrl in Hb.
  destruct (mapM encodeURIComponent _) as [parts|] eqn:Hp; [|done].
  injection Hb as <-. apply join_path. apply Forall_forall. intros p Hin.
  apply mapM_Some_1 in Hp.
  apply list_elem_of_lookup in Hin as [i Hi].
  destruct (Forall2_lookup_r _ _ _ _ _ Hp Hi) as (seg & _ & Hseg).
  by eapply encodeURIComponent_path.
Qed.

(** C7. buildAudioUrl is a pure function of its two arguments.  On every
    well-formed language name and sentence it returns the path
    Audio/language/sentence.m4a split at its slashes, each segment escaped
    on its own by encodeURIComponent and the segments joined by literal
    slashes again, so that splitting the address gives back exactly the
    escaped segments; without a slash in either argument the address is
    "Audio/" + escaped language + "/" + escaped sentence + ".m4a".  The
    segments are percent-encoded: the address consists of unreserved
    characters, literal slashes and escapes "%XX" with two upper-case
    hexadecimal digits, nothing else; text made of unreserved characters
    is left as it is; every other unit below 128 becomes "%" and its two
    hexadecimal digits; a character outside ASCII becomes the escapes of
    its UTF-8 octets.  For "Hello." in "English" the address is
    "Audio/English/Hello..m4a", the final dot of the sentence kept before
    the extension; "What is #1?" gives "What%20is%20%231%3F.m4a". *)
Theorem buildAudioUrl_segments language sentenceText :
  isWellFormed language = true → isWellFormed sentenceText = true →
  (∃ segs,
      mapM encodeURIComponent (split slash (audioPath language sentenceText)) = Some segs
      ∧ buildAudioUrl language sentenceText = Some (join slash segs)
      ∧ split slash (join slash segs) = segs
      ∧ escapedPath (join slash segs) = true
      ∧ Forall (λ c, uriUnescaped c = true ∨ c = percent ∨ c = slash)
          (join slash segs))
  ∧ (slash ∉ language → slash ∉ sentenceText →
       ∃ l f, encodeURIComponent language = Some l
         ∧ encodeURIComponent sentenceText = Some f
         ∧ buildAudioUrl language sentenceText
           = Some (str "Audio/" ++ l ++ str "/" ++ f ++ str ".m4a"))
  ∧ (Forall (λ c, uriUnescaped c = true) (language ++ sentenceText) →
       buildAudioUrl language sentenceText
       = Some (str "Audio/" ++ language ++ str "/" ++ sentenceText ++ str ".m4a"))
  ∧ (∀ c, 0 ≤ c < 128 → uriUnescaped c = false →
       encodeURIComponent [c]
       = Some [percent; hexDigit (c / 16); hexDigit (c mod 16)])
  ∧ buildAudioUrl (str "English") (str "Hello.") = Some (str "Audio/English/Hello..m4a")
  ∧ buildAudioUrl (str "English") (str "What is #1?")
    = Some (str "Audio/English/What%20is%20%231%3F.m4a")
  ∧ buildAudioUrl (str "Norsk") (str "Bl" ++ [0xE5] ++ str "b" ++ [0xE6] ++ str "r.")
    = Some (str "Audio/Norsk/Bl%C3%A5b%C3%A6r..m4a")
  ∧ buildAudioUrl [0x65E5; 0x672C] [0xD83D; 0xDE00]
    = Some (str "Audio/%E6%97%A5%E6%9C%AC/%F0%9F%98%80.m4a").
Proof.
  intros Hl Hs.
  assert (slash ∉ language → slash ∉ sentenceText →
          ∃ l f, encodeURIComponent language = Some l
            ∧ encodeURIComponent sentenceText = Some f
            ∧ buildAudioUrl language sentenceText
              = Some (str "Audio/" ++ l ++ str "/" ++ f ++ str ".m4a")) as Hplain.
  { intros Hnl Hns.
    destruct (isWellFormed_encode _ Hl) as [l El].
    destruct (isWellFormed_encode _ Hs) as [f Ef].
    exists l, f. repeat split; [done..|].
    change (buildAudioUrl language sentenceText) with
      (join slash <$> mapM encodeURIComponent
         (split slash (AUDIO_DIR ++ slash :: language ++ slash ::
                         (sentenceText ++ str "." ++ AUDIO_EXT)))).
    rewrite split_app_sep, split_app_sep.
    rewrite (split_no_sep slash AUDIO_DIR) by (by apply (bool_decide_unpack _)).
    rewrite (split_no_sep slash language) by done.
    rewrite split_no_sep.
    2:{ rewrite not_elem_of_app. split; [done|]. by apply (bool_decide_unpack _). }
    simpl mapM. rewrite El.
    rewrite encodeURIComponent_app, Ef by done.
    reflexivity. }
  split_and!; try done.
  - destruct (buildAudioUrl_wellFormed _ _ Hl Hs) as (segs & ? & Hb & ? & _).
    exists segs. pose proof (buildAudioUrl_escapedPath _ _ _ Hb) as Hp.
    split_and!; try done. by apply escapedPath_alphabet.
  - intros [Hul Hus]%Forall_app.
    destruct Hplain as (l & f & El & Ef & ->);
      [by apply unreserved_no_slash..|].
    rewrite encodeURIComponent_unreserved in El, Ef by done.
    by injection El as <-; injection Ef as <-.
  - apply encodeURIComponent_ascii.
Qed.

Lemma buildAudioUrl_segments_witness :
  ∃ segs,
    buildAudioUrl (str "Norsk") (str "Hei du.") = Some (join slash segs)
    ∧ segs = [str "Audio"; str "Norsk"; str "Hei%20du..m4a"]
    ∧ escapedPath (join slash segs) = true.
Proof.
  destruct (proj1 (buildAudioUrl_segments (str "Norsk") (str "Hei du.")
                     eq_refl eq_refl)) as (segs & Hm & Hb & _ & Hp & _).
  exists segs. split; [exact Hb|]. split; [|exact Hp].
  vm_compute in Hm. by injection Hm as <-.
Defined.

(** C10. The path is split at every slash before escaping, so a slash
    inside the sentence text or the language name acts as a separator and is
    never escaped as %2F: the address has three segments plus one for each
    such slash, hence more than three, and exactly that many literal
    slashes.  "a/b" in "L" gives "Audio/L/a/b.m4a". *)
Theorem buildAudioUrl_inner_slash language sentenceText :
  isWellFormed language = true → isWellFormed sentenceText = true →
  slash ∈ sentenceText ∨ slash ∈ language →
  (∃ url, buildAudioUrl language sentenceText = Some url
     ∧ length (split slash url)
       = (3 + occurrences slash language + occurrences slash sentenceText)%nat
     ∧ (3 < length (split slash url))%nat
     ∧ occurrences slash url
       = (2 + occurrences slash language + occurrences slash sentenceText)%nat)
  ∧ buildAudioUrl (str "L") (str "a/b") = Some (str "Audio/L/a/b.m4a").
Proof.
  intros Hl Hs Hin. split; [|done].
  destruct (buildAudioUrl_wellFormed _ _ Hl Hs) as (segs & _ & Hb & Hsp & Hlen).
  exists (join slash segs). split; [done|].
  pose proof (length_split slash (join slash segs)) as Hocc.
  rewrite Hsp in *.
  assert (0 < occurrences slash language + occurrences slash sentenceText)%nat.
  { destruct Hin as [H|H]; apply occurrences_pos in H; lia. }
  repeat split; lia.
Qed.

Lemma buildAudioUrl_inner_slash_witness :
  ∃ url, buildAudioUrl (str "Norsk") (str "ja/nei") = Some url
    ∧ length (split slash url) = 4%nat.
Proof.
  destruct (buildAudioUrl_inner_slash (str "Norsk") (str "ja/nei") eq_refl eq_refl)
    as [(url & Hu & Hn & _) _].
  - left. by apply (bool_decide_unpack _).
  - exists url. split; [exact Hu|exact Hn].
Defined.

End AddressFacts.

(** ** The "now playing" slot *)

Section SlotFacts.

Implicit Types st : State.

Lemma slotOwns_ext st st' :
  audioCache st' = audioCache st → playBtns st' = playBtns st →
  currentlyPlaying st' = currentlyPlaying st → slotOwns st → slotOwns st'.
Proof. unfold slotOwns. by intros -> -> ->. Qed.

Lemma silent_ext st st' :
  audioCache st' = audioCache st → playBtns st' = playBtns st →
  currentlyPlaying st' = currentlyPlaying st → silent st → silent st'.
Proof. unfold silent. by intros -> -> ->. Qed.

Lemma silent_slotOwns st : silent st → slotOwns st.
Proof.
  intros (Ha & Hb & _). split.
  - intros a x Hx Hp. apply Ha in Hx. congruence.
  - intros b x Hx Hp. apply Hb in Hx. congruence.
Qed.

(** Pausing the audio of the slot leaves every audio paused. *)
Lemma pause_slot_audio st (f : Audio → Audio) :
  slotOwns st → (∀ x, paused (f x) = true) →
  ∀ a x,
    match audio (currentlyPlaying st) with
    | Some a0 => alter f a0 (audioCache st)
    | None => audioCache st
    end !! a = Some x → paused x = true.
Proof.
  intros [Ha _] Hf a x.
  destruct (audio (currentlyPlaying st)) as [a0|] eqn:Ea.
  - rewrite lookup_alter. case_decide as Hd.
    + subst. destruct (audioCache st !! a); simpl; [|done]. by intros [= <-].
    + intros Hx. destruct (paused x) eqn:Hp; [done|].
      specialize (Ha _ _ Hx Hp). congruence.
  - intros Hx. destruct (paused x) eqn:Hp; [done|].
    specialize (Ha _ _ Hx Hp). congruence.
Qed.

(** Resetting the button of the slot leaves every sentence button idle. *)
Lemma reset_slot_btn st :
  slotOwns st →
  ∀ b x,
    match btn (currentlyPlaying st) with
    | Some b0 => <[b0 := sentenceIdle]> (playBtns st)
    | None => playBtns st
    end !! b = Some x → is_playing x = false.
Proof.
  intros [_ Hb] b x.
  destruct (btn (currentlyPlaying st)) as [b0|] eqn:Eb.
  - rewrite lookup_insert. case_decide as Hd; [by intros [= <-]|].
    intros Hx. destruct (is_playing x) eqn:Hp; [|done].
    specialize (Hb _ _ Hx Hp). congruence.
  - intros Hx. destruct (is_playing x) eqn:Hp; [|done].
    specialize (Hb _ _ Hx Hp). congruence.
Qed.

Lemma stopCurrentAudio_audioCache st :
  audioCache (stopCurrentAudio st) =
    match audio (currentlyPlaying st) with
    | Some a0 => alter (λ x, mkAudio true 0 (missing x) (wired x)) a0 (audioCache st)
    | None => audioCache st
    end.
Proof.
  unfold stopCurrentAudio.
  by destruct (audio (currentlyPlaying st)), (btn (currentlyPlaying st)).
Qed.

Lemma stopCurrentAudio_playBtns st :
  playBtns (stopCurrentAudio st) =
    match btn (currentlyPlaying st) with
    | Some b0 => <[b0 := sentenceIdle]> (playBtns st)
    | None => playBtns st
    end.
Proof.
  unfold stopCurrentAudio.
  by destruct (audio (currentlyPlaying st)), (btn (currentlyPlaying st)).
Qed.

Lemma stopCurrentAudio_slot st :
  currentlyPlaying (stopCurrentAudio st) = mkNowPlaying None None.
Proof. done. Qed.

Lemma stopCurrentAudio_silent st : slotOwns st → silent (stopCurrentAudio st).
Proof.
  intros Hst. split; [|split; [|done]].
  - rewrite stopCurrentAudio_audioCache. by apply pause_slot_audio.
  - rewrite stopCurrentAudio_playBtns. by apply reset_slot_btn.
Qed.

Lemma stopCurrentAudio_slotOwns st : slotOwns st → slotOwns (stopCurrentAudio st).
Proof. intros. by apply silent_slotOwns, stopCurrentAudio_silent. Qed.

Lemma getOrCreateAudio_slotOwns url st :
  slotOwns st → slotOwns (getOrCreateAudio url st).
Proof.
  intros [Ha Hb]. unfold getOrCreateAudio.
  destruct (audioCache st !! url) eqn:E; [done|]. split; [|done].
  intros a x. simpl. rewrite lookup_insert. case_decide; [by intros [= <-]|].
  apply Ha.
Qed.

(** Binding a new pair in a silent state and starting it. *)
Lemma install_slotOwns st st' a sb :
  silent st →
  (∀ a', a' ≠ a → audioCache st' !! a' = audioCache st !! a') →
  playBtns st' = match sb with
                 | Some b => <[b := sentencePlaying]> (playBtns st)
                 | None => playBtns st
                 end →
  currentlyPlaying st' = mkNowPlaying (Some a) sb →
  slotOwns st'.
Proof.
  intros (Ha & Hb & _) Hcache Hbtns Hslot. split.
  - intros a' x Hx Hp. rewrite Hslot. simpl.
    destruct (decide (a' = a)) as [->|Hne]; [done|].
    rewrite Hcache in Hx by done. apply Ha in Hx. congruence.
  - intros b x. rewrite Hbtns, Hslot. simpl. destruct sb as [b0|].
    + rewrite lookup_insert. case_decide; [by subst|].
      intros Hx Hp. apply Hb in Hx. congruence.
    + intros Hx Hp. apply Hb in Hx. congruence.
Qed.

Lemma playOne_slotOwns url sb st : slotOwns st → slotOwns (playOne url sb st).
Proof.
  intros Hst.
  apply (install_slotOwns (stopCurrentAudio (getOrCreateAudio url st)) _ url sb).
  - by apply stopCurrentAudio_silent, getOrCreateAudio_slotOwns.
  - intros a' Hne. unfold playOne. destruct sb; simpl.
    all: by rewrite !lookup_alter_ne.
  - unfold playOne. by destruct sb.
  - done.
Qed.

Lemma stopLessonPlayback_silent st : slotOwns st → silent (stopLessonPlayback st).
Proof.
  intros Hst. unfold stopLessonPlayback.
  set (st1 := set_lessonPlayback _ st).
  assert (silent (stopCurrentAudio st1)) as Hs.
  { apply stopCurrentAudio_silent. revert Hst. by apply slotOwns_ext. }
  destruct (lessonBtn _); [|done]. revert Hs. by apply silent_ext.
Qed.

Lemma onSentenceClick_slotOwns playBtn a st :
  slotOwns st → slotOwns (onSentenceClick playBtn a st).
Proof.
  intros Hst. unfold onSentenceClick.
  set (st1 := if running (lessonPlayback st) then _ else st).
  assert (slotOwns st1) as H1.
  { subst st1. destruct (running _); [|done].
    by apply silent_slotOwns, stopLessonPlayback_silent. }
  set (st2 := match audio (currentlyPlaying st1) with Some _ => _ | None => _ end).
  assert (slotOwns st2) as H2.
  { subst st2. destruct (audio (currentlyPlaying st1)); [|done].
    case_bool_decide; [|done]. by apply stopCurrentAudio_slotOwns. }
  destruct (_ && _).
  - by apply stopCurrentAudio_slotOwns.
  - apply (install_slotOwns (stopCurrentAudio st2) _ a (Some playBtn)).
    + by apply stopCurrentAudio_silent.
    + intros a' Hne. simpl. by rewrite lookup_alter_ne.
    + done.
    + done.
Qed.

Lemma onPlaySettled_slotOwns a ok st :
  slotOwns st → slotOwns (onPlaySettled a ok st).
Proof.
  intros Hst. unfold onPlaySettled. destruct ok; [done|].
  apply stopCurrentAudio_slotOwns. destruct Hst as [Ha Hb]. split; [|done].
  intros a' x. simpl. rewrite lookup_alter. case_decide.
  - subst. destruct (audioCache st !! a') eqn:E; simpl; [|done].
    intros [= <-]. simpl. by apply Ha.
  - apply Ha.
Qed.

(** A change of audio fields other than [paused]. *)
Lemma alter_audio_slotOwns (f : Audio → Audio) a st :
  (∀ x, paused (f x) = paused x) →
  slotOwns st → slotOwns (set_audioCache (alter f a) st).
Proof.
  intros Hf [Ha Hb]. split; [|done].
  intros a' x. simpl. rewrite lookup_alter. case_decide; [|apply Ha].
  subst. destruct (audioCache st !! a') eqn:E; simpl; [|done].
  intros [= <-]. rewrite Hf. by apply Ha.
Qed.

Lemma finishRun_slotOwns r st : slotOwns st → slotOwns (finishRun r st).
Proof.
  intros Hst. unfold finishRun.
  case_bool_decide; [|done].
  eapply slotOwns_ext; [..|apply stopCurrentAudio_slotOwns]; [done..|].
  revert Hst. by apply slotOwns_ext.
Qed.

Lemma playLessonInOrder_slotOwns r i st :
  slotOwns st → slotOwns (playLessonInOrder r i st).1.
Proof.
  intros Hst. unfold playLessonInOrder.
  destruct (urls r !! i); [|done].
  case_bool_decide; [done|]. by apply playOne_slotOwns.
Qed.

Lemma afterPlayOne_slotOwns r st : slotOwns st → slotOwns (afterPlayOne r st).1.
Proof.
  intros Hst. unfold afterPlayOne.
  case_bool_decide; [|by apply playLessonInOrder_slotOwns].
  by case_bool_decide.
Qed.

Lemma afterSleep_slotOwns r st : slotOwns st → slotOwns (afterSleep r st).1.
Proof. apply playLessonInOrder_slotOwns. Qed.

Lemma afterReject_slotOwns r st : slotOwns st → slotOwns (afterReject r st).1.
Proof. done. Qed.

Section Resume.

Variable f : Run → State → State * Outcome.
Hypothesis f_slotOwns : ∀ r st, slotOwns st → slotOwns (f r st).1.

Lemma dispatch_slotOwns sel rs st :
  slotOwns st → slotOwns (dispatch f sel rs st).1.
Proof.
  revert st. induction rs as [|r rs IH]; intros st Hst; simpl; [done|].
  destruct (sel r).
  - pose proof (f_slotOwns r st Hst) as Hf.
    destruct (f r st) as [st1 [r'|r']]; simpl in Hf.
    + specialize (IH st1 Hf). by destruct (dispatch f sel rs st1).
    + apply IH. by apply finishRun_slotOwns.
  - specialize (IH st Hst). by destruct (dispatch f sel rs st).
Qed.

Lemma resumeAll_slotOwns sel st : slotOwns st → slotOwns (resumeAll f sel st).
Proof.
  intros Hst. unfold resumeAll.
  pose proof (dispatch_slotOwns sel (runs st) st Hst) as Hd.
  by destruct (dispatch f sel (runs st) st).
Qed.

Lemma resumeAt_slotOwns k st : slotOwns st → slotOwns (resumeAt k f st).
Proof.
  intros Hst. unfold resumeAt. destruct (runs st !! k) as [r|]; [|done].
  pose proof (f_slotOwns r st Hst) as Hf.
  destruct (f r st) as [st1 [r'|r']]; simpl in Hf; [done|].
  by apply finishRun_slotOwns.
Qed.

End Resume.

Lemma onLessonClick_slotOwns b us ref st :
  slotOwns st → slotOwns (onLessonClick b us ref st).
Proof.
  intros Hst. unfold onLessonClick. destruct (running _).
  { by apply silent_slotOwns, stopLessonPlayback_silent. }
  match goal with |- context [playLessonInOrder ?r 0%nat ?s] =>
    pose proof (playLessonInOrder_slotOwns r 0%nat s) as Hp;
    destruct (playLessonInOrder r 0%nat s) as [st1 [r'|r']] end.
  - apply Hp. revert Hst. by apply slotOwns_ext.
  - apply finishRun_slotOwns, Hp. revert Hst. by apply slotOwns_ext.
Qed.

Lemma render_slotOwns view st : slotOwns st → slotOwns (render view st).
Proof.
  intros Hst. unfold render. destruct view as [[language sentences]|]; [|done].
  by destruct (collectUrls language sentences).
Qed.

Lemma attachAudioButton_slotOwns playBtn language sentence st :
  slotOwns st → slotOwns (attachAudioButton playBtn language sentence st).
Proof.
  intros Hst. unfold attachAudioButton.
  destruct (buildAudioUrl language sentence) as [url|]; [|done].
  apply (slotOwns_ext (setWired (Some url) (getOrCreateAudio (Some url) st)));
    [done..|].
  apply alter_audio_slotOwns; [done|]. by apply getOrCreateAudio_slotOwns.
Qed.

Lemma onSentenceChecked_slotOwns myToken i exists_ st :
  slotOwns st → slotOwns (onSentenceChecked myToken i exists_ st).
Proof.
  intros Hst. unfold onSentenceChecked.
  destruct (renders st !! myToken) as [r|]; [|done].
  destruct (r_sentences r !! i) as [[|c s]|]; [done| |done].
  destruct (sentenceUrls r !! i); [|done].
  case_bool_decide; [done|]. destruct exists_; [|done]. simpl.
  apply attachAudioButton_slotOwns.
  destruct Hst as [Ha Hb]. split; [done|].
  intros b x. simpl. rewrite lookup_insert. case_decide; [by intros [= <-]|].
  apply Hb.
Qed.

Lemma onLessonChecked_slotOwns myToken results st :
  slotOwns st → slotOwns (onLessonChecked myToken results st).
Proof.
  intros Hst. unfold onLessonChecked.
  destruct (renders st !! myToken) as [r|]; [|done].
  by destruct (_ && _).
Qed.

(** Every listener keeps the slot the owner of what plays. *)
Lemma step_slotOwns e st : slotOwns st → slotOwns (step e st).
Proof.
  intros Hst. destruct e; simpl.
  - by apply render_slotOwns, silent_slotOwns, stopLessonPlayback_silent.
  - by apply onSentenceChecked_slotOwns.
  - by apply onLessonChecked_slotOwns.
  - destruct (clickAudio st !! playBtn); [|done].
    by apply onSentenceClick_slotOwns.
  - destruct (lessonClick st !! b) as [[us ref]|]; [|done].
    by apply onLessonClick_slotOwns.
  - destruct (pendingPlays st !! k); [|done].
    by apply onPlaySettled_slotOwns.
  - destruct (runs st !! k) as [r|]; [|done].
    destruct (suspended r) as [[|]|]; [done| |done].
    destruct ok; [done|].
    by apply resumeAt_slotOwns; [apply afterReject_slotOwns|].
  - destruct (runs st !! k) as [r|]; [|done].
    destruct (suspended r); [done|].
    by apply resumeAt_slotOwns; [apply afterSleep_slotOwns|].
  - apply resumeAll_slotOwns; [apply afterPlayOne_slotOwns|].
    set (st1 := set_audioCache _ st).
    assert (slotOwns st1) as H1.
    { destruct Hst as [Ha Hb]. split; [|done].
      intros a' x. simpl. rewrite lookup_alter. case_decide; [|apply Ha].
      subst. destruct (audioCache st !! a'); simpl; [|done]. by intros [= <-]. }
    unfold wiredEnded. destruct (audioCache st1 !! a); [|done].
    destruct (_ && _); [|done]. by apply stopCurrentAudio_slotOwns.
  - apply resumeAll_slotOwns; [apply afterReject_slotOwns|].
    unfold wiredError. destruct (audioCache st !! a); [|done].
    destruct (wired _); [|done].
    assert (slotOwns (setMissing a st)) as H1 by by apply alter_audio_slotOwns.
    case_bool_decide; [|done]. by apply stopCurrentAudio_slotOwns.
  - destruct (isPaused a st); [done|]. by apply alter_audio_slotOwns.
Qed.

Lemma exec_app es1 es2 st : exec (es1 ++ es2) st = exec es2 (exec es1 st).
Proof. apply foldl_app. Qed.

Lemma exec_slotOwns es st : slotOwns st → slotOwns (exec es st).
Proof.
  revert st. induction es as [|e es IH]; intros st Hst; [done|].
  simpl. by apply IH, step_slotOwns.
Qed.

Lemma init_slotOwns : slotOwns init.
Proof. split; intros ? ?; simpl; by rewrite lookup_empty. Qed.

(** At most one entry of a finite map satisfies a predicate that pins the key. *)
Lemma filter_pinned_key `{Countable K} {V} (P : K * V → Prop)
    `{∀ kv, Decision (P kv)} (m : gmap K V) (k0 : option K) :
  (∀ k v, m !! k = Some v → P (k, v) → k0 = Some k) →
  (length (filter P (map_to_list m)) ≤ 1)%nat.
Proof.
  intros Hpin.
  assert (∀ l : list (K * V), NoDup l.*1 →
            (∀ k v, (k, v) ∈ l → P (k, v) → k0 = Some k) →
            (length (filter P l) ≤ 1)%nat) as Hl.
  { induction l as [|[k v] l IH]; intros Hnd Hall; simpl; [lia|].
    apply NoDup_cons in Hnd as [Hk Hnd]. rewrite filter_cons.
    assert (length (filter P l) ≤ 1)%nat as IH'.
    { apply IH; [done|]. intros k' v' Hin. apply Hall. by right. }
    case_decide as HP; [|done]. simpl.
    destruct (filter P l) as [|[k' v'] l'] eqn:El; [simpl; lia|].
    exfalso. assert ((k', v') ∈ filter P l) as Hin by (rewrite El; left).
    apply list_elem_of_filter in Hin as [HP' Hin'].
    assert (k0 = Some k) by (eapply Hall; [left|done]).
    assert (k0 = Some k') by (eapply Hall; [by right|done]).
    apply Hk. replace k with k' by congruence.
    apply list_elem_of_fmap. by exists (k', v'). }
  apply Hl.
  - apply NoDup_fst_map_to_list.
  - intros k v Hin. apply Hpin. by apply elem_of_map_to_list.
Qed.

Lemma slotOwns_activeSessions st : slotOwns st → (activeSessions st ≤ 1)%nat.
Proof.
  intros [Ha _]. unfold activeSessions.
  apply (filter_pinned_key _ _ (audio (currentlyPlaying st))).
  intros k v. apply Ha.
Qed.

Lemma slotOwns_activeButtons st : slotOwns st → (activeButtons st ≤ 1)%nat.
Proof.
  intros [_ Hb]. unfold activeButtons.
  apply (filter_pinned_key _ _ (btn (currentlyPlaying st))).
  intros k v. apply Hb.
Qed.

End SlotFacts.

(** ** Cancelling *)

(** Reduce a field read through the field updates around it. *)
Ltac fields :=
  cbn [audioCache currentlyPlaying lessonPlayback renderToken renders playBtns
       lessonBtns clickAudio lessonClick nextBtn pendingPlays runs finished
       trace set_audioCache set_currentlyPlaying set_lessonPlayback
       set_renderToken set_renders set_playBtns set_lessonBtns set_clickAudio
       set_lessonClick set_nextBtn set_pendingPlays set_runs set_finished
       set_trace log running token lessonBtn audio btn].

Section CancelFacts.

Implicit Types st : State.

Lemma filter_none {A} (P : A → Prop) `{∀ x, Decision (P x)} (l : list A) :
  (∀ x, x ∈ l → ¬ P x) → filter P l = [].
Proof.
  induction l as [|x l IH]; intros Hall; [done|].
  rewrite filter_cons_False by (apply Hall; left).
  apply IH. intros y Hy. apply Hall. by right.
Qed.

Lemma silent_activeSessions st : silent st → activeSessions st = 0%nat.
Proof.
  intros (Ha & _ & _). unfold activeSessions.
  rewrite filter_none; [done|].
  intros [k v] Hin%elem_of_map_to_list. simpl.
  apply Ha in Hin. congruence.
Qed.

Lemma silent_activeButtons st : silent st → activeButtons st = 0%nat.
Proof.
  intros (_ & Hb & _). unfold activeButtons.
  rewrite filter_none; [done|].
  intros [k v] Hin%elem_of_map_to_list. simpl.
  apply Hb in Hin. congruence.
Qed.

Lemma incr_exact n : n < 2 ^ 53 → incr n = n + 1.
Proof. unfold incr. intros. destruct (Z.ltb_spec n (2 ^ 53)); lia. Qed.

Lemma stopCurrentAudio_trace st :
  trace (stopCurrentAudio st) = trace st ++ stopCalls st.
Proof.
  unfold stopCurrentAudio, stopCalls.
  destruct (audio (currentlyPlaying st)), (btn (currentlyPlaying st)); simpl;
    by rewrite ?app_nil_r.
Qed.

Lemma stopCurrentAudio_lessonPlayback st :
  lessonPlayback (stopCurrentAudio st) = lessonPlayback st.
Proof.
  unfold stopCurrentAudio.
  by destruct (audio (currentlyPlaying st)), (btn (currentlyPlaying st)).
Qed.

Lemma stopCurrentAudio_lessonBtns st :
  lessonBtns (stopCurrentAudio st) = lessonBtns st.
Proof.
  unfold stopCurrentAudio.
  by destruct (audio (currentlyPlaying st)), (btn (currentlyPlaying st)).
Qed.

Lemma stopLessonPlayback_unfold st :
  stopLessonPlayback st =
    let st1 := stopCurrentAudio
                 (set_lessonPlayback
                    (λ lp, mkLessonPlayback false (incr (token lp)) (lessonBtn lp))
                    st) in
    match lessonBtn (lessonPlayback st) with
    | Some b => set_lessonBtns (<[b := lessonIdle]>) st1
    | None => st1
    end.
Proof. unfold stopLessonPlayback. by rewrite stopCurrentAudio_lessonPlayback. Qed.

Lemma stopLessonPlayback_lessonPlayback st :
  lessonPlayback (stopLessonPlayback st) =
    mkLessonPlayback false (incr (token (lessonPlayback st)))
      (lessonBtn (lessonPlayback st)).
Proof.
  rewrite stopLessonPlayback_unfold. cbv zeta.
  destruct (lessonBtn (lessonPlayback st)) eqn:E; fields;
    rewrite ?stopCurrentAudio_lessonPlayback; fields; by rewrite ?E.
Qed.

Lemma stopLessonPlayback_slot st :
  currentlyPlaying (stopLessonPlayback st) = mkNowPlaying None None.
Proof.
  rewrite stopLessonPlayback_unfold. cbv zeta.
  by destruct (lessonBtn (lessonPlayback st)).
Qed.

Lemma stopLessonPlayback_trace st :
  trace (stopLessonPlayback st) = trace st ++ stopCalls st.
Proof.
  rewrite stopLessonPlayback_unfold. cbv zeta.
  destruct (lessonBtn (lessonPlayback st)) eqn:E; fields;
    rewrite ?stopCurrentAudio_trace; fields; by rewrite ?E.
Qed.

Lemma stopLessonPlayback_audioCache st :
  audioCache (stopLessonPlayback st) = audioCache (stopCurrentAudio st).
Proof.
  rewrite stopLessonPlayback_unfold. cbv zeta.
  destruct (lessonBtn (lessonPlayback st)) eqn:E; fields;
    rewrite ?stopCurrentAudio_audioCache; fields; by rewrite ?E.
Qed.

Lemma stopLessonPlayback_playBtns st :
  playBtns (stopLessonPlayback st) = playBtns (stopCurrentAudio st).
Proof.
  rewrite stopLessonPlayback_unfold. cbv zeta.
  destruct (lessonBtn (lessonPlayback st)) eqn:E; fields;
    rewrite ?stopCurrentAudio_playBtns; fields; by rewrite ?E.
Qed.

Lemma stopLessonPlayback_lessonBtns st :
  lessonBtns (stopLessonPlayback st) =
    match lessonBtn (lessonPlayback st) with
    | Some b => <[b := lessonIdle]> (lessonBtns st)
    | None => lessonBtns st
    end.
Proof.
  rewrite stopLessonPlayback_unfold. cbv zeta.
  destruct (lessonBtn (lessonPlayback st)) eqn:E; fields;
    rewrite ?stopCurrentAudio_lessonBtns; fields; by rewrite ?E.
Qed.

End CancelFacts.

(** ** Manual play during a lesson run *)

Section ManualFacts.

Implicit Types st : State.

(** stopCurrentAudio and stopLessonPlayback leave the other fields alone. *)

Ltac stop_frame :=
  intros; rewrite ?stopLessonPlayback_unfold; unfold stopCurrentAudio; fields;
  repeat match goal with |- context [match ?o with Some _ => _ | None => _ end] =>
    destruct o end; reflexivity.

Lemma stopCurrentAudio_renderToken st : renderToken (stopCurrentAudio st) = renderToken st.
Proof. stop_frame. Qed.

Lemma stopCurrentAudio_renders st : renders (stopCurrentAudio st) = renders st.
Proof. stop_frame. Qed.

Lemma stopCurrentAudio_clickAudio st : clickAudio (stopCurrentAudio st) = clickAudio st.
Proof. stop_frame. Qed.

Lemma stopCurrentAudio_lessonClick st : lessonClick (stopCurrentAudio st) = lessonClick st.
Proof. stop_frame. Qed.

Lemma stopCurrentAudio_nextBtn st : nextBtn (stopCurrentAudio st) = nextBtn st.
Proof. stop_frame. Qed.

Lemma stopCurrentAudio_pendingPlays st : pendingPlays (stopCurrentAudio st) = pendingPlays st.
Proof. stop_frame. Qed.

Lemma stopCurrentAudio_runs st : runs (stopCurrentAudio st) = runs st.
Proof. stop_frame. Qed.

Lemma stopCurrentAudio_finished st : finished (stopCurrentAudio st) = finished st.
Proof. stop_frame. Qed.

Lemma stopLessonPlayback_renderToken st : renderToken (stopLessonPlayback st) = renderToken st.
Proof. stop_frame. Qed.

Lemma stopLessonPlayback_renders st : renders (stopLessonPlayback st) = renders st.
Proof. stop_frame. Qed.

Lemma stopLessonPlayback_clickAudio st : clickAudio (stopLessonPlayback st) = clickAudio st.
Proof. stop_frame. Qed.

Lemma stopLessonPlayback_lessonClick st : lessonClick (stopLessonPlayback st) = lessonClick st.
Proof. stop_frame. Qed.

Lemma stopLessonPlayback_nextBtn st : nextBtn (stopLessonPlayback st) = nextBtn st.
Proof. stop_frame. Qed.

Lemma stopLessonPlayback_pendingPlays st : pendingPlays (stopLessonPlayback st) = pendingPlays st.
Proof. stop_frame. Qed.

Lemma stopLessonPlayback_runs st : runs (stopLessonPlayback st) = runs st.
Proof. stop_frame. Qed.

Lemma stopLessonPlayback_finished st : finished (stopLessonPlayback st) = finished st.
Proof. stop_frame. Qed.

Lemma onSentenceClick_from_idle playBtn a st :
  running (lessonPlayback st) = false →
  currentlyPlaying st = mkNowPlaying None None →
  onSentenceClick playBtn a st =
    set_pendingPlays (λ l, l ++ [a])
      (play a
         (set_currentlyPlaying (λ _, mkNowPlaying (Some a) (Some playBtn))
            (set_playBtns (<[playBtn := sentencePlaying]>) (stopCurrentAudio st)))).
Proof.
  intros Hrun Hslot. unfold onSentenceClick. rewrite Hrun, Hslot. simpl.
  by rewrite Hslot.
Qed.

Lemma onSentenceClick_running playBtn a st :
  running (lessonPlayback st) = true →
  onSentenceClick playBtn a st = onSentenceClick playBtn a (stopLessonPlayback st).
Proof.
  intros Hrun. unfold onSentenceClick at 1 2. rewrite Hrun.
  by rewrite stopLessonPlayback_lessonPlayback.
Qed.

(** C3. A click on a sentence button while the sequencer is running (and
    the token is below 2^53): the listener is stopLessonPlayback followed
    by what the listener does in an idle state.  The token has grown by
    one and differs from the token of every earlier run, the sequencer is
    idle, the lesson button is reset, the calls made are the pause of the
    audio that was in the slot and only then play() of the clicked clip
    (never the toggle-off branch), and the clicked pair is in the slot
    while every other audio is silent. *)
Theorem manual_play_cancels_run st playBtn a :
  running (lessonPlayback st) = true →
  token (lessonPlayback st) < 2 ^ 53 →
  clickAudio st !! playBtn = Some a →
  let st' := step (ClickSentence playBtn) st in
  st' = onSentenceClick playBtn a (stopLessonPlayback st)
  ∧ token (lessonPlayback st') = token (lessonPlayback st) + 1
  ∧ (∀ r : Run, runToken r ≤ token (lessonPlayback st) →
       token (lessonPlayback st') ≠ runToken r)
  ∧ running (lessonPlayback st') = false
  ∧ (∀ b, lessonBtn (lessonPlayback st) = Some b →
       lessonBtns st' !! b = Some lessonIdle)
  ∧ trace st' = trace st ++ stopCalls st ++ [CallPlay a]
  ∧ currentlyPlaying st' = mkNowPlaying (Some a) (Some playBtn)
  ∧ playBtns st' !! playBtn = Some sentencePlaying
  ∧ pendingPlays st' = pendingPlays st ++ [a]
  ∧ (slotOwns st →
       ∀ a' x, audioCache st' !! a' = Some x → a' ≠ a → paused x = true).
Proof.
  intros Hrun Htok Hclick st'. subst st'. simpl. rewrite Hclick.
  rewrite onSentenceClick_running by done.
  split; [done|].
  pose proof (stopLessonPlayback_lessonPlayback st) as Hlp.
  pose proof (stopLessonPlayback_slot st) as Hslot.
  rewrite onSentenceClick_from_idle by (by rewrite ?Hlp).
  unfold play. fields. rewrite stopCurrentAudio_lessonPlayback, Hlp.
  rewrite stopCurrentAudio_lessonBtns, stopLessonPlayback_lessonBtns.
  rewrite stopCurrentAudio_trace, stopLessonPlayback_trace.
  unfold stopCalls at 2. rewrite Hslot. fields.
  rewrite incr_exact by done.
  repeat split.
  - intros r Hr. lia.
  - intros b ->. by rewrite lookup_insert_eq.
  - by rewrite app_nil_r, app_assoc.
  - by rewrite lookup_insert_eq.
  - by rewrite stopCurrentAudio_pendingPlays, stopLessonPlayback_pendingPlays.
  - intros Hown a' x Hx Hne. rewrite lookup_alter_ne in Hx by done.
    pose proof (stopLessonPlayback_silent st Hown) as Hs.
    apply silent_slotOwns, stopCurrentAudio_silent in Hs as [Hs _].
    by eapply Hs.
Qed.

Lemma manual_play_cancels_run_witness :
  let st := exec [ClickLesson 2] demoState in
  let st' := step (ClickSentence 1) st in
  token (lessonPlayback st') = token (lessonPlayback st) + 1
  ∧ running (lessonPlayback st') = false
  ∧ currentlyPlaying st'
    = mkNowPlaying (Some (Some (str "Audio/English/Go..m4a"))) (Some 1%nat).
Proof.
  destruct (manual_play_cancels_run (exec [ClickLesson 2] demoState) 1%nat
              (Some (str "Audio/English/Go..m4a")))
    as (_ & Ht & _ & Hr & _ & _ & Hs & _).
  - vm_compute. reflexivity.
  - vm_compute. reflexivity.
  - vm_compute. reflexivity.
  - split; [exact Ht|]. split; [exact Hr|exact Hs].
Defined.

End ManualFacts.

(** ** Lesson runs *)

Section RunFacts.

Implicit Types st : State.
Implicit Types r : Run.

Ltac run_frame :=
  intros;
  unfold playLessonInOrder, afterPlayOne, afterSleep, afterReject, finishRun,
    playOne, play, setCurrentTime, getOrCreateAudio, stopCurrentAudio;
  repeat (fields;
          match goal with
          | |- context [match ?o with Some _ => _ | None => _ end] => destruct o
          | |- context [if ?b then _ else _] => destruct b
          end);
  fields; reflexivity.

Lemma playOne_lessonPlayback url sb st :
  lessonPlayback (playOne url sb st) = lessonPlayback st.
Proof. run_frame. Qed.

Lemma playOne_runs url sb st : runs (playOne url sb st) = runs st.
Proof. run_frame. Qed.

Lemma playOne_finished url sb st : finished (playOne url sb st) = finished st.
Proof. run_frame. Qed.

Lemma playOne_lessonClick url sb st : lessonClick (playOne url sb st) = lessonClick st.
Proof. run_frame. Qed.

Lemma playOne_trace url sb st :
  trace (playOne url sb st) = trace st ++ stopCalls st ++ [CallPlay url].
Proof.
  unfold playOne, play, setCurrentTime. fields.
  destruct sb; fields; rewrite stopCurrentAudio_trace.
  all: unfold getOrCreateAudio, stopCalls.
  all: destruct (audioCache st !! url); fields; by rewrite app_assoc.
Qed.

(** What the loop functions leave alone. *)
Lemma playLessonInOrder_frame r i st :
  let st' := (playLessonInOrder r i st).1 in
  lessonPlayback st' = lessonPlayback st ∧ runs st' = runs st
  ∧ finished st' = finished st ∧ lessonClick st' = lessonClick st.
Proof.
  unfold playLessonInOrder. destruct (urls r !! i); [|done].
  case_bool_decide; [done|]. cbn [fst].
  by rewrite playOne_lessonPlayback, playOne_runs, playOne_finished,
    playOne_lessonClick.
Qed.

Lemma afterPlayOne_frame r st :
  let st' := (afterPlayOne r st).1 in
  lessonPlayback st' = lessonPlayback st ∧ runs st' = runs st
  ∧ finished st' = finished st ∧ lessonClick st' = lessonClick st.
Proof.
  unfold afterPlayOne. case_bool_decide; [|apply playLessonInOrder_frame].
  by case_bool_decide.
Qed.

Lemma afterSleep_frame r st :
  let st' := (afterSleep r st).1 in
  lessonPlayback st' = lessonPlayback st ∧ runs st' = runs st
  ∧ finished st' = finished st ∧ lessonClick st' = lessonClick st.
Proof. apply playLessonInOrder_frame. Qed.

Lemma finishRun_finished r st : finished (finishRun r st) = finished st ++ [r].
Proof.
  unfold finishRun. case_bool_decide; [|done]. fields.
  by rewrite stopCurrentAudio_finished.
Qed.

Lemma finishRun_lessonClick r st : lessonClick (finishRun r st) = lessonClick st.
Proof.
  unfold finishRun. case_bool_decide; [|done]. fields.
  by rewrite stopCurrentAudio_lessonClick.
Qed.

Lemma finishRun_runs r st : runs (finishRun r st) = runs st.
Proof.
  unfold finishRun. case_bool_decide; [|done]. fields.
  by rewrite stopCurrentAudio_runs.
Qed.

(** *** The canonical order *)

Lemma canonFrom_cons2 j u v rest :
  canonFrom j (u :: v :: rest) =
    StartClip j u :: ClipEnded j :: StartDelay j 1000 :: DelayOver j ::
      canonFrom (S j) (v :: rest).
Proof. done. Qed.

Lemma canonFrom_lookup us : ∀ j i u,
  us !! i = Some u →
  canonFrom j us !! (4 * i)%nat = Some (StartClip (j + i) u)
  ∧ canonFrom j us !! (4 * i + 1)%nat = Some (ClipEnded (j + i))
  ∧ ((S i < length us)%nat →
       canonFrom j us !! (4 * i + 2)%nat = Some (StartDelay (j + i) 1000)
       ∧ canonFrom j us !! (4 * i + 3)%nat = Some (DelayOver (j + i))).
Proof.
  induction us as [|u0 us IH]; intros j i u Hu; [done|].
  destruct i as [|i].
  - simpl in Hu. injection Hu as ->. rewrite Nat.add_0_r.
    destruct us as [|v us]; (split; [done|split; [done|]]).
    + simpl. lia.
    + done.
  - simpl in Hu. destruct us as [|v us]; [done|].
    rewrite canonFrom_cons2.
    replace (4 * S i)%nat with (S (S (S (S (4 * i))))) by lia.
    destruct (IH (S j) i u Hu) as (H0 & H1 & H23).
    replace (j + S i)%nat with (S j + i)%nat by lia.
    split; [done|split; [done|]].
    intros Hlt. apply H23. simpl in *. lia.
Qed.

Lemma take_prefix_of {A} n (l : list A) : take n l `prefix_of` l.
Proof. exists (drop n l). by rewrite take_drop. Qed.

Lemma onTrack_inOrder r : onTrack r → inOrder r.
Proof. intros (_ & _ & H). unfold inOrder. rewrite H. apply take_prefix_of. Qed.

Lemma take_snoc {A} n (l : list A) x :
  l !! n = Some x → take n l ++ [x] = take (S n) l.
Proof. intros. by erewrite take_S_r. Qed.

Ltac run_fields :=
  cbn [urls btnsRef runToken runBtn index suspended history step_to fst snd
       outcomeIs].

Lemma playLessonInOrder_onTrack r i st :
  history r = take (4 * i) (canonFrom 0 (urls r)) →
  outcomeIs onTrack inOrder (playLessonInOrder r i st).2.
Proof.
  intros Hh. unfold playLessonInOrder.
  destruct (urls r !! i) as [url|] eqn:Hu; run_fields.
  2:{ unfold inOrder. rewrite Hh. apply take_prefix_of. }
  case_bool_decide; run_fields.
  { unfold inOrder. rewrite Hh. apply take_prefix_of. }
  destruct (canonFrom_lookup (urls r) 0 i url Hu) as (H0 & _).
  unfold onTrack, position. run_fields.
  split; [by rewrite Hu|split; [done|]].
  rewrite Hh.
  replace (4 * i + 1)%nat with (S (4 * i)) by lia. by apply take_snoc.
Qed.

Lemma afterPlayOne_onTrack r st :
  onTrack r → suspended r ≠ AwaitSleep →
  outcomeIs onTrack inOrder (afterPlayOne r st).2.
Proof.
  intros ([url Hu] & _ & Hh) Hs. unfold afterPlayOne.
  unfold position in Hh. destruct (suspended r) eqn:Es; [|done].
  destruct (canonFrom_lookup (urls r) 0 (index r) url Hu) as (_ & H1 & H23).
  rewrite Nat.add_0_l in H1, H23.
  assert (history r ++ [ClipEnded (index r)]
          = take (4 * index r + 2) (canonFrom 0 (urls r))) as Hh1.
  { rewrite Hh. replace (4 * index r + 2)%nat with (S (4 * index r + 1)) by lia.
    by apply take_snoc. }
  cbv zeta. run_fields. case_bool_decide as Hlt.
  - destruct (H23 Hlt) as [H2 _].
    case_bool_decide; run_fields.
    + unfold inOrder. run_fields. rewrite Hh1. apply take_prefix_of.
    + unfold onTrack, position. run_fields.
      split; [by rewrite Hu|split; [done|]]. rewrite Hh1.
      replace (4 * index r + 3)%nat with (S (4 * index r + 2)) by lia.
      by apply take_snoc.
  - unfold playLessonInOrder. run_fields.
    rewrite (proj2 (lookup_ge_None (urls r) (S (index r)))) by lia.
    unfold inOrder. run_fields. rewrite Hh1. apply take_prefix_of.
Qed.

Lemma afterSleep_onTrack r st :
  onTrack r → suspended r = AwaitSleep →
  outcomeIs onTrack inOrder (afterSleep r st).2.
Proof.
  intros ([url Hu] & Hlt & Hh) Hs. specialize (Hlt Hs).
  unfold afterSleep. apply playLessonInOrder_onTrack. run_fields.
  unfold position in Hh. rewrite Hs in Hh.
  destruct (canonFrom_lookup (urls r) 0 (index r) url Hu) as (_ & _ & H23).
  destruct (H23 Hlt) as [_ H3]. rewrite Nat.add_0_l in H3.
  rewrite Hh. replace (4 * S (index r))%nat with (S (4 * index r + 3)) by lia.
  by apply take_snoc.
Qed.

Lemma settled_onTrack r :
  onTrack r → suspended r = AwaitPlayOne false →
  onTrack (step_to r (index r) (AwaitPlayOne true) []).
Proof.
  intros (Hu & _ & Hh) Hs. unfold onTrack, position in *. run_fields.
  split; [done|split; [done|]].
  rewrite app_nil_r, Hh. by rewrite Hs.
Qed.

(** *** Invariants of the pool of runs *)

Section Pool.

(** [Qp] for suspended runs, [Qf] for runs that returned, [L] for the
    closures of lesson-button listeners. *)
Variables (Qp Qf : Run → Prop) (L : list Url * Z → Prop).

Hypothesis Q_start : ∀ us ref tok b st,
  L (us, ref) →
  outcomeIs Qp Qf (playLessonInOrder (mkRun us ref tok b 0 AwaitSleep []) 0 st).2.
Hypothesis Q_afterPlayOne : ∀ r st,
  Qp r → suspended r ≠ AwaitSleep → outcomeIs Qp Qf (afterPlayOne r st).2.
Hypothesis Q_afterSleep : ∀ r st,
  Qp r → suspended r = AwaitSleep → outcomeIs Qp Qf (afterSleep r st).2.
Hypothesis Q_reject : ∀ r, Qp r → Qf r.
Hypothesis Q_settled : ∀ r,
  Qp r → suspended r = AwaitPlayOne false →
  Qp (step_to r (index r) (AwaitPlayOne true) []).
Hypothesis L_gate : ∀ us results tok myToken,
  lessonGate us results tok myToken = true → L (us, myToken).

Local Abbreviation poolOk := (poolOk Qp Qf L).

Lemma poolOk_ext st st' :
  runs st' = runs st → finished st' = finished st →
  lessonClick st' = lessonClick st → poolOk st → poolOk st'.
Proof. unfold poolOk. by intros -> -> ->. Qed.

Lemma finishRun_poolOk r st : Qf r → poolOk st → poolOk (finishRun r st).
Proof.
  intros Hr (Hp & Hf & Hl). unfold poolOk.
  rewrite finishRun_runs, finishRun_finished, finishRun_lessonClick.
  split; [done|split; [|done]]. apply Forall_app. by split; [|constructor].
Qed.

(** Resuming with [f] the runs of [rs] selected by [sel]. *)
Lemma dispatch_poolOk (f : Run → State → State * Outcome) sel :
  (∀ r st, Qp r → sel r = true → outcomeIs Qp Qf (f r st).2) →
  (∀ r st, finished (f r st).1 = finished st
           ∧ lessonClick (f r st).1 = lessonClick st) →
  ∀ rs st, Forall Qp rs → Forall Qf (finished st) →
    (∀ b c, lessonClick st !! b = Some c → L c) →
    let '(st', rs') := dispatch f sel rs st in
    Forall Qp rs' ∧ Forall Qf (finished st')
    ∧ (∀ b c, lessonClick st' !! b = Some c → L c).
Proof.
  intros Hf Hframe. induction rs as [|r rs IH]; intros st Hrs Hfin Hl; simpl.
  { done. }
  apply Forall_cons in Hrs as [Hr Hrs].
  destruct (sel r) eqn:Hsel.
  - specialize (Hf r st Hr Hsel). destruct (Hframe r st) as [Hff Hfl].
    destruct (f r st) as [st1 [r'|r']]; simpl in *.
    + specialize (IH st1 Hrs). rewrite Hff, Hfl in IH.
      specialize (IH Hfin Hl).
      destruct (dispatch f sel rs st1) as [st2 rs2].
      destruct IH as (? & ? & ?). by repeat split; [constructor|..].
    + apply IH; [done|..].
      * rewrite finishRun_finished, Hff. apply Forall_app.
        by split; [|constructor].
      * by rewrite finishRun_lessonClick, Hfl.
  - specialize (IH st Hrs Hfin Hl).
    destruct (dispatch f sel rs st) as [st2 rs2].
    destruct IH as (? & ? & ?). by repeat split; [constructor|..].
Qed.

Lemma resumeAll_poolOk (f : Run → State → State * Outcome) sel st :
  (∀ r st, Qp r → sel r = true → outcomeIs Qp Qf (f r st).2) →
  (∀ r st, finished (f r st).1 = finished st
           ∧ lessonClick (f r st).1 = lessonClick st) →
  poolOk st → poolOk (resumeAll f sel st).
Proof.
  intros Hf Hframe (Hp & Hfin & Hl). unfold resumeAll.
  pose proof (dispatch_poolOk f sel Hf Hframe (runs st) st Hp Hfin Hl) as Hd.
  destruct (dispatch f sel (runs st) st) as [st' rs']. done.
Qed.

Lemma resumeAt_poolOk (f : Run → State → State * Outcome) k st r :
  runs st !! k = Some r →
  outcomeIs Qp Qf (f r st).2 →
  runs (f r st).1 = runs st ∧ finished (f r st).1 = finished st
    ∧ lessonClick (f r st).1 = lessonClick st →
  poolOk st → poolOk (resumeAt k f st).
Proof.
  intros Hk Hf (Hfr & Hff & Hfl) (Hp & Hfin & Hl). unfold resumeAt.
  rewrite Hk. destruct (f r st) as [st1 [r'|r']]; simpl in *.
  - split; [|split]; simpl; rewrite ?Hfr, ?Hff, ?Hfl; try done.
    apply Forall_insert; done.
  - apply finishRun_poolOk; [done|].
    split; [|split]; simpl; rewrite ?Hfr, ?Hff, ?Hfl; try done.
    by apply Forall_delete.
Qed.

Ltac handler_frame :=
  intros; repeat match goal with x := _ |- _ => subst x end;
  unfold render, onSentenceChecked, attachAudioButton, onSentenceClick,
    onPlaySettled, wiredEnded, wiredError, offerLessonButton, setMissing,
    setWired, setCurrentTime, play, getOrCreateAudio;
  repeat (fields; rewrite ?stopLessonPlayback_runs, ?stopLessonPlayback_finished,
            ?stopLessonPlayback_lessonClick, ?stopCurrentAudio_runs,
            ?stopCurrentAudio_finished, ?stopCurrentAudio_lessonClick;
          match goal with
          | |- context [match ?o with Some _ => _ | None => _ end] => destruct o
          | |- context [match ?o with [] => _ | _ :: _ => _ end] => destruct o
          | |- context [if ?b then _ else _] => destruct b
          | |- context [let '(_, _) := ?p in _] => destruct p
          end);
  fields; rewrite ?stopLessonPlayback_runs, ?stopLessonPlayback_finished,
            ?stopLessonPlayback_lessonClick, ?stopCurrentAudio_runs,
            ?stopCurrentAudio_finished, ?stopCurrentAudio_lessonClick;
  repeat split; reflexivity.

Lemma render_pool view st :
  runs (render view st) = runs st ∧ finished (render view st) = finished st
  ∧ lessonClick (render view st) = lessonClick st.
Proof. handler_frame. Qed.

Lemma onSentenceChecked_pool myToken i exists_ st :
  let st' := onSentenceChecked myToken i exists_ st in
  runs st' = runs st ∧ finished st' = finished st
  ∧ lessonClick st' = lessonClick st.
Proof. handler_frame. Qed.

Lemma onSentenceClick_pool playBtn a st :
  let st' := onSentenceClick playBtn a st in
  runs st' = runs st ∧ finished st' = finished st
  ∧ lessonClick st' = lessonClick st.
Proof. handler_frame. Qed.

Lemma onPlaySettled_pool a ok st :
  let st' := onPlaySettled a ok st in
  runs st' = runs st ∧ finished st' = finished st
  ∧ lessonClick st' = lessonClick st.
Proof. handler_frame. Qed.

Lemma wiredEnded_pool a st :
  let st' := wiredEnded a st in
  runs st' = runs st ∧ finished st' = finished st
  ∧ lessonClick st' = lessonClick st.
Proof. handler_frame. Qed.

Lemma wiredError_pool a st :
  let st' := wiredError a st in
  runs st' = runs st ∧ finished st' = finished st
  ∧ lessonClick st' = lessonClick st.
Proof. handler_frame. Qed.

Lemma awaits_not_sleeping a r : awaits a r = true → suspended r ≠ AwaitSleep.
Proof. unfold awaits. by destruct (suspended r). Qed.

Lemma onLessonClick_poolOk b us ref st :
  L (us, ref) → poolOk st → poolOk (onLessonClick b us ref st).
Proof.
  intros HL Hst. unfold onLessonClick. destruct (running _).
  { revert Hst. apply poolOk_ext.
    - apply stopLessonPlayback_runs.
    - apply stopLessonPlayback_finished.
    - apply stopLessonPlayback_lessonClick. }
  match goal with |- context [playLessonInOrder ?r 0%nat ?s] =>
    pose proof (Q_start us ref (runToken r) b s HL) as Hq;
    pose proof (playLessonInOrder_frame r 0%nat s) as (_ & Hr & Hf & Hl);
    cbn [runToken] in Hq;
    destruct (playLessonInOrder r 0%nat s) as [st1 [r'|r']] end.
  - destruct Hst as (Hp & Hfin & Hlc). simpl in *.
    split; [|split]; simpl; rewrite ?Hr, ?Hf, ?Hl; try done.
    apply Forall_app. by split; [|constructor].
  - apply finishRun_poolOk; [done|]. revert Hst. by apply poolOk_ext.
Qed.

(** Every listener keeps the pool invariant. *)
Lemma step_poolOk e st : poolOk st → poolOk (step e st).
Proof.
  intros Hst. destruct e; simpl.
  - destruct (render_pool view (stopLessonPlayback st)) as (Hr & Hf & Hl).
    revert Hst. apply poolOk_ext.
    + by rewrite Hr, stopLessonPlayback_runs.
    + by rewrite Hf, stopLessonPlayback_finished.
    + by rewrite Hl, stopLessonPlayback_lessonClick.
  - destruct (onSentenceChecked_pool myToken i exists_ st) as (Hr & Hf & Hl).
    revert Hst. by apply poolOk_ext.
  - unfold onLessonChecked. destruct (renders st !! myToken) as [r|]; [|done].
    destruct (r_complete r && _) eqn:Hg; [|done].
    apply andb_true_iff in Hg as [_ Hg]. apply L_gate in Hg.
    destruct Hst as (Hp & Hfin & Hlc). split; [done|split; [done|]].
    intros b c. unfold offerLessonButton. fields.
    rewrite lookup_insert. case_decide; [by intros [= <-]|]. apply Hlc.
  - destruct (clickAudio st !! playBtn) as [a|]; [|done].
    destruct (onSentenceClick_pool playBtn a st) as (Hr & Hf & Hl).
    revert Hst. by apply poolOk_ext.
  - destruct (lessonClick st !! b) as [[us ref]|] eqn:Hb; [|done].
    apply onLessonClick_poolOk; [|done].
    destruct Hst as (_ & _ & Hlc). by eapply Hlc.
  - destruct (pendingPlays st !! k) as [a|]; [|done].
    destruct (onPlaySettled_pool a ok (set_pendingPlays (delete k) st))
      as (Hr & Hf & Hl).
    revert Hst. by apply poolOk_ext.
  - destruct (runs st !! k) as [r|] eqn:Hk; [|done].
    destruct (suspended r) as [[|]|] eqn:Hs; [done| |done].
    assert (Qp r) as Hr.
    { destruct Hst as (Hp & _). by eapply Forall_lookup_1. }
    destruct ok.
    + destruct Hst as (Hp & Hfin & Hlc). split; [|done]. simpl.
      apply Forall_insert; [done|]. by apply Q_settled.
    + eapply resumeAt_poolOk; [done| |done|done]. by apply Q_reject.
  - destruct (runs st !! k) as [r|] eqn:Hk; [|done].
    destruct (suspended r) eqn:Hs; [done|].
    assert (Qp r) as Hr.
    { destruct Hst as (Hp & _). by eapply Forall_lookup_1. }
    eapply resumeAt_poolOk; [done| | |done].
    + by apply Q_afterSleep.
    + destruct (afterSleep_frame r st) as (_ & ? & ? & ?). done.
  - apply resumeAll_poolOk.
    + intros r st' Hr Hsel. apply Q_afterPlayOne; [done|].
      by eapply awaits_not_sleeping.
    + intros r st'. destruct (afterPlayOne_frame r st') as (_ & _ & ? & ?). done.
    + match goal with |- poolOk (wiredEnded a ?s) =>
        destruct (wiredEnded_pool a s) as (Hr & Hf & Hl) end.
      revert Hst. by apply poolOk_ext.
  - apply resumeAll_poolOk.
    + intros r st' Hr Hsel. by apply Q_reject.
    + done.
    + destruct (wiredError_pool a st) as (Hr & Hf & Hl).
      revert Hst. by apply poolOk_ext.
  - destruct (isPaused a st); [done|]. revert Hst. by apply poolOk_ext.
Qed.

Lemma exec_poolOk es st : poolOk st → poolOk (exec es st).
Proof.
  revert st. induction es as [|e es IH]; intros st Hst; [done|].
  simpl. by apply IH, step_poolOk.
Qed.

Lemma init_poolOk : poolOk init.
Proof.
  split; [constructor|split; [constructor|]].
  intros b c. simpl. by rewrite lookup_empty.
Qed.

End Pool.

End RunFacts.

(** ** Tokens of suspended runs *)

Section TokenFacts.

Implicit Types st : State.
Implicit Types r : Run.

Lemma incr_ge n : n ≤ incr n.
Proof. unfold incr. destruct (n <? 2 ^ 53); lia. Qed.

Lemma tokensBelow_ext st st' :
  runs st' = runs st →
  token (lessonPlayback st) ≤ token (lessonPlayback st') →
  tokensBelow st → tokensBelow st'.
Proof.
  unfold tokensBelow. intros -> Hle Hst.
  eapply Forall_impl; [exact Hst|]. intros r Hr. simpl in Hr. lia.
Qed.

Lemma playLessonInOrder_runToken r i st :
  outcomeIs (λ r', runToken r' = runToken r) (λ r', runToken r' = runToken r)
    (playLessonInOrder r i st).2.
Proof.
  unfold playLessonInOrder. destruct (urls r !! i); [|done].
  by case_bool_decide.
Qed.

Lemma afterPlayOne_runToken r st :
  outcomeIs (λ r', runToken r' = runToken r) (λ r', runToken r' = runToken r)
    (afterPlayOne r st).2.
Proof.
  unfold afterPlayOne. cbv zeta. case_bool_decide.
  - by case_bool_decide.
  - apply (playLessonInOrder_runToken (step_to r _ _ _)).
Qed.

Lemma afterSleep_runToken r st :
  outcomeIs (λ r', runToken r' = runToken r) (λ r', runToken r' = runToken r)
    (afterSleep r st).2.
Proof. apply (playLessonInOrder_runToken (step_to r _ _ _)). Qed.

Lemma finishRun_token r st :
  token (lessonPlayback (finishRun r st)) = token (lessonPlayback st).
Proof.
  unfold finishRun. case_bool_decide; [|done]. fields.
  by rewrite stopCurrentAudio_lessonPlayback.
Qed.

Section Resume.

Variable f : Run → State → State * Outcome.
Hypothesis f_runToken : ∀ r st,
  outcomeIs (λ r', runToken r' = runToken r) (λ _, True) (f r st).2.
Hypothesis f_token : ∀ r st,
  token (lessonPlayback (f r st).1) = token (lessonPlayback st).

Lemma dispatch_tokens sel (t : Z) : ∀ rs st,
  token (lessonPlayback st) = t → Forall (λ r, runToken r ≤ t) rs →
  token (lessonPlayback (dispatch f sel rs st).1) = t
  ∧ Forall (λ r, runToken r ≤ t) (dispatch f sel rs st).2.
Proof.
  induction rs as [|r rs IH]; intros st Ht Hrs; simpl; [done|].
  apply Forall_cons in Hrs as [Hr Hrs].
  destruct (sel r).
  - pose proof (f_runToken r st) as Hk. pose proof (f_token r st) as Hm.
    destruct (f r st) as [st1 [r'|r']]; simpl in *.
    + destruct (IH st1) as [? ?]; [congruence|done|].
      destruct (dispatch f sel rs st1). simpl in *.
      split; [done|]. constructor; [lia|done].
    + apply IH; [|done]. rewrite finishRun_token. congruence.
  - destruct (IH st Ht Hrs) as [? ?].
    destruct (dispatch f sel rs st). simpl in *. by split; [|constructor].
Qed.

Lemma resumeAll_tokensBelow sel st :
  tokensBelow st → tokensBelow (resumeAll f sel st)
  ∧ token (lessonPlayback (resumeAll f sel st)) = token (lessonPlayback st).
Proof.
  intros Hst. unfold resumeAll, tokensBelow.
  destruct (dispatch_tokens sel _ (runs st) st eq_refl Hst) as [Ht Hr].
  destruct (dispatch f sel (runs st) st). simpl in *. rewrite Ht. done.
Qed.

Hypothesis f_runs : ∀ r st, runs (f r st).1 = runs st.

Lemma resumeAt_tokensBelow k st :
  tokensBelow st → tokensBelow (resumeAt k f st)
  ∧ token (lessonPlayback (resumeAt k f st)) = token (lessonPlayback st).
Proof.
  intros Hst. unfold resumeAt, tokensBelow.
  destruct (runs st !! k) as [r|] eqn:Hk; [|done].
  pose proof (f_runToken r st) as Hq. pose proof (f_token r st) as Hm.
  pose proof (f_runs r st) as Hrs.
  assert (runToken r ≤ token (lessonPlayback st)) as Hr.
  { unfold tokensBelow in Hst. rewrite Forall_forall in Hst.
    apply Hst. by eapply list_elem_of_lookup_2. }
  destruct (f r st) as [st1 [r'|r']]; cbn [fst snd outcomeIs] in *.
  - fields. rewrite Hrs, Hm. split; [|done]. apply Forall_insert; [done|lia].
  - rewrite finishRun_token, finishRun_runs. fields. rewrite Hrs, Hm.
    split; [|done]. by apply Forall_delete.
Qed.

End Resume.

Lemma outcomeIs_weaken (P Q : Run → Prop) o :
  outcomeIs P Q o → outcomeIs P (λ _, True) o.
Proof. by destruct o. Qed.

Lemma stopLessonPlayback_token_ge st :
  token (lessonPlayback st) ≤ token (lessonPlayback (stopLessonPlayback st)).
Proof. rewrite stopLessonPlayback_lessonPlayback. simpl. apply incr_ge. Qed.

Lemma onSentenceClick_token_ge playBtn a st :
  token (lessonPlayback st)
  ≤ token (lessonPlayback (onSentenceClick playBtn a st)).
Proof.
  unfold onSentenceClick.
  set (st1 := if running (lessonPlayback st) then _ else st).
  assert (token (lessonPlayback st) ≤ token (lessonPlayback st1)) as H1.
  { subst st1. destruct (running _); [apply stopLessonPlayback_token_ge|done]. }
  set (st2 := match audio (currentlyPlaying st1) with Some _ => _ | None => _ end).
  assert (lessonPlayback st2 = lessonPlayback st1) as H2.
  { subst st2. destruct (audio (currentlyPlaying st1)); [|done].
    destruct (bool_decide _); [apply stopCurrentAudio_lessonPlayback|done]. }
  destruct (_ && _).
  - by rewrite stopCurrentAudio_lessonPlayback, H2.
  - unfold play. fields. by rewrite stopCurrentAudio_lessonPlayback, H2.
Qed.

Lemma onLessonClick_tokensBelow b us ref st :
  tokensBelow st →
  tokensBelow (onLessonClick b us ref st)
  ∧ token (lessonPlayback st) ≤ token (lessonPlayback (onLessonClick b us ref st)).
Proof.
  intros Hst. unfold onLessonClick. destruct (running _).
  { split; [|apply stopLessonPlayback_token_ge].
    revert Hst. apply tokensBelow_ext;
      [apply stopLessonPlayback_runs|apply stopLessonPlayback_token_ge]. }
  match goal with |- context [playLessonInOrder ?r 0%nat ?s] =>
    pose proof (playLessonInOrder_runToken r 0%nat s) as Hq;
    pose proof (playLessonInOrder_frame r 0%nat s) as (Hlp & Hr & _);
    cbv zeta in Hlp, Hr; cbn [runToken] in Hq;
    destruct (playLessonInOrder r 0%nat s) as [st1 [r'|r']] end;
    simpl in Hq, Hlp, Hr; fields.
  - rewrite Hlp. fields. split; [|apply incr_ge].
    unfold tokensBelow. fields. rewrite Hr, Hlp. fields.
    apply Forall_app. split.
    + eapply Forall_impl; [exact Hst|]. intros r Hle. simpl in Hle.
      pose proof (incr_ge (token (lessonPlayback st))). lia.
    + constructor; [|constructor]. rewrite Hq. done.
  - rewrite finishRun_token, Hlp. fields. split; [|apply incr_ge].
    unfold tokensBelow. rewrite finishRun_runs, finishRun_token, Hr, Hlp. fields.
    eapply Forall_impl; [exact Hst|]. intros r Hle. simpl in Hle.
    pose proof (incr_ge (token (lessonPlayback st))). lia.
Qed.

Ltac lp_frame :=
  intros; repeat match goal with x := _ |- _ => subst x end;
  unfold render, onSentenceChecked, onLessonChecked, attachAudioButton,
    onPlaySettled, wiredEnded, wiredError, offerLessonButton, setMissing,
    setWired, setCurrentTime, play, getOrCreateAudio;
  repeat (fields; rewrite ?stopCurrentAudio_lessonPlayback;
          match goal with
          | |- context [match ?o with Some _ => _ | None => _ end] => destruct o
          | |- context [match ?o with [] => _ | _ :: _ => _ end] => destruct o
          | |- context [if ?b then _ else _] => destruct b
          | |- context [let '(_, _) := ?p in _] => destruct p
          end);
  fields; rewrite ?stopCurrentAudio_lessonPlayback; fields; reflexivity.

Lemma render_token view st :
  token (lessonPlayback (render view st)) = token (lessonPlayback st).
Proof. lp_frame. Qed.

Lemma onSentenceChecked_token myToken i exists_ st :
  token (lessonPlayback (onSentenceChecked myToken i exists_ st))
  = token (lessonPlayback st).
Proof. lp_frame. Qed.

Lemma onLessonChecked_token myToken results st :
  token (lessonPlayback (onLessonChecked myToken results st))
  = token (lessonPlayback st).
Proof. lp_frame. Qed.

Lemma onLessonChecked_runs myToken results st :
  runs (onLessonChecked myToken results st) = runs st.
Proof. lp_frame. Qed.

Lemma onPlaySettled_token a ok st :
  token (lessonPlayback (onPlaySettled a ok st)) = token (lessonPlayback st).
Proof. lp_frame. Qed.

Lemma wiredEnded_token a st :
  token (lessonPlayback (wiredEnded a st)) = token (lessonPlayback st).
Proof. lp_frame. Qed.

Lemma wiredError_token a st :
  token (lessonPlayback (wiredError a st)) = token (lessonPlayback st).
Proof. lp_frame. Qed.

(** Every listener keeps the tokens of suspended runs below the current
    token, which never decreases. *)
Lemma step_tokensBelow e st :
  tokensBelow st →
  tokensBelow (step e st)
  ∧ token (lessonPlayback st) ≤ token (lessonPlayback (step e st)).
Proof.
  intros Hst.
  assert (∀ st', runs st' = runs st →
            token (lessonPlayback st) ≤ token (lessonPlayback st') →
            tokensBelow st'
            ∧ token (lessonPlayback st) ≤ token (lessonPlayback st')) as Hext.
  { intros st' Hr Ht. split; [|done]. revert Hst. by apply tokensBelow_ext. }
  destruct e; simpl.
  - apply Hext.
    + destruct (render_pool view (stopLessonPlayback st)) as (-> & _).
      apply stopLessonPlayback_runs.
    + rewrite render_token. apply stopLessonPlayback_token_ge.
  - apply Hext.
    + by destruct (onSentenceChecked_pool myToken i exists_ st) as (-> & _).
    + by rewrite onSentenceChecked_token.
  - apply Hext; [apply onLessonChecked_runs|by rewrite onLessonChecked_token].
  - destruct (clickAudio st !! playBtn) as [a|]; [|by apply Hext].
    apply Hext.
    + by destruct (onSentenceClick_pool playBtn a st) as (-> & _).
    + apply onSentenceClick_token_ge.
  - destruct (lessonClick st !! b) as [[us ref]|]; [|by apply Hext].
    by apply onLessonClick_tokensBelow.
  - destruct (pendingPlays st !! k) as [a|]; [|by apply Hext].
    apply Hext.
    + by destruct (onPlaySettled_pool a ok (set_pendingPlays (delete k) st))
        as (-> & _).
    + by rewrite onPlaySettled_token.
  - destruct (runs st !! k) as [r|] eqn:Hk; [|by apply Hext].
    destruct (suspended r) as [[|]|]; [by apply Hext| |by apply Hext].
    destruct ok.
    + split; [|done]. unfold tokensBelow. fields.
      apply Forall_insert; [done|]. simpl.
      unfold tokensBelow in Hst. rewrite Forall_forall in Hst.
      apply Hst. by eapply list_elem_of_lookup_2.
    + destruct (resumeAt_tokensBelow afterReject) with (k := k) (st := st)
        as [? ->]; done.
  - destruct (runs st !! k) as [r|] eqn:Hk; [|by apply Hext].
    destruct (suspended r); [by apply Hext|].
    destruct (resumeAt_tokensBelow afterSleep) with (k := k) (st := st)
      as [? ->]; try done.
    + intros r0 st0. eapply outcomeIs_weaken, afterSleep_runToken.
    + intros r0 st0. by destruct (afterSleep_frame r0 st0) as (-> & _).
    + intros r0 st0. by destruct (afterSleep_frame r0 st0) as (_ & -> & _).
  - match goal with |- context [resumeAll _ _ ?s] => set (st1 := s) end.
    assert (tokensBelow st1
            ∧ token (lessonPlayback st1) = token (lessonPlayback st)) as [H1 E1].
    { subst st1. rewrite wiredEnded_token. split; [|done].
      revert Hst. apply tokensBelow_ext.
      - match goal with |- runs (wiredEnded a ?s) = _ =>
          by destruct (wiredEnded_pool a s) as (-> & _) end.
      - by rewrite wiredEnded_token. }
    destruct (resumeAll_tokensBelow afterPlayOne) with (sel := awaits a) (st := st1)
      as [? ->]; try done.
    + intros r0 st0. eapply outcomeIs_weaken, afterPlayOne_runToken.
    + intros r0 st0. by destruct (afterPlayOne_frame r0 st0) as (-> & _).
    + split; [done|]. by rewrite E1.
  - set (st1 := wiredError a st).
    assert (tokensBelow st1
            ∧ token (lessonPlayback st1) = token (lessonPlayback st)) as [H1 E1].
    { subst st1. rewrite wiredError_token. split; [|done].
      revert Hst. apply tokensBelow_ext.
      - by destruct (wiredError_pool a st) as (-> & _).
      - by rewrite wiredError_token. }
    destruct (resumeAll_tokensBelow afterReject) with (sel := awaits a) (st := st1)
      as [? ->]; try done.
    split; [done|]. by rewrite E1.
  - destruct (isPaused a st); by apply Hext.
Qed.

Lemma exec_tokensBelow es : ∀ st, tokensBelow st → tokensBelow (exec es st).
Proof.
  induction es as [|e es IH]; intros st Hst; [done|].
  simpl. apply IH. by apply step_tokensBelow.
Qed.

Lemma init_tokensBelow : tokensBelow init.
Proof. constructor. Qed.

(** C4. stopLessonPlayback, called in any state whose token is below 2^53
    (where [token++] is exact): the token grows by one, so it differs from
    the token of every run started before; the sequencer is idle; the slot
    is empty; the audio that was in the slot is paused and rewound; the
    button that was in the slot shows the idle glyph and the lesson button
    shows "Play lesson"; if no suspended run had a token above the current
    one (which [exec_tokensBelow] shows of every state the page reaches),
    every suspended run now holds a token other than the current one; and
    if the slot owned everything that played, no audio sounds and no
    sentence button shows as playing any more. *)
Theorem stopLessonPlayback_cancels st :
  token (lessonPlayback st) < 2 ^ 53 →
  let st' := stopLessonPlayback st in
  token (lessonPlayback st') = token (lessonPlayback st) + 1
  ∧ (∀ r : Run, runToken r ≤ token (lessonPlayback st) →
       token (lessonPlayback st') ≠ runToken r)
  ∧ running (lessonPlayback st') = false
  ∧ currentlyPlaying st' = mkNowPlaying None None
  ∧ (∀ a x, audio (currentlyPlaying st) = Some a → audioCache st !! a = Some x →
       audioCache st' !! a = Some (mkAudio true 0 (missing x) (wired x)))
  ∧ (∀ b, btn (currentlyPlaying st) = Some b →
       playBtns st' !! b = Some sentenceIdle)
  ∧ (∀ b, lessonBtn (lessonPlayback st) = Some b →
       lessonBtns st' !! b = Some lessonIdle)
  ∧ (tokensBelow st →
       Forall (λ r, runToken r ≠ token (lessonPlayback st')) (runs st'))
  ∧ (slotOwns st →
       silent st' ∧ activeSessions st' = 0%nat ∧ activeButtons st' = 0%nat).
Proof.
  intros Htok st'. subst st'.
  rewrite stopLessonPlayback_runs, stopLessonPlayback_lessonPlayback,
    stopLessonPlayback_slot, stopLessonPlayback_audioCache, stopLessonPlayback_playBtns,
    stopLessonPlayback_lessonBtns, stopCurrentAudio_audioCache,
    stopCurrentAudio_playBtns.
  simpl. rewrite incr_exact by done.
  repeat split.
  - intros r Hr. lia.
  - intros a x -> Hx. by rewrite lookup_alter_eq, Hx.
  - intros b ->. by rewrite lookup_insert_eq.
  - intros b ->. by rewrite lookup_insert_eq.
  - intros Hst. eapply Forall_impl; [exact Hst|].
    intros r Hr. simpl in Hr. lia.
  - by apply stopLessonPlayback_silent.
  - by apply stopLessonPlayback_silent.
  - by apply stopLessonPlayback_silent.
  - by apply silent_activeSessions, stopLessonPlayback_silent.
  - by apply silent_activeButtons, stopLessonPlayback_silent.
Qed.

Lemma stopLessonPlayback_cancels_witness :
  let st := exec [ClickLesson 2] demoState in
  token (lessonPlayback (stopLessonPlayback st)) = token (lessonPlayback st) + 1
  ∧ running (lessonPlayback (stopLessonPlayback st)) = false
  ∧ currentlyPlaying (stopLessonPlayback st) = mkNowPlaying None None
  ∧ Forall (λ r, runToken r ≠ token (lessonPlayback (stopLessonPlayback st)))
      (runs (stopLessonPlayback st)).
Proof.
  destruct (stopLessonPlayback_cancels (exec [ClickLesson 2] demoState))
    as (Ht & _ & Hr & Hs & _ & _ & _ & Hi & _).
  - vm_compute. reflexivity.
  - split; [exact Ht|]. split; [exact Hr|]. split; [exact Hs|].
    apply Hi. vm_compute. constructor; [discriminate|constructor].
Defined.

End TokenFacts.

(** ** Order of the clips of a run *)

Section OrderFacts.

Implicit Types st : State.
Implicit Types r : Run.

(** In every reachable state the suspended runs are where the canonical
    order puts them and the runs that returned stopped somewhere along it. *)
Lemma exec_inOrder es :
  Forall onTrack (runs (exec es init)) ∧ Forall inOrder (finished (exec es init)).
Proof.
  destruct (exec_poolOk onTrack inOrder (λ _, True)) with (es := es) (st := init)
    as (Hp & Hf & _); [..|done].
  - intros us ref tok b st _. by apply playLessonInOrder_onTrack.
  - apply afterPlayOne_onTrack.
  - apply afterSleep_onTrack.
  - apply onTrack_inOrder.
  - apply settled_onTrack.
  - done.
  - apply init_poolOk.
Qed.

(** A stale token at a check point: the loop returns and touches nothing. *)
Lemma playLessonInOrder_stale r i st :
  token (lessonPlayback st) ≠ runToken r →
  playLessonInOrder r i st = (st, Returned r).
Proof.
  intros Hne. unfold playLessonInOrder. destruct (urls r !! i); [|done].
  by rewrite bool_decide_eq_true_2.
Qed.

Lemma afterPlayOne_stale r st :
  token (lessonPlayback st) ≠ runToken r →
  afterPlayOne r st
  = (st, Returned (step_to r (index r) (suspended r) [ClipEnded (index r)])).
Proof.
  intros Hne. unfold afterPlayOne. cbv zeta. case_bool_decide.
  - by rewrite bool_decide_eq_true_2.
  - by apply playLessonInOrder_stale.
Qed.

Lemma afterSleep_stale r st :
  token (lessonPlayback st) ≠ runToken r →
  afterSleep r st
  = (st, Returned (step_to r (index r) (suspended r) [DelayOver (index r)])).
Proof. intros Hne. unfold afterSleep. by apply playLessonInOrder_stale. Qed.

Lemma finishRun_stale r st :
  token (lessonPlayback st) ≠ runToken r →
  finishRun r st = set_finished (λ l, l ++ [r]) st.
Proof. intros Hne. unfold finishRun. by rewrite bool_decide_eq_false_2. Qed.

Lemma finishRun_live r st :
  token (lessonPlayback st) = runToken r →
  let st' := finishRun r st in
  running (lessonPlayback st') = false
  ∧ token (lessonPlayback st') = token (lessonPlayback st)
  ∧ currentlyPlaying st' = mkNowPlaying None None
  ∧ lessonBtns st' !! runBtn r = Some lessonIdle
  ∧ trace st' = trace st ++ stopCalls st.
Proof.
  intros Heq. unfold finishRun. rewrite bool_decide_eq_true_2 by done.
  fields. rewrite stopCurrentAudio_lessonPlayback, stopCurrentAudio_lessonBtns,
    stopCurrentAudio_trace.
  fields. by rewrite lookup_insert_eq.
Qed.

Lemma plays_app t1 t2 : plays (t1 ++ t2) = plays t1 ++ plays t2.
Proof. apply omap_app. Qed.

Lemma plays_stopCalls st : plays (stopCalls st) = [].
Proof. unfold stopCalls. by destruct (audio (currentlyPlaying st)). Qed.

Lemma stopCurrentAudio_plays st :
  plays (trace (stopCurrentAudio st)) = plays (trace st).
Proof. by rewrite stopCurrentAudio_trace, plays_app, plays_stopCalls, app_nil_r. Qed.

Lemma schedule_app t1 t2 : schedule (t1 ++ t2) = schedule t1 ++ schedule t2.
Proof. apply List.filter_app. Qed.

Lemma schedule_stopCalls st : schedule (stopCalls st) = [].
Proof. unfold stopCalls. by destruct (audio (currentlyPlaying st)). Qed.

Lemma stopCurrentAudio_schedule st :
  schedule (trace (stopCurrentAudio st)) = schedule (trace st).
Proof.
  by rewrite stopCurrentAudio_trace, schedule_app, schedule_stopCalls, app_nil_r.
Qed.

Lemma plays_schedule t : plays (schedule t) = plays t.
Proof.
  induction t as [|c t IH]; [done|]. destruct c; simpl; by rewrite ?IH.
Qed.

Lemma plays_canonCalls us : plays (canonCalls us) = us.
Proof.
  induction us as [|u us IH]; [done|]. destruct us as [|v us]; [done|].
  change (canonCalls (u :: v :: us))
    with (CallPlay u :: CallSleep 1000 :: canonCalls (v :: us)).
  simpl. simpl in IH. by rewrite IH.
Qed.

Lemma canonCalls_head u rest :
  canonCalls (u :: rest) = CallPlay u :: tail (canonCalls (u :: rest)).
Proof. by destruct rest. Qed.

(** What the browser and the wired listener do on "ended", seen from a run. *)
Lemma ended_prelude a st :
  let st' := wiredEnded a
               (set_audioCache
                  (alter (λ x, mkAudio true (currentTime x) (missing x) (wired x)) a)
                  st) in
  lessonPlayback st' = lessonPlayback st ∧ runs st' = runs st
  ∧ finished st' = finished st ∧ plays (trace st') = plays (trace st)
  ∧ schedule (trace st') = schedule (trace st).
Proof.
  intros st'. subst st'. unfold wiredEnded.
  destruct (_ !! a); [|done]. destruct (_ && _); [|done].
  by rewrite stopCurrentAudio_lessonPlayback, stopCurrentAudio_runs,
    stopCurrentAudio_finished, stopCurrentAudio_plays, stopCurrentAudio_schedule.
Qed.

Lemma canonFrom_head j u rest :
  canonFrom j (u :: rest) = StartClip j u :: tail (canonFrom j (u :: rest)).
Proof. by destruct rest. Qed.

Ltac run_fields :=
  cbn [urls btnsRef runToken runBtn index suspended history step_to fst snd].

Lemma naturalEvents_cons2 u v rest :
  naturalEvents (u :: v :: rest)
  = MediaEnded u :: TimerFired 0 :: naturalEvents (v :: rest).
Proof. done. Qed.

Lemma exec_cons e es st : exec (e :: es) st = exec es (step e st).
Proof. done. Qed.

(** An undisturbed run, from the await of one clip to its return. *)
Lemma natural_run rest : ∀ pre st r s,
  rest ≠ [] → urls r = pre ++ rest → index r = length pre →
  suspended r = AwaitPlayOne s → runs st = [r] →
  token (lessonPlayback st) = runToken r →
  let st' := exec (naturalEvents rest) st in
  ∃ r', finished st' = finished st ++ [r']
    ∧ (urls r' = urls r ∧ runToken r' = runToken r)
    ∧ history r' = history r ++ tail (canonFrom (index r) rest)
    ∧ runs st' = []
    ∧ running (lessonPlayback st') = false
    ∧ currentlyPlaying st' = mkNowPlaying None None
    ∧ schedule (trace st') = schedule (trace st) ++ tail (canonCalls rest).
Proof.
  induction rest as [|u rest IH]; intros pre st r s Hne Hu Hi Hs Hr Ht; [done|].
  assert (urls r !! index r = Some u) as Hlook.
  { rewrite Hu, Hi. by rewrite lookup_app_r, Nat.sub_diag by lia. }
  assert (awaits u r = true) as Haw.
  { unfold awaits. rewrite Hs. by apply bool_decide_eq_true_2. }
  destruct (ended_prelude u st) as (Hlp & Hruns & Hfin & _ & Hpl).
  set (st2 := wiredEnded u _) in *.
  destruct rest as [|v rest].
  - (* the last clip *)
    cbn [naturalEvents exec foldl step]. fold st2.
    unfold resumeAll. rewrite Hruns, Hr. cbn [dispatch]. rewrite Haw.
    unfold afterPlayOne. cbv zeta. run_fields.
    rewrite bool_decide_eq_false_2.
    2:{ rewrite Hu, length_app, Hi. simpl. lia. }
    unfold playLessonInOrder. run_fields.
    rewrite (proj2 (lookup_ge_None (urls r) (S (index r)))).
    2:{ rewrite Hu, length_app, Hi. simpl. lia. }
    set (r1 := step_to r (index r) (suspended r) [ClipEnded (index r)]).
    destruct (finishRun_live r1 st2) as (Hrun & _ & Hslot & _ & Htr).
    { by rewrite Hlp. }
    exists r1. fields.
    rewrite finishRun_finished, Hfin, Hrun, Hslot, Htr, schedule_app,
      schedule_stopCalls, Hpl.
    by rewrite !app_nil_r.
  - (* a clip followed by another *)
    cbv zeta. rewrite naturalEvents_cons2, !exec_cons.
    assert (v :: rest ≠ []) as Hne' by done.
    assert (urls r !! S (index r) = Some v) as Hnext.
    { rewrite Hu, Hi. rewrite lookup_app_r by lia.
      by replace (S (length pre) - length pre)%nat with 1%nat by lia. }
    (* "ended" of clip [u] *)
    assert (∃ st3 r2,
      step (MediaEnded u) st = st3 ∧ runs st3 = [r2]
      ∧ r2 = step_to r (index r) AwaitSleep
               [ClipEnded (index r); StartDelay (index r) 1000]
      ∧ lessonPlayback st3 = lessonPlayback st ∧ finished st3 = finished st
      ∧ schedule (trace st3) = schedule (trace st) ++ [CallSleep 1000]) as (st3 & r2 & Hst3 & Hr3 & Hr2 & Hlp3 & Hfin3 & Hpl3).
    { eexists _, _. split; [reflexivity|].
      cbn [step]. fold st2. unfold resumeAll. rewrite Hruns, Hr.
      cbn [dispatch]. rewrite Haw.
      unfold afterPlayOne. cbv zeta. run_fields.
      rewrite bool_decide_eq_true_2.
      2:{ rewrite Hu, length_app, Hi. simpl. lia. }
      rewrite bool_decide_eq_false_2 by (rewrite Hlp; intros ?; done).
      fields. rewrite Hlp, Hfin, schedule_app, Hpl. simpl.
      split; [reflexivity|].
      split; [|done]. unfold step_to. run_fields. by rewrite <- app_assoc. }
    rewrite Hst3. clear Hst3.
    (* the delay is over: clip [v] starts *)
    assert (∃ st4 r4,
      step (TimerFired 0) st3 = st4 ∧ runs st4 = [r4]
      ∧ r4 = step_to r2 (S (index r)) (AwaitPlayOne false)
               [DelayOver (index r); StartClip (S (index r)) v]
      ∧ lessonPlayback st4 = lessonPlayback st ∧ finished st4 = finished st
      ∧ schedule (trace st4)
        = schedule (trace st) ++ [CallSleep 1000; CallPlay v]) as (st4 & r4 & Hst4 & Hr4 & Hr4' & Hlp4 & Hfin4 & Hpl4).
    { subst r2. eexists _, _. split; [reflexivity|].
      cbn [step]. rewrite Hr3. cbn [lookup list_lookup]. run_fields.
      unfold resumeAt. rewrite Hr3. cbn [lookup list_lookup].
      unfold afterSleep. run_fields.
      unfold playLessonInOrder. run_fields. rewrite Hnext.
      rewrite bool_decide_eq_false_2 by (rewrite Hlp3; intros ?; done).
      fields. rewrite playOne_runs, playOne_lessonPlayback, playOne_finished,
        playOne_trace, Hr3, Hlp3, Hfin3, !schedule_app, schedule_stopCalls, Hpl3.
      split; [reflexivity|]. split; [|simpl; by rewrite <- app_assoc].
      unfold step_to. run_fields. by rewrite <- !app_assoc. }
    rewrite Hst4. clear Hst4.
    destruct (IH (pre ++ [u]) st4 r4 false Hne') as
      (r' & Hf' & (Hu' & Hk') & Hh' & Hr' & Hrun' & Hslot' & Hpl').
    + rewrite Hr4', Hr2. run_fields. by rewrite Hu, <- app_assoc.
    + rewrite Hr4'. run_fields. rewrite length_app, Hi. simpl. lia.
    + by rewrite Hr4'.
    + done.
    + rewrite Hlp4, Hr4', Hr2. by run_fields.
    + exists r'.
      rewrite Hf', Hu', Hk', Hh', Hr', Hrun', Hslot', Hpl', Hfin4, Hpl4.
      rewrite Hr4', Hr2. run_fields. repeat split; try done.
      * rewrite canonFrom_cons2. simpl tail.
        destruct rest; simpl; by rewrite <- !app_assoc.
      * rewrite <- app_assoc. f_equal. by destruct rest.
Qed.

(** The lesson button clicked in an idle state with no run suspended, and
    then nothing but the natural events. *)
Lemma full_run st b us ref :
  lessonClick st !! b = Some (us, ref) → us ≠ [] →
  running (lessonPlayback st) = false → token (lessonPlayback st) < 2 ^ 53 →
  runs st = [] →
  let st' := exec (ClickLesson b :: naturalEvents us) st in
  ∃ r, finished st' = finished st ++ [r] ∧ urls r = us
    ∧ runToken r = token (lessonPlayback st) + 1
    ∧ history r = canonFrom 0 us
    ∧ schedule (trace st') = schedule (trace st) ++ canonCalls us
    ∧ runs st' = []
    ∧ running (lessonPlayback st') = false
    ∧ currentlyPlaying st' = mkNowPlaying None None.
Proof.
  intros Hb Hne Hrun Htok Hruns. cbv zeta. rewrite exec_cons.
  destruct us as [|u rest]; [done|].
  cbn [step]. rewrite Hb. unfold onLessonClick. rewrite Hrun.
  unfold playLessonInOrder. run_fields. cbn [lookup list_lookup].
  fields.
  rewrite (bool_decide_eq_false_2 (incr (token (lessonPlayback st))
                                   ≠ incr (token (lessonPlayback st))))
    by (intros H; by apply H).
  rewrite incr_exact by done.
  match goal with |- context [exec _ (set_runs _ (playOne ?x ?y ?z))] =>
    set (st1 := set_runs (λ l, l ++ [_]) (playOne x y z)) end.
  match goal with st1 := set_runs (λ l, l ++ [?r]) _ |- _ => set (r1 := r) in * end.
  destruct (natural_run (u :: rest) [] st1 r1 false) as
    (r' & Hf' & (Hu' & Hk') & Hh' & Hr' & Hrun' & Hslot' & Hpl'); try done.
  - subst st1. fields. rewrite playOne_runs. fields. by rewrite Hruns.
  - subst st1 r1. fields. rewrite playOne_lessonPlayback. fields. run_fields.
    by rewrite incr_exact.
  - exists r'. rewrite Hf', Hu', Hk', Hh', Hr', Hrun', Hslot', Hpl'.
    subst st1 r1. fields. run_fields.
    rewrite playOne_finished, playOne_trace, !schedule_app, schedule_stopCalls.
    fields. rewrite (canonFrom_head 0 u rest) at 2.
    repeat split; try done.
    cbn [schedule List.filter app]. rewrite <- app_assoc. f_equal.
    by destruct rest.
Qed.

End OrderFacts.

(** ** The gate of the lesson button *)

Section GateFacts.

Implicit Types st : State.
Implicit Types r : Run.

Lemma lessonGate_resolved us results tok myToken :
  lessonGate us results tok myToken = true → Forall resolved us.
Proof.
  unfold lessonGate. intros [[Hf _]%andb_true_iff _]%andb_true_iff.
  apply negb_true_iff in Hf. apply Forall_forall. intros u Hu.
  unfold resolved. destruct (falsy u) eqn:E; [|done].
  assert (existsb falsy us = true) as Hex; [|congruence].
  apply existsb_exists. exists u. split; [|done]. by apply list_elem_of_In.
Qed.

Lemma playLessonInOrder_urls r i st :
  outcomeIs (λ r', urls r' = urls r) (λ r', urls r' = urls r)
    (playLessonInOrder r i st).2.
Proof.
  unfold playLessonInOrder. destruct (urls r !! i); [|done].
  by case_bool_decide.
Qed.

Lemma afterPlayOne_urls r st :
  outcomeIs (λ r', urls r' = urls r) (λ r', urls r' = urls r)
    (afterPlayOne r st).2.
Proof.
  unfold afterPlayOne. cbv zeta. case_bool_decide.
  - by case_bool_decide.
  - apply (playLessonInOrder_urls (step_to r _ _ _)).
Qed.

Lemma afterSleep_urls r st :
  outcomeIs (λ r', urls r' = urls r) (λ r', urls r' = urls r)
    (afterSleep r st).2.
Proof. apply (playLessonInOrder_urls (step_to r _ _ _)). Qed.

Lemma outcomeIs_impl (P Q P' Q' : Run → Prop) o :
  (∀ r, P r → P' r) → (∀ r, Q r → Q' r) → outcomeIs P Q o → outcomeIs P' Q' o.
Proof. destruct o; simpl; auto. Qed.

(** In every reachable state the lists held by lesson-button listeners and
    by runs contain resolved addresses only. *)
Lemma exec_gated es :
  let st := exec es init in
  Forall (λ r, Forall resolved (urls r)) (runs st)
  ∧ Forall (λ r, Forall resolved (urls r)) (finished st)
  ∧ (∀ b c, lessonClick st !! b = Some c → Forall resolved c.1).
Proof.
  apply (exec_poolOk (λ r, Forall resolved (urls r))
           (λ r, Forall resolved (urls r)) (λ c, Forall resolved c.1)).
  - intros us ref tok b st Hus.
    eapply outcomeIs_impl; [..|apply playLessonInOrder_urls];
      simpl; by intros r ->.
  - intros r st Hr _.
    eapply outcomeIs_impl; [..|apply afterPlayOne_urls]; simpl; by intros r' ->.
  - intros r st Hr _.
    eapply outcomeIs_impl; [..|apply afterSleep_urls]; simpl; by intros r' ->.
  - done.
  - done.
  - intros us results tok myToken. apply lessonGate_resolved.
  - apply init_poolOk.
Qed.

(** C5, as the script has it.  The sequencer does not look at its list:
    the rule is enforced by render alone.  When some line of the rendered
    lesson has no address, render's async block returns and leaves the state
    as it is: no lesson button, no listener.  So in every reachable state
    the list of every lesson-button listener and of every run holds
    resolved addresses only, and a list with a missing address never
    reaches the sequencer. *)
Theorem lesson_gate_in_render :
  (∀ st myToken results rd,
     renders st !! myToken = Some rd →
     Exists (λ u, falsy u = true) (sentenceUrls rd) →
     onLessonChecked myToken results st = st)
  ∧ (∀ es b us ref,
       lessonClick (exec es init) !! b = Some (us, ref) → Forall resolved us)
  ∧ (∀ es r,
       r ∈ runs (exec es init) ++ finished (exec es init) →
       Forall resolved (urls r)).
Proof.
  split; [|split].
  - intros st myToken results rd Hrd Hex. unfold onLessonChecked. rewrite Hrd.
    unfold lessonGate.
    assert (existsb falsy (sentenceUrls rd) = true) as ->.
    { apply Exists_exists in Hex as (u & Hu & Hf).
      apply existsb_exists. exists u. split; [|done]. by apply list_elem_of_In. }
    simpl. by rewrite andb_false_r.
  - intros es b us ref Hb. destruct (exec_gated es) as (_ & _ & Hl).
    by apply (Hl b (us, ref)).
  - intros es r Hr. destruct (exec_gated es) as (Hp & Hf & _).
    apply elem_of_app in Hr as [Hr|Hr]; revert r Hr; by apply Forall_forall.
Qed.

Lemma lesson_gate_in_render_witness :
  onLessonChecked 1 [true; true]
    (exec [Navigate (Some (str "English", [str "Hi."; []]))] init)
  = exec [Navigate (Some (str "English", [str "Hi."; []]))] init.
Proof.
  eapply (proj1 lesson_gate_in_render).
  - vm_compute. reflexivity.
  - apply Exists_cons_tl, Exists_cons_hd. reflexivity.
Defined.

(** The claim as written fails: handed a list whose second address is
    missing, the lesson-button listener starts the run and plays the first
    clip, and after the delay calls playOne on null. *)
Lemma sequencer_does_not_validate :
  let u := Some (str "Audio/English/Hi..m4a") in
  let st := onLessonClick 0 [u; None] 0 init in
  running (lessonPlayback st) = true
  ∧ trace st = [CallPlay u]
  ∧ audio (currentlyPlaying st) = Some u
  ∧ plays (trace (exec [MediaEnded u; TimerFired 0] st)) = [u; None].
Proof. vm_compute. done. Qed.

End GateFacts.

(** ** Failure to start playback *)

Section FailureFacts.

Implicit Types st : State.
Implicit Types r : Run.

Lemma setMissing_lookup a st x :
  audioCache st !! a = Some x →
  audioCache (setMissing a st) !! a
  = Some (mkAudio (paused x) (currentTime x) true (wired x)).
Proof. intros Hx. unfold setMissing. fields. by rewrite lookup_alter_eq, Hx. Qed.

Lemma stopCurrentAudio_keeps_missing st a x :
  audioCache st !! a = Some x →
  ∃ y, audioCache (stopCurrentAudio st) !! a = Some y ∧ missing y = missing x.
Proof.
  intros Hx. rewrite stopCurrentAudio_audioCache.
  destruct (audio (currentlyPlaying st)) as [a0|]; [|by exists x].
  rewrite lookup_alter. case_decide.
  - subst. rewrite Hx. by eexists.
  - by exists x.
Qed.

(** *** The __missing flag is never cleared *)

Lemma flagsLe_refl m : flagsLe m m.
Proof. intros a x Hx. by exists x. Qed.

Lemma flagsLe_trans m1 m2 m3 : flagsLe m1 m2 → flagsLe m2 m3 → flagsLe m1 m3.
Proof.
  intros H12 H23 a x Hx. destruct (H12 a x Hx) as (y & Hy & Hxy).
  destruct (H23 a y Hy) as (z & Hz & Hyz). exists z. split; [done|auto].
Qed.

Lemma flagsLe_alter (f : Audio → Audio) a m m0 :
  (∀ x, missing x = true → missing (f x) = true) →
  flagsLe m0 m → flagsLe m0 (alter f a m).
Proof.
  intros Hf H0. eapply flagsLe_trans; [exact H0|].
  intros a' x Hx. rewrite lookup_alter. case_decide.
  - subst. rewrite Hx. simpl. eexists. split; [done|apply Hf].
  - by exists x.
Qed.

Lemma keepsFlags_refl st : keepsFlags st st.
Proof. apply flagsLe_refl. Qed.

Lemma keepsFlags_trans st1 st2 st3 :
  keepsFlags st1 st2 → keepsFlags st2 st3 → keepsFlags st1 st3.
Proof. apply flagsLe_trans. Qed.

Lemma keepsFlags_ext st st' :
  audioCache st' = audioCache st → keepsFlags st st'.
Proof. unfold keepsFlags. intros ->. apply flagsLe_refl. Qed.

Lemma getOrCreateAudio_keepsFlags url st : keepsFlags st (getOrCreateAudio url st).
Proof.
  unfold getOrCreateAudio. destruct (audioCache st !! url) eqn:E.
  { apply keepsFlags_refl. }
  intros a x Hx. fields. exists x. split; [|done].
  rewrite lookup_insert_ne; [done|]. congruence.
Qed.

Lemma stopCurrentAudio_keepsFlags st : keepsFlags st (stopCurrentAudio st).
Proof.
  intros a x Hx. destruct (stopCurrentAudio_keeps_missing st a x Hx) as (y & ? & Hm).
  exists y. split; [done|]. by rewrite Hm.
Qed.

Lemma stopLessonPlayback_keepsFlags st : keepsFlags st (stopLessonPlayback st).
Proof.
  eapply keepsFlags_trans; [apply stopCurrentAudio_keepsFlags|].
  apply keepsFlags_ext. apply stopLessonPlayback_audioCache.
Qed.

Lemma playOne_keepsFlags url sb st : keepsFlags st (playOne url sb st).
Proof.
  assert (keepsFlags st (stopCurrentAudio (getOrCreateAudio url st))) as H0.
  { eapply keepsFlags_trans; [apply getOrCreateAudio_keepsFlags|].
    apply stopCurrentAudio_keepsFlags. }
  unfold keepsFlags, playOne, play, setCurrentTime in *.
  destruct sb; fields; by repeat apply flagsLe_alter.
Qed.

Lemma finishRun_keepsFlags r st : keepsFlags st (finishRun r st).
Proof.
  unfold finishRun. case_bool_decide.
  - eapply keepsFlags_trans; [|apply keepsFlags_ext; reflexivity].
    eapply keepsFlags_trans; [|apply stopCurrentAudio_keepsFlags].
    by apply keepsFlags_ext.
  - by apply keepsFlags_ext.
Qed.

Lemma playLessonInOrder_keepsFlags r i st :
  keepsFlags st (playLessonInOrder r i st).1.
Proof.
  unfold playLessonInOrder. destruct (urls r !! i); [|apply keepsFlags_refl].
  case_bool_decide; [apply keepsFlags_refl|]. apply playOne_keepsFlags.
Qed.

Lemma afterPlayOne_keepsFlags r st : keepsFlags st (afterPlayOne r st).1.
Proof.
  unfold afterPlayOne. cbv zeta. case_bool_decide.
  - case_bool_decide; [apply keepsFlags_refl|]. by apply keepsFlags_ext.
  - apply playLessonInOrder_keepsFlags.
Qed.

Lemma afterSleep_keepsFlags r st : keepsFlags st (afterSleep r st).1.
Proof. apply playLessonInOrder_keepsFlags. Qed.

Lemma afterReject_keepsFlags r st : keepsFlags st (afterReject r st).1.
Proof. apply keepsFlags_refl. Qed.

Lemma dispatch_keepsFlags (f : Run → State → State * Outcome) sel :
  (∀ r st, keepsFlags st (f r st).1) →
  ∀ rs st, keepsFlags st (dispatch f sel rs st).1.
Proof.
  intros Hf. induction rs as [|r rs IH]; intros st; simpl.
  { apply keepsFlags_refl. }
  destruct (sel r).
  - specialize (Hf r st). destruct (f r st) as [st1 [r'|r']]; simpl in Hf.
    + specialize (IH st1). destruct (dispatch f sel rs st1).
      by eapply keepsFlags_trans.
    + eapply keepsFlags_trans; [exact Hf|].
      eapply keepsFlags_trans; [apply finishRun_keepsFlags|]. apply IH.
  - specialize (IH st). by destruct (dispatch f sel rs st).
Qed.

Lemma resumeAll_keepsFlags (f : Run → State → State * Outcome) sel st :
  (∀ r st, keepsFlags st (f r st).1) → keepsFlags st (resumeAll f sel st).
Proof.
  intros Hf. unfold resumeAll.
  pose proof (dispatch_keepsFlags f sel Hf (runs st) st) as Hd.
  destruct (dispatch f sel (runs st) st) as [st' rs]. simpl in Hd.
  eapply keepsFlags_trans; [exact Hd|]. by apply keepsFlags_ext.
Qed.

Lemma resumeAt_keepsFlags (f : Run → State → State * Outcome) k st :
  (∀ r st, keepsFlags st (f r st).1) → keepsFlags st (resumeAt k f st).
Proof.
  intros Hf. unfold resumeAt. destruct (runs st !! k) as [r|];
    [|apply keepsFlags_refl].
  specialize (Hf r st). destruct (f r st) as [st1 [r'|r']]; simpl in Hf.
  - eapply keepsFlags_trans; [exact Hf|]. by apply keepsFlags_ext.
  - eapply keepsFlags_trans; [exact Hf|].
    eapply keepsFlags_trans; [|apply finishRun_keepsFlags].
    by apply keepsFlags_ext.
Qed.

Lemma onSentenceClick_keepsFlags playBtn a st :
  keepsFlags st (onSentenceClick playBtn a st).
Proof.
  unfold onSentenceClick.
  set (st1 := if running (lessonPlayback st) then _ else st).
  assert (keepsFlags st st1) as H1.
  { subst st1. destruct (running _);
      [apply stopLessonPlayback_keepsFlags|apply keepsFlags_refl]. }
  set (st2 := match audio (currentlyPlaying st1) with Some _ => _ | None => _ end).
  assert (keepsFlags st1 st2) as H2.
  { subst st2. destruct (audio (currentlyPlaying st1)); [|apply keepsFlags_refl].
    destruct (bool_decide _);
      [apply stopCurrentAudio_keepsFlags|apply keepsFlags_refl]. }
  eapply keepsFlags_trans; [exact H1|]. eapply keepsFlags_trans; [exact H2|].
  destruct (_ && _); [apply stopCurrentAudio_keepsFlags|].
  pose proof (stopCurrentAudio_keepsFlags st2) as H3.
  unfold keepsFlags, play in *. fields. by apply flagsLe_alter.
Qed.

Lemma onLessonClick_keepsFlags b us ref st :
  keepsFlags st (onLessonClick b us ref st).
Proof.
  unfold onLessonClick. destruct (running _);
    [apply stopLessonPlayback_keepsFlags|].
  match goal with |- context [playLessonInOrder ?r 0%nat ?s] =>
    pose proof (playLessonInOrder_keepsFlags r 0%nat s) as Hp;
    destruct (playLessonInOrder r 0%nat s) as [st1 [r'|r']] end; simpl in Hp.
  - eapply keepsFlags_trans; [|apply keepsFlags_ext; reflexivity].
    eapply keepsFlags_trans; [|exact Hp]. by apply keepsFlags_ext.
  - eapply keepsFlags_trans; [|apply finishRun_keepsFlags].
    eapply keepsFlags_trans; [|exact Hp]. by apply keepsFlags_ext.
Qed.

Lemma attachAudioButton_keepsFlags playBtn language sentence st :
  keepsFlags st (attachAudioButton playBtn language sentence st).
Proof.
  unfold attachAudioButton, setWired.
  destruct (buildAudioUrl language sentence) as [url|]; [|apply keepsFlags_refl].
  pose proof (getOrCreateAudio_keepsFlags (Some url) st) as H0.
  unfold keepsFlags in *. fields. by apply flagsLe_alter.
Qed.

(** Every listener keeps the audios and their flags. *)
Lemma step_keepsFlags e st : keepsFlags st (step e st).
Proof.
  destruct e; simpl.
  - eapply keepsFlags_trans; [apply stopLessonPlayback_keepsFlags|].
    apply keepsFlags_ext. unfold render.
    destruct view as [[language sentences]|]; [|done].
    by destruct (collectUrls language sentences).
  - unfold onSentenceChecked.
    destruct (renders st !! myToken) as [rd|]; [|apply keepsFlags_refl].
    destruct (r_sentences rd !! i) as [[|c s]|]; try apply keepsFlags_refl.
    destruct (sentenceUrls rd !! i); [|apply keepsFlags_refl].
    destruct (bool_decide _); [apply keepsFlags_refl|].
    destruct exists_; [|apply keepsFlags_refl]. simpl.
    eapply keepsFlags_trans; [|apply attachAudioButton_keepsFlags].
    by apply keepsFlags_ext.
  - unfold onLessonChecked.
    destruct (renders st !! myToken) as [rd|]; [|apply keepsFlags_refl].
    destruct (_ && _); [|apply keepsFlags_refl]. by apply keepsFlags_ext.
  - destruct (clickAudio st !! playBtn); [|apply keepsFlags_refl].
    apply onSentenceClick_keepsFlags.
  - destruct (lessonClick st !! b) as [[us ref]|]; [|apply keepsFlags_refl].
    apply onLessonClick_keepsFlags.
  - destruct (pendingPlays st !! k) as [a|]; [|apply keepsFlags_refl].
    unfold onPlaySettled, setMissing. destruct ok; [by apply keepsFlags_ext|].
    eapply keepsFlags_trans; [|apply stopCurrentAudio_keepsFlags].
    unfold keepsFlags. fields. apply flagsLe_alter; [done|apply flagsLe_refl].
  - destruct (runs st !! k) as [r|]; [|apply keepsFlags_refl].
    destruct (suspended r) as [[|]|]; try apply keepsFlags_refl.
    destruct ok; [by apply keepsFlags_ext|].
    apply resumeAt_keepsFlags, afterReject_keepsFlags.
  - destruct (runs st !! k) as [r|]; [|apply keepsFlags_refl].
    destruct (suspended r); [apply keepsFlags_refl|].
    apply resumeAt_keepsFlags, afterSleep_keepsFlags.
  - eapply keepsFlags_trans; [|apply resumeAll_keepsFlags, afterPlayOne_keepsFlags].
    set (st1 := set_audioCache _ st).
    assert (keepsFlags st st1) as H1.
    { unfold keepsFlags. subst st1. fields.
      apply flagsLe_alter; [done|apply flagsLe_refl]. }
    eapply keepsFlags_trans; [exact H1|].
    unfold wiredEnded. destruct (_ !! a); [|apply keepsFlags_refl].
    destruct (_ && _); [apply stopCurrentAudio_keepsFlags|apply keepsFlags_refl].
  - eapply keepsFlags_trans; [|apply resumeAll_keepsFlags, afterReject_keepsFlags].
    unfold wiredError, setMissing. destruct (_ !! a); [|apply keepsFlags_refl].
    destruct (wired _); [|apply keepsFlags_refl].
    assert (keepsFlags st (set_audioCache
              (alter (λ x, mkAudio (paused x) (currentTime x) true (wired x)) a)
              st)) as H1.
    { unfold keepsFlags. fields. apply flagsLe_alter; [done|apply flagsLe_refl]. }
    eapply keepsFlags_trans; [exact H1|].
    destruct (bool_decide _);
      [apply stopCurrentAudio_keepsFlags|apply keepsFlags_refl].
  - destruct (isPaused a st); [apply keepsFlags_refl|].
    unfold setCurrentTime, keepsFlags. fields.
    apply flagsLe_alter; [done|apply flagsLe_refl].
Qed.

Lemma exec_keepsFlags es : ∀ st, keepsFlags st (exec es st).
Proof.
  induction es as [|e es IH]; intros st; [apply keepsFlags_refl|].
  simpl. eapply keepsFlags_trans; [apply step_keepsFlags|apply IH].
Qed.

Lemma resumeAt_reject k r st :
  runs st !! k = Some r →
  resumeAt k afterReject st = finishRun r (set_runs (delete k) st).
Proof. intros Hk. unfold resumeAt. by rewrite Hk. Qed.

(** C6, as the script has it.  In the sentence-button listener a rejected
    play() flags the audio (__missing) - for good: whatever happens next,
    the flag stays - and calls stopCurrentAudio: the slot is empty and
    nothing sounds.  The listener ends there: it is no longer pending and
    neither the sequencer nor its runs are touched.  In the
    sequencer playOne neither flags nor stops: it rejects, the loop is left,
    the run is over (no retry, no skip to the next clip), and the
    lesson-button listener swallows the error; while the run's token is
    still current its finally sets the sequencer idle, resets the lesson
    button and calls stopCurrentAudio; after a cancel it does nothing. *)
Theorem play_rejection_handled :
  (∀ st k a x,
     pendingPlays st !! k = Some a → audioCache st !! a = Some x →
     let st' := step (PlaySettled k false) st in
     (∀ es, ∃ y, audioCache (exec es st') !! a = Some y ∧ missing y = true)
     ∧ currentlyPlaying st' = mkNowPlaying None None
     ∧ trace st' = trace st ++ stopCalls st
     ∧ pendingPlays st' = delete k (pendingPlays st)
     ∧ runs st' = runs st ∧ finished st' = finished st
     ∧ lessonPlayback st' = lessonPlayback st
     ∧ (slotOwns st → silent st'))
  ∧ (∀ st k r,
       runs st !! k = Some r → suspended r = AwaitPlayOne false →
       let st' := step (RunPlaySettled k false) st in
       runs st' = delete k (runs st)
       ∧ finished st' = finished st ++ [r]
       ∧ pendingPlays st' = pendingPlays st
       ∧ (token (lessonPlayback st) = runToken r →
            running (lessonPlayback st') = false
            ∧ currentlyPlaying st' = mkNowPlaying None None
            ∧ lessonBtns st' !! runBtn r = Some lessonIdle
            ∧ trace st' = trace st ++ stopCalls st
            ∧ (slotOwns st → silent st'))
       ∧ (token (lessonPlayback st) ≠ runToken r →
            st' = set_finished (λ l, l ++ [r]) (set_runs (delete k) st))).
Proof.
  split.
  - intros st k a x Hk Hx st'. subst st'. cbn [step]. rewrite Hk.
    unfold onPlaySettled.
    set (st1 := setMissing a (set_pendingPlays (delete k) st)).
    rewrite stopCurrentAudio_trace, stopCurrentAudio_pendingPlays,
      stopCurrentAudio_runs, stopCurrentAudio_finished,
      stopCurrentAudio_lessonPlayback.
    split_and!; try done.
    + intros es.
      destruct (stopCurrentAudio_keeps_missing st1 a
                  (mkAudio (paused x) (currentTime x) true (wired x)))
        as (y & Hy & Hm).
      { by apply (setMissing_lookup a (set_pendingPlays (delete k) st)). }
      destruct (exec_keepsFlags es _ a y Hy) as (z & Hz & Hyz).
      exists z. split; [done|]. by apply Hyz.
    + intros Hown. apply stopCurrentAudio_silent.
      subst st1. unfold setMissing. apply alter_audio_slotOwns; [done|].
      revert Hown. by apply slotOwns_ext.
  - intros st k r Hk Hs st'. subst st'. cbn [step]. rewrite Hk, Hs.
    rewrite (resumeAt_reject k r) by done.
    rewrite finishRun_runs, finishRun_finished.
    split_and!; try done.
    + unfold finishRun. case_bool_decide; [|done]. fields.
      by rewrite stopCurrentAudio_pendingPlays.
    + intros Heq.
      destruct (finishRun_live r (set_runs (delete k) st) Heq)
        as (? & _ & ? & ? & ?).
      split_and!; try done.
      intros Hown. unfold finishRun. rewrite bool_decide_eq_true_2 by done.
      eapply silent_ext; [..|apply stopCurrentAudio_silent]; [done..|].
      revert Hown. by apply slotOwns_ext.
    + intros Hne. by apply finishRun_stale.
Qed.

Lemma play_rejection_handled_witness :
  let st := exec [ClickSentence 0] demoState in
  ∃ y, audioCache (exec [ClickSentence 0] (step (PlaySettled 0 false) st))
         !! Some (str "Audio/English/Hi..m4a") = Some y
    ∧ missing y = true.
Proof.
  refine (proj1 (proj1 play_rejection_handled
                   (exec [ClickSentence 0] demoState) 0%nat
                   (Some (str "Audio/English/Hi..m4a"))
                   (mkAudio false 0 false true) _ _) [ClickSentence 0]).
  - vm_compute. reflexivity.
  - vm_compute. reflexivity.
Defined.

(** The claim as written fails on the sequencer path: play() of the first
    clip of a run is rejected and the audio is still not flagged. *)
Lemma sequencer_rejection_not_flagged :
  let u := Some (str "Audio/English/Hi..m4a") in
  let st := exec [ClickLesson 2] demoState in
  let st' := step (RunPlaySettled 0 false) st in
  (∃ r, runs st !! 0%nat = Some r ∧ suspended r = AwaitPlayOne false
        ∧ urls r !! index r = Some u)
  ∧ missing <$> audioCache st' !! u = Some false.
Proof. vm_compute. split; [|done]. by eexists. Qed.

End FailureFacts.

(** ** At most one session *)

Section SessionFacts.

Implicit Types st : State.

Lemma stopCalls_spec st a0 :
  audio (currentlyPlaying st) = Some a0 → stopCalls st = [CallPause a0].
Proof. unfold stopCalls. by intros ->. Qed.

Lemma stopCalls_empty st :
  audio (currentlyPlaying st) = None → stopCalls st = [].
Proof. unfold stopCalls. by intros ->. Qed.

(** When a click on a sentence button starts its clip, the calls it makes
    are pauses, among them the pause of the audio that was in the slot,
    and then play() of the clip. *)
Lemma onSentenceClick_stops_first playBtn a st :
  audio (currentlyPlaying (onSentenceClick playBtn a st)) = Some a →
  ∃ pauses,
    trace (onSentenceClick playBtn a st) = trace st ++ pauses ++ [CallPlay a]
    ∧ plays pauses = []
    ∧ ∀ a0, audio (currentlyPlaying st) = Some a0 → CallPause a0 ∈ pauses.
Proof.
  unfold onSentenceClick.
  set (st1 := if running (lessonPlayback st) then _ else st).
  set (st2 := match audio (currentlyPlaying st1) with Some _ => _ | None => _ end).
  destruct (_ && _) eqn:Htoggle; [done|]. intros _.
  unfold play. fields. rewrite stopCurrentAudio_trace.
  assert (∃ p1, trace st1 = trace st ++ p1 ∧ plays p1 = []
            ∧ ∀ a0, audio (currentlyPlaying st) = Some a0 →
                CallPause a0 ∈ p1 ∨ (st1 = st)) as (p1 & Ht1 & Hp1 & Hin1).
  { subst st1. destruct (running (lessonPlayback st)).
    - exists (stopCalls st). rewrite stopLessonPlayback_trace.
      split; [done|split; [apply plays_stopCalls|]].
      intros a0 Ha0. left. rewrite (stopCalls_spec st a0) by done. left.
    - exists []. rewrite app_nil_r. split; [done|split; [done|]]. by right. }
  assert (∃ p2, trace st2 = trace st1 ++ p2 ∧ plays p2 = []
            ∧ ∀ a0, audio (currentlyPlaying st1) = Some a0 →
                CallPause a0 ∈ p2 ∨ (st2 = st1 ∧ a0 = a)) as (p2 & Ht2 & Hp2 & Hin2).
  { subst st2. destruct (audio (currentlyPlaying st1)) as [c|] eqn:Ec.
    - destruct (decide (c = a)) as [->|Hc].
      + rewrite (bool_decide_eq_false_2 (a ≠ a)) by (intros H; by apply H).
        exists []. rewrite app_nil_r. split; [done|split; [done|]].
        intros a0 [= <-]. by right.
      + rewrite (bool_decide_eq_true_2 (c ≠ a)) by done.
        exists (stopCalls st1). rewrite stopCurrentAudio_trace.
        split; [done|split; [apply plays_stopCalls|]].
        intros a0 [= <-]. left. rewrite (stopCalls_spec st1 c) by done. left.
    - exists []. rewrite app_nil_r. by split; [|split]. }
  exists (p1 ++ p2 ++ stopCalls st2).
  rewrite Ht2, Ht1, !plays_app, Hp1, Hp2, plays_stopCalls.
  split; [by rewrite <- !app_assoc|split; [done|]].
  intros a0 Ha0. rewrite !elem_of_app.
  destruct (Hin1 a0 Ha0) as [?|E1]; [by left|]. right.
  rewrite E1 in Hin2. destruct (Hin2 a0 Ha0) as [?|[E2 ->]]; [by left|].
  right. rewrite (stopCalls_spec st2 a); [left|]. by rewrite E2.
Qed.

(** C1. In every state the event loop can reach, under any sequence of
    clicks, settled promises, media events, timers and renders: an audio
    that is sounding is the audio of the slot and a sentence button shown as
    playing is the button of the slot, so at most one audio sounds and at
    most one button shows as playing.  Both operations that bind a pair -
    playOne and the sentence-button listener when it starts its clip - call
    pause on the audio that was in the slot before they call play on the new
    one, and leave every other audio silent. *)
Theorem at_most_one_session (es : list Event) :
  let st := exec es init in
  slotOwns st
  ∧ (activeSessions st ≤ 1)%nat ∧ (activeButtons st ≤ 1)%nat
  ∧ (∀ url sb,
       let st' := playOne url sb st in
       currentlyPlaying st' = mkNowPlaying (Some url) sb
       ∧ trace st' = trace st ++ stopCalls st ++ [CallPlay url]
       ∧ slotOwns st')
  ∧ (∀ playBtn a,
       let st' := onSentenceClick playBtn a st in
       slotOwns st'
       ∧ (audio (currentlyPlaying st') = Some a →
            ∃ pauses,
              trace st' = trace st ++ pauses ++ [CallPlay a]
              ∧ plays pauses = []
              ∧ ∀ a0, audio (currentlyPlaying st) = Some a0 →
                  CallPause a0 ∈ pauses)).
Proof.
  intros st. assert (slotOwns st) as Hst.
  { apply exec_slotOwns, init_slotOwns. }
  split_and!.
  - done.
  - by apply slotOwns_activeSessions.
  - by apply slotOwns_activeButtons.
  - intros url sb st'. subst st'. split_and!.
    + done.
    + apply playOne_trace.
    + by apply playOne_slotOwns.
  - intros playBtn a st'. subst st'. split.
    + by apply onSentenceClick_slotOwns.
    + apply onSentenceClick_stops_first.
Qed.

End SessionFacts.

(** ** The dataset model *)

Section SortFacts.

Context {A : Type} (cmp : A → A → Z).

Lemma insertBy_perm x l : insertBy cmp x l ≡ₚ x :: l.
Proof.
  induction l as [|y l IH]; simpl; [done|].
  destruct (cmp x y <=? 0); [done|].
  rewrite IH. apply Permutation_swap.
Qed.

Lemma sortBy_perm l : sortBy cmp l ≡ₚ l.
Proof.
  induction l as [|x l IH]; simpl; [done|].
  fold (sortBy cmp l). by rewrite insertBy_perm, IH.
Qed.

Lemma sortBy_cons x l : sortBy cmp (x :: l) = insertBy cmp x (sortBy cmp l).
Proof. done. Qed.

End SortFacts.

Section NumberFacts.

Implicit Types x y z : number.

Lemma roundToDouble_0 den : 0 < den → roundToDouble 0 den = Double 0.
Proof.
  intros Hd. unfold roundToDouble. cbv zeta.
  rewrite Z.mul_0_l, Z.div_0_l by lia.
  change (Z.max 0 (Z.log2 0 - 52)) with 0.
  rewrite Z.pow_0_r, !Z.mul_1_r, Z.div_0_l, Z.mod_0_l by lia.
  rewrite Z.mul_0_r.
  rewrite (proj2 (Z.ltb_ge den 0)) by lia.
  rewrite (proj2 (Z.eqb_neq den 0)) by lia. done.
Qed.

(** A positive multiple of the unit rounds to a positive double or to
    +Infinity: a difference that is not zero is not rounded to zero. *)
Lemma roundToDouble_pos n :
  0 < n →
  (∃ k, roundToDouble n (2 ^ 1074) = Double k ∧ 0 < k)
  ∨ roundToDouble n (2 ^ 1074) = Infinity false.
Proof.
  intros Hn. unfold roundToDouble. cbv zeta.
  assert (0 < 2 ^ 1074) as HU by (apply Z.pow_pos_nonneg; lia).
  set (U := 2 ^ 1074) in *.
  rewrite Z.div_mul by lia.
  set (s := Z.max 0 (Z.log2 n - 52)).
  assert (0 ≤ s) as Hs by (unfold s; lia).
  assert (0 < 2 ^ s) as Hp by (by apply Z.pow_pos_nonneg).
  assert (2 ^ s ≤ n) as Hle.
  { destruct (Z.log2_spec n Hn) as [Hlo _].
    unfold s. destruct (Z.max_spec 0 (Z.log2 n - 52)) as [[_ ->]|[_ ->]].
    - transitivity (2 ^ Z.log2 n); [|done].
      apply Z.pow_le_mono_r; lia.
    - rewrite Z.pow_0_r. lia. }
  rewrite (Z.mul_comm U (2 ^ s)).
  rewrite Z.div_mul_cancel_r by lia.
  assert (1 ≤ n / 2 ^ s) as Hq by (apply Z.div_le_lower_bound; lia).
  set (q := n / 2 ^ s) in *.
  match goal with |- context [if ?c then q + 1 else q] =>
    set (q' := if c then q + 1 else q);
    assert (1 ≤ q') as Hq' by (unfold q'; destruct c; lia) end.
  destruct (Z.leb_spec (2 ^ 2098) (q' * 2 ^ s)); [by right|].
  left. eexists. split; [done|]. nia.
Qed.

Lemma numSub_sign x y :
  x ≠ NaN → y ≠ NaN →
  (signOf (numSub x y) ≤ 0 ↔ numLe x y)
  ∧ (0 < signOf (numSub x y) → numLe y x)
  ∧ (falsyNumber (numSub x y) = true → numLe x y ∧ numLe y x).
Proof.
  intros Hx Hy. destruct x as [|sx|a], y as [|sy|b]; try done.
  - destruct sx, sy; simpl; split_and!; try (intros; lia); try tauto;
      intuition (try discriminate; try lia).
  - destruct sx; simpl; split_and!; try (intros; lia); try tauto;
      intuition (try discriminate; try lia).
  - destruct sy; simpl; split_and!; try (intros; lia); try tauto;
      intuition (try discriminate; try lia).
  - unfold numSub, numLe. destruct (Z.ltb_spec (a - b) 0) as [Hlt|Hge].
    + destruct (roundToDouble_pos (b - a)) as [(k & -> & Hk)| ->]; [lia|..];
        simpl; split_and!; try lia; try done;
        intros H; apply Z.eqb_eq in H; lia.
    + destruct (decide (a - b = 0)) as [E|Hne].
      * rewrite E, roundToDouble_0 by (apply Z.pow_pos_nonneg; lia).
        simpl. split_and!; lia.
      * destruct (roundToDouble_pos (a - b)) as [(k & -> & Hk)| ->]; [lia|..];
          simpl; split_and!; try lia; try done;
          intros H; apply Z.eqb_eq in H; lia.
Qed.

Lemma numLe_trans x y z : numLe x y → numLe y z → numLe x z.
Proof.
  destruct x as [|[]|], y as [|[]|], z as [|[]|]; simpl; try tauto;
    try (intuition discriminate); lia.
Qed.

Lemma numLe_antisym x y : numLe x y → numLe y x → x = y.
Proof.
  destruct x as [|[]|], y as [|[]|]; simpl; try tauto;
    try (intuition discriminate). intros. f_equal. lia.
Qed.

End NumberFacts.

Section LineFacts.

Implicit Types ln : Line.
Implicit Types l : list Line.

Lemma lineLe_compare x y :
  numbered x → numbered y →
  (compareLines x y ≤ 0 ↔ lineLe x y) ∧ (0 < compareLines x y → lineLe y x).
Proof.
  unfold numbered, compareLines, lineLe. intros Hx Hy.
  destruct (numSub_sign (lineNo x) (lineNo y) Hx Hy) as (? & ? & _). done.
Qed.

Lemma lineLe_trans x y z : lineLe x y → lineLe y z → lineLe x z.
Proof. apply numLe_trans. Qed.

Lemma insertBy_sorted x l :
  numbered x → Forall numbered l →
  StronglySorted lineLe l → StronglySorted lineLe (insertBy compareLines x l).
Proof.
  intros Hx Hl Hs. induction Hs as [|y l Hs IH Hy]; simpl.
  { repeat constructor. }
  apply Forall_cons in Hl as [Hny Hl].
  destruct (lineLe_compare x y Hx Hny) as [Hle Hgt].
  destruct (Z.leb_spec (compareLines x y) 0) as [Hc|Hc].
  - apply Hle in Hc. constructor; [by constructor|].
    constructor; [done|].
    eapply Forall_impl; [exact Hy|]. intros z Hz. by eapply lineLe_trans.
  - constructor; [by apply IH|].
    rewrite insertBy_perm. constructor; [by apply Hgt|done].
Qed.

Lemma sortBy_sorted l :
  Forall numbered l → StronglySorted lineLe (sortBy compareLines l).
Proof.
  induction l as [|x l IH]; intros Hl; [constructor|].
  apply Forall_cons in Hl as [Hx Hl]. rewrite sortBy_cons.
  apply insertBy_sorted; [done| |by apply IH].
  by rewrite sortBy_perm.
Qed.

(** Two sorted lists with the same elements and no repeated line number
    are the same list. *)
Lemma sorted_unique l1 : ∀ l2,
  StronglySorted lineLe l1 → StronglySorted lineLe l2 →
  l1 ≡ₚ l2 → NoDup (lineNo <$> l1) → l1 = l2.
Proof.
  induction l1 as [|x l1 IH]; intros l2 H1 H2 Hp Hnd.
  { by apply Permutation_nil_l in Hp. }
  destruct l2 as [|y l2]; [by apply Permutation_nil_r in Hp|].
  apply StronglySorted_inv in H1 as [H1 Hx].
  apply StronglySorted_inv in H2 as [H2 Hy].
  assert (x = y) as ->.
  { assert (x ∈ y :: l2) as Hin by (rewrite <- Hp; left).
    assert (y ∈ x :: l1) as Hin' by (rewrite Hp; left).
    apply elem_of_cons in Hin as [?|Hin]; [done|].
    apply elem_of_cons in Hin' as [?|Hin']; [done|].
    rewrite Forall_forall in Hx, Hy.
    specialize (Hx y Hin'). specialize (Hy x Hin).
    exfalso. apply NoDup_cons in Hnd as [Hnx _]. apply Hnx.
    simpl. apply list_elem_of_fmap. exists y. split; [|done].
    by apply numLe_antisym. }
  f_equal. apply IH; [done..| |].
  - by apply Permutation_cons_inv in Hp.
  - by apply NoDup_cons in Hnd as [_ ?].
Qed.

End LineFacts.

Section GroupFacts.

Implicit Types m : list Lesson.
Implicit Types id : jsstring.

Lemma getLesson_cons id l m :
  getLesson id (l :: m)
  = if bool_decide (lessonId l = id) then Some l else getLesson id m.
Proof. done. Qed.

Lemma getLesson_Some id m l : getLesson id m = Some l → lessonId l = id ∧ l ∈ m.
Proof.
  induction m as [|l0 m IH]; [done|]. rewrite getLesson_cons.
  case_bool_decide.
  - intros [= <-]. split; [done|left].
  - intros [? ?]%IH. split; [done|by right].
Qed.

Lemma getLesson_None id m : getLesson id m = None ↔ id ∉ lessonId <$> m.
Proof.
  induction m as [|l0 m IH].
  { split; [intros _; apply not_elem_of_nil|done]. }
  rewrite getLesson_cons, fmap_cons, not_elem_of_cons. case_bool_decide; split.
  - done.
  - intros [? _]. congruence.
  - intros H0. split; [congruence|by apply IH].
  - intros [_ ?]. by apply IH.
Qed.

Lemma getLesson_app id m1 m2 :
  getLesson id (m1 ++ m2)
  = match getLesson id m1 with
    | Some l => Some l
    | None => getLesson id m2
    end.
Proof.
  induction m1 as [|l0 m1 IH]; [done|]. simpl app.
  rewrite !getLesson_cons. by case_bool_decide.
Qed.

Lemma hasLesson_getLesson id m :
  hasLesson id m = match getLesson id m with Some _ => true | None => false end.
Proof.
  induction m as [|l0 m IH]; [done|]. rewrite getLesson_cons. simpl.
  case_bool_decide; [done|]. by rewrite <- IH.
Qed.

Lemma getLesson_pushLine id rid ln m :
  getLesson id (pushLine rid ln m)
  = (λ l, if bool_decide (lessonId l = rid)
          then mkLesson (lessonId l) (cefr l) (lines l ++ [ln]) else l)
      <$> getLesson id m.
Proof.
  unfold pushLine.
  set (f := λ l : Lesson, if bool_decide (lessonId l = rid)
                          then mkLesson (lessonId l) (cefr l) (lines l ++ [ln])
                          else l).
  assert (∀ l, lessonId (f l) = lessonId l) as Hid.
  { intros l. unfold f. by case_bool_decide. }
  induction m as [|l0 m IH]; [done|].
  change (map f (l0 :: m)) with (f l0 :: map f m).
  rewrite !getLesson_cons, Hid. by case_bool_decide.
Qed.

(** One row: its line goes to the end of its lesson, created if new. *)
Lemma addRow_lines cols id m r :
  id ≠ [] →
  linesOfId id (addRow cols m r)
  = if bool_decide (rowLesson r = id)
    then Some (default [] (linesOfId id m) ++ [lineOf cols r])
    else linesOfId id m.
Proof.
  intros Hid. unfold addRow, linesOfId.
  destruct (rowLesson r) as [|c rid] eqn:Er.
  { by rewrite bool_decide_eq_false_2. }
  rewrite getLesson_pushLine, hasLesson_getLesson.
  case_bool_decide as Heq.
  - subst id. destruct (getLesson (c :: rid) m) as [l|] eqn:El.
    + rewrite El. simpl. apply getLesson_Some in El as [El _].
      by rewrite bool_decide_eq_true_2.
    + rewrite getLesson_app, El. simpl.
      rewrite (bool_decide_eq_true_2 (c :: rid = c :: rid)) by done. simpl.
      by rewrite bool_decide_eq_true_2.
  - destruct (getLesson (c :: rid) m) as [l0|] eqn:El0.
    + destruct (getLesson id m) as [l|] eqn:El; simpl; [|done].
      apply getLesson_Some in El as [El _].
      rewrite bool_decide_eq_false_2; [done|congruence].
    + rewrite getLesson_app. simpl.
      rewrite (bool_decide_eq_false_2 (c :: rid = id)) by done.
      destruct (getLesson id m) as [l|] eqn:El; simpl; [|done].
      apply getLesson_Some in El as [El _].
      rewrite bool_decide_eq_false_2; [done|congruence].
Qed.

Lemma linesFor_cons cols id r rows :
  linesFor cols id (r :: rows)
  = if bool_decide (rowLesson r = id)
    then lineOf cols r :: linesFor cols id rows
    else linesFor cols id rows.
Proof.
  unfold linesFor. rewrite filter_cons.
  case_decide; [by rewrite bool_decide_eq_true_2|by rewrite bool_decide_eq_false_2].
Qed.

(** All rows: the lines of a lesson are those of its rows, in row order. *)
Lemma foldl_addRow_lines cols id rows : ∀ m,
  id ≠ [] →
  linesOfId id (foldl (addRow cols) m rows)
  = match linesOfId id m, linesFor cols id rows with
    | None, [] => None
    | o, ls => Some (default [] o ++ ls)
    end.
Proof.
  induction rows as [|r rows IH]; intros m Hid.
  { simpl. destruct (linesOfId id m); simpl; by rewrite ?app_nil_r. }
  simpl foldl. rewrite IH by done. rewrite addRow_lines, linesFor_cons by done.
  case_bool_decide.
  - destruct (linesOfId id m), (linesFor cols id rows); simpl;
      by rewrite <- ?app_assoc.
  - done.
Qed.

Lemma byLessonOf_lines cols id rows :
  id ≠ [] →
  linesOfId id (byLessonOf cols rows)
  = match linesFor cols id rows with
    | [] => None
    | ls => Some ls
    end.
Proof.
  intros Hid. unfold byLessonOf. rewrite foldl_addRow_lines by done.
  by destruct (linesFor cols id rows).
Qed.

Lemma pushLine_ids rid ln m : lessonId <$> pushLine rid ln m = lessonId <$> m.
Proof.
  unfold pushLine. induction m as [|l m IH]; [done|].
  cbn [map]. rewrite !fmap_cons, IH. f_equal. by case_bool_decide.
Qed.

(** No lesson has the empty identifier. *)
Lemma foldl_addRow_ids cols rows : ∀ m,
  [] ∉ lessonId <$> m → [] ∉ lessonId <$> foldl (addRow cols) m rows.
Proof.
  induction rows as [|r rows IH]; intros m Hm; [done|].
  simpl. apply IH. unfold addRow.
  destruct (rowLesson r) as [|c rid]; [done|].
  rewrite pushLine_ids. destruct (hasLesson _ _); [done|].
  rewrite fmap_app, not_elem_of_app. split; [done|].
  simpl. rewrite not_elem_of_cons. split; [done|apply not_elem_of_nil].
Qed.

Lemma byLessonOf_no_empty_id cols rows :
  linesOfId [] (byLessonOf cols rows) = None.
Proof.
  unfold linesOfId.
  rewrite (proj2 (getLesson_None [] (byLessonOf cols rows))); [done|].
  apply foldl_addRow_ids, not_elem_of_nil.
Qed.

Section Sorted.

Variable localeCompare : jsstring → jsstring → Z.

Lemma omap_sorted_cons m id' (ids : list jsstring) :
  omap (λ id', sortLines <$> getLesson id' m) (id' :: ids)
  = match getLesson id' m with
    | Some l0 => sortLines l0 :: omap (λ id', sortLines <$> getLesson id' m) ids
    | None => omap (λ id', sortLines <$> getLesson id' m) ids
    end.
Proof. simpl. by destruct (getLesson id' m). Qed.

Lemma getLesson_omap id m (ids : list jsstring) :
  getLesson id (omap (λ id', sortLines <$> getLesson id' m) ids)
  = if bool_decide (id ∈ ids) then sortLines <$> getLesson id m else None.
Proof.
  induction ids as [|id' ids IH]; [done|].
  rewrite omap_sorted_cons. destruct (getLesson id' m) as [l0|] eqn:El0.
  - rewrite getLesson_cons.
    apply getLesson_Some in El0 as Hl0. destruct Hl0 as [Hid' _].
    change (lessonId (sortLines l0)) with (lessonId l0). rewrite Hid'.
    destruct (decide (id' = id)) as [->|Hne].
    + rewrite (bool_decide_eq_true_2 (id = id)) by done.
      rewrite (bool_decide_eq_true_2 (id ∈ id :: ids))
        by apply list_elem_of_here.
      by rewrite El0.
    + rewrite (bool_decide_eq_false_2 (id' = id)) by done. rewrite IH.
      rewrite (bool_decide_ext (id ∈ id' :: ids) (id ∈ ids)); [done|].
      rewrite elem_of_cons. intuition congruence.
  - rewrite IH. destruct (decide (id = id')) as [->|Hne].
    + rewrite (bool_decide_eq_true_2 (id' ∈ id' :: ids))
        by apply list_elem_of_here.
      rewrite El0. simpl. by destruct (bool_decide _).
    + rewrite (bool_decide_ext (id ∈ id' :: ids) (id ∈ ids)); [done|].
      rewrite elem_of_cons. intuition congruence.
Qed.

Lemma getLesson_lessonsOf id m :
  getLesson id (lessonsOf localeCompare m) = sortLines <$> getLesson id m.
Proof.
  unfold lessonsOf. rewrite getLesson_omap. case_bool_decide as Hin; [done|].
  rewrite (proj2 (getLesson_None id m)); [done|].
  unfold lessonIdsOf in Hin. by rewrite sortBy_perm in Hin.
Qed.

Lemma lessonsOf_elem l m :
  l ∈ lessonsOf localeCompare m →
  ∃ l0, getLesson (lessonId l) m = Some l0 ∧ l = sortLines l0.
Proof.
  unfold lessonsOf. intros (id & _ & Hl)%list_elem_of_omap.
  destruct (getLesson id m) as [l0|] eqn:El0; [|done].
  injection Hl as <-. exists l0. split; [|done].
  apply getLesson_Some in El0 as Hl0. destruct Hl0 as [<- _]. done.
Qed.

End Sorted.

End GroupFacts.

Section BuildModelFacts.

Variable localeCompare : jsstring → jsstring → Z.

Implicit Types rows : list Row.
Implicit Types m model : Model.

Lemma find_lineCefr (l : list Line) :
  List.find (λ ln, truthy (lineCefr ln)) l = None.
Proof. by induction l. Qed.

Lemma fillCefr_id l : fillCefr l = l.
Proof.
  unfold fillCefr. destruct (cefr l); [|done]. by rewrite find_lineCefr.
Qed.

Lemma buildModel_inv rows model m :
  buildModel localeCompare rows model = Built m →
  ∃ row0 rest, rows = row0 :: rest ∧ languageColsOf row0 ≠ []
    ∧ languages m = languageColsOf row0
    ∧ lessons m = lessonsOf localeCompare (byLessonOf (languageColsOf row0) rows)
    ∧ lessonIds m = lessonIdsOf localeCompare (byLessonOf (languageColsOf row0) rows).
Proof.
  unfold buildModel. destruct rows as [|row0 rest]; [done|].
  destruct (languageColsOf row0) as [|c cols] eqn:Ec; [done|].
  intros [= <-]. exists row0, rest. by rewrite Ec.
Qed.

Lemma buildModel_early_lessons rows model m :
  buildModel localeCompare rows model = Built m →
  ∃ m0, buildModel_early localeCompare rows model = Built m0
    ∧ lessons m0 = lessons m.
Proof.
  unfold buildModel, buildModel_early. destruct rows as [|row0 rest]; [done|].
  destruct (languageColsOf row0) as [|c cols]; [done|].
  intros [= <-]. eexists. split; [done|]. simpl.
  apply list_eq. intros i. rewrite list_lookup_fmap.
  destruct (_ !! i) as [l|]; simpl; [|done]. by rewrite fillCefr_id.
Qed.

Lemma lessonLines_spec cols rows m id :
  lessons m = lessonsOf localeCompare (byLessonOf cols rows) →
  lessonLines id m
  = match id with
    | [] => None
    | _ => match linesFor cols id rows with
           | [] => None
           | ls => Some (sortBy compareLines ls)
           end
    end.
Proof.
  intros Hm. unfold lessonLines. rewrite Hm, getLesson_lessonsOf.
  assert (lines <$> (sortLines <$> getLesson id (byLessonOf cols rows))
          = sortBy compareLines <$> linesOfId id (byLessonOf cols rows)) as ->.
  { unfold linesOfId. by destruct (getLesson id _). }
  destruct id as [|c id]; [by rewrite byLessonOf_no_empty_id|].
  rewrite byLessonOf_lines by done. by destruct (linesFor cols (c :: id) rows).
Qed.

Lemma linesFor_perm cols id rows rows' :
  rows ≡ₚ rows' → linesFor cols id rows ≡ₚ linesFor cols id rows'.
Proof. intros Hp. unfold linesFor. by rewrite Hp. Qed.

Lemma languageColsOf_keys (r r' : Row) :
  r.*1 = r'.*1 → languageColsOf r = languageColsOf r'.
Proof.
  unfold languageColsOf. intros H.
  by replace (map fst r) with (map fst r') by (symmetry; exact H).
Qed.

Lemma buildModel_lines_perm rows model m l :
  buildModel localeCompare rows model = Built m → l ∈ lessons m →
  ∃ ls, lines l = sortBy compareLines ls
    ∧ ls = linesFor (languages m) (lessonId l) rows.
Proof.
  intros Hb Hl.
  destruct (buildModel_inv _ _ _ Hb) as (row0 & rest & Hrows & Hne & Hlang & Hles & _).
  rewrite Hles in Hl.
  apply lessonsOf_elem in Hl as (l0 & Hl0 & ->).
  change (lessonId (sortLines l0)) with (lessonId l0) in *.
  change (lines (sortLines l0)) with (sortBy compareLines (lines l0)).
  assert (linesOfId (lessonId l0) (byLessonOf (languageColsOf row0) rows)
          = Some (lines l0)) as Hlines.
  { unfold linesOfId. by rewrite Hl0. }
  destruct (lessonId l0) as [|c id] eqn:Eid.
  { by rewrite byLessonOf_no_empty_id in Hlines. }
  rewrite byLessonOf_lines in Hlines by done. rewrite Hlang.
  destruct (linesFor (languageColsOf row0) (c :: id) rows) as [|x ls] eqn:El;
    [done|].
  injection Hlines as <-. by eexists.
Qed.

(** C9. buildModel groups the rows by lesson and sorts the lines of each
    lesson by line number: every lesson of the model holds exactly the
    lines of the rows with its identifier, and when their Line fields all
    read as numbers (integers, fractions, exponents, radix prefixes,
    Infinity - anything but NaN) the lines are in ascending numeric order;
    the earlier script builds the same lessons; if the same rows, all with
    the same columns, come in another order, a lesson whose line numbers
    are numbers and do not repeat has the same list of lines; the rows
    Lesson=1,Line=2,English=Hi and Lesson=1,Line=1,English=Hello give, in
    either order, the one lesson "1" with lines [1: Hello, 2: Hi]; and
    lines numbered 2, 1.5, 0x10, 1e1, -3, .5 and 1 come out as -3, .5, 1,
    1.5, 2, 1e1, 0x10. *)
Theorem buildModel_lines_sorted rows model m :
  buildModel localeCompare rows model = Built m →
  (∀ l, l ∈ lessons m →
     lines l ≡ₚ linesFor (languages m) (lessonId l) rows
     ∧ (Forall numbered (lines l) → StronglySorted lineLe (lines l)))
  ∧ (∃ m0, buildModel_early localeCompare rows model = Built m0
       ∧ lessons m0 = lessons m)
  ∧ (∀ rows' model' m',
       rows ≡ₚ rows' →
       (∀ r r', r ∈ rows → r' ∈ rows → r.*1 = r'.*1) →
       buildModel localeCompare rows' model' = Built m' →
       ∀ id, Forall numbered (linesFor (languages m) id rows) →
             NoDup (lineNo <$> linesFor (languages m) id rows) →
             lessonLines id m' = lessonLines id m)
  ∧ (∀ rows2 model2,
       rows2 ≡ₚ [rowHi; rowHello] →
       ∃ m2, buildModel localeCompare rows2 model2 = Built m2
         ∧ lessonIds m2 = [str "1"]
         ∧ lessonLines (str "1") m2
           = Some [mkLine (ofZ 1) [(str "English", str "Hello")];
                   mkLine (ofZ 2) [(str "English", str "Hi")]])
  ∧ (∀ model3,
       ∃ m3, buildModel localeCompare
               (lineRow <$> ["2"; "1.5"; "0x10"; "1e1"; "-3"; ".5"; "1"])
               model3 = Built m3
         ∧ sentencesOf <$> lessonLines (str "1") m3
           = Some (Some <$> (str <$> ["-3"; ".5"; "1"; "1.5"; "2"; "1e1"; "0x10"]))).
Proof.
  intros Hb.
  destruct (buildModel_inv _ _ _ Hb) as (row0 & rest & Hrows & Hne & Hlang & Hles & _).
  split_and!.
  - intros l Hl.
    destruct (buildModel_lines_perm _ _ _ _ Hb Hl) as (ls & -> & ->).
    split; [apply sortBy_perm|].
    intros Hn. apply sortBy_sorted. by rewrite sortBy_perm in Hn.
  - by apply buildModel_early_lessons.
  - intros rows' model' m' Hp Hkeys Hb' id Hn Hnd.
    destruct (buildModel_inv _ _ _ Hb') as (row0' & rest' & Hrows' & _ & _ & Hles' & _).
    assert (languageColsOf row0' = languageColsOf row0) as Hcols.
    { apply languageColsOf_keys, Hkeys.
      - rewrite Hp, Hrows'. apply list_elem_of_here.
      - rewrite Hrows. apply list_elem_of_here. }
    rewrite Hcols in Hles'.
    rewrite (lessonLines_spec _ _ _ _ Hles'), (lessonLines_spec _ _ _ _ Hles).
    destruct id as [|c id]; [done|].
    pose proof (linesFor_perm (languageColsOf row0) (c :: id) rows rows' Hp) as Hpl.
    rewrite Hlang in Hnd, Hn.
    assert (Forall numbered (linesFor (languageColsOf row0) (c :: id) rows')) as Hn'
      by by rewrite <- Hpl.
    pose proof (Permutation_length Hpl) as Hlen.
    destruct (linesFor (languageColsOf row0) (c :: id) rows) as [|x ls] eqn:El;
      destruct (linesFor (languageColsOf row0) (c :: id) rows') as [|x' ls'] eqn:El';
      [done|done|done|].
    f_equal. apply sorted_unique.
    + by apply sortBy_sorted.
    + by apply sortBy_sorted.
    + by rewrite !sortBy_perm.
    + by rewrite sortBy_perm, <- Hpl.
  - intros rows2 model2 Hp. symmetry in Hp.
    apply Permutation_length_2_inv in Hp as [->| ->];
      (eexists; split; [reflexivity|]); split; vm_compute; reflexivity.
  - intros model3. eexists. split; [reflexivity|]. vm_compute. reflexivity.
Qed.

End BuildModelFacts.

Lemma buildModel_lines_sorted_witness :
  ∃ m, buildModel (λ _ _, 0) (lineRow <$> ["2"; "1.5"; "1"])
         (mkModel [] [] [] None None None) = Built m
    ∧ ∀ l, l ∈ lessons m →
        sentencesOf (lines l) = Some <$> (str <$> ["1"; "1.5"; "2"])
        ∧ StronglySorted lineLe (lines l).
Proof.
  assert (∃ m, buildModel (λ _ _, 0) (lineRow <$> ["2"; "1.5"; "1"])
                 (mkModel [] [] [] None None None) = Built m
            ∧ Forall (λ l, sentencesOf (lines l)
                           = Some <$> (str <$> ["1"; "1.5"; "2"])
                           ∧ Forall numbered (lines l)) (lessons m))
    as (m & Hb & Hm).
  { eexists. split; [vm_compute; reflexivity|].
    cbn [lessons]. apply Forall_cons. split; [|apply Forall_nil; done].
    split; [vm_compute; reflexivity|].
    cbn [lines]. rewrite !Forall_cons. by repeat split. }
  exists m. split; [exact Hb|]. intros l Hl.
  rewrite Forall_forall in Hm. destruct (Hm l Hl) as [Hs Hn].
  split; [exact Hs|].
  exact (proj2 (proj1 (buildModel_lines_sorted (λ _ _, 0) _ _ m Hb) l Hl) Hn).
Defined.

(** ** The existence cache *)

Section ExistenceFacts.

(** C8, evaluated on the script.  Once a probe is settled its result is
    cached - false for a network error or a status that is not a success -
    and the next call returns it without a request.  But the cache is
    written only when the probe settles: a second call made while the first
    is pending sends a second request, and render makes exactly such calls,
    so one render of a lesson with the single sentence "Hi." sends two HEAD
    requests for Audio/English/Hi..m4a. *)
Theorem audioExists_probes_per_call :
  (∀ url o p,
     let p1 := (audioExists_settled url o p).1 in
     audioExists url p1
     = (p1, Some match o with Response ok => ok | NetworkError => false end))
  ∧ (∀ url reqs,
       let p := mkProbes ∅ reqs in
       requests (audioExists url (audioExists url p).1).1 = reqs ++ [url; url])
  ∧ requests (renderChecks (str "English") [str "Hi."] (mkProbes ∅ []))
    = [str "Audio/English/Hi..m4a"; str "Audio/English/Hi..m4a"].
Proof.
  split_and!.
  - intros url o p p1. subst p1. unfold audioExists, audioExists_settled.
    simpl. by rewrite lookup_insert_eq.
  - intros url reqs p. subst p. unfold audioExists. simpl.
    rewrite !lookup_empty. simpl. by rewrite lookup_empty, <- app_assoc.
  - vm_compute. reflexivity.
Qed.

End ExistenceFacts.

(** ** Reading the CSV *)

Section CsvFacts.

Implicit Types line cur f : jsstring.
Implicit Types out fs : list jsstring.

Lemma line_ind (P : jsstring → Prop) :
  P [] →
  (∀ ch rest, P rest → (∀ next rest', rest = next :: rest' → P rest') →
     P (ch :: rest)) →
  ∀ line, P line.
Proof.
  intros H0 Hc line.
  assert (P line ∧ ∀ ch, P (ch :: line)) as [? _]; [|done].
  induction line as [|y l [IH1 IH2]]; split; auto.
  - intros ch. apply Hc; [done|]. intros ??. done.
  - intros ch. apply Hc; [done|]. by intros ?? [= <- <-].
Qed.

Lemma parseCSVLine_loop_length line : ∀ out cur q,
  (length out < length (parseCSVLine_loop line out cur q))%nat.
Proof.
  induction line as [|ch rest IH1 IH2] using line_ind; intros out cur q.
  - simpl. rewrite length_app. simpl. lia.
  - simpl. destruct q.
    + destruct (ch =? dquote); [|apply IH1].
      destruct rest as [|next rest']; [apply IH1|].
      destruct (next =? dquote); [by apply (IH2 next rest')|apply IH1].
    + destruct (ch =? comma).
      * etrans; [|apply IH1]. rewrite length_app. simpl. lia.
      * destruct (ch =? dquote); apply IH1.
Qed.

Lemma parseCSVLine_nonempty line : parseCSVLine line ≠ [].
Proof.
  pose proof (parseCSVLine_loop_length line [] [] false) as H.
  unfold parseCSVLine. destruct (parseCSVLine_loop _ _ _ _); simpl in H; [lia|done].
Qed.

(** Without quotes the fields are the pieces between the commas. *)
Lemma parseCSVLine_loop_plain line : ∀ out cur,
  dquote ∉ line →
  parseCSVLine_loop line out cur false
  = out ++ match split comma line with
           | seg :: segs => trim (cur ++ seg) :: (trim <$> segs)
           | [] => []
           end.
Proof.
  induction line as [|ch rest IH]; intros out cur Hq; simpl.
  - by rewrite app_nil_r.
  - apply not_elem_of_cons in Hq as [Hch Hrest].
    destruct (Z.eqb_spec ch comma) as [->|Hc].
    + rewrite IH by done. rewrite app_nil_r, <- app_assoc. simpl.
      pose proof (split_nonempty comma rest). by destruct (split comma rest).
    + destruct (Z.eqb_spec ch dquote) as [->|_]; [done|].
      rewrite IH by done. pose proof (split_nonempty comma rest).
      destruct (split comma rest); [done|]. by rewrite <- app_assoc.
Qed.

(** Inside quotes: up to the closing quote, which a comma or the end of the
    line follows. *)
Lemma parseCSVLine_loop_quoted f : ∀ rest out cur,
  (rest = [] ∨ ∃ r, rest = comma :: r) →
  parseCSVLine_loop (escapeQuotes f ++ dquote :: rest) out cur true
  = parseCSVLine_loop rest out (cur ++ f) false.
Proof.
  induction f as [|c f IH]; intros rest out cur Hrest; simpl.
  - rewrite ?Z.eqb_refl, app_nil_r. by destruct Hrest as [->|[r ->]].
  - destruct (Z.eqb_spec c dquote) as [->|Hc]; simpl.
    + rewrite ?Z.eqb_refl. rewrite IH by done. by rewrite <- app_assoc.
    + destruct (Z.eqb_spec c dquote); [done|].
      rewrite IH by done. by rewrite <- app_assoc.
Qed.

Lemma parseCSVLine_loop_field q f : ∀ rest out,
  writable q f →
  (rest = [] ∨ ∃ r, rest = comma :: r) →
  parseCSVLine_loop (writeField q f ++ rest) out [] false
  = parseCSVLine_loop rest out f false.
Proof.
  intros rest out Hw Hrest. destruct q; simpl.
  - rewrite <- app_assoc. simpl. by rewrite parseCSVLine_loop_quoted.
  - destruct (Hw eq_refl) as [Hc Hq]. clear Hw.
    assert (∀ cur, parseCSVLine_loop (f ++ rest) out cur false
                   = parseCSVLine_loop rest out (cur ++ f) false) as H;
      [|apply (H [])].
    induction f as [|c f IH]; intros cur; simpl; [by rewrite app_nil_r|].
    apply not_elem_of_cons in Hc as [Hc1 Hc2].
    apply not_elem_of_cons in Hq as [Hq1 Hq2].
    destruct (Z.eqb_spec c comma); [done|].
    destruct (Z.eqb_spec c dquote); [done|].
    rewrite IH by done. by rewrite <- app_assoc.
Qed.

Lemma parseCSVLine_written : ∀ (qfs : list (bool * jsstring)) out,
  qfs ≠ [] →
  Forall (λ qf, writable qf.1 qf.2) qfs →
  parseCSVLine_loop (join comma ((λ qf, writeField qf.1 qf.2) <$> qfs)) out [] false
  = out ++ (trim <$> qfs.*2).
Proof.
  induction qfs as [|[q f] qfs IH]; intros out Hne Hall; [done|].
  apply Forall_cons in Hall as [Hw Hall]. simpl in Hw.
  destruct qfs as [|qf' qfs].
  - simpl. rewrite <- (app_nil_r (writeField q f)).
    rewrite parseCSVLine_loop_field by auto. done.
  - change (join comma ((λ qf, writeField qf.1 qf.2) <$> (q, f) :: qf' :: qfs))
      with (writeField q f ++ comma :: join comma ((λ qf, writeField qf.1 qf.2) <$> qf' :: qfs)).
    rewrite parseCSVLine_loop_field by eauto.
    cbn [parseCSVLine_loop]. rewrite ?Z.eqb_refl.
    rewrite IH by done. by rewrite <- app_assoc.
Qed.

(** *** The row objects *)

Implicit Types row : Row.
Implicit Types key k v : jsstring.

Lemma get_None key row : get key row = None ↔ key ∉ row.*1.
Proof.
  induction row as [|[k x] row IH]; simpl.
  - split; [intros _; apply not_elem_of_nil|done].
  - rewrite not_elem_of_cons. case_bool_decide as Hk.
    + split; [done|]. by intros [? _].
    + rewrite IH. split; [by split|by intros [_ ?]].
Qed.

Lemma get_Some_keys key row x : get key row = Some x → key ∈ row.*1.
Proof.
  intros H. destruct (decide (key ∈ row.*1)) as [|Hn]; [done|].
  apply get_None in Hn. congruence.
Qed.

Lemma get_keys_ext key row row' :
  row.*1 = row'.*1 → is_Some (get key row) ↔ is_Some (get key row').
Proof.
  intros Hk. rewrite <- !not_eq_None_Some, !get_None, Hk. done.
Qed.

Lemma insertIndex_keys n key v v' : ∀ row row',
  row.*1 = row'.*1 →
  (insertIndex n key v row).*1 = (insertIndex n key v' row').*1.
Proof.
  induction row as [|[k x] row IH]; intros [|[k' x'] row'] Hk; try done.
  rewrite !fmap_cons in Hk. injection Hk as Hk1 Hk. simpl in Hk1. subst k'.
  cbn [insertIndex]. destruct (arrayIndex k).
  - case_match; rewrite !fmap_cons; cbn [fst]; f_equal;
      [by apply IH|by rewrite Hk].
  - rewrite !fmap_cons. cbn [fst]. by rewrite Hk.
Qed.

Lemma overwrite_keys key v row : (overwrite key v row).*1 = row.*1.
Proof.
  induction row as [|[k x] row IH]; [done|]. cbn [overwrite].
  case_bool_decide; [done|]. by rewrite !fmap_cons, IH.
Qed.

Lemma setProp_keys key v v' row row' :
  row.*1 = row'.*1 → (setProp key v row).*1 = (setProp key v' row').*1.
Proof.
  intros Hk. unfold setProp. case_bool_decide; [done|].
  pose proof (get_keys_ext key row row' Hk) as He.
  destruct (get key row) eqn:E1, (get key row') eqn:E2.
  - by rewrite !overwrite_keys.
  - destruct He as [He _]. by destruct He.
  - destruct He as [_ He]. by destruct He.
  - destruct (arrayIndex key); [by apply insertIndex_keys|].
    rewrite !fmap_app. by rewrite Hk.
Qed.

Lemma fillRow_keys header : ∀ c c' values values' row row',
  row.*1 = row'.*1 →
  (fillRow header c values row).*1 = (fillRow header c' values' row').*1.
Proof.
  induction header as [|key header IH]; intros c c' vs vs' row row' Hk; [done|].
  simpl. apply IH. by apply setProp_keys.
Qed.

Lemma insertIndex_perm n key v row :
  insertIndex n key v row ≡ₚ (key, v) :: row.
Proof.
  induction row as [|[k x] row IH]; simpl; [done|].
  destruct (arrayIndex k); [|done]. case_match; [|done].
  rewrite IH. apply perm_swap.
Qed.

(** The keys after an assignment: the same, or one more. *)
Lemma setProp_keys_perm key v row :
  (setProp key v row).*1 ≡ₚ
    if bool_decide (key = str "__proto__") || bool_decide (key ∈ row.*1)
    then row.*1 else key :: row.*1.
Proof.
  unfold setProp. case_bool_decide; [done|]. simpl.
  destruct (get key row) eqn:E.
  - rewrite overwrite_keys. apply get_Some_keys in E.
    by rewrite bool_decide_eq_true_2.
  - apply get_None in E. rewrite bool_decide_eq_false_2 by done.
    destruct (arrayIndex key).
    + by rewrite insertIndex_perm.
    + rewrite fmap_app. simpl. by rewrite Permutation_app_comm.
Qed.

Lemma setProp_NoDup key v row :
  NoDup row.*1 → NoDup (setProp key v row).*1.
Proof.
  intros Hnd. rewrite setProp_keys_perm.
  destruct (bool_decide (key = _)); simpl; [done|].
  case_bool_decide; [done|]. by constructor.
Qed.

Lemma setProp_elem key v row k :
  k ∈ (setProp key v row).*1 ↔
    k ∈ row.*1 ∨ (k = key ∧ key ≠ str "__proto__").
Proof.
  rewrite setProp_keys_perm.
  case_bool_decide as Hp; simpl.
  - intuition congruence.
  - case_bool_decide; [intuition congruence|].
    rewrite elem_of_cons. intuition congruence.
Qed.

Lemma fillRow_NoDup header : ∀ c values row,
  NoDup row.*1 → NoDup (fillRow header c values row).*1.
Proof.
  induction header as [|key header IH]; intros c vs row Hnd; [done|].
  simpl. by apply IH, setProp_NoDup.
Qed.

Lemma fillRow_elem header k : ∀ c values row,
  k ∈ (fillRow header c values row).*1 ↔
    k ∈ row.*1 ∨ (k ∈ header ∧ k ≠ str "__proto__").
Proof.
  induction header as [|key header IH]; intros c vs row; simpl.
  - rewrite elem_of_nil. tauto.
  - rewrite IH, setProp_elem, elem_of_cons. intuition (subst; auto).
Qed.

Lemma get_overwrite key v row k :
  get k (overwrite key v row)
  = if bool_decide (k = key) then (λ _, v) <$> get key row else get k row.
Proof.
  induction row as [|[k0 x] row IH]; cbn [overwrite get].
  - by case_bool_decide.
  - destruct (decide (k0 = key)) as [->|Hne].
    + rewrite (bool_decide_eq_true_2 (key = key)) by done. cbn [get].
      destruct (decide (k = key)) as [->|Hk].
      * by rewrite !bool_decide_eq_true_2.
      * rewrite (bool_decide_eq_false_2 (key = k)) by done.
        by rewrite (bool_decide_eq_false_2 (k = key)).
    + rewrite (bool_decide_eq_false_2 (k0 = key)) by done. cbn [get].
      rewrite IH. destruct (decide (k = key)) as [->|Hk].
      * rewrite (bool_decide_eq_false_2 (k0 = key)) by done.
        by rewrite !bool_decide_eq_true_2.
      * rewrite (bool_decide_eq_false_2 (k = key)) by done. done.
Qed.

Lemma get_cons_new key v row k :
  get k ((key, v) :: row) = if bool_decide (k = key) then Some v else get k row.
Proof.
  cbn [get]. destruct (decide (k = key)) as [->|Hk].
  - by rewrite !bool_decide_eq_true_2.
  - rewrite (bool_decide_eq_false_2 (key = k)) by done.
    by rewrite (bool_decide_eq_false_2 (k = key)).
Qed.

Lemma get_insertIndex n key v row k :
  get key row = None →
  get k (insertIndex n key v row)
  = if bool_decide (k = key) then Some v else get k row.
Proof.
  induction row as [|[k0 x] row IH]; intros Hn.
  - apply get_cons_new.
  - cbn [insertIndex]. cbn [get] in Hn.
    destruct (decide (k0 = key)) as [->|H0];
      [by rewrite bool_decide_eq_true_2 in Hn|].
    rewrite (bool_decide_eq_false_2 (k0 = key)) in Hn by done.
    destruct (arrayIndex k0) as [m|]; [|apply get_cons_new].
    destruct (m <? n); [|apply get_cons_new].
    cbn [get]. rewrite IH by done.
    destruct (decide (k0 = k)) as [->|H1].
    + rewrite (bool_decide_eq_true_2 (k = k)) by done.
      by rewrite (bool_decide_eq_false_2 (k = key)).
    + by rewrite (bool_decide_eq_false_2 (k0 = k)).
Qed.

Lemma get_app k row row' :
  get k (row ++ row') = match get k row with
                        | Some x => Some x
                        | None => get k row'
                        end.
Proof.
  induction row as [|[k0 x] row IH]; simpl; [done|]. by case_bool_decide.
Qed.

(** Reading after an assignment. *)
Lemma get_setProp key v row k :
  key ≠ str "__proto__" →
  get k (setProp key v row) = if bool_decide (k = key) then Some v else get k row.
Proof.
  intros Hp. unfold setProp. rewrite bool_decide_eq_false_2 by done.
  destruct (get key row) eqn:E.
  - rewrite get_overwrite, E. done.
  - destruct (arrayIndex key).
    + by apply get_insertIndex.
    + rewrite get_app. simpl.
      destruct (decide (k = key)) as [->|Hk].
      * by rewrite E, !bool_decide_eq_true_2.
      * rewrite (bool_decide_eq_false_2 (key = k)) by done.
        rewrite (bool_decide_eq_false_2 (k = key)) by done.
        by destruct (get k row).
Qed.

Lemma get_setProp_proto v row k :
  get k (setProp (str "__proto__") v row) = get k row.
Proof. unfold setProp. by rewrite bool_decide_eq_true_2. Qed.

(** A key that no later column repeats holds the value of its column. *)
Lemma get_fillRow header k : ∀ c values row,
  k ∉ header →
  get k (fillRow header c values row) = get k row.
Proof.
  induction header as [|key header IH]; intros c vs row Hk; [done|].
  apply not_elem_of_cons in Hk as [Hne Hk]. simpl. rewrite IH by done.
  destruct (decide (key = str "__proto__")) as [->|Hp].
  - apply get_setProp_proto.
  - rewrite get_setProp by done. by rewrite bool_decide_eq_false_2.
Qed.

Lemma get_fillRow_last header k : ∀ i c values row,
  header !! i = Some k → k ∉ drop (S i) header → k ≠ str "__proto__" →
  get k (fillRow header c values row) = Some (orEmpty (values !! (c + i)%nat)).
Proof.
  induction header as [|key header IH]; intros i c vs row Hi Hlast Hp; [done|].
  destruct i as [|i]; simpl in *.
  - injection Hi as ->. rewrite drop_0 in Hlast.
    rewrite get_fillRow by done. rewrite get_setProp by done.
    rewrite bool_decide_eq_true_2 by done. by rewrite Nat.add_0_r.
  - rewrite (IH i) by done. do 3 f_equal. lia.
Qed.

(** *** Lines and their terminators *)

Lemma replaceCRLF_other c s :
  c ≠ CR → replaceCRLF (c :: s) = c :: replaceCRLF s.
Proof.
  intros Hc. cbn [replaceCRLF]. destruct s as [|d s]; [done|].
  destruct (Z.eqb_spec c CR); [done|]. done.
Qed.

Lemma replaceCRLF_crlf s : replaceCRLF (CR :: LF :: s) = LF :: replaceCRLF s.
Proof. done. Qed.

Lemma replaceCRLF_cr s :
  (∀ s', s ≠ LF :: s') → replaceCRLF (CR :: s) = CR :: replaceCRLF s.
Proof.
  intros Hs. cbn [replaceCRLF]. destruct s as [|d s]; [done|].
  destruct (Z.eqb_spec d LF) as [->|Hd]; [by destruct (Hs s)|].
  by rewrite andb_false_r.
Qed.

Lemma replaceCRLF_app l s :
  CR ∉ l → replaceCRLF (l ++ s) = l ++ replaceCRLF s.
Proof.
  induction l as [|c l IH]; intros Hl; [done|].
  apply not_elem_of_cons in Hl as [Hc Hl]. simpl.
  rewrite <- IH by done. by apply replaceCRLF_other.
Qed.

Lemma replaceCR_id l : CR ∉ l → replaceCR l = l.
Proof.
  induction l as [|c l IH]; intros Hl; [done|].
  apply not_elem_of_cons in Hl as [Hc Hl]. unfold replaceCR in *. simpl.
  rewrite IH by done. by destruct (Z.eqb_spec c CR).
Qed.

Lemma replaceCR_app a b : replaceCR (a ++ b) = replaceCR a ++ replaceCR b.
Proof. apply map_app. Qed.

Lemma split_line l s :
  LF ∉ l → split LF (l ++ LF :: s) = l :: split LF s.
Proof. intros Hl. by rewrite split_app_sep, split_no_sep. Qed.

Lemma unlines_head_LF ls last c U :
  Forall (λ lt, oneLine lt.1 ∧ terminator lt.2) ls → oneLine last →
  unlines ls last = c :: U → c = LF →
  ∃ ls', ls = ([], [LF]) :: ls' ∧ U = unlines ls' last.
Proof.
  intros Hls [_ Hlast] HU ->. destruct ls as [|[l t] ls']; simpl in HU.
  - subst last. destruct Hlast. apply list_elem_of_here.
  - apply Forall_cons in Hls as [[[_ Hl] Ht] _]. simpl in *.
    destruct l as [|d l]; simpl in HU.
    + exists ls'. destruct Ht as [->|[->| ->]]; simpl in HU;
        [by injection HU as <-|done|done].
    + injection HU as -> _. destruct Hl. apply list_elem_of_here.
Qed.

Lemma normal_line l t U :
  oneLine l → terminator t → (t = [CR] → ∀ U', U ≠ LF :: U') →
  split LF (replaceCR (replaceCRLF (l ++ t ++ U)))
  = l :: split LF (replaceCR (replaceCRLF U)).
Proof.
  intros [Hcr Hlf] Ht HU. rewrite replaceCRLF_app by done.
  rewrite replaceCR_app, replaceCR_id by done.
  destruct Ht as [->|[->| ->]]; cbn [app].
  - rewrite replaceCRLF_other by done. by apply (split_line l).
  - rewrite replaceCRLF_cr by auto. by apply (split_line l).
  - rewrite replaceCRLF_crlf. by apply (split_line l).
Qed.

Lemma normal_line_merged l U :
  oneLine l →
  split LF (replaceCR (replaceCRLF (l ++ [CR] ++ LF :: U)))
  = l :: split LF (replaceCR (replaceCRLF U)).
Proof.
  intros [Hcr Hlf]. rewrite replaceCRLF_app by done.
  rewrite replaceCR_app, replaceCR_id by done.
  cbn [app]. rewrite replaceCRLF_crlf. by apply (split_line l).
Qed.

Lemma linesOf_unlines_aux (n : nat) : ∀ ls last,
  (length ls ≤ n)%nat →
  Forall (λ lt, oneLine lt.1 ∧ terminator lt.2) ls → oneLine last →
  linesOf (unlines ls last) = List.filter nonBlank (ls.*1 ++ [last]).
Proof.
  unfold linesOf. induction n as [|n IH]; intros ls last Hn Hls Hlast.
  - destruct ls; [|simpl in Hn; lia].
    destruct Hlast as [Hcr Hlf]. simpl.
    rewrite <- (app_nil_r last) at 1. rewrite replaceCRLF_app by done.
    simpl. rewrite app_nil_r, replaceCR_id, split_no_sep by done. done.
  - destruct ls as [|[l t] ls].
    { apply (IH []); [simpl; lia|done|done]. }
    apply Forall_cons in Hls as [[Hl Ht] Hls]. simpl in Hl, Ht, Hn.
    cbn [unlines fmap list_fmap fst app].
    destruct (unlines ls last) as [|c U] eqn:EU.
    { rewrite normal_line by done. cbn [List.filter].
      rewrite <- EU. rewrite IH by (done || lia). done. }
    destruct (decide (t = [CR] ∧ c = LF)) as [[-> ->]|Hno].
    + destruct (unlines_head_LF ls last LF U) as (ls' & -> & ->); [done..|].
      apply Forall_cons in Hls as [_ Hls]. simpl in Hn.
      rewrite normal_line_merged by done.
      cbn [List.filter fmap list_fmap fst app].
      rewrite IH by (done || lia).
      replace (nonBlank []) with false by done. done.
    + rewrite normal_line; [|done|done|].
      * cbn [List.filter]. rewrite <- EU. rewrite IH by (done || lia). done.
      * intros -> U' [= -> _]. by destruct Hno.
Qed.

Lemma parseCSVLine_loop_bound line : ∀ out cur q,
  (length (parseCSVLine_loop line out cur q)
   ≤ length out + S (occurrences comma line))%nat.
Proof.
  induction line as [|ch rest IH1 IH2] using line_ind; intros out cur q.
  - simpl. rewrite length_app. simpl. lia.
  - cbn [parseCSVLine_loop occurrences]. destruct q.
    + destruct (ch =? dquote).
      * destruct rest as [|next rest']; [etrans; [apply IH1|lia]|].
        destruct (next =? dquote); [|etrans; [apply IH1|lia]].
        etrans; [by apply (IH2 next rest')|]. cbn [occurrences]. lia.
      * etrans; [apply IH1|lia].
    + destruct (Z.eqb_spec ch comma) as [->|Hc].
      * etrans; [apply IH1|]. rewrite length_app. simpl. lia.
      * destruct (ch =? dquote); (etrans; [apply IH1|lia]).
Qed.

Lemma parseCSV_fmap text line0 rest :
  linesOf text = line0 :: rest →
  parseCSV text
  = (λ line, fillRow (parseCSVLine line0) 0 (parseCSVLine line) []) <$> rest.
Proof.
  intros Hl. unfold parseCSV. rewrite Hl. clear Hl.
  induction rest as [|line rest IH]; [done|]. cbn [omap list_omap].
  rewrite bool_decide_eq_false_2.
  - rewrite fmap_cons. f_equal. apply IH.
  - pose proof (parseCSVLine_nonempty line). by destruct (parseCSVLine line).
Qed.

End CsvFacts.

(** parseCSVLine: a line gives at least one field and at most one more than
    it has commas; without quotes in the line the fields are the trimmed
    pieces between the commas. *)
Theorem parseCSVLine_fields (line : jsstring) :
  (1 ≤ length (parseCSVLine line) ≤ S (occurrences comma line))%nat
  ∧ (dquote ∉ line → parseCSVLine line = trim <$> split comma line).
Proof.
  split; [split|].
  - pose proof (parseCSVLine_loop_length line [] [] false) as H.
    unfold parseCSVLine. cbn [length] in H. lia.
  - apply (parseCSVLine_loop_bound line [] [] false).
  - intros Hq. unfold parseCSVLine. rewrite parseCSVLine_loop_plain by done.
    pose proof (split_nonempty comma line). by destruct (split comma line).
Qed.

(** parseCSVLine reads back what a CSV writer puts on a line: fields joined
    by commas, each either between quotes with its quotes doubled or, when
    it holds neither comma nor quote, as it is.  Every field comes back
    trimmed, a quoted one too. *)
Theorem parseCSVLine_reads_written (qfs : list (bool * jsstring)) :
  qfs ≠ [] →
  Forall (λ qf, writable qf.1 qf.2) qfs →
  parseCSVLine (join comma ((λ qf, writeField qf.1 qf.2) <$> qfs))
  = trim <$> qfs.*2.
Proof. intros Hne Hall. by apply (parseCSVLine_written qfs []). Qed.

Lemma parseCSVLine_reads_written_witness :
  parseCSVLine (str "1," ++ [dquote] ++ str "He said " ++ [dquote; dquote]
                ++ str "hi" ++ [dquote; dquote] ++ str ", twice " ++ [dquote]
                ++ str ", 3 ")
  = [str "1"; str "He said " ++ [dquote] ++ str "hi" ++ [dquote] ++ str ", twice";
     str "3"].
Proof.
  apply (parseCSVLine_reads_written
           [(false, str "1");
            (true, str "He said " ++ [dquote] ++ str "hi" ++ [dquote]
                   ++ str ", twice ");
            (false, str " 3 ")]).
  - done.
  - rewrite !Forall_cons. unfold writable. cbn [fst snd].
    repeat split; try apply Forall_nil; try discriminate;
      by apply (bool_decide_unpack _).
Defined.

(** parseCSV: one row for every non-blank line after the first, none
    skipped; every row has the same keys in the same order, each once -
    the fields of the first line but "__proto__" - so the keys of the first
    row, which buildModel reads, are those of every row. *)
Theorem parseCSV_same_columns (text : jsstring) :
  length (parseCSV text) = pred (length (linesOf text))
  ∧ ∀ r, r ∈ parseCSV text →
      NoDup r.*1
      ∧ (∀ k, k ∈ r.*1 ↔
               k ∈ parseCSVLine (default [] (head (linesOf text)))
               ∧ k ≠ str "__proto__")
      ∧ (∀ r', r' ∈ parseCSV text →
           r'.*1 = r.*1 ∧ languageColsOf r' = languageColsOf r).
Proof.
  destruct (linesOf text) as [|line0 rest] eqn:El.
  { unfold parseCSV. rewrite El. split; [done|]. by intros r ?%elem_of_nil. }
  rewrite (parseCSV_fmap _ _ _ El). split; [by rewrite length_fmap|].
  intros r (line & -> & _)%list_elem_of_fmap. split_and!.
  - apply fillRow_NoDup. constructor.
  - intros k. rewrite fillRow_elem. simpl. rewrite elem_of_nil. tauto.
  - intros r' (line' & -> & _)%list_elem_of_fmap.
    assert ((fillRow (parseCSVLine line0) 0 (parseCSVLine line') []).*1
            = (fillRow (parseCSVLine line0) 0 (parseCSVLine line) []).*1) as Hk
      by by apply fillRow_keys.
    split; [done|]. by apply languageColsOf_keys.
Qed.

(** parseCSV: in the row of a line, the key of a column holds the field of
    that column on the line, the empty string when the line has fewer
    fields; of two columns with one name the later wins; a key that is not
    in the first line is absent. *)
Theorem parseCSV_cell (text line0 line key : jsstring) (rest : list jsstring)
    (i : nat) :
  linesOf text = line0 :: rest →
  rest !! i = Some line →
  ∃ r, parseCSV text !! i = Some r
    ∧ (∀ c, parseCSVLine line0 !! c = Some key →
            key ∉ drop (S c) (parseCSVLine line0) →
            key ≠ str "__proto__" →
            get key r = Some (orEmpty (parseCSVLine line !! c)))
    ∧ (key ∉ parseCSVLine line0 → get key r = None).
Proof.
  intros El Hi. rewrite (parseCSV_fmap _ _ _ El).
  eexists. split; [by rewrite list_lookup_fmap, Hi|]. split.
  - intros c Hc Hlast Hp. by rewrite (get_fillRow_last _ _ c).
  - intros Hk. by rewrite get_fillRow.
Qed.

Lemma parseCSV_cell_witness :
  let text := str "Lesson,Line,English" ++ [LF] ++ str "1,2,Hi" ++ [LF]
              ++ str "1,1" in
  ∃ r, parseCSV text !! 1%nat = Some r
    ∧ get (str "Lesson") r = Some (str "1")
    ∧ get (str "English") r = Some []
    ∧ get (str "CEFR") r = None.
Proof.
  destruct (parseCSV_cell
              (str "Lesson,Line,English" ++ [LF] ++ str "1,2,Hi" ++ [LF]
               ++ str "1,1")
              (str "Lesson,Line,English") (str "1,1") (str "Lesson")
              [str "1,2,Hi"; str "1,1"] 1 eq_refl eq_refl)
    as (r & Hr & Hc & _).
  exists r. split; [exact Hr|].
  split; [apply (Hc 0%nat); [done| |done]|].
  - by apply (bool_decide_unpack _).
  - vm_compute in Hr. injection Hr as <-. done.
Defined.

(** parseCSV: a line ends at LF, CR or CR LF alike; the lines that trim to
    nothing are dropped, wherever they are; so the rows do not depend on
    the terminators used. *)
Theorem linesOf_terminators (ls : list (jsstring * jsstring)) (last : jsstring) :
  Forall (λ lt, oneLine lt.1 ∧ terminator lt.2) ls → oneLine last →
  linesOf (unlines ls last) = List.filter nonBlank (ls.*1 ++ [last])
  ∧ ∀ ls', Forall (λ lt, oneLine lt.1 ∧ terminator lt.2) ls' → ls'.*1 = ls.*1 →
      parseCSV (unlines ls' last) = parseCSV (unlines ls last).
Proof.
  intros Hls Hlast. split.
  - by apply (linesOf_unlines_aux (length ls)).
  - intros ls' Hls' Hk. unfold parseCSV.
    rewrite (linesOf_unlines_aux (length ls) ls) by done.
    rewrite (linesOf_unlines_aux (length ls') ls') by done.
    by rewrite Hk.
Qed.

Lemma linesOf_terminators_witness :
  linesOf (str "a,b" ++ [CR; LF] ++ [CR] ++ str "1,2" ++ [LF] ++ str "  ")
  = [str "a,b"; str "1,2"].
Proof.
  apply (linesOf_terminators
           [(str "a,b", [CR; LF]); ([], [CR]); (str "1,2", [LF])] (str "  ")).
  - rewrite !Forall_cons. cbn [fst snd]. unfold oneLine, terminator.
    repeat split; try apply Forall_nil; try (by apply (bool_decide_unpack _));
      auto.
  - split; by apply (bool_decide_unpack _).
Defined.

(** ** The lessons of the model *)

Section SortedByFacts.

Context {A : Type} (cmp : A → A → Z) (R : A → A → Prop) (P : A → Prop).

Hypothesis cmp_le : ∀ x y, P x → P y → cmp x y ≤ 0 → R x y.
Hypothesis cmp_gt : ∀ x y, P x → P y → 0 < cmp x y → R y x.
Hypothesis R_trans : ∀ x y z, R x y → R y z → R x z.

Lemma insertBy_sorted_by x l :
  P x → Forall P l → StronglySorted R l → StronglySorted R (insertBy cmp x l).
Proof.
  intros Hx Hl Hs. induction Hs as [|y l Hs IH Hy]; simpl.
  { repeat constructor. }
  apply Forall_cons in Hl as [Hpy Hl].
  destruct (Z.leb_spec (cmp x y) 0) as [Hc|Hc].
  - apply cmp_le in Hc; [|done..]. constructor; [by constructor|].
    constructor; [done|].
    eapply Forall_impl; [exact Hy|]. intros z Hz. by eapply R_trans.
  - constructor; [by apply IH|].
    rewrite insertBy_perm. constructor; [by apply cmp_gt|done].
Qed.

Lemma sortBy_sorted_by l : Forall P l → StronglySorted R (sortBy cmp l).
Proof.
  induction l as [|x l IH]; intros Hl; [constructor|].
  apply Forall_cons in Hl as [Hx Hl]. rewrite sortBy_cons.
  apply insertBy_sorted_by; [done| |by apply IH].
  by rewrite sortBy_perm.
Qed.

End SortedByFacts.

Section LessonFacts.

Variable localeCompare : jsstring → jsstring → Z.

Implicit Types rows : list Row.
Implicit Types m model : Model.
Implicit Types bl : list Lesson.
Implicit Types id : jsstring.

Lemma addRow_ids cols bl r :
  lessonId <$> addRow cols bl r
  = if bool_decide (rowLesson r = [])
       || bool_decide (rowLesson r ∈ lessonId <$> bl)
    then lessonId <$> bl else (lessonId <$> bl) ++ [rowLesson r].
Proof.
  unfold addRow. destruct (rowLesson r) as [|c id]; [done|].
  rewrite (bool_decide_eq_false_2 (c :: id = [])) by done. cbn [orb].
  rewrite pushLine_ids, hasLesson_getLesson.
  destruct (getLesson (c :: id) bl) as [l|] eqn:El.
  - rewrite bool_decide_eq_true_2; [done|].
    apply getLesson_Some in El as [<- Hl]. apply list_elem_of_fmap. eauto.
  - apply getLesson_None in El. rewrite bool_decide_eq_false_2 by done.
    by rewrite fmap_app.
Qed.

Lemma foldl_addRow_NoDup cols rows : ∀ bl,
  NoDup (lessonId <$> bl) → NoDup (lessonId <$> foldl (addRow cols) bl rows).
Proof.
  induction rows as [|r rows IH]; intros bl Hnd; [done|].
  simpl. apply IH. rewrite addRow_ids.
  destruct (bool_decide (rowLesson r = [])); [done|]. cbn [orb].
  case_bool_decide as Hin; [done|].
  apply NoDup_app. split_and!; [done| |apply NoDup_singleton].
  intros x Hx ->%list_elem_of_singleton. done.
Qed.

Lemma foldl_addRow_ids_elem cols rows id : ∀ bl,
  id ∈ lessonId <$> foldl (addRow cols) bl rows
  ↔ id ∈ lessonId <$> bl ∨ (id ≠ [] ∧ ∃ r, r ∈ rows ∧ rowLesson r = id).
Proof.
  induction rows as [|r rows IH]; intros bl.
  - simpl. split; [by left|]. intros [?|(_ & r & ?%elem_of_nil & _)]; done.
  - simpl. rewrite IH, addRow_ids.
    assert (id ∈ (if bool_decide (rowLesson r = [])
                     || bool_decide (rowLesson r ∈ lessonId <$> bl)
                  then lessonId <$> bl else (lessonId <$> bl) ++ [rowLesson r])
            ↔ id ∈ lessonId <$> bl ∨ (id ≠ [] ∧ rowLesson r = id)) as ->.
    { case_bool_decide as He; cbn [orb].
      - split; [by left|]. intros [?|[? <-]]; done.
      - case_bool_decide as Hin.
        + split; [by left|]. intros [?|[_ <-]]; done.
        + rewrite elem_of_app, list_elem_of_singleton.
          split; intros [?|H]; auto.
          * right. by subst.
          * destruct H as [_ <-]. by right. }
    split.
    + intros [[?|[? ?]]|(? & r' & ? & ?)]; auto.
      * right. split; [done|]. exists r. split; [apply list_elem_of_here|done].
      * right. split; [done|]. exists r'. split; [by apply list_elem_of_further|done].
    + intros [?|(Hne & r' & [->|Hin]%elem_of_cons & Hr)]; auto.
      right. eauto.
Qed.

(** A lesson exists only with the line that created it. *)
Lemma foldl_addRow_lines_nonempty cols rows : ∀ bl,
  Forall (λ l, lines l ≠ []) bl →
  Forall (λ l, lines l ≠ []) (foldl (addRow cols) bl rows).
Proof.
  induction rows as [|r rows IH]; intros bl Hbl; [done|].
  simpl. apply IH. unfold addRow.
  destruct (rowLesson r) as [|c id] eqn:Er; [done|].
  set (bl' := if hasLesson (c :: id) bl then bl else _).
  assert (Forall (λ l, lessonId l = c :: id ∨ lines l ≠ []) bl') as Hbl'.
  { subst bl'. destruct (hasLesson _ _).
    - eapply Forall_impl; [exact Hbl|]. by right.
    - apply Forall_app. split.
      + eapply Forall_impl; [exact Hbl|]. by right.
      + constructor; [by left|constructor]. }
  unfold pushLine. apply Forall_fmap. eapply Forall_impl; [exact Hbl'|].
  intros l Hl. simpl. case_bool_decide as Hid.
  - simpl. by destruct (lines l).
  - by destruct Hl.
Qed.

Lemma lessonsOf_ids bl :
  lessonId <$> lessonsOf localeCompare bl = lessonIdsOf localeCompare bl.
Proof.
  unfold lessonsOf.
  assert (∀ id, id ∈ lessonIdsOf localeCompare bl → id ∈ lessonId <$> bl) as Hin.
  { intros id. unfold lessonIdsOf. by rewrite sortBy_perm. }
  induction (lessonIdsOf localeCompare bl) as [|id ids IH]; [done|].
  rewrite omap_sorted_cons.
  destruct (getLesson id bl) as [l|] eqn:El.
  - rewrite fmap_cons. apply getLesson_Some in El as [<- _].
    f_equal. apply IH. intros id' ?. apply Hin. by apply list_elem_of_further.
  - apply getLesson_None in El. destruct El. apply Hin, list_elem_of_here.
Qed.

Lemma lessonIdsOf_perm bl : lessonIdsOf localeCompare bl ≡ₚ lessonId <$> bl.
Proof. apply sortBy_perm. Qed.

Lemma sortLines_lines_nonempty l : lines l ≠ [] → lines (sortLines l) ≠ [].
Proof.
  simpl. intros Hne Hs. apply Hne.
  apply Permutation_nil_r. rewrite <- Hs. symmetry. apply sortBy_perm.
Qed.

Lemma addRow_cefr cols bl r id :
  cefr <$> getLesson id (addRow cols bl r)
  = match getLesson id bl with
    | Some l0 => Some (cefr l0)
    | None =>
        if bool_decide (rowLesson r = id) && negb (bool_decide (id = []))
        then Some (trim (orEmpty (get (str "CEFR") r))) else None
    end.
Proof.
  unfold addRow. destruct (rowLesson r) as [|c rid] eqn:Er.
  { destruct (getLesson id bl); [done|].
    case_bool_decide as H1; [|done]. subst id.
    by rewrite (bool_decide_eq_true_2 ([] = [])). }
  rewrite getLesson_pushLine, hasLesson_getLesson.
  destruct (getLesson (c :: rid) bl) as [l1|] eqn:E1.
  - destruct (getLesson id bl) as [l0|] eqn:E0; simpl.
    + by case_bool_decide.
    + case_bool_decide as H1; [|done]. subst id. congruence.
  - rewrite getLesson_app. destruct (getLesson id bl) as [l0|] eqn:E0; simpl.
    + by case_bool_decide.
    + case_bool_decide as H1; simpl.
      * subst id. rewrite (bool_decide_eq_false_2 (c :: rid = [])) by done.
        simpl. by rewrite bool_decide_eq_true_2.
      * done.
Qed.

Lemma rowsOf_cons id r rows :
  rowsOf id (r :: rows)
  = if bool_decide (rowLesson r = id) then r :: rowsOf id rows else rowsOf id rows.
Proof.
  unfold rowsOf. rewrite filter_cons.
  case_decide; [by rewrite bool_decide_eq_true_2|by rewrite bool_decide_eq_false_2].
Qed.

Lemma foldl_addRow_cefr cols id rows : ∀ bl,
  id ≠ [] →
  cefr <$> getLesson id (foldl (addRow cols) bl rows)
  = match getLesson id bl with
    | Some l0 => Some (cefr l0)
    | None => (λ r, trim (orEmpty (get (str "CEFR") r))) <$> head (rowsOf id rows)
    end.
Proof.
  induction rows as [|r rows IH]; intros bl Hid.
  { simpl. by destruct (getLesson id bl). }
  simpl foldl. rewrite IH by done. rewrite rowsOf_cons.
  pose proof (addRow_cefr cols bl r id) as Ha.
  rewrite (bool_decide_eq_false_2 (id = [])) in Ha by done.
  rewrite andb_true_r in Ha.
  destruct (getLesson id (addRow cols bl r)) as [l1|] eqn:E1;
    destruct (getLesson id bl) as [l0|] eqn:E0; simpl in Ha.
  - done.
  - case_bool_decide; [|done]. simpl. done.
  - done.
  - case_bool_decide; [done|]. done.
Qed.

Lemma buildModel_Built rows model m :
  buildModel localeCompare rows model = Built m →
  ∃ row0 rest cols,
    rows = row0 :: rest ∧ cols = languageColsOf row0 ∧ cols ≠ []
    ∧ m = withDefaults (lessonsOf localeCompare (byLessonOf cols rows))
            (lessonIdsOf localeCompare (byLessonOf cols rows)) cols model.
Proof.
  unfold buildModel. destruct rows as [|row0 rest]; [done|].
  destruct (languageColsOf row0) as [|c cols] eqn:Ec; [done|].
  intros [= <-]. exists row0, rest, (c :: cols). by rewrite Ec.
Qed.

Lemma truthy_Some v : truthy v = true → ∃ c s, v = Some (c :: s).
Proof. destruct v as [[|c s]|]; try done. eauto. Qed.

Lemma includes_Some l v : includes l v = true → ∃ s, v = Some s ∧ s ∈ l.
Proof.
  destruct v as [s|]; [|done]. simpl. intros H%bool_decide_eq_true. eauto.
Qed.

Lemma includes_elem l s : s ∈ l → includes l (Some s) = true.
Proof. intros H. simpl. by apply bool_decide_eq_true. Qed.

Lemma head_elem {A} (l : list A) x : head l = Some x → x ∈ l.
Proof. destruct l; [done|]. intros [= ->]. apply list_elem_of_here. Qed.

End LessonFacts.

Lemma buildModel_listing (localeCompare : jsstring → jsstring → Z)
    (rows : list Row) (model m : Model) :
  buildModel localeCompare rows model = Built m →
  lessonId <$> lessons m = lessonIds m
  ∧ NoDup (lessonIds m)
  ∧ (∀ id, id ∈ lessonIds m ↔ id ≠ [] ∧ ∃ r, r ∈ rows ∧ rowLesson r = id)
  ∧ (∀ l, l ∈ lessons m → lines l ≠ [])
  ∧ (∀ id, id ∈ lessonIds m →
       ∃ l, getLesson id (lessons m) = Some l ∧ lessonId l = id)
  ∧ languages m = languageColsOf (default [] (head rows))
  ∧ languages m ≠ [].
Proof.
  intros Hb.
  destruct (buildModel_Built _ _ _ _ Hb) as (row0 & rest & cols & -> & -> & Hne & ->).
  cbn [withDefaults lessons lessonIds languages head default].
  set (bl := byLessonOf (languageColsOf row0) (row0 :: rest)).
  assert (∀ id, id ∈ lessonIdsOf localeCompare bl
                ↔ id ≠ [] ∧ ∃ r, r ∈ row0 :: rest ∧ rowLesson r = id) as Hids.
  { intros id. rewrite lessonIdsOf_perm. unfold bl, byLessonOf.
    rewrite foldl_addRow_ids_elem. simpl. rewrite elem_of_nil. tauto. }
  split_and!; try done.
  - apply lessonsOf_ids.
  - rewrite lessonIdsOf_perm. apply foldl_addRow_NoDup. constructor.
  - intros l (l0 & Hl0 & ->)%lessonsOf_elem. apply sortLines_lines_nonempty.
    apply getLesson_Some in Hl0 as [_ Hin].
    pose proof (foldl_addRow_lines_nonempty (languageColsOf row0) (row0 :: rest) []
                  (List.Forall_nil _)) as Hall.
    rewrite Forall_forall in Hall. by apply Hall.
  - intros id Hid. rewrite getLesson_lessonsOf.
    rewrite lessonIdsOf_perm in Hid.
    destruct (getLesson id bl) as [l0|] eqn:El0.
    + eexists. split; [done|]. by apply getLesson_Some in El0 as [? _].
    + by apply getLesson_None in El0.
Qed.

(** buildModel: the model lists each lesson once; [lessons] and [lessonIds]
    go together; a lesson identifier is listed exactly when it is not
    empty and some row has it (a row without one is skipped); every lesson
    has at least one line; the languages are the columns of the first row
    other than Lesson, Line and CEFR. *)
Theorem buildModel_lessons_listed (localeCompare : jsstring → jsstring → Z)
    (rows : list Row) (model m : Model) :
  buildModel localeCompare rows model = Built m →
  lessonId <$> lessons m = lessonIds m
  ∧ NoDup (lessonIds m)
  ∧ (∀ id, id ∈ lessonIds m ↔ id ≠ [] ∧ ∃ r, r ∈ rows ∧ rowLesson r = id)
  ∧ (∀ l, l ∈ lessons m → lines l ≠ [])
  ∧ (∀ id, id ∈ lessonIds m →
       ∃ l, getLesson id (lessons m) = Some l ∧ lessonId l = id)
  ∧ languages m = languageColsOf (default [] (head rows))
  ∧ languages m ≠ [].
Proof. apply buildModel_listing. Qed.

Lemma buildModel_lessons_listed_witness :
  ∃ m, buildModel (λ _ _, 0) [rowHi; rowHello] (mkModel [] [] [] None None None)
       = Built m
    ∧ lessonId <$> lessons m = lessonIds m ∧ NoDup (lessonIds m).
Proof.
  eexists. split; [reflexivity|].
  destruct (buildModel_lessons_listed (λ _ _, 0) [rowHi; rowHello]
              (mkModel [] [] [] None None None) _ eq_refl) as (H1 & H2 & _).
  split; [exact H1|exact H2].
Defined.

Lemma buildModel_chosen (localeCompare : jsstring → jsstring → Z)
    (rows : list Row) (model m : Model) :
  buildModel localeCompare rows model = Built m →
  (∃ lang, currentLanguage m = Some lang ∧ lang ∈ languages m)
  ∧ (match lessonIds m with
     | [] => currentLessonId m = None
     | id0 :: _ => ∃ id, currentLessonId m = Some id ∧ id ∈ lessonIds m
     end)
  ∧ helperLanguage m ≠ currentLanguage m
  ∧ (∀ h, helperLanguage m = Some h → h = [] ∨ h ∈ languages m)
  ∧ (∀ id, currentLessonId model = Some id → id ∈ lessonIds m →
       currentLessonId m = Some id)
  ∧ (∀ lang, currentLanguage model = Some lang → lang ≠ [] →
       lang ∈ languages m → currentLanguage m = Some lang)
  ∧ (∀ h, helperLanguage model = Some h → h ∈ languages m →
       Some h ≠ currentLanguage m → helperLanguage m = Some h)
  ∧ (¬ (∃ id, currentLessonId model = Some id ∧ id ∈ lessonIds m) →
       currentLessonId m = head (lessonIds m))
  ∧ (¬ (∃ lang, currentLanguage model = Some lang ∧ lang ≠ []
                ∧ lang ∈ languages m) →
       currentLanguage m = if bool_decide (str "English" ∈ languages m)
                           then Some (str "English") else head (languages m)).
Proof.
  intros Hb.
  destruct (buildModel_listing _ _ _ _ Hb) as (_ & _ & Hids & _ & _ & _ & Hlne).
  assert ([] ∉ lessonIds m) as Hnil by (rewrite Hids; tauto).
  destruct (buildModel_Built _ _ _ _ Hb) as (row0 & rest & cols & -> & -> & Hne & Hm).
  set (ids := lessonIdsOf localeCompare
                (byLessonOf (languageColsOf row0) (row0 :: rest))) in *.
  set (langs := languageColsOf row0) in *.
  assert (lessonIds m = ids) as Eids by by rewrite Hm.
  assert (languages m = langs) as Elangs by by rewrite Hm.
  rewrite Eids, Elangs in *.
  assert (currentLessonId m
          = if negb (truthy (currentLessonId model))
               || negb (includes ids (currentLessonId model))
            then head ids else currentLessonId model) as Hl by by rewrite Hm.
  assert (currentLanguage m
          = if negb (truthy (currentLanguage model))
               || negb (includes langs (currentLanguage model))
            then (if includes langs (Some (str "English"))
                  then Some (str "English") else head langs)
            else currentLanguage model) as Hc by by rewrite Hm.
  assert (helperLanguage m
          = let helper := if truthy (helperLanguage model)
                             && negb (includes langs (helperLanguage model))
                          then None else helperLanguage model in
            if bool_decide (helper = currentLanguage m) then None else helper)
    as Hh.
  { rewrite Hc, Hm. done. }
  clearbody ids langs. clear Hm Hb.
  assert (∃ lang, currentLanguage m = Some lang ∧ lang ∈ langs) as Hcur.
  { rewrite Hc. destruct (negb (truthy (currentLanguage model)) || _) eqn:E.
    - destruct (includes langs (Some (str "English"))) eqn:Ee.
      + apply includes_Some in Ee as (s & Hs & ?). exists s. by rewrite Hs.
      + destruct langs as [|l0 langs]; [done|]. simpl.
        eexists. split; [done|apply list_elem_of_here].
    - apply orb_false_elim in E as [_ E]. apply negb_false_iff in E.
      apply includes_Some in E as (s & -> & ?). eauto. }
  split_and!.
  - done.
  - destruct ids as [|id0 ids'] eqn:Ei.
    + rewrite Hl. destruct (currentLessonId model); simpl; [|done].
      by rewrite orb_true_r.
    + rewrite Hl. destruct (negb (truthy (currentLessonId model)) || _) eqn:E.
      * simpl. eexists. split; [done|apply list_elem_of_here].
      * apply orb_false_elim in E as [_ E]. apply negb_false_iff in E.
        apply includes_Some in E as (s & -> & ?). eauto.
  - rewrite Hh. cbv zeta. case_bool_decide as Heq; [|done].
    destruct Hcur as (lang & -> & _). done.
  - intros h. rewrite Hh. cbv zeta. case_bool_decide; [done|].
    destruct (truthy (helperLanguage model)) eqn:Et; simpl.
    + destruct (includes langs (helperLanguage model)) eqn:Ei; simpl; [|done].
      apply includes_Some in Ei as (s & -> & ?). intros [= <-]. by right.
    + intros Hs. rewrite Hs in Et. destruct h; [by left|done].
  - intros id Hid Hin. rewrite Hl, Hid.
    rewrite includes_elem by done.
    assert (truthy (Some id) = true) as ->; [|done].
    destruct id; [done|done].
  - intros lang Hlang Hne' Hin. rewrite Hc, Hlang.
    rewrite includes_elem by done.
    assert (truthy (Some lang) = true) as ->; [|done]. by destruct lang.
  - intros h Hmh Hin Hneq. rewrite Hh. cbv zeta. rewrite Hmh.
    rewrite includes_elem by done. rewrite andb_false_r.
    by rewrite bool_decide_eq_false_2.
  - intros Hno. rewrite Hl.
    destruct (negb (truthy (currentLessonId model)) || _) eqn:E; [done|].
    apply orb_false_elim in E as [_ E]. apply negb_false_iff in E.
    apply includes_Some in E as (s & Hs & ?). destruct Hno. eauto.
  - intros Hno. rewrite Hc.
    destruct (negb (truthy (currentLanguage model)) || _) eqn:E.
    + simpl. by destruct (bool_decide _).
    + apply orb_false_elim in E as [E1 E]. apply negb_false_iff in E, E1.
      apply includes_Some in E as (s & Hs & ?). destruct Hno.
      exists s. rewrite Hs in E1. split_and!; [done| |done]. by destruct s.
Qed.

(** buildModel: a saved lesson, language or helper language is kept when
    the data has it; otherwise the first lesson, "English" if it is a
    language and else the first language, and no helper language are
    chosen.  Afterwards the current language is a language of the model,
    the current lesson is one of the model unless the model has none, and
    the helper language is never the current language. *)
Theorem buildModel_defaults (localeCompare : jsstring → jsstring → Z)
    (rows : list Row) (model m : Model) :
  buildModel localeCompare rows model = Built m →
  (∃ lang, currentLanguage m = Some lang ∧ lang ∈ languages m)
  ∧ (match lessonIds m with
     | [] => currentLessonId m = None
     | id0 :: _ => ∃ id, currentLessonId m = Some id ∧ id ∈ lessonIds m
     end)
  ∧ helperLanguage m ≠ currentLanguage m
  ∧ (∀ h, helperLanguage m = Some h → h = [] ∨ h ∈ languages m)
  ∧ (∀ id, currentLessonId model = Some id → id ∈ lessonIds m →
       currentLessonId m = Some id)
  ∧ (∀ lang, currentLanguage model = Some lang → lang ≠ [] →
       lang ∈ languages m → currentLanguage m = Some lang)
  ∧ (∀ h, helperLanguage model = Some h → h ∈ languages m →
       Some h ≠ currentLanguage m → helperLanguage m = Some h)
  ∧ (¬ (∃ id, currentLessonId model = Some id ∧ id ∈ lessonIds m) →
       currentLessonId m = head (lessonIds m))
  ∧ (¬ (∃ lang, currentLanguage model = Some lang ∧ lang ≠ []
                ∧ lang ∈ languages m) →
       currentLanguage m = if bool_decide (str "English" ∈ languages m)
                           then Some (str "English") else head (languages m)).
Proof. apply buildModel_chosen. Qed.

Lemma buildModel_defaults_witness :
  ∃ m, buildModel (λ _ _, 0) [rowHi; rowHello]
         (mkModel [] [] [] (Some (str "7")) None (Some (str "English")))
       = Built m
    ∧ currentLessonId m = Some (str "1")
    ∧ currentLanguage m = Some (str "English")
    ∧ helperLanguage m = None.
Proof.
  eexists. split; [reflexivity|].
  destruct (buildModel_defaults (λ _ _, 0) [rowHi; rowHello]
              (mkModel [] [] [] (Some (str "7")) None (Some (str "English")))
              _ eq_refl) as (_ & _ & _ & _ & _ & _ & _ & Hl & Hc).
  split; [|split; [|reflexivity]].
  - apply Hl. intros (id & [= <-] & Hin). revert Hin.
    by apply (bool_decide_unpack _).
  - apply Hc. intros (lang & [=] & _).
Defined.

Section LessonOrderFacts.

Variable localeCompare : jsstring → jsstring → Z.

Lemma idLe_trans a b c : idLe a b → idLe b c → idLe a c.
Proof. apply numLe_trans. Qed.

Lemma compareIds_le a b :
  toNumber a ≠ NaN → toNumber b ≠ NaN →
  compareIds localeCompare a b ≤ 0 → idLe a b.
Proof.
  unfold compareIds, idLe. intros Ha Hb. cbv zeta.
  destruct (numSub_sign _ _ Ha Hb) as (Hle & Hgt & Hf).
  destruct (falsyNumber _) eqn:E; [intros _; by apply Hf|]. by apply Hle.
Qed.

Lemma compareIds_gt a b :
  toNumber a ≠ NaN → toNumber b ≠ NaN →
  0 < compareIds localeCompare a b → idLe b a.
Proof.
  unfold compareIds, idLe. intros Ha Hb. cbv zeta.
  destruct (numSub_sign _ _ Ha Hb) as (Hle & Hgt & Hf).
  destruct (falsyNumber _) eqn:E; [intros _; by apply Hf|]. by apply Hgt.
Qed.

Lemma filter_Forall_id {A} (P : A → Prop) `{!∀ x, Decision (P x)} (l : list A) :
  Forall P l → filter P l = l.
Proof.
  induction 1 as [|x l Hx _ IH]; [done|]. by rewrite filter_cons_True, IH.
Qed.

Lemma singleton_list {A} (l : list A) a :
  NoDup l → (∀ x, x ∈ l ↔ x = a) → l = [a].
Proof.
  intros Hnd Hin. destruct l as [|x l].
  - pose proof (proj2 (Hin a) eq_refl) as H. by apply elem_of_nil in H.
  - assert (x = a) as -> by (apply Hin, list_elem_of_here).
    apply NoDup_cons in Hnd as [Hx _].
    destruct l as [|y l]; [done|].
    assert (y = a) as ->
      by (apply Hin, list_elem_of_further, list_elem_of_here).
    destruct Hx. apply list_elem_of_here.
Qed.

End LessonOrderFacts.

(** buildModel: when the lesson identifiers read as numbers (integer
    literals, and fractions, exponents, radix prefixes or Infinity as
    well), the lessons are listed in ascending numeric order (lesson 10
    after lesson 9), whatever localeCompare says. *)
Theorem buildModel_lessonIds_numeric (localeCompare : jsstring → jsstring → Z)
    (rows : list Row) (model m : Model) :
  buildModel localeCompare rows model = Built m →
  Forall (λ r, toNumber (rowLesson r) ≠ NaN) rows →
  StronglySorted idLe (lessonIds m)
  ∧ StronglySorted idLe (lessonId <$> lessons m).
Proof.
  intros Hb Hnum.
  destruct (buildModel_listing _ _ _ _ Hb) as (Hll & _ & Hids & _).
  rewrite Hll. apply and_wlog_l; [done|].
  destruct (buildModel_Built _ _ _ _ Hb) as (row0 & rest & cols & -> & -> & _ & Hm).
  assert (lessonIds m = lessonIdsOf localeCompare
            (byLessonOf (languageColsOf row0) (row0 :: rest))) as Eids
    by by rewrite Hm.
  rewrite Eids. unfold lessonIdsOf.
  apply (sortBy_sorted_by _ idLe (λ id, toNumber id ≠ NaN)).
  - apply compareIds_le.
  - apply compareIds_gt.
  - apply idLe_trans.
  - apply Forall_forall. intros id Hid.
    assert (id ∈ lessonIds m) as Hin.
    { rewrite Eids, lessonIdsOf_perm. exact Hid. }
    apply Hids in Hin as (_ & r & Hr & <-).
    rewrite Forall_forall in Hnum. by apply Hnum.
Qed.

Lemma buildModel_lessonIds_numeric_witness :
  ∃ m, buildModel (λ _ _, 0)
         [[(str "Lesson", str "10"); (str "English", str "a")];
          [(str "Lesson", str "9"); (str "English", str "b")]]
         (mkModel [] [] [] None None None) = Built m
    ∧ lessonIds m = [str "9"; str "10"]
    ∧ StronglySorted idLe (lessonIds m).
Proof.
  eexists. split; [reflexivity|]. split; [reflexivity|].
  refine (proj1 (buildModel_lessonIds_numeric (λ _ _, 0)
                   [[(str "Lesson", str "10"); (str "English", str "a")];
                    [(str "Lesson", str "9"); (str "English", str "b")]]
                   (mkModel [] [] [] None None None) _ eq_refl _)).
  rewrite !Forall_cons. repeat split; try apply Forall_nil; by vm_compute.
Defined.

(** buildModel: the CEFR level of a lesson is the trimmed CEFR field of the
    first row of the lesson, empty or not; later rows do not change it, in
    the earlier script either. *)
Theorem buildModel_cefr_first_row (localeCompare : jsstring → jsstring → Z)
    (rows : list Row) (model m : Model) (l : Lesson) :
  buildModel localeCompare rows model = Built m →
  l ∈ lessons m →
  (∃ r rest, rowsOf (lessonId l) rows = r :: rest
     ∧ cefr l = trim (orEmpty (get (str "CEFR") r)))
  ∧ ∃ m0, buildModel_early localeCompare rows model = Built m0
      ∧ l ∈ lessons m0.
Proof.
  intros Hb Hl. split.
  - destruct (buildModel_Built _ _ _ _ Hb)
      as (row0 & rest & cols & -> & -> & _ & Hm).
    assert (lessons m = lessonsOf localeCompare
              (byLessonOf (languageColsOf row0) (row0 :: rest))) as El
      by by rewrite Hm.
    rewrite El in Hl. apply lessonsOf_elem in Hl as (l0 & Hl0 & ->).
    change (lessonId (sortLines l0)) with (lessonId l0) in *.
    change (cefr (sortLines l0)) with (cefr l0).
    assert (lessonId l0 ≠ []) as Hid.
    { intros Hnil. rewrite Hnil in Hl0.
      pose proof (byLessonOf_no_empty_id (languageColsOf row0) (row0 :: rest)) as H0.
      unfold linesOfId in H0. by rewrite Hl0 in H0. }
    pose proof (foldl_addRow_cefr (languageColsOf row0) (lessonId l0)
                  (row0 :: rest) [] Hid) as Hc.
    fold (byLessonOf (languageColsOf row0) (row0 :: rest)) in Hc.
    rewrite Hl0 in Hc. simpl in Hc.
    destruct (rowsOf (lessonId l0) (row0 :: rest)) as [|r rs]; [done|].
    injection Hc as Hc. eauto.
  - destruct (buildModel_early_lessons _ _ _ _ Hb) as (m0 & Hm0 & El).
    exists m0. by rewrite El.
Qed.

Lemma buildModel_cefr_first_row_witness :
  ∃ m l, buildModel (λ _ _, 0)
           [[(str "Lesson", str "1"); (str "CEFR", []); (str "English", str "a")];
            [(str "Lesson", str "1"); (str "CEFR", str "A1"); (str "English", str "b")]]
           (mkModel [] [] [] None None None) = Built m
    ∧ lessons m = [l] ∧ cefr l = [].
Proof.
  eexists. eexists. split; [reflexivity|]. split; [reflexivity|].
  match goal with |- cefr ?l = _ =>
    destruct (buildModel_cefr_first_row (λ _ _, 0)
                [[(str "Lesson", str "1"); (str "CEFR", []);
                  (str "English", str "a")];
                 [(str "Lesson", str "1"); (str "CEFR", str "A1");
                  (str "English", str "b")]]
                (mkModel [] [] [] None None None) _ l eq_refl)
      as [(r & rest & Hr & ->) _]
  end.
  - apply list_elem_of_here.
  - vm_compute in Hr. by injection Hr as <- _.
Defined.

(** buildModel: a row whose Lesson field trims to nothing is skipped; rows
    that have no Lesson field at all read as "undefined" and all go into
    one lesson of that name, which holds the line of every row. *)
Theorem buildModel_without_lesson_column
    (localeCompare : jsstring → jsstring → Z)
    (rows : list Row) (model m : Model) :
  buildModel localeCompare rows model = Built m →
  ((∀ r, r ∈ rows → get (str "Lesson") r = None) →
     lessonIds m = [str "undefined"]
     ∧ ∃ l, lessons m = [l] ∧ lessonId l = str "undefined"
         ∧ lines l ≡ₚ lineOf (languages m) <$> rows)
  ∧ ((∀ r, r ∈ rows → ∃ v, get (str "Lesson") r = Some v ∧ trim v = []) →
       lessonIds m = [] ∧ lessons m = [] ∧ currentLessonId m = None).
Proof.
  intros Hb.
  destruct (buildModel_listing _ _ _ _ Hb) as (Hll & Hnd & Hids & _).
  split.
  - intros Hno.
    assert (lessonIds m = [str "undefined"]) as Hone.
    { apply singleton_list; [done|]. intros id. rewrite Hids. split.
      + intros (_ & r & Hr & <-). unfold rowLesson. by rewrite (Hno r Hr).
      + intros ->. split; [done|].
        destruct (buildModel_Built _ _ _ _ Hb) as (row0 & rest & _ & -> & _).
        exists row0. split; [apply list_elem_of_here|].
        unfold rowLesson. by rewrite (Hno row0) by apply list_elem_of_here. }
    split; [done|]. rewrite Hone in Hll.
    destruct (lessons m) as [|l [|l' ls]] eqn:El; try done.
    injection Hll as Hl. exists l. split_and!; [done..|].
    destruct (buildModel_lines_perm localeCompare rows model m l Hb)
      as (ls & -> & ->); [rewrite El; apply list_elem_of_here|].
    rewrite sortBy_perm, Hl. unfold linesFor.
    rewrite filter_Forall_id; [done|].
    apply Forall_forall. intros r Hr. unfold rowLesson. by rewrite (Hno r Hr).
  - intros Hempty.
    assert (lessonIds m = []) as Hnil.
    { destruct (lessonIds m) as [|id ids] eqn:Ei; [done|].
      assert (id ∈ id :: ids) as Hin by apply list_elem_of_here.
      apply Hids in Hin. destruct Hin as (Hne & r & Hr & <-).
      destruct (Hempty r Hr) as (v & Hv & Ht). destruct Hne.
      unfold rowLesson. by rewrite Hv. }
    split_and!; [done| |].
    + rewrite Hnil in Hll. by destruct (lessons m).
    + destruct (buildModel_chosen _ _ _ _ Hb) as (_ & Hl & _).
      by rewrite Hnil in Hl.
Qed.

Lemma buildModel_without_lesson_column_witness :
  ∃ m, buildModel (λ _ _, 0)
         [[(str "Line", str "1"); (str "English", str "a")]]
         (mkModel [] [] [] None None None) = Built m
    ∧ lessonIds m = [str "undefined"].
Proof.
  eexists. split; [reflexivity|].
  refine (proj1 (proj1 (buildModel_without_lesson_column (λ _ _, 0)
                          [[(str "Line", str "1"); (str "English", str "a")]]
                          (mkModel [] [] [] None None None) _ eq_refl) _)).
  intros r ->%list_elem_of_singleton. reflexivity.
Defined.

(** buildAudioUrl: the address is a relative path in URL syntax.  It is
    made of unreserved characters, "/" and escapes "%XX" with upper-case
    hexadecimal digits only, so a "?", a "#", a space or a letter outside
    ASCII of the sentence never reaches the address as it is. *)
Theorem buildAudioUrl_is_path (language sentenceText url : jsstring) :
  buildAudioUrl language sentenceText = Some url →
  escapedPath url = true
  ∧ Forall (λ c, uriUnescaped c = true ∨ c = percent ∨ c = slash) url
  ∧ (∀ c, c ∈ str " ?#&=+:;@$,<>[]{}|^`" → c ∉ url)
  ∧ (∀ c, c ∈ url → 33 ≤ c ≤ 126).
Proof.
  intros Hb. unfold buildAudioUrl in Hb.
  destruct (mapM encodeURIComponent _) as [parts|] eqn:Hp; [|done].
  injection Hb as <-.
  assert (escapedPath (join slash parts) = true) as Hpath.
  { apply join_path. apply Forall_forall. intros p Hin.
    apply mapM_Some_1 in Hp.
    apply list_elem_of_lookup in Hin as [i Hi].
    destruct (Forall2_lookup_r _ _ _ _ _ Hp Hi) as (seg & _ & Hseg).
    by eapply encodeURIComponent_path. }
  pose proof (escapedPath_alphabet _ Hpath) as Hal.
  rewrite Forall_forall in Hal.
  split_and!; [done|by apply Forall_forall| |].
  - intros c Hc Hin. apply Hal in Hin.
    assert (uriUnescaped c = false ∧ c ≠ percent ∧ c ≠ slash) as (H1 & H2 & H3).
    { simpl in Hc. rewrite !elem_of_cons, elem_of_nil in Hc.
      unfold uriUnescaped, percent, slash. lia. }
    destruct Hin as [?|[?|?]]; congruence.
  - intros c Hin. apply Hal in Hin.
    unfold uriUnescaped, percent, slash in Hin. lia.
Qed.

Lemma buildAudioUrl_is_path_witness :
  buildAudioUrl (str "English") (str "What is #1?")
  = Some (str "Audio/English/What%20is%20%231%3F.m4a")
  ∧ escapedPath (str "Audio/English/What%20is%20%231%3F.m4a") = true.
Proof.
  split; [reflexivity|].
  exact (proj1 (buildAudioUrl_is_path (str "English") (str "What is #1?")
                  (str "Audio/English/What%20is%20%231%3F.m4a") eq_refl)).
Defined.

(** ** The existence cache under interleaved calls *)

Section CheckFacts.

Implicit Types (c : Checks) (url : jsstring).

Lemma checkStep_kept e c url v :
  audioExistsCache (probes c) !! url = Some v →
  url ∉ pending c →
  audioExistsCache (probes (checkStep e c)) !! url = Some v
  ∧ requestsFor url (checkStep e c) = requestsFor url c
  ∧ url ∉ pending (checkStep e c).
Proof.
  intros Hv Hp. destruct e as [u|k o]; simpl.
  - unfold audioExists. destruct (audioExistsCache (probes c) !! u) eqn:Hu; simpl.
    + done.
    + assert (u ≠ url) by congruence.
      split_and!; [done| |].
      * unfold requestsFor. simpl. rewrite filter_app, filter_cons_False by done.
        by rewrite filter_nil, app_nil_r.
      * rewrite elem_of_app, list_elem_of_singleton. intuition congruence.
  - destruct (pending c !! k) as [u|] eqn:Hk; [|done].
    assert (u ≠ url).
    { intros ->. apply Hp. by eapply list_elem_of_lookup_2. }
    unfold audioExists_settled. destruct o; simpl;
      (split_and!; [by rewrite lookup_insert_ne|done|
                    by intros ?%list_elem_of_delete_inv]).
Qed.

Lemma checkStep_cached e c url :
  is_Some (audioExistsCache (probes c) !! url) →
  is_Some (audioExistsCache (probes (checkStep e c)) !! url).
Proof.
  intros Hv. destruct e as [u|k o]; simpl.
  - unfold audioExists. by destruct (audioExistsCache (probes c) !! u).
  - destruct (pending c !! k) as [u|]; [|done].
    unfold audioExists_settled. destruct o; simpl;
      rewrite lookup_insert_is_Some; destruct (decide (u = url)); auto.
Qed.

Lemma checkExec_cached es : ∀ c url,
  is_Some (audioExistsCache (probes c) !! url) →
  is_Some (audioExistsCache (probes (checkExec es c)) !! url).
Proof.
  induction es as [|e es IH]; intros c url H; [done|].
  apply (IH (checkStep e c)). by apply checkStep_cached.
Qed.

Lemma elem_of_delete_other {A} (l : list A) k u x :
  l !! k = Some u → u ≠ x → x ∈ l → x ∈ delete k l.
Proof.
  intros Hk Hne [j Hj]%list_elem_of_lookup.
  destruct (decide (j < k)%nat).
  - apply (list_elem_of_lookup_2 _ j). by rewrite list_lookup_delete_lt.
  - assert (j ≠ k) by congruence.
    apply (list_elem_of_lookup_2 _ (pred j)).
    rewrite list_lookup_delete_ge by lia.
    by replace (S (pred j)) with j by lia.
Qed.

Lemma checkStep_accounted e c : accounted c → accounted (checkStep e c).
Proof.
  intros (H1 & H2 & H3). destruct e as [u|k o]; simpl.
  - unfold audioExists.
    destruct (audioExistsCache (probes c) !! u) eqn:Hu; simpl; [done|].
    split_and!; simpl.
    + intros url ?. apply elem_of_app. auto.
    + intros url [?|Hs]%elem_of_app.
      * destruct (H2 url) as [?|?]; [done| |by right].
        left. apply elem_of_app. auto.
      * left. apply elem_of_app. by right.
    + intros url [?|?]%elem_of_app; apply elem_of_app; auto.
  - destruct (pending c !! k) as [u|] eqn:Hk; [|done].
    assert (u ∈ requests (probes c)) as Hu.
    { apply H3. by eapply list_elem_of_lookup_2. }
    unfold audioExists_settled.
    destruct o; simpl; (split_and!; simpl;
      [ intros url [<-|[_ ?]]%lookup_insert_is_Some; auto
      | intros url Hr; destruct (decide (u = url)) as [<-|Hne];
        [ right; rewrite lookup_insert_is_Some; auto |];
        destruct (H2 url Hr) as [?|?];
        [ left; by eapply elem_of_delete_other
        | right; rewrite lookup_insert_is_Some; auto ]
      | intros url ?%list_elem_of_delete_inv; auto ]).
Qed.

Lemma checkExec_accounted es : ∀ c, accounted c → accounted (checkExec es c).
Proof.
  induction es as [|e es IH]; intros c H; [done|].
  apply (IH (checkStep e c)). by apply checkStep_accounted.
Qed.

Lemma checkExec_kept es : ∀ c url v,
  audioExistsCache (probes c) !! url = Some v →
  url ∉ pending c →
  audioExistsCache (probes (checkExec es c)) !! url = Some v
  ∧ requestsFor url (checkExec es c) = requestsFor url c
  ∧ url ∉ pending (checkExec es c).
Proof.
  induction es as [|e es IH]; intros c url v Hv Hp; [done|].
  destruct (checkStep_kept e c url v Hv Hp) as (H1 & H2 & H3).
  destruct (IH (checkStep e c) url v H1 H3) as (H4 & H5 & H6).
  split_and!; [done| |done]. simpl. by rewrite H5.
Qed.

End CheckFacts.

(** audioExists: once an address is cached and no call for it waits for
    its fetch, whatever calls and settlements follow, in any order, the
    cached answer stays what it is, no further request is sent for the
    address, and no call for it waits again. *)
Theorem audioExists_cached_for_good (es : list CheckEvent) (c : Checks)
    (url : jsstring) (v : bool) :
  audioExistsCache (probes c) !! url = Some v →
  url ∉ pending c →
  let c' := checkExec es c in
  audioExistsCache (probes c') !! url = Some v
  ∧ (audioExists url (probes c')).2 = Some v
  ∧ requestsFor url c' = requestsFor url c
  ∧ url ∉ pending c'.
Proof.
  intros Hv Hp c'. subst c'.
  destruct (checkExec_kept es c url v Hv Hp) as (H1 & H2 & H3).
  split_and!; try done. unfold audioExists. by rewrite H1.
Qed.

Lemma audioExists_cached_for_good_witness :
  let a := str "Audio/English/Hi..m4a" in
  let b := str "Audio/English/Bye..m4a" in
  let c := checkExec [CallExists a; FetchSettled 0 (Response true)]
             (mkChecks (mkProbes ∅ []) []) in
  let c' := checkExec [CallExists b; CallExists a; FetchSettled 0 NetworkError;
                       CallExists a; CallExists b] c in
  audioExistsCache (probes c') !! a = Some true
  ∧ requestsFor a c' = [a].
Proof.
  intros a b c c'.
  assert (audioExistsCache (probes c) !! a = Some true) as Hv by reflexivity.
  assert (a ∉ pending c) as Hp by (by apply (bool_decide_unpack _)).
  destruct (audioExists_cached_for_good
              [CallExists b; CallExists a; FetchSettled 0 NetworkError;
               CallExists a; CallExists b] c a true Hv Hp)
    as (H1 & _ & H2 & _).
  split; [exact H1|]. fold c' in H2. rewrite H2. reflexivity.
Defined.

(** audioExists: starting with an empty cache, after any calls and
    settlements in any order, every cached address was requested, every
    requested address is cached or its call still waits, and every call
    that waits has its request sent.  An address that got cached stays
    cached (its answer may be overwritten by a call that was already
    waiting). *)
Theorem audioExists_requests_accounted (es es' : list CheckEvent)
    (url : jsstring) :
  let c := checkExec es (mkChecks (mkProbes ∅ []) []) in
  (is_Some (audioExistsCache (probes c) !! url) → url ∈ requests (probes c))
  ∧ (url ∈ requests (probes c) →
     url ∈ pending c ∨ is_Some (audioExistsCache (probes c) !! url))
  ∧ (url ∈ pending c → url ∈ requests (probes c))
  ∧ (is_Some (audioExistsCache (probes c) !! url) →
     is_Some (audioExistsCache (probes (checkExec es' c)) !! url)).
Proof.
  intros c.
  assert (accounted c) as (H1 & H2 & H3).
  { apply checkExec_accounted. split_and!; simpl.
    - intros u [? H]. by rewrite lookup_empty in H.
    - by intros u ?%elem_of_nil.
    - by intros u ?%elem_of_nil. }
  split_and!; auto. apply checkExec_cached.
Qed.

(** ** The lesson picture *)

Section ImageFacts.

Implicit Types (s : Picture) (asked : list jsstring).

Lemma pictureOf_mono asked asked' s :
  asked ⊆ asked' → pictureOf asked s → pictureOf asked' s.
Proof.
  intros Hsub [H|(l & Hl & H)]; [by left|right]. exists l. split; [auto|done].
Qed.

Lemma imageStep_pictureInv e asked s :
  pictureInv asked s →
  pictureInv (asked ++ updatesOf [e]) (imageStep e s).
Proof.
  intros (He & Hp & Hl). destruct e as [l|k|k]; simpl.
  - unfold updateLessonImage. rewrite He. simpl.
    split_and!; [done|by left|]. simpl. apply Forall_app. split.
    + eapply Forall_impl; [done|]. intros x ?. apply elem_of_app. auto.
    + apply Forall_singleton. apply elem_of_app. right. by left.
  - rewrite app_nil_r. destruct (loading s !! k) as [l|] eqn:Hk; [|done].
    split_and!; simpl; [done| |].
    + right. exists l. split_and!; try done.
      rewrite Forall_forall in Hl. apply Hl. by eapply list_elem_of_lookup_2.
    + eapply Forall_forall. intros x ?%list_elem_of_delete_inv.
      rewrite Forall_forall in Hl. auto.
  - rewrite app_nil_r. destruct (loading s !! k) as [l|] eqn:Hk; [|done].
    split_and!; simpl; [done| |].
    + destruct Hp as [(? & ? & ?)|(l' & ? & ? & ? & ?)]; [by left|right].
      exists l'. by split_and!.
    + eapply Forall_forall. intros x ?%list_elem_of_delete_inv.
      rewrite Forall_forall in Hl. auto.
Qed.

Lemma updatesOf_cons e es : updatesOf (e :: es) = updatesOf [e] ++ updatesOf es.
Proof. unfold updatesOf. simpl. by destruct e. Qed.

Lemma imageExec_pictureInv es : ∀ asked s,
  pictureInv asked s →
  pictureInv (asked ++ updatesOf es) (imageExec es s).
Proof.
  induction es as [|e es IH]; intros asked s H.
  - simpl. by rewrite app_nil_r.
  - rewrite updatesOf_cons, app_assoc. apply (IH _ (imageStep e s)).
    by apply imageStep_pictureInv.
Qed.

Lemma imageExec_without_elements es : ∀ s,
  elements s = false → loading s = [] → imageExec es s = s.
Proof.
  induction es as [|e es IH]; intros s He Hl; [done|].
  simpl. assert (imageStep e s = s) as ->; [|by apply IH].
  destruct e as [l|k|k]; simpl.
  - unfold updateLessonImage. by rewrite He.
  - by rewrite Hl.
  - by rewrite Hl.
Qed.

End ImageFacts.

(** updateLessonImage and its load and error callbacks, for any calls and
    any order of the events: once updateLessonImage has run on a page that
    has the picture elements, the picture is either removed (no src, empty
    text, wrapper hidden) or the src and the text are those of one and the
    same lesson, a lesson updateLessonImage was called for.  That lesson
    need not be the current one: an image of an earlier lesson that loads
    late is shown, and an earlier one that fails late hides the picture of
    the current lesson.  On a page without the elements nothing happens. *)
Theorem lesson_picture_consistent (es : list ImageEvent) (a b : jsstring)
    (s0 : Picture) :
  loading s0 = [] →
  (elements s0 = true →
     pictureOf (a :: updatesOf es) (imageExec es (updateLessonImage a s0))
     ∧ (let s := imageExec [Update a; Update b; Loaded 0] s0 in
        display s = DisplayBlock ∧ src s = Some (imageSrc a)
        ∧ alt s = imageAlt a ∧ loading s = [b])
     ∧ (let s := imageExec [Update a; Update b; Loaded 1; Failed 0] s0 in
        display s = DisplayNone ∧ src s = Some (imageSrc b)
        ∧ loading s = []))
  ∧ (elements s0 = false → imageExec es s0 = s0).
Proof.
  intros Hl. split.
  - intros He. split_and!.
    + apply (imageExec_pictureInv es [a] (updateLessonImage a s0)).
      unfold updateLessonImage. rewrite He, Hl. simpl.
      split_and!; [done|by left|]. apply Forall_singleton. by left.
    + simpl. unfold updateLessonImage. rewrite He, Hl. simpl. done.
    + simpl. unfold updateLessonImage. rewrite He, Hl. simpl. done.
  - intros He. by apply imageExec_without_elements.
Qed.

Lemma lesson_picture_consistent_witness :
  pictureOf [str "1"; str "2"]
    (imageExec [Update (str "2"); Loaded 0; Failed 0]
       (updateLessonImage (str "1") (mkPicture true DisplayUnset None [] []))).
Proof.
  exact (proj1 (proj1 (lesson_picture_consistent
                         [Update (str "2"); Loaded 0; Failed 0]
                         (str "1") (str "2")
                         (mkPicture true DisplayUnset None [] []) eq_refl)
                  eq_refl)).
Defined.

(** ** The live run *)

(** [fields] in a hypothesis. *)
Ltac fields_in H :=
  cbn [audioCache currentlyPlaying lessonPlayback renderToken renders playBtns
       lessonBtns clickAudio lessonClick nextBtn pendingPlays runs finished
       trace set_audioCache set_currentlyPlaying set_lessonPlayback
       set_renderToken set_renders set_playBtns set_lessonBtns set_clickAudio
       set_lessonClick set_nextBtn set_pendingPlays set_runs set_finished
       set_trace log running token lessonBtn audio btn] in H.

Section LiveFacts.

Implicit Types st : State.
Implicit Types r : Run.
Implicit Types rs : list Run.

Lemma holding_nil T : holding T [] = 0%nat.
Proof. done. Qed.

Lemma holding_cons T r rs :
  holding T (r :: rs)
  = ((if bool_decide (runToken r = T) then 1 else 0) + holding T rs)%nat.
Proof.
  unfold holding. rewrite filter_cons.
  case_decide; [by rewrite bool_decide_eq_true_2|by rewrite bool_decide_eq_false_2].
Qed.

Lemma holding_app T rs1 rs2 :
  holding T (rs1 ++ rs2) = (holding T rs1 + holding T rs2)%nat.
Proof. unfold holding. by rewrite filter_app, length_app. Qed.

Lemma holding_below T rs :
  Forall (λ r, runToken r < T) rs → holding T rs = 0%nat.
Proof.
  induction 1 as [|r rs Hr _ IH]; [done|].
  rewrite holding_cons, IH. rewrite bool_decide_eq_false_2; [done|lia].
Qed.

Lemma holding_insert T rs k r r' :
  rs !! k = Some r → runToken r' = runToken r →
  holding T (<[k := r']> rs) = holding T rs.
Proof.
  revert k. induction rs as [|r0 rs IH]; intros k Hk Ht; [done|].
  destruct k as [|k]; simpl in *.
  - injection Hk as ->. by rewrite !holding_cons, Ht.
  - rewrite !holding_cons. by rewrite (IH k).
Qed.

Lemma holding_delete T rs k r :
  rs !! k = Some r →
  holding T rs
  = ((if bool_decide (runToken r = T) then 1 else 0) + holding T (delete k rs))%nat.
Proof.
  revert k. induction rs as [|r0 rs IH]; intros k Hk; [done|].
  destruct k as [|k]; simpl in *.
  - injection Hk as ->. by rewrite holding_cons.
  - rewrite !holding_cons. rewrite (IH k) by done. lia.
Qed.

Lemma tokensBelow_holding st T :
  tokensBelow st → token (lessonPlayback st) < T → holding T (runs st) = 0%nat.
Proof.
  intros Hst Hlt. apply holding_below.
  eapply Forall_impl; [exact Hst|]. intros r Hr. simpl in Hr. lia.
Qed.

Lemma finishRun_lessonPlayback r st :
  lessonPlayback (finishRun r st)
  = if bool_decide (token (lessonPlayback st) = runToken r)
    then mkLessonPlayback false (token (lessonPlayback st))
           (lessonBtn (lessonPlayback st))
    else lessonPlayback st.
Proof.
  unfold finishRun. case_bool_decide; [|done]. fields.
  by rewrite stopCurrentAudio_lessonPlayback.
Qed.

Lemma oneLive_ext st st' :
  runs st' = runs st →
  token (lessonPlayback st') = token (lessonPlayback st) →
  running (lessonPlayback st') = running (lessonPlayback st) →
  oneLive st → oneLive st'.
Proof.
  intros Hr Ht Hg [Hb Hl]. split.
  - revert Hb. apply tokensBelow_ext; [done|lia].
  - by rewrite Hr, Ht, Hg.
Qed.

Lemma stopLessonPlayback_oneLive st :
  tokensBelow st → token (lessonPlayback st) < 2 ^ 53 →
  oneLive (stopLessonPlayback st).
Proof.
  intros Hb Hlt. split.
  - revert Hb. apply tokensBelow_ext;
      [apply stopLessonPlayback_runs|apply stopLessonPlayback_token_ge].
  - rewrite stopLessonPlayback_runs, stopLessonPlayback_lessonPlayback. simpl.
    apply tokensBelow_holding; [done|]. rewrite incr_exact by done. lia.
Qed.

(** Resuming runs none of which holds the token changes neither the flag
    nor the count. *)
Section Resume.

Variable f : Run → State → State * Outcome.
Hypothesis f_runToken : ∀ r st,
  outcomeIs (λ r', runToken r' = runToken r) (λ r', runToken r' = runToken r)
    (f r st).2.
Hypothesis f_lessonPlayback : ∀ r st,
  lessonPlayback (f r st).1 = lessonPlayback st.

Lemma dispatch_stale sel : ∀ rs st,
  holding (token (lessonPlayback st)) rs = 0%nat →
  let '(st', rs') := dispatch f sel rs st in
  lessonPlayback st' = lessonPlayback st
  ∧ holding (token (lessonPlayback st)) rs' = 0%nat.
Proof.
  induction rs as [|r rs IH]; intros st Hh; [done|].
  rewrite holding_cons in Hh.
  case_bool_decide as Hr; [simpl in Hh; lia|]. simpl in Hh.
  cbn [dispatch]. destruct (sel r).
  - pose proof (f_runToken r st) as Hq. pose proof (f_lessonPlayback r st) as Hlp.
    destruct (f r st) as [st1 [r'|r']]; cbn [fst snd outcomeIs] in *.
    + specialize (IH st1). rewrite Hlp in IH. specialize (IH Hh).
      destruct (dispatch f sel rs st1) as [st' rs'].
      destruct IH as [-> IH]. split; [done|].
      rewrite holding_cons, IH, Hq. by rewrite bool_decide_eq_false_2.
    + assert (lessonPlayback (finishRun r' st1) = lessonPlayback st) as Hfin.
      { rewrite finishRun_lessonPlayback, Hlp, Hq.
        rewrite bool_decide_eq_false_2; [done|congruence]. }
      specialize (IH (finishRun r' st1)). rewrite Hfin in IH. by apply IH.
  - specialize (IH st Hh). destruct (dispatch f sel rs st) as [st' rs'].
    destruct IH as [-> IH]. split; [done|].
    rewrite holding_cons, IH. by rewrite bool_decide_eq_false_2.
Qed.

Lemma dispatch_live sel : ∀ rs st,
  running (lessonPlayback st) = true →
  holding (token (lessonPlayback st)) rs = 1%nat →
  let '(st', rs') := dispatch f sel rs st in
  token (lessonPlayback st') = token (lessonPlayback st)
  ∧ holding (token (lessonPlayback st)) rs'
    = if running (lessonPlayback st') then 1%nat else 0%nat.
Proof.
  induction rs as [|r rs IH]; intros st Hrun Hh; [done|].
  rewrite holding_cons in Hh. cbn [dispatch].
  pose proof (f_runToken r st) as Hq. pose proof (f_lessonPlayback r st) as Hlp.
  case_bool_decide as Hr; simpl in Hh.
  - assert (holding (token (lessonPlayback st)) rs = 0%nat) as H0 by lia.
    destruct (sel r).
    + destruct (f r st) as [st1 [r'|r']]; cbn [fst snd outcomeIs] in *.
      * pose proof (dispatch_stale sel rs st1) as Hd. rewrite Hlp in Hd.
        specialize (Hd H0). destruct (dispatch f sel rs st1) as [st' rs'].
        destruct Hd as [-> Hd]. split; [done|].
        rewrite holding_cons, Hd, Hq, Hrun.
        by rewrite bool_decide_eq_true_2.
      * pose proof (dispatch_stale sel rs (finishRun r' st1)) as Hd.
        rewrite finishRun_lessonPlayback, Hlp, Hq in Hd.
        rewrite bool_decide_eq_true_2 in Hd by done. cbn [token] in Hd.
        specialize (Hd H0). destruct (dispatch f sel rs _) as [st' rs'].
        destruct Hd as [-> Hd]. by split.
    + pose proof (dispatch_stale sel rs st H0) as Hd.
      destruct (dispatch f sel rs st) as [st' rs'].
      destruct Hd as [-> Hd]. split; [done|].
      rewrite holding_cons, Hd, Hrun. by rewrite bool_decide_eq_true_2.
  - destruct (sel r).
    + destruct (f r st) as [st1 [r'|r']]; cbn [fst snd outcomeIs] in *.
      * specialize (IH st1). rewrite Hlp in IH. specialize (IH Hrun Hh).
        destruct (dispatch f sel rs st1) as [st' rs'].
        destruct IH as [-> IH]. split; [done|].
        rewrite holding_cons, IH, Hq. by rewrite bool_decide_eq_false_2.
      * assert (lessonPlayback (finishRun r' st1) = lessonPlayback st) as Hfin.
        { rewrite finishRun_lessonPlayback, Hlp, Hq.
          rewrite bool_decide_eq_false_2; [done|congruence]. }
        specialize (IH (finishRun r' st1)). rewrite Hfin in IH. by apply IH.
    + specialize (IH st Hrun Hh). destruct (dispatch f sel rs st) as [st' rs'].
      destruct IH as [-> IH]. split; [done|].
      rewrite holding_cons, IH. by rewrite bool_decide_eq_false_2.
Qed.

Lemma resumeAll_oneLive sel st : oneLive st → oneLive (resumeAll f sel st).
Proof.
  intros [Hb Hl]. split.
  { apply resumeAll_tokensBelow; [|by intros; rewrite f_lessonPlayback|done].
    intros r0 st0. eapply outcomeIs_weaken, f_runToken. }
  unfold resumeAll.
  destruct (running (lessonPlayback st)) eqn:Hrun.
  - pose proof (dispatch_live sel (runs st) st Hrun Hl) as Hd.
    destruct (dispatch f sel (runs st) st) as [st' rs'].
    destruct Hd as [Ht Hd]. fields. by rewrite Ht.
  - pose proof (dispatch_stale sel (runs st) st Hl) as Hd.
    destruct (dispatch f sel (runs st) st) as [st' rs'].
    destruct Hd as [Hlp Hd]. fields. by rewrite Hlp, Hrun.
Qed.

Hypothesis f_runs : ∀ r st, runs (f r st).1 = runs st.

Lemma resumeAt_oneLive k st : oneLive st → oneLive (resumeAt k f st).
Proof.
  intros [Hb Hl]. split.
  { apply resumeAt_tokensBelow; try done.
    - intros r0 st0. eapply outcomeIs_weaken, f_runToken.
    - by intros; rewrite f_lessonPlayback. }
  unfold resumeAt. destruct (runs st !! k) as [r|] eqn:Hk; [|done].
  pose proof (f_runToken r st) as Hq. pose proof (f_lessonPlayback r st) as Hlp.
  pose proof (f_runs r st) as Hrs.
  destruct (f r st) as [st1 [r'|r']]; cbn [fst snd outcomeIs] in *.
  - fields. rewrite Hrs, Hlp. by rewrite (holding_insert _ _ k r).
  - rewrite finishRun_runs, finishRun_lessonPlayback. fields.
    rewrite Hrs, Hlp, Hq.
    rewrite (holding_delete _ _ k r Hk) in Hl.
    destruct (decide (token (lessonPlayback st) = runToken r)) as [Ht|Ht].
    + rewrite bool_decide_eq_true_2 by done. cbn [token running].
      rewrite bool_decide_eq_true_2 in Hl by done.
      destruct (running (lessonPlayback st)); lia.
    + rewrite bool_decide_eq_false_2 by done.
      rewrite bool_decide_eq_false_2 in Hl by done. done.
Qed.

End Resume.

Ltac lp_same :=
  intros; repeat match goal with x := _ |- _ => subst x end;
  unfold render, onSentenceChecked, onLessonChecked, attachAudioButton,
    onPlaySettled, wiredEnded, wiredError, offerLessonButton, setMissing,
    setWired, setCurrentTime, play, getOrCreateAudio;
  repeat (fields; rewrite ?stopCurrentAudio_lessonPlayback;
          match goal with
          | |- context [match ?o with Some _ => _ | None => _ end] => destruct o
          | |- context [match ?o with [] => _ | _ :: _ => _ end] => destruct o
          | |- context [if ?b then _ else _] => destruct b
          | |- context [let '(_, _) := ?p in _] => destruct p
          end);
  fields; rewrite ?stopCurrentAudio_lessonPlayback; fields; reflexivity.

Lemma render_lessonPlayback view st :
  lessonPlayback (render view st) = lessonPlayback st.
Proof. lp_same. Qed.

Lemma onSentenceChecked_lessonPlayback myToken i exists_ st :
  lessonPlayback (onSentenceChecked myToken i exists_ st) = lessonPlayback st.
Proof. lp_same. Qed.

Lemma onLessonChecked_running myToken results st :
  running (lessonPlayback (onLessonChecked myToken results st))
  = running (lessonPlayback st).
Proof. lp_same. Qed.

Lemma onPlaySettled_lessonPlayback a ok st :
  lessonPlayback (onPlaySettled a ok st) = lessonPlayback st.
Proof. lp_same. Qed.

Lemma wiredEnded_lessonPlayback a st :
  lessonPlayback (wiredEnded a st) = lessonPlayback st.
Proof. lp_same. Qed.

Lemma wiredError_lessonPlayback a st :
  lessonPlayback (wiredError a st) = lessonPlayback st.
Proof. lp_same. Qed.

Lemma onSentenceClick_lessonPlayback playBtn a st :
  lessonPlayback (onSentenceClick playBtn a st)
  = lessonPlayback (if running (lessonPlayback st)
                    then stopLessonPlayback st else st).
Proof.
  unfold onSentenceClick.
  set (st1 := if running (lessonPlayback st) then _ else st).
  set (st2 := match audio (currentlyPlaying st1) with Some _ => _ | None => _ end).
  assert (lessonPlayback st2 = lessonPlayback st1) as H2.
  { subst st2. destruct (audio (currentlyPlaying st1)); [|done].
    destruct (bool_decide _); [apply stopCurrentAudio_lessonPlayback|done]. }
  destruct (_ && _).
  - by rewrite stopCurrentAudio_lessonPlayback, H2.
  - unfold play. fields. by rewrite stopCurrentAudio_lessonPlayback, H2.
Qed.

Lemma afterPlayOne_lessonPlayback r st :
  lessonPlayback (afterPlayOne r st).1 = lessonPlayback st.
Proof. by destruct (afterPlayOne_frame r st) as (-> & _). Qed.

Lemma afterSleep_lessonPlayback r st :
  lessonPlayback (afterSleep r st).1 = lessonPlayback st.
Proof. by destruct (afterSleep_frame r st) as (-> & _). Qed.

Lemma onLessonClick_oneLive b us ref st :
  oneLive st → token (lessonPlayback st) < 2 ^ 53 →
  oneLive (onLessonClick b us ref st).
Proof.
  intros [Hb Hl] Hlt.
  split; [by apply onLessonClick_tokensBelow|].
  unfold onLessonClick.
  destruct (running (lessonPlayback st)) eqn:Hrun.
  { by apply stopLessonPlayback_oneLive. }
  assert (holding (token (lessonPlayback st) + 1) (runs st) = 0%nat) as H0.
  { apply tokensBelow_holding; [done|lia]. }
  match goal with |- context [playLessonInOrder ?r 0%nat ?s] =>
    pose proof (playLessonInOrder_runToken r 0%nat s) as Hq;
    pose proof (playLessonInOrder_frame r 0%nat s) as (Hlp & Hr & _);
    cbv zeta in Hlp, Hr; cbn [runToken] in Hq;
    destruct (playLessonInOrder r 0%nat s) as [st1 [r'|r']] end;
    cbn [fst snd outcomeIs] in Hq, Hlp, Hr; fields; fields_in Hlp;
    fields_in Hr; fields_in Hq; rewrite incr_exact in Hlp, Hq by done.
  - rewrite Hlp, Hr. fields. rewrite holding_app, H0, holding_cons, Hq.
    by rewrite bool_decide_eq_true_2.
  - rewrite finishRun_lessonPlayback, finishRun_runs, Hlp, Hr, Hq. fields.
    by rewrite bool_decide_eq_true_2.
Qed.

Lemma step_oneLive e st :
  oneLive st → token (lessonPlayback (step e st)) < 2 ^ 53 →
  oneLive (step e st).
Proof.
  intros Hst Hlt. destruct Hst as [Hb Hl].
  pose proof (proj2 (step_tokensBelow e st Hb)) as Hge.
  assert (token (lessonPlayback st) < 2 ^ 53) as Hlt0 by lia. clear Hge Hlt.
  assert (oneLive st) as Hst by done.
  destruct e; cbn [step].
  - generalize (stopLessonPlayback_oneLive st Hb Hlt0).
    apply oneLive_ext; rewrite ?render_lessonPlayback; try done.
    by destruct (render_pool view (stopLessonPlayback st)) as (-> & _).
  - revert Hst.
    apply oneLive_ext; rewrite ?onSentenceChecked_lessonPlayback; try done.
    by destruct (onSentenceChecked_pool myToken i exists_ st) as (-> & _).
  - revert Hst. apply oneLive_ext.
    + apply onLessonChecked_runs.
    + apply onLessonChecked_token.
    + apply onLessonChecked_running.
  - destruct (clickAudio st !! playBtn) as [a|]; [|done].
    assert (oneLive (if running (lessonPlayback st)
                     then stopLessonPlayback st else st)) as H1.
    { destruct (running (lessonPlayback st));
        [by apply stopLessonPlayback_oneLive|done]. }
    revert H1.
    apply oneLive_ext; rewrite ?onSentenceClick_lessonPlayback; try done.
    destruct (onSentenceClick_pool playBtn a st) as (-> & _).
    destruct (running (lessonPlayback st)); [|done].
    by rewrite stopLessonPlayback_runs.
  - destruct (lessonClick st !! b) as [[us ref]|]; [|done].
    by apply onLessonClick_oneLive.
  - destruct (pendingPlays st !! k) as [a|]; [|done].
    revert Hst.
    apply oneLive_ext; rewrite ?onPlaySettled_lessonPlayback; try done.
    by destruct (onPlaySettled_pool a ok (set_pendingPlays (delete k) st))
      as (-> & _).
  - destruct (runs st !! k) as [r|] eqn:Hk; [|done].
    destruct (suspended r) as [[|]|]; [done| |done].
    destruct ok.
    + split.
      * unfold tokensBelow. fields. apply Forall_insert; [done|]. simpl.
        unfold tokensBelow in Hb. rewrite Forall_forall in Hb.
        apply Hb. by eapply list_elem_of_lookup_2.
      * fields. by rewrite (holding_insert _ _ k r).
    + by apply (resumeAt_oneLive afterReject).
  - destruct (runs st !! k) as [r|] eqn:Hk; [|done].
    destruct (suspended r); [done|].
    apply (resumeAt_oneLive afterSleep); try done.
    + intros r0 st0. apply afterSleep_runToken.
    + apply afterSleep_lessonPlayback.
    + intros r0 st0. by destruct (afterSleep_frame r0 st0) as (_ & -> & _).
  - apply (resumeAll_oneLive afterPlayOne).
    + intros r0 st0. apply afterPlayOne_runToken.
    + apply afterPlayOne_lessonPlayback.
    + revert Hst. apply oneLive_ext; rewrite ?wiredEnded_lessonPlayback; try done.
      match goal with |- runs (wiredEnded a ?s) = _ =>
        by destruct (wiredEnded_pool a s) as (-> & _) end.
  - apply (resumeAll_oneLive afterReject); try done.
    revert Hst. apply oneLive_ext; rewrite ?wiredError_lessonPlayback; try done.
    by destruct (wiredError_pool a st) as (-> & _).
  - by destruct (isPaused a st).
Qed.

Lemma exec_token_ge es : ∀ st,
  tokensBelow st → token (lessonPlayback st) ≤ token (lessonPlayback (exec es st)).
Proof.
  induction es as [|e es IH]; intros st Hst; [done|].
  simpl. destruct (step_tokensBelow e st Hst) as [H1 H2].
  specialize (IH _ H1). lia.
Qed.

Lemma exec_oneLive es : ∀ st,
  oneLive st → token (lessonPlayback (exec es st)) < 2 ^ 53 →
  oneLive (exec es st).
Proof.
  induction es as [|e es IH]; intros st Hst Hlt; [done|].
  simpl in *. apply IH; [|done]. apply step_oneLive; [done|].
  destruct Hst as [Hb _]. destruct (step_tokensBelow e st Hb) as [H1 _].
  pose proof (exec_token_ge es _ H1). lia.
Qed.

Lemma init_oneLive : oneLive init.
Proof. split; [apply init_tokensBelow|done]. Qed.

Lemma holding_liveRuns st :
  holding (token (lessonPlayback st)) (runs st) = length (liveRuns st).
Proof. done. Qed.

End LiveFacts.

(** While the token is below 2^53: at most one suspended run holds the
    current token, the running flag is set exactly when one does, and no
    suspended run holds a later token; the token never goes down.  Every
    other suspended run stops at its next check of the token, be it the
    check at the top of an iteration, the one after a clip or the one after
    the delay, and leaves the state as it is. *)
Theorem one_live_run (es : list Event) :
  token (lessonPlayback (exec es init)) < 2 ^ 53 →
  let st := exec es init in
  (length (liveRuns st) ≤ 1)%nat
  ∧ (running (lessonPlayback st) = true ↔ liveRuns st ≠ [])
  ∧ tokensBelow st
  ∧ (∀ es', token (lessonPlayback st) ≤ token (lessonPlayback (exec es' st)))
  ∧ (∀ r, r ∈ runs st → r ∉ liveRuns st →
       (∀ i, playLessonInOrder r i st = (st, Returned r))
       ∧ afterPlayOne r st
         = (st, Returned (step_to r (index r) (suspended r)
                            [ClipEnded (index r)]))
       ∧ afterSleep r st
         = (st, Returned (step_to r (index r) (suspended r)
                            [DelayOver (index r)]))).
Proof.
  intros Hlt st.
  destruct (exec_oneLive es init init_oneLive Hlt) as [Hb Hl]. fold st in Hb, Hl.
  rewrite holding_liveRuns in Hl.
  split_and!.
  - destruct (running (lessonPlayback st)); lia.
  - destruct (running (lessonPlayback st)), (liveRuns st); simpl in Hl;
      split; intros; try done; lia.
  - done.
  - intros es'. by apply exec_token_ge.
  - intros r Hin Hnl.
    assert (token (lessonPlayback st) ≠ runToken r) as Hne.
    { intros Heq. apply Hnl. apply list_elem_of_filter. by split. }
    split_and!.
    + intros i. by apply playLessonInOrder_stale.
    + by apply afterPlayOne_stale.
    + by apply afterSleep_stale.
Qed.

Lemma one_live_run_witness :
  let st := exec [Navigate (Some (str "English", [str "Hi."; str "Go."]));
                  SentenceChecked 1 0 true; SentenceChecked 1 1 true;
                  LessonChecked 1 [true; true]; ClickLesson 2] init in
  (length (liveRuns st) ≤ 1)%nat
  ∧ (running (lessonPlayback st) = true ↔ liveRuns st ≠ []).
Proof.
  destruct (one_live_run
              [Navigate (Some (str "English", [str "Hi."; str "Go."]));
               SentenceChecked 1 0 true; SentenceChecked 1 1 true;
               LessonChecked 1 [true; true]; ClickLesson 2])
    as (H1 & H2 & _).
  - vm_compute. reflexivity.
  - split; [exact H1|exact H2].
Defined.

Section IdleFacts.

Implicit Types st : State.
Implicit Types r : Run.
Implicit Types rs : list Run.

Lemma holding_zero T rs :
  holding T rs = 0%nat → Forall (λ r, runToken r ≠ T) rs.
Proof.
  induction rs as [|r rs IH]; intros Hh; [constructor|].
  rewrite holding_cons in Hh. case_bool_decide; [simpl in Hh; lia|].
  constructor; [done|]. apply IH. simpl in Hh. lia.
Qed.

Lemma afterPlayOne_returnsStale : returnsStale afterPlayOne.
Proof. intros r st Hne. eexists. by rewrite afterPlayOne_stale. Qed.

Lemma afterSleep_returnsStale : returnsStale afterSleep.
Proof. intros r st Hne. eexists. by rewrite afterSleep_stale. Qed.

Lemma afterReject_returnsStale : returnsStale afterReject.
Proof. intros r st Hne. by eexists. Qed.

Lemma dispatch_idle f sel : ∀ rs st,
  returnsStale f →
  Forall (λ r, runToken r ≠ token (lessonPlayback st)) rs →
  let st' := (dispatch f sel rs st).1 in
  trace st' = trace st ∧ lessonPlayback st' = lessonPlayback st
  ∧ audioCache st' = audioCache st ∧ playBtns st' = playBtns st
  ∧ currentlyPlaying st' = currentlyPlaying st.
Proof.
  intros rs st Hf. revert st.
  induction rs as [|r rs IH]; intros st Hall; [done|].
  apply Forall_cons in Hall as [Hr Hall]. cbn [dispatch].
  destruct (sel r).
  - destruct (Hf r st) as (r' & -> & Hr'); [done|].
    rewrite finishRun_stale by congruence.
    specialize (IH (set_finished (λ l, l ++ [r']) st) Hall). by apply IH.
  - specialize (IH st Hall). cbv zeta in IH.
    by destruct (dispatch f sel rs st) as [st' rs'].
Qed.

Lemma resumeAll_idle f sel st :
  returnsStale f → holding (token (lessonPlayback st)) (runs st) = 0%nat →
  trace (resumeAll f sel st) = trace st.
Proof.
  intros Hf Hh. apply holding_zero in Hh.
  destruct (dispatch_idle f sel (runs st) st Hf Hh) as (Ht & _).
  unfold resumeAll. by destruct (dispatch f sel (runs st) st).
Qed.

Lemma resumeAt_idle f k st :
  returnsStale f → holding (token (lessonPlayback st)) (runs st) = 0%nat →
  trace (resumeAt k f st) = trace st.
Proof.
  intros Hf Hh. apply holding_zero in Hh. unfold resumeAt.
  destruct (runs st !! k) as [r|] eqn:Hk; [|done].
  assert (runToken r ≠ token (lessonPlayback st)) as Hr.
  { rewrite Forall_forall in Hh. apply Hh. by eapply list_elem_of_lookup_2. }
  destruct (Hf r st) as (r' & -> & Hr'); [done|].
  rewrite finishRun_stale; [done|]. fields. congruence.
Qed.

Ltac trace_same :=
  intros; repeat match goal with x := _ |- _ => subst x end;
  unfold render, onSentenceChecked, onLessonChecked, attachAudioButton,
    offerLessonButton, setMissing, setWired, setCurrentTime, getOrCreateAudio;
  repeat (fields;
          match goal with
          | |- context [match ?o with Some _ => _ | None => _ end] => destruct o
          | |- context [match ?o with [] => _ | _ :: _ => _ end] => destruct o
          | |- context [if ?b then _ else _] => destruct b
          | |- context [let '(_, _) := ?p in _] => destruct p
          end);
  fields; reflexivity.

Lemma render_trace view st : trace (render view st) = trace st.
Proof. trace_same. Qed.

Lemma onSentenceChecked_trace myToken i exists_ st :
  trace (onSentenceChecked myToken i exists_ st) = trace st.
Proof. trace_same. Qed.

Lemma onLessonChecked_trace myToken results st :
  trace (onLessonChecked myToken results st) = trace st.
Proof. trace_same. Qed.

Lemma onPlaySettled_plays a ok st :
  plays (trace (onPlaySettled a ok st)) = plays (trace st).
Proof.
  unfold onPlaySettled. destruct ok; [done|].
  rewrite stopCurrentAudio_plays. by unfold setMissing.
Qed.

Lemma wiredEnded_plays a st : plays (trace (wiredEnded a st)) = plays (trace st).
Proof.
  unfold wiredEnded. destruct (audioCache st !! a); [|done].
  destruct (_ && _); [apply stopCurrentAudio_plays|done].
Qed.

Lemma wiredError_plays a st : plays (trace (wiredError a st)) = plays (trace st).
Proof.
  unfold wiredError. destruct (audioCache st !! a) as [x|]; [|done].
  destruct (wired x); [|done]. cbv zeta.
  destruct (bool_decide _); [|by unfold setMissing].
  rewrite stopCurrentAudio_plays. by unfold setMissing.
Qed.

(** With the sequencer idle, an event that is no click starts no clip and
    leaves the sequencer idle. *)
Lemma step_idle e st :
  oneLive st → running (lessonPlayback st) = false → isClick e = false →
  token (lessonPlayback (step e st)) < 2 ^ 53 →
  plays (trace (step e st)) = plays (trace st)
  ∧ running (lessonPlayback (step e st)) = false
  ∧ oneLive (step e st).
Proof.
  intros Hst Hrun He Hlt.
  pose proof (step_oneLive e st Hst Hlt) as Hst'.
  split_and!; [| |done].
  - destruct Hst as [Hb Hl]. rewrite Hrun in Hl.
    destruct e; try done; cbn [step].
    + rewrite render_trace, stopLessonPlayback_trace, plays_app, plays_stopCalls.
      by rewrite app_nil_r.
    + by rewrite onSentenceChecked_trace.
    + by rewrite onLessonChecked_trace.
    + destruct (pendingPlays st !! k); [|done]. by rewrite onPlaySettled_plays.
    + destruct (runs st !! k) as [r|]; [|done].
      destruct (suspended r) as [[|]|]; [done| |done].
      destruct ok; [done|].
      by rewrite (resumeAt_idle _ _ _ afterReject_returnsStale).
    + destruct (runs st !! k) as [r|]; [|done].
      destruct (suspended r); [done|].
      by rewrite (resumeAt_idle _ _ _ afterSleep_returnsStale).
    + match goal with |- context [wiredEnded a ?s] => set (s0 := s) end.
      destruct (ended_prelude a st) as (Hlp & Hr & _). fold s0 in Hlp, Hr.
      assert (holding (token (lessonPlayback (wiredEnded a s0)))
                (runs (wiredEnded a s0)) = 0%nat) as H0 by by rewrite Hlp, Hr.
      rewrite (resumeAll_idle afterPlayOne (awaits a) (wiredEnded a s0)
                 afterPlayOne_returnsStale H0).
      by rewrite wiredEnded_plays.
    + rewrite (resumeAll_idle _ _ _ afterReject_returnsStale).
      * apply wiredError_plays.
      * rewrite wiredError_lessonPlayback.
        by destruct (wiredError_pool a st) as (-> & _).
    + destruct (isPaused a st); [done|]. by unfold setCurrentTime.
  - destruct Hst' as [_ Hl'].
    destruct (running (lessonPlayback (step e st))) eqn:Hrun'; [|done].
    exfalso. destruct Hst as [Hb Hl]. rewrite Hrun in Hl.
    destruct e; try done; cbn [step] in *.
    + rewrite render_lessonPlayback, stopLessonPlayback_lessonPlayback in Hrun'.
      done.
    + by rewrite onSentenceChecked_lessonPlayback, Hrun in Hrun'.
    + by rewrite onLessonChecked_running, Hrun in Hrun'.
    + destruct (pendingPlays st !! k); [|congruence].
      rewrite onPlaySettled_lessonPlayback in Hrun'. fields_in Hrun'. congruence.
    + destruct (runs st !! k) as [r|] eqn:Hk; [|congruence].
      destruct (suspended r) as [[|]|]; [congruence| |congruence].
      destruct ok; [fields_in Hrun'; congruence|].
      revert Hrun'. unfold resumeAt. rewrite Hk. unfold afterReject.
      rewrite finishRun_lessonPlayback. fields.
      case_bool_decide; simpl; congruence.
    + destruct (runs st !! k) as [r|] eqn:Hk; [|congruence].
      destruct (suspended r); [congruence|].
      revert Hrun'. unfold resumeAt. rewrite Hk.
      apply holding_zero in Hl. rewrite Forall_forall in Hl.
      rewrite afterSleep_stale.
      * rewrite finishRun_lessonPlayback. fields.
        case_bool_decide; simpl; congruence.
      * intros Heq. eapply Hl; [by eapply list_elem_of_lookup_2|done].
    + revert Hrun'.
      match goal with |- context [wiredEnded a ?s] => set (s0 := s) end.
      destruct (ended_prelude a st) as (Hlp & Hr & _). fold s0 in Hlp, Hr.
      apply holding_zero in Hl.
      destruct (dispatch_idle afterPlayOne (awaits a) (runs (wiredEnded a s0))
                  (wiredEnded a s0) afterPlayOne_returnsStale)
        as (_ & Hlp' & _).
      { by rewrite Hlp, Hr. }
      unfold resumeAll. destruct (dispatch _ _ _ _) as [s1 rs1]. fields.
      cbn [fst] in Hlp'. rewrite Hlp', Hlp. congruence.
    + revert Hrun'. apply holding_zero in Hl.
      destruct (dispatch_idle afterReject (awaits a) (runs (wiredError a st))
                  (wiredError a st) afterReject_returnsStale)
        as (_ & Hlp' & _).
      { rewrite wiredError_lessonPlayback.
        by destruct (wiredError_pool a st) as (-> & _). }
      unfold resumeAll. destruct (dispatch _ _ _ _) as [s1 rs1]. fields.
      cbn [fst] in Hlp'. rewrite Hlp', wiredError_lessonPlayback. congruence.
    + destruct (isPaused a st); [congruence|].
      unfold setCurrentTime in Hrun'. fields_in Hrun'. congruence.
Qed.

Lemma exec_idle es : ∀ st,
  oneLive st → running (lessonPlayback st) = false →
  Forall (λ e, isClick e = false) es →
  token (lessonPlayback (exec es st)) < 2 ^ 53 →
  plays (trace (exec es st)) = plays (trace st)
  ∧ running (lessonPlayback (exec es st)) = false.
Proof.
  induction es as [|e es IH]; intros st Hst Hrun Hes Hlt; [done|].
  apply Forall_cons in Hes as [He Hes]. simpl in *.
  assert (token (lessonPlayback (step e st)) < 2 ^ 53) as Hlt1.
  { destruct Hst as [Hb _]. destruct (step_tokensBelow e st Hb) as [H1 _].
    pose proof (exec_token_ge es _ H1). lia. }
  destruct (step_idle e st Hst Hrun He Hlt1) as (Hp & Hr & Hl).
  destruct (IH _ Hl Hr Hes Hlt) as [Hp' Hr']. split; [congruence|done].
Qed.

End IdleFacts.

(** While no lesson runs, only a click starts a clip: in a state the
    player reaches with its running flag off, no sequence of timers,
    settled promises, media events, finished existence checks and
    navigations calls play() or sets the flag, whatever runs of cancelled
    lessons are still suspended (with the token below 2^53). *)
Theorem no_playback_without_click (es es' : list Event) :
  running (lessonPlayback (exec es init)) = false →
  Forall (λ e, isClick e = false) es' →
  token (lessonPlayback (exec es' (exec es init))) < 2 ^ 53 →
  plays (trace (exec es' (exec es init))) = plays (trace (exec es init))
  ∧ running (lessonPlayback (exec es' (exec es init))) = false.
Proof.
  intros Hrun Hes' Hlt.
  assert (tokensBelow (exec es init)) as Hb
    by apply exec_tokensBelow, init_tokensBelow.
  apply exec_idle; try done.
  apply exec_oneLive; [apply init_oneLive|].
  pose proof (exec_token_ge es' _ Hb). lia.
Qed.

Lemma no_playback_without_click_witness :
  let es := [Navigate (Some (str "English", [str "Hi."; str "Go."]));
             SentenceChecked 1 0 true; SentenceChecked 1 1 true;
             LessonChecked 1 [true; true]; ClickLesson 2; ClickLesson 2] in
  let es' := [RunPlaySettled 0 true;
              MediaEnded (Some (str "Audio/English/Hi..m4a")); TimerFired 0] in
  length (runs (exec es init)) = 1%nat
  ∧ plays (trace (exec es' (exec es init))) = plays (trace (exec es init)).
Proof.
  split; [by vm_compute|].
  refine (proj1 (no_playback_without_click
                   [Navigate (Some (str "English", [str "Hi."; str "Go."]));
                    SentenceChecked 1 0 true; SentenceChecked 1 1 true;
                    LessonChecked 1 [true; true]; ClickLesson 2; ClickLesson 2]
                   [RunPlaySettled 0 true;
                    MediaEnded (Some (str "Audio/English/Hi..m4a"));
                    TimerFired 0] _ _ _)).
  - by vm_compute.
  - repeat constructor.
  - vm_compute. reflexivity.
Defined.

(** ** The delay between two clips, on the calls *)

Section DelayFacts.

Implicit Types st : State.
Implicit Types r : Run.
Implicit Types rs : list Run.

Lemma sleeps_app t1 t2 : sleeps (t1 ++ t2) = sleeps t1 ++ sleeps t2.
Proof. apply omap_app. Qed.

Lemma sleeps_stopCalls st : sleeps (stopCalls st) = [].
Proof. unfold stopCalls. by destruct (audio (currentlyPlaying st)). Qed.

Lemma stopCurrentAudio_sleeps st :
  sleeps (trace (stopCurrentAudio st)) = sleeps (trace st).
Proof. by rewrite stopCurrentAudio_trace, sleeps_app, sleeps_stopCalls, app_nil_r. Qed.

Lemma stopLessonPlayback_sleeps st :
  sleeps (trace (stopLessonPlayback st)) = sleeps (trace st).
Proof. by rewrite stopLessonPlayback_trace, sleeps_app, sleeps_stopCalls, app_nil_r. Qed.

Lemma playOne_sleeps url sb st :
  sleeps (trace (playOne url sb st)) = sleeps (trace st).
Proof.
  by rewrite playOne_trace, !sleeps_app, sleeps_stopCalls, !app_nil_r.
Qed.

Lemma finishRun_sleeps r st :
  sleeps (trace (finishRun r st)) = sleeps (trace st).
Proof.
  unfold finishRun. case_bool_decide; fields; [|done].
  by rewrite stopCurrentAudio_sleeps.
Qed.

Ltac sleeps_same :=
  intros; repeat match goal with x := _ |- _ => subst x end;
  unfold onSentenceClick, onPlaySettled, wiredEnded, wiredError, setMissing,
    setCurrentTime, play;
  repeat (fields; rewrite ?sleeps_app, ?stopCurrentAudio_sleeps,
            ?stopLessonPlayback_sleeps;
          match goal with
          | |- context [match ?o with Some _ => _ | None => _ end] => destruct o
          | |- context [if ?b then _ else _] => destruct b
          end);
  fields; rewrite ?sleeps_app, ?stopCurrentAudio_sleeps,
            ?stopLessonPlayback_sleeps; simpl; rewrite ?app_nil_r; reflexivity.

Lemma onSentenceClick_sleeps playBtn a st :
  sleeps (trace (onSentenceClick playBtn a st)) = sleeps (trace st).
Proof. sleeps_same. Qed.

Lemma onPlaySettled_sleeps a ok st :
  sleeps (trace (onPlaySettled a ok st)) = sleeps (trace st).
Proof. sleeps_same. Qed.

Lemma wiredEnded_sleeps a st :
  sleeps (trace (wiredEnded a st)) = sleeps (trace st).
Proof. sleeps_same. Qed.

Lemma wiredError_sleeps a st :
  sleeps (trace (wiredError a st)) = sleeps (trace st).
Proof. sleeps_same. Qed.

Lemma delaysIn_cons r rs :
  delaysIn (r :: rs) = (length (delaysOf r) + delaysIn rs)%nat.
Proof. unfold delaysIn. simpl. by rewrite length_app. Qed.

Lemma delaysIn_app rs1 rs2 :
  delaysIn (rs1 ++ rs2) = (delaysIn rs1 + delaysIn rs2)%nat.
Proof. unfold delaysIn. by rewrite bind_app, length_app. Qed.

Lemma delaysIn_insert rs k r r' :
  rs !! k = Some r →
  (delaysIn (<[k := r']> rs) + length (delaysOf r)
   = delaysIn rs + length (delaysOf r'))%nat.
Proof.
  revert k. induction rs as [|r0 rs IH]; intros k Hk; [done|].
  destruct k as [|k]; simpl in *.
  - injection Hk as ->. rewrite !delaysIn_cons. lia.
  - rewrite !delaysIn_cons. specialize (IH k Hk). lia.
Qed.

Lemma delaysIn_delete rs k r :
  rs !! k = Some r →
  delaysIn rs = (length (delaysOf r) + delaysIn (delete k rs))%nat.
Proof.
  revert k. induction rs as [|r0 rs IH]; intros k Hk; [done|].
  destruct k as [|k]; simpl in *.
  - injection Hk as ->. by rewrite delaysIn_cons.
  - rewrite !delaysIn_cons. rewrite (IH k) by done. lia.
Qed.

Lemma delaysOf_step_to r i s h :
  delaysOf (step_to r i s h)
  = delaysOf r ++ omap (λ s, match s with StartDelay _ ms => Some ms | _ => None end) h.
Proof. unfold delaysOf, step_to. simpl. apply omap_app. Qed.

(** What a piece of the loop does to the calls of sleep and to the delays
    of its run: [d] delays more, each with its call of sleep(1000). *)
Lemma playLessonInOrder_delays r i st :
  sleeps (trace (playLessonInOrder r i st).1) = sleeps (trace st)
  ∧ outcomeIs (λ r', delaysOf r' = delaysOf r) (λ r', delaysOf r' = delaysOf r)
      (playLessonInOrder r i st).2.
Proof.
  unfold playLessonInOrder. destruct (urls r !! i); [|done].
  case_bool_decide; [done|]. cbn [fst snd outcomeIs].
  rewrite playOne_sleeps, delaysOf_step_to. simpl. by rewrite app_nil_r.
Qed.

Lemma afterPlayOne_delays r st :
  ∃ d, sleeps (trace (afterPlayOne r st).1) = sleeps (trace st) ++ replicate d 1000
    ∧ outcomeIs (λ r', delaysOf r' = delaysOf r ++ replicate d 1000)
        (λ r', delaysOf r' = delaysOf r ++ replicate d 1000)
        (afterPlayOne r st).2.
Proof.
  unfold afterPlayOne. cbv zeta. case_bool_decide.
  - case_bool_decide.
    + exists 0%nat. cbn [fst snd outcomeIs replicate].
      rewrite delaysOf_step_to. simpl. by rewrite !app_nil_r.
    + exists 1%nat. cbn [fst snd outcomeIs replicate]. fields.
      rewrite sleeps_app, !delaysOf_step_to. simpl. by rewrite app_nil_r.
  - exists 0%nat. cbn [replicate].
    match goal with |- context [playLessonInOrder ?r1 ?i st] =>
      destruct (playLessonInOrder_delays r1 i st) as [Hs Ho];
      destruct (playLessonInOrder r1 i st) as [st1 [r'|r']] end;
      cbn [fst snd outcomeIs] in *; rewrite Hs, Ho, delaysOf_step_to;
      simpl; by rewrite !app_nil_r.
Qed.

Lemma afterSleep_delays r st :
  ∃ d, sleeps (trace (afterSleep r st).1) = sleeps (trace st) ++ replicate d 1000
    ∧ outcomeIs (λ r', delaysOf r' = delaysOf r ++ replicate d 1000)
        (λ r', delaysOf r' = delaysOf r ++ replicate d 1000)
        (afterSleep r st).2.
Proof.
  exists 0%nat. unfold afterSleep. cbn [replicate].
  match goal with |- context [playLessonInOrder ?r1 ?i st] =>
    destruct (playLessonInOrder_delays r1 i st) as [Hs Ho];
    destruct (playLessonInOrder r1 i st) as [st1 [r'|r']] end;
    cbn [fst snd outcomeIs] in *; rewrite Hs, Ho, delaysOf_step_to;
    simpl; by rewrite !app_nil_r.
Qed.

Lemma afterReject_delays r st :
  ∃ d, sleeps (trace (afterReject r st).1) = sleeps (trace st) ++ replicate d 1000
    ∧ outcomeIs (λ r', delaysOf r' = delaysOf r ++ replicate d 1000)
        (λ r', delaysOf r' = delaysOf r ++ replicate d 1000)
        (afterReject r st).2.
Proof. exists 0%nat. simpl. by rewrite !app_nil_r. Qed.

Lemma sleepsAccounted_ext st st' :
  sleeps (trace st') = sleeps (trace st) → runs st' = runs st →
  finished st' = finished st → sleepsAccounted st → sleepsAccounted st'.
Proof. unfold sleepsAccounted. by intros -> -> ->. Qed.

Section Resume.

Variable f : Run → State → State * Outcome.
Hypothesis f_delays : ∀ r st,
  ∃ d, sleeps (trace (f r st).1) = sleeps (trace st) ++ replicate d 1000
    ∧ outcomeIs (λ r', delaysOf r' = delaysOf r ++ replicate d 1000)
        (λ r', delaysOf r' = delaysOf r ++ replicate d 1000) (f r st).2.
Hypothesis f_finished : ∀ r st, finished (f r st).1 = finished st.
Hypothesis f_runs : ∀ r st, runs (f r st).1 = runs st.

Lemma dispatch_delays sel : ∀ rs st,
  ∃ d, sleeps (trace (dispatch f sel rs st).1)
       = sleeps (trace st) ++ replicate d 1000
    ∧ (delaysIn (dispatch f sel rs st).2
       + delaysIn (finished (dispatch f sel rs st).1)
       = delaysIn rs + delaysIn (finished st) + d)%nat.
Proof.
  induction rs as [|r rs IH]; intros st.
  { exists 0%nat. simpl. rewrite app_nil_r. split; [done|lia]. }
  cbn [dispatch]. destruct (sel r).
  - destruct (f_delays r st) as (d & Hs & Ho).
    pose proof (f_finished r st) as Hf.
    destruct (f r st) as [st1 [r'|r']]; cbn [fst snd outcomeIs] in *.
    + destruct (IH st1) as (d' & Hs' & Hc').
      destruct (dispatch f sel rs st1) as [st' rs']. cbn [fst snd] in *.
      exists (d + d')%nat. rewrite Hs', Hs, <- app_assoc, replicate_add.
      split; [done|]. rewrite !delaysIn_cons, Ho, length_app, length_replicate.
      rewrite Hf in Hc'. lia.
    + destruct (IH (finishRun r' st1)) as (d' & Hs' & Hc').
      exists (d + d')%nat.
      rewrite Hs', finishRun_sleeps, Hs, <- app_assoc, replicate_add.
      split; [done|]. rewrite Hc', finishRun_finished, Hf, delaysIn_app.
      rewrite !delaysIn_cons, Ho, length_app, length_replicate.
      change (delaysIn []) with 0%nat. simpl. lia.
  - destruct (IH st) as (d' & Hs' & Hc').
    destruct (dispatch f sel rs st) as [st' rs']. cbn [fst snd] in *.
    exists d'. split; [done|]. rewrite !delaysIn_cons. lia.
Qed.

Lemma sleepsAccounted_more st st' d :
  sleeps (trace st') = sleeps (trace st) ++ replicate d 1000 →
  (delaysIn (runs st') + delaysIn (finished st')
   = delaysIn (runs st) + delaysIn (finished st) + d)%nat →
  sleepsAccounted st → sleepsAccounted st'.
Proof.
  intros Hs Hc [Hn Ha]. split.
  - rewrite Hs, length_app, length_replicate. lia.
  - rewrite Hs. apply Forall_app. split; [done|].
    apply Forall_forall. by intros x [-> _]%elem_of_replicate.
Qed.

Lemma resumeAll_accounted sel st :
  sleepsAccounted st → sleepsAccounted (resumeAll f sel st).
Proof.
  intros Hst. destruct (dispatch_delays sel (runs st) st) as (d & Hs & Hc).
  unfold resumeAll. destruct (dispatch f sel (runs st) st) as [st' rs'].
  cbn [fst snd] in *. by apply (sleepsAccounted_more st _ d).
Qed.

Lemma resumeAt_accounted k st :
  sleepsAccounted st → sleepsAccounted (resumeAt k f st).
Proof.
  intros Hst. unfold resumeAt. destruct (runs st !! k) as [r|] eqn:Hk; [|done].
  destruct (f_delays r st) as (d & Hs & Ho).
  pose proof (f_finished r st) as Hf. pose proof (f_runs r st) as Hr.
  destruct (f r st) as [st1 [r'|r']]; cbn [fst snd outcomeIs] in *.
  - apply (sleepsAccounted_more st _ d); fields; [done| |done].
    rewrite Hr, Hf. pose proof (delaysIn_insert (runs st) k r r' Hk) as Hi.
    rewrite Ho, length_app, length_replicate in Hi. lia.
  - apply (sleepsAccounted_more st _ d); [| |done].
    + by rewrite finishRun_sleeps.
    + rewrite finishRun_runs, finishRun_finished. fields.
      rewrite Hr, Hf, delaysIn_app, delaysIn_cons,
        (delaysIn_delete (runs st) k r Hk).
      change (delaysIn []) with 0%nat.
      rewrite Ho, length_app, length_replicate. lia.
Qed.

End Resume.

Lemma playLessonInOrder_pool r i st :
  runs (playLessonInOrder r i st).1 = runs st
  ∧ finished (playLessonInOrder r i st).1 = finished st.
Proof. by destruct (playLessonInOrder_frame r i st) as (_ & ? & ? & _). Qed.

Lemma afterPlayOne_pool r st :
  runs (afterPlayOne r st).1 = runs st
  ∧ finished (afterPlayOne r st).1 = finished st.
Proof.
  unfold afterPlayOne. cbv zeta. case_bool_decide.
  - by case_bool_decide.
  - apply playLessonInOrder_pool.
Qed.

Lemma afterSleep_pool r st :
  runs (afterSleep r st).1 = runs st ∧ finished (afterSleep r st).1 = finished st.
Proof. apply playLessonInOrder_pool. Qed.

Lemma onLessonClick_accounted b us ref st :
  sleepsAccounted st → sleepsAccounted (onLessonClick b us ref st).
Proof.
  intros Hst. unfold onLessonClick. destruct (running _).
  { revert Hst. apply sleepsAccounted_ext.
    - apply stopLessonPlayback_sleeps.
    - apply stopLessonPlayback_runs.
    - apply stopLessonPlayback_finished. }
  match goal with |- context [playLessonInOrder ?r 0%nat ?s] =>
    destruct (playLessonInOrder_delays r 0%nat s) as [Hs Ho];
    destruct (playLessonInOrder_pool r 0%nat s) as [Hr Hf];
    destruct (playLessonInOrder r 0%nat s) as [st1 [r'|r']] end;
    cbn [fst snd outcomeIs] in *; fields_in Hs; fields_in Hr; fields_in Hf.
  - apply (sleepsAccounted_more st _ 0); fields; [| |done].
    + by rewrite Hs, app_nil_r.
    + rewrite Hr, Hf, delaysIn_app, delaysIn_cons, Ho. change (delaysIn []) with 0%nat.
      simpl. lia.
  - apply (sleepsAccounted_more st _ 0); [| |done].
    + by rewrite finishRun_sleeps, Hs, app_nil_r.
    + rewrite finishRun_runs, finishRun_finished, Hr, Hf, delaysIn_app,
        delaysIn_cons, Ho.
      change (delaysIn []) with 0%nat. simpl. lia.
Qed.

Lemma step_accounted e st : sleepsAccounted st → sleepsAccounted (step e st).
Proof.
  intros Hst. destruct e; cbn [step].
  - revert Hst. apply sleepsAccounted_ext.
    + by rewrite render_trace, stopLessonPlayback_sleeps.
    + destruct (render_pool view (stopLessonPlayback st)) as (-> & _).
      apply stopLessonPlayback_runs.
    + destruct (render_pool view (stopLessonPlayback st)) as (_ & -> & _).
      apply stopLessonPlayback_finished.
  - revert Hst.
    destruct (onSentenceChecked_pool myToken i exists_ st) as (Hr & Hf & _).
    apply sleepsAccounted_ext; [by rewrite onSentenceChecked_trace|done..].
  - revert Hst.
    apply sleepsAccounted_ext; [by rewrite onLessonChecked_trace| |].
    + apply onLessonChecked_runs.
    + unfold onLessonChecked. destruct (renders st !! myToken); [|done].
      destruct (_ && _); [|done]. by unfold offerLessonButton.
  - destruct (clickAudio st !! playBtn) as [a|]; [|done]. revert Hst.
    destruct (onSentenceClick_pool playBtn a st) as (Hr & Hf & _).
    apply sleepsAccounted_ext; [apply onSentenceClick_sleeps|done..].
  - destruct (lessonClick st !! b) as [[us ref]|]; [|done].
    by apply onLessonClick_accounted.
  - destruct (pendingPlays st !! k) as [a|]; [|done]. revert Hst.
    match goal with |- context [onPlaySettled a ok ?s] =>
      destruct (onPlaySettled_pool a ok s) as (Hr & Hf & _) end.
    apply sleepsAccounted_ext; [by rewrite onPlaySettled_sleeps|done..].
  - destruct (runs st !! k) as [r|] eqn:Hk; [|done].
    destruct (suspended r) as [[|]|]; [done| |done].
    destruct ok.
    + apply (sleepsAccounted_more st _ 0); fields; [by rewrite app_nil_r| |done].
      pose proof (delaysIn_insert (runs st) k r
                    (step_to r (index r) (AwaitPlayOne true) []) Hk) as Hi.
      rewrite delaysOf_step_to in Hi. simpl in Hi. rewrite app_nil_r in Hi. lia.
    + apply resumeAt_accounted; [apply afterReject_delays|done..].
  - destruct (runs st !! k) as [r|] eqn:Hk; [|done].
    destruct (suspended r); [done|].
    apply resumeAt_accounted; [apply afterSleep_delays| | |done];
      intros; apply afterSleep_pool.
  - apply resumeAll_accounted; [apply afterPlayOne_delays| |];
      try (intros; apply afterPlayOne_pool).
    match goal with |- context [wiredEnded a ?s] =>
      destruct (wiredEnded_pool a s) as (Hr & Hf & _) end.
    revert Hst. apply sleepsAccounted_ext; [by rewrite wiredEnded_sleeps|done..].
  - apply resumeAll_accounted; [apply afterReject_delays|done..|].
    destruct (wiredError_pool a st) as (Hr & Hf & _).
    revert Hst. apply sleepsAccounted_ext; [apply wiredError_sleeps|done..].
  - destruct (isPaused a st); [done|]. revert Hst.
    by apply sleepsAccounted_ext.
Qed.

Lemma exec_accounted es : ∀ st, sleepsAccounted st → sleepsAccounted (exec es st).
Proof.
  induction es as [|e es IH]; intros st Hst; [done|].
  simpl. apply IH. by apply step_accounted.
Qed.

Lemma init_accounted : sleepsAccounted init.
Proof. split; [done|constructor]. Qed.

End DelayFacts.

Section SleepingFacts.

Implicit Types st : State.
Implicit Types r : Run.
Implicit Types rs : list Run.

Lemma canonFrom_take_delay us : ∀ j i,
  (S i < length us)%nat →
  last (take (4 * i + 3) (canonFrom j us)) = Some (StartDelay (j + i) 1000).
Proof.
  induction us as [|u us IH]; intros j i Hi; [simpl in Hi; lia|].
  destruct us as [|v us]; [simpl in Hi; lia|].
  change (canonFrom j (u :: v :: us))
    with (StartClip j u :: ClipEnded j :: StartDelay j 1000 :: DelayOver j
            :: canonFrom (S j) (v :: us)).
  destruct i as [|i].
  - simpl. by rewrite Nat.add_0_r.
  - replace (4 * S i + 3)%nat with (S (S (S (S (4 * i + 3))))) by lia.
    cbn [take]. specialize (IH (S j) i). simpl in Hi.
    assert (S i < length (v :: us))%nat as Hi' by (simpl; lia).
    specialize (IH Hi').
    replace (S j + i)%nat with (j + S i)%nat in IH by lia.
    destruct (take (4 * i + 3) (canonFrom (S j) (v :: us))) as [|x l] eqn:E;
      [done|].
    do 4 rewrite last_cons. by rewrite IH.
Qed.

Lemma onTrack_sleepingByCall r : onTrack r → sleepingByCall r.
Proof.
  intros (_ & Hs & Hh) Hsl. specialize (Hs Hsl). rewrite Hh.
  unfold position. rewrite Hsl. by rewrite canonFrom_take_delay.
Qed.

(** A run that is not selected stays in the pool as it is. *)
Lemma dispatch_keeps f sel r : ∀ rs st,
  r ∈ rs → sel r = false → r ∈ (dispatch f sel rs st).2.
Proof.
  induction rs as [|r0 rs IH]; intros st Hin Hsel; [by apply elem_of_nil in Hin|].
  cbn [dispatch]. apply elem_of_cons in Hin as [->|Hin].
  - rewrite Hsel. destruct (dispatch f sel rs st). left.
  - destruct (sel r0).
    + destruct (f r0 st) as [st1 [r'|r']].
      * specialize (IH st1 Hin Hsel).
        destruct (dispatch f sel rs st1). right. done.
      * by apply IH.
    + specialize (IH st Hin Hsel). destruct (dispatch f sel rs st). by right.
Qed.

Lemma resumeAll_keeps f sel r st :
  r ∈ runs st → sel r = false → r ∈ runs (resumeAll f sel st).
Proof.
  intros Hin Hsel. pose proof (dispatch_keeps f sel r (runs st) st Hin Hsel).
  unfold resumeAll. by destruct (dispatch f sel (runs st) st).
Qed.

Lemma resumeAt_keeps f k r st :
  (∀ r0 s, runs (f r0 s).1 = runs s) →
  r ∈ runs st → runs st !! k ≠ Some r → r ∈ runs (resumeAt k f st).
Proof.
  intros Hf Hin Hk. unfold resumeAt.
  destruct (runs st !! k) as [r0|] eqn:E; [|done].
  pose proof (Hf r0 st) as Hr.
  destruct (f r0 st) as [st1 [r'|r']]; cbn [fst] in Hr.
  - fields. rewrite Hr.
    apply list_elem_of_lookup in Hin as [j Hj].
    apply (list_elem_of_lookup_2 _ j). rewrite list_lookup_insert_ne; [done|].
    intros ->. congruence.
  - rewrite finishRun_runs. fields. rewrite Hr.
    by eapply elem_of_delete_other; [exact E|congruence|].
Qed.

(** A run suspended in sleep stays as it is under every event other than
    a timer. *)
Lemma sleeping_stays e st r :
  r ∈ runs st → suspended r = AwaitSleep → (∀ k, e ≠ TimerFired k) →
  r ∈ runs (step e st).
Proof.
  intros Hin Hs He. destruct e; cbn [step].
  - destruct (render_pool view (stopLessonPlayback st)) as (-> & _).
    by rewrite stopLessonPlayback_runs.
  - by destruct (onSentenceChecked_pool myToken i exists_ st) as (-> & _).
  - by rewrite onLessonChecked_runs.
  - destruct (clickAudio st !! playBtn) as [a|]; [|done].
    by destruct (onSentenceClick_pool playBtn a st) as (-> & _).
  - destruct (lessonClick st !! b) as [[us ref]|]; [|done].
    unfold onLessonClick. destruct (running _).
    { by rewrite stopLessonPlayback_runs. }
    match goal with |- context [playLessonInOrder ?r0 0%nat ?s] =>
      destruct (playLessonInOrder_pool r0 0%nat s) as [Hr _];
      destruct (playLessonInOrder r0 0%nat s) as [st1 [r'|r']] end;
      cbn [fst] in Hr; fields_in Hr.
    + fields. rewrite Hr. apply elem_of_app. by left.
    + by rewrite finishRun_runs, Hr.
  - destruct (pendingPlays st !! k) as [a|]; [|done].
    match goal with |- context [onPlaySettled a ok ?s] =>
      destruct (onPlaySettled_pool a ok s) as (-> & _) end.
    done.
  - destruct (runs st !! k) as [r0|] eqn:Hk; [|done].
    destruct (suspended r0) as [[|]|] eqn:Hs0; [done| |done].
    assert (runs st !! k ≠ Some r) as Hne by (intros ?; congruence).
    destruct ok.
    + fields. apply list_elem_of_lookup in Hin as [j Hj].
      apply (list_elem_of_lookup_2 _ j). rewrite list_lookup_insert_ne; [done|].
      intros ->. congruence.
    + by apply resumeAt_keeps.
  - by destruct (He k).
  - apply resumeAll_keeps; [|unfold awaits; by rewrite Hs].
    match goal with |- context [wiredEnded a ?s] =>
      destruct (wiredEnded_pool a s) as (-> & _) end.
    done.
  - apply resumeAll_keeps; [|unfold awaits; by rewrite Hs].
    by destruct (wiredError_pool a st) as (-> & _).
  - destruct (isPaused a st); [done|]. by unfold setCurrentTime.
Qed.

(** A run suspended in playOne stays as it is under every event other
    than "ended" or "error" on its audio and the settling of a play(). *)
Lemma awaiting_stays e st r a :
  r ∈ runs st → awaits a r = true →
  e ≠ MediaEnded a → e ≠ MediaError a → (∀ k ok, e ≠ RunPlaySettled k ok) →
  r ∈ runs (step e st).
Proof.
  intros Hin Haw He1 He2 He3.
  assert (suspended r ≠ AwaitSleep) as Hs by by apply (awaits_not_sleeping a).
  destruct e; cbn [step].
  - destruct (render_pool view (stopLessonPlayback st)) as (-> & _).
    by rewrite stopLessonPlayback_runs.
  - by destruct (onSentenceChecked_pool myToken i exists_ st) as (-> & _).
  - by rewrite onLessonChecked_runs.
  - destruct (clickAudio st !! playBtn) as [a'|]; [|done].
    by destruct (onSentenceClick_pool playBtn a' st) as (-> & _).
  - destruct (lessonClick st !! b) as [[us ref]|]; [|done].
    unfold onLessonClick. destruct (running _).
    { by rewrite stopLessonPlayback_runs. }
    match goal with |- context [playLessonInOrder ?r0 0%nat ?s] =>
      destruct (playLessonInOrder_pool r0 0%nat s) as [Hr _];
      destruct (playLessonInOrder r0 0%nat s) as [st1 [r'|r']] end;
      cbn [fst] in Hr; fields_in Hr.
    + fields. rewrite Hr. apply elem_of_app. by left.
    + by rewrite finishRun_runs, Hr.
  - destruct (pendingPlays st !! k) as [a'|]; [|done].
    match goal with |- context [onPlaySettled a' ok ?s] =>
      destruct (onPlaySettled_pool a' ok s) as (-> & _) end.
    done.
  - by destruct (He3 k ok).
  - destruct (runs st !! k) as [r0|] eqn:Hk; [|done].
    destruct (suspended r0) eqn:Hs0; [done|].
    apply resumeAt_keeps; [intros; apply afterSleep_pool|done|].
    intros ?. congruence.
  - apply resumeAll_keeps.
    + match goal with |- context [wiredEnded a0 ?s] =>
        destruct (wiredEnded_pool a0 s) as (-> & _) end.
      done.
    + unfold awaits in *. destruct (suspended r); [|done].
      apply bool_decide_eq_true_1 in Haw. apply bool_decide_eq_false_2.
      rewrite Haw. intros [= ->]. by apply He1.
  - apply resumeAll_keeps.
    + by destruct (wiredError_pool a0 st) as (-> & _).
    + unfold awaits in *. destruct (suspended r); [|done].
      apply bool_decide_eq_true_1 in Haw. apply bool_decide_eq_false_2.
      rewrite Haw. intros [= ->]. by apply He2.
  - destruct (isPaused a0 st); [done|]. by unfold setCurrentTime.
Qed.

(** The end of a clip that is not the last, seen from its run: the one
    call made is sleep(1000), and the run waits for the timer. *)
Lemma afterPlayOne_sleeps r st :
  token (lessonPlayback st) = runToken r →
  (S (index r) < length (urls r))%nat →
  (afterPlayOne r st).1 = log (CallSleep 1000) st
  ∧ ∃ r', (afterPlayOne r st).2 = Suspended r'
      ∧ suspended r' = AwaitSleep ∧ index r' = index r.
Proof.
  intros Ht Hi. unfold afterPlayOne. cbv zeta. cbn [urls step_to].
  rewrite bool_decide_eq_true_2 by done.
  rewrite bool_decide_eq_false_2 by (intros H; by apply H).
  split; [done|]. by eexists.
Qed.

(** The end of the last clip: no call of sleep. *)
Lemma afterPlayOne_last r st :
  ¬ (S (index r) < length (urls r))%nat →
  trace (afterPlayOne r st).1 = trace st
  ∧ ∃ r', (afterPlayOne r st).2 = Returned r'.
Proof.
  intros Hi. unfold afterPlayOne. cbv zeta. cbn [urls step_to].
  rewrite bool_decide_eq_false_2 by done.
  unfold playLessonInOrder. cbn [urls step_to].
  rewrite (proj2 (lookup_ge_None (urls r) (S (index r)))) by lia.
  split; [done|]. by eexists.
Qed.

(** The timer of a sleeping run whose token is current: the next clip is
    started, after the pause of whatever sounds. *)
Lemma timer_starts_next k r u st :
  runs st !! k = Some r → suspended r = AwaitSleep →
  urls r !! S (index r) = Some u →
  token (lessonPlayback st) = runToken r →
  trace (step (TimerFired k) st) = trace st ++ stopCalls st ++ [CallPlay u]
  ∧ ∃ r', runs (step (TimerFired k) st) !! k = Some r'
      ∧ suspended r' = AwaitPlayOne false ∧ index r' = S (index r).
Proof.
  intros Hk Hs Hu Ht. cbn [step]. rewrite Hk, Hs. unfold resumeAt. rewrite Hk.
  unfold afterSleep, playLessonInOrder. cbn [urls step_to runToken].
  rewrite Hu. rewrite bool_decide_eq_false_2 by (intros H; by apply H).
  fields. rewrite playOne_trace, playOne_runs. split; [done|].
  eexists. split; [apply list_lookup_insert_eq; by eapply lookup_lt_Some|done].
Qed.

End SleepingFacts.

Section DelayCallFacts.

Lemma sleeps_elem ms (t : list MediaCall) : ms ∈ sleeps t → CallSleep ms ∈ t.
Proof.
  unfold sleeps. rewrite list_elem_of_omap. intros (c & Hc & Hm).
  destruct c; try done. by injection Hm as ->.
Qed.

Lemma delaysOf_last (r : Run) i ms :
  last (history r) = Some (StartDelay i ms) → delaysOf r ≠ [].
Proof.
  unfold delaysOf. intros Hl Hnil.
  assert (StartDelay i ms ∈ history r) as Hin.
  { rewrite last_lookup in Hl. by eapply list_elem_of_lookup_2. }
  assert (ms ∈ omap (λ s, match s with StartDelay _ ms => Some ms | _ => None end)
                 (history r)) as Hm.
  { apply list_elem_of_omap. by exists (StartDelay i ms). }
  rewrite Hnil in Hm. by apply elem_of_nil in Hm.
Qed.

Lemma delaysIn_elem (r : Run) rs : r ∈ rs → (length (delaysOf r) ≤ delaysIn rs)%nat.
Proof.
  induction rs as [|r0 rs IH]; [by intros ?%elem_of_nil|].
  rewrite delaysIn_cons. intros [->|Hin]%elem_of_cons; [lia|].
  specialize (IH Hin). lia.
Qed.

(** A run suspended in sleep has called sleep(1000). *)
Lemma sleeping_called (st : State) (r : Run) :
  sleepsAccounted st → onTrack r → r ∈ runs st → suspended r = AwaitSleep →
  last (history r) = Some (StartDelay (index r) 1000)
  ∧ CallSleep 1000 ∈ trace st.
Proof.
  intros [Hn Ha] Hr Hin Hs.
  pose proof (onTrack_sleepingByCall r Hr Hs) as Hl. split; [done|].
  pose proof (delaysOf_last r _ _ Hl) as Hne.
  pose proof (delaysIn_elem r (runs st) Hin) as Hle.
  destruct (sleeps (trace st)) as [|ms l] eqn:E.
  { simpl in Hn. destruct (delaysOf r); [done|]. simpl in Hle. lia. }
  apply Forall_cons in Ha as [-> _]. apply sleeps_elem. rewrite E. left.
Qed.

End DelayCallFacts.

(** C2. Under any sequence of events, the steps of every run - the clips
    it started, the completion signals and the delays it waited for - are
    an initial part of the canonical order of its list: clip 0, its end, a
    delay of 1000 ms, its expiry, clip 1, ... with no delay after the last
    clip.  The delays are real calls: in every reachable state the calls of
    sleep are as many as the delays the runs went into and each asks for
    1000 ms; a run suspended in sleep has made its call of sleep(1000) and
    stays as it is under every event but a timer; a run waiting for a clip
    stays as it is under every event but "ended" or "error" on the audio of
    that clip and the settling of a play().  At the end of a clip
    that is not the last, a run whose token is current calls sleep(1000)
    and nothing else, and waits; at the end of the last clip it calls no
    sleep and returns; and the timer of a sleeping run is what starts the
    next clip, by play() on the next address.  So clip i+1 is started only
    after the end of clip i and the delay after it.  A run started in an
    idle state over a non-empty list and left undisturbed makes exactly the
    calls play(u0), sleep(1000), play(u1), ..., play(u_last), in this
    order.  And when the token differs from the run's token at a check
    point (top of an iteration, after a clip, after the delay), the loop
    returns with the state untouched, hence without starting a clip, and
    the listener's finally does nothing. *)
Theorem lesson_run_in_order :
  (∀ es r, r ∈ runs (exec es init) ++ finished (exec es init) →
     history r `prefix_of` canonFrom 0 (urls r))
  ∧ (∀ es,
       let st := exec es init in
       length (sleeps (trace st))
       = (delaysIn (runs st) + delaysIn (finished st))%nat
       ∧ Forall (λ ms, ms = 1000) (sleeps (trace st))
       ∧ (∀ r, r ∈ runs st → suspended r = AwaitSleep →
            last (history r) = Some (StartDelay (index r) 1000)
            ∧ CallSleep 1000 ∈ trace st
            ∧ ∀ e, (∀ k, e ≠ TimerFired k) → r ∈ runs (step e st))
       ∧ (∀ r a e, r ∈ runs st → awaits a r = true →
            e ≠ MediaEnded a → e ≠ MediaError a →
            (∀ k ok, e ≠ RunPlaySettled k ok) → r ∈ runs (step e st)))
  ∧ (∀ r st,
       token (lessonPlayback st) = runToken r →
       ((S (index r) < length (urls r))%nat →
          (afterPlayOne r st).1 = log (CallSleep 1000) st
          ∧ ∃ r', (afterPlayOne r st).2 = Suspended r'
              ∧ suspended r' = AwaitSleep ∧ index r' = index r)
       ∧ (¬ (S (index r) < length (urls r))%nat →
          trace (afterPlayOne r st).1 = trace st
          ∧ ∃ r', (afterPlayOne r st).2 = Returned r')
       ∧ (∀ k u, runs st !! k = Some r → suspended r = AwaitSleep →
            urls r !! S (index r) = Some u →
            trace (step (TimerFired k) st)
            = trace st ++ stopCalls st ++ [CallPlay u]
            ∧ ∃ r', runs (step (TimerFired k) st) !! k = Some r'
                ∧ suspended r' = AwaitPlayOne false
                ∧ index r' = S (index r)))
  ∧ (∀ st b us ref,
       lessonClick st !! b = Some (us, ref) → us ≠ [] →
       running (lessonPlayback st) = false →
       token (lessonPlayback st) < 2 ^ 53 → runs st = [] →
       let st' := exec (ClickLesson b :: naturalEvents us) st in
       ∃ r, finished st' = finished st ++ [r] ∧ urls r = us
         ∧ runToken r = token (lessonPlayback st) + 1
         ∧ history r = canonFrom 0 us
         ∧ schedule (trace st') = schedule (trace st) ++ canonCalls us
         ∧ plays (trace st') = plays (trace st) ++ us
         ∧ runs st' = []
         ∧ running (lessonPlayback st') = false)
  ∧ (∀ r st,
       token (lessonPlayback st) ≠ runToken r →
       (∀ i, playLessonInOrder r i st = (st, Returned r))
       ∧ afterPlayOne r st
         = (st, Returned (step_to r (index r) (suspended r) [ClipEnded (index r)]))
       ∧ afterSleep r st
         = (st, Returned (step_to r (index r) (suspended r) [DelayOver (index r)]))
       ∧ finishRun r st = set_finished (λ l, l ++ [r]) st).
Proof.
  split_and!.
  - intros es r Hr. destruct (exec_inOrder es) as [Hp Hf].
    apply elem_of_app in Hr as [Hr|Hr].
    + apply onTrack_inOrder. revert r Hr. by apply Forall_forall.
    + revert r Hr. by apply Forall_forall.
  - intros es st.
    assert (sleepsAccounted st) as Hacc
      by apply exec_accounted, init_accounted.
    split_and!; [apply Hacc..| |].
    + intros r Hin Hs. destruct (exec_inOrder es) as [Hp _].
      rewrite Forall_forall in Hp.
      destruct (sleeping_called st r Hacc (Hp r Hin) Hin Hs) as [Hl Hc].
      split_and!; [done..|]. intros e He. by apply sleeping_stays.
    + intros r a e Hin Haw He1 He2 He3. by apply (awaiting_stays e st r a).
  - intros r st Ht. split_and!.
    + by apply afterPlayOne_sleeps.
    + by apply afterPlayOne_last.
    + intros k u Hk Hs Hu. by apply (timer_starts_next k r u st).
  - intros st b us ref Hb Hne Hrun Htok Hruns.
    destruct (full_run st b us ref Hb Hne Hrun Htok Hruns)
      as (r & ? & ? & ? & ? & Hsch & ? & ? & _).
    exists r. split_and!; try done.
    rewrite <- (plays_schedule (trace _)), Hsch, plays_app, plays_schedule.
    by rewrite plays_canonCalls.
  - intros r st Hne. repeat split.
    + intros i. by apply playLessonInOrder_stale.
    + by apply afterPlayOne_stale.
    + by apply afterSleep_stale.
    + by apply finishRun_stale.
Qed.

Lemma lesson_run_in_order_witness :
  ∃ r, finished (exec (ClickLesson 2 :: naturalEvents demoUrls) demoState) = [r]
    ∧ history r = canonFrom 0 demoUrls
    ∧ schedule (trace (exec (ClickLesson 2 :: naturalEvents demoUrls) demoState))
      = [CallPlay (Some (str "Audio/English/Hi..m4a")); CallSleep 1000;
         CallPlay (Some (str "Audio/English/Go..m4a"))].
Proof.
  destruct (proj1 (proj2 (proj2 (proj2 lesson_run_in_order)))
              demoState 2%nat demoUrls 1)
    as (r & Hf & _ & _ & Hh & Hp & _).
  - vm_compute. reflexivity.
  - discriminate.
  - vm_compute. reflexivity.
  - vm_compute. reflexivity.
  - vm_compute. reflexivity.
  - exists r. split; [exact Hf|]. split; [exact Hh|exact Hp].
Defined.

(** ** Render tokens *)

Section RenderTokenFacts.

Implicit Types st : State.
Implicit Types r : Run.

Ltac rt_same :=
  intros; repeat match goal with x := _ |- _ => subst x end;
  unfold onSentenceChecked, onLessonChecked, attachAudioButton,
    onSentenceClick, onPlaySettled, wiredEnded, wiredError, offerLessonButton,
    playLessonInOrder, afterPlayOne, afterSleep, afterReject, finishRun,
    playOne, setMissing, setWired, setCurrentTime, play, getOrCreateAudio;
  repeat (fields; rewrite ?stopLessonPlayback_renderToken,
            ?stopCurrentAudio_renderToken;
          match goal with
          | |- context [match ?o with Some _ => _ | None => _ end] => destruct o
          | |- context [match ?o with [] => _ | _ :: _ => _ end] => destruct o
          | |- context [if ?b then _ else _] => destruct b
          | |- context [let '(_, _) := ?p in _] => destruct p
          end);
  fields; rewrite ?stopLessonPlayback_renderToken,
    ?stopCurrentAudio_renderToken; fields; reflexivity.

Lemma onSentenceChecked_renderToken myToken i exists_ st :
  renderToken (onSentenceChecked myToken i exists_ st) = renderToken st.
Proof. rt_same. Qed.

Lemma onLessonChecked_renderToken myToken results st :
  renderToken (onLessonChecked myToken results st) = renderToken st.
Proof. rt_same. Qed.

Lemma onSentenceClick_renderToken playBtn a st :
  renderToken (onSentenceClick playBtn a st) = renderToken st.
Proof. rt_same. Qed.

Lemma onPlaySettled_renderToken a ok st :
  renderToken (onPlaySettled a ok st) = renderToken st.
Proof. rt_same. Qed.

Lemma wiredEnded_renderToken a st : renderToken (wiredEnded a st) = renderToken st.
Proof. rt_same. Qed.

Lemma wiredError_renderToken a st : renderToken (wiredError a st) = renderToken st.
Proof. rt_same. Qed.

Lemma finishRun_renderToken r st : renderToken (finishRun r st) = renderToken st.
Proof. rt_same. Qed.

Lemma playOne_renderToken url sb st :
  renderToken (playOne url sb st) = renderToken st.
Proof. rt_same. Qed.

Lemma playLessonInOrder_renderToken r i st :
  renderToken (playLessonInOrder r i st).1 = renderToken st.
Proof.
  unfold playLessonInOrder. destruct (urls r !! i); [|done].
  case_bool_decide; [done|]. cbn [fst]. apply playOne_renderToken.
Qed.

Lemma afterPlayOne_renderToken r st :
  renderToken (afterPlayOne r st).1 = renderToken st.
Proof.
  unfold afterPlayOne. cbv zeta. case_bool_decide.
  - by case_bool_decide.
  - apply playLessonInOrder_renderToken.
Qed.

Lemma afterSleep_renderToken r st :
  renderToken (afterSleep r st).1 = renderToken st.
Proof. apply playLessonInOrder_renderToken. Qed.

Lemma onLessonClick_renderToken b us ref st :
  renderToken (onLessonClick b us ref st) = renderToken st.
Proof.
  unfold onLessonClick. destruct (running _).
  { apply stopLessonPlayback_renderToken. }
  match goal with |- context [playLessonInOrder ?r 0%nat ?s] =>
    pose proof (playLessonInOrder_renderToken r 0%nat s) as H;
    destruct (playLessonInOrder r 0%nat s) as [st1 [r'|r']] end;
    cbn [fst] in H; fields_in H.
  - by fields.
  - by rewrite finishRun_renderToken.
Qed.

Section Resume.

Variable f : Run → State → State * Outcome.
Hypothesis f_renderToken : ∀ r st, renderToken (f r st).1 = renderToken st.

Lemma dispatch_renderToken sel : ∀ rs st,
  renderToken (dispatch f sel rs st).1 = renderToken st.
Proof.
  induction rs as [|r rs IH]; intros st; [done|]. cbn [dispatch].
  destruct (sel r).
  - pose proof (f_renderToken r st) as Hf.
    destruct (f r st) as [st1 [r'|r']]; cbn [fst] in Hf.
    + specialize (IH st1). destruct (dispatch f sel rs st1). simpl in *.
      congruence.
    + rewrite IH, finishRun_renderToken. done.
  - specialize (IH st). by destruct (dispatch f sel rs st).
Qed.

Lemma resumeAll_renderToken sel st :
  renderToken (resumeAll f sel st) = renderToken st.
Proof.
  unfold resumeAll. pose proof (dispatch_renderToken sel (runs st) st) as H.
  by destruct (dispatch f sel (runs st) st).
Qed.

Lemma resumeAt_renderToken k st :
  renderToken (resumeAt k f st) = renderToken st.
Proof.
  unfold resumeAt. destruct (runs st !! k) as [r|]; [|done].
  pose proof (f_renderToken r st) as Hf.
  destruct (f r st) as [st1 [r'|r']]; cbn [fst] in Hf; [done|].
  by rewrite finishRun_renderToken.
Qed.

End Resume.

Lemma render_renderToken view st :
  renderToken (render view st) = incr (renderToken st).
Proof.
  unfold render. destruct view as [[language sentences]|]; [|done].
  by destruct (collectUrls language sentences).
Qed.

(** Only render moves the render token, and only upwards. *)
Lemma step_renderToken e st :
  renderToken (step e st)
  = match e with
    | Navigate _ => incr (renderToken st)
    | _ => renderToken st
    end.
Proof.
  destruct e; cbn [step].
  - by rewrite render_renderToken, stopLessonPlayback_renderToken.
  - apply onSentenceChecked_renderToken.
  - apply onLessonChecked_renderToken.
  - destruct (clickAudio st !! playBtn); [|done].
    apply onSentenceClick_renderToken.
  - destruct (lessonClick st !! b) as [[us ref]|]; [|done].
    apply onLessonClick_renderToken.
  - destruct (pendingPlays st !! k); [|done].
    by rewrite onPlaySettled_renderToken.
  - destruct (runs st !! k) as [r|]; [|done].
    destruct (suspended r) as [[|]|]; [done| |done].
    destruct ok; [done|]. by apply resumeAt_renderToken.
  - destruct (runs st !! k) as [r|]; [|done].
    destruct (suspended r); [done|].
    apply resumeAt_renderToken, afterSleep_renderToken.
  - rewrite resumeAll_renderToken by apply afterPlayOne_renderToken.
    by rewrite wiredEnded_renderToken.
  - rewrite resumeAll_renderToken by done. apply wiredError_renderToken.
  - destruct (isPaused a st); [done|]. by unfold setCurrentTime.
Qed.

Lemma exec_renderToken_ge es : ∀ st, renderToken st ≤ renderToken (exec es st).
Proof.
  induction es as [|e es IH]; intros st; [done|]. simpl.
  etrans; [|apply IH]. rewrite step_renderToken.
  destruct e; try done. apply incr_ge.
Qed.

Lemma onSentenceChecked_stale myToken i exists_ st :
  renderToken st ≠ myToken → onSentenceChecked myToken i exists_ st = st.
Proof.
  intros Hne. unfold onSentenceChecked.
  destruct (renders st !! myToken) as [r|]; [|done].
  destruct (r_sentences r !! i) as [[|c s]|]; [done| |done].
  destruct (sentenceUrls r !! i); [|done].
  by rewrite bool_decide_eq_true_2.
Qed.

Lemma onLessonChecked_stale myToken results st :
  renderToken st ≠ myToken → onLessonChecked myToken results st = st.
Proof.
  intros Hne. unfold onLessonChecked, lessonGate.
  destruct (renders st !! myToken) as [r|]; [|done].
  rewrite (bool_decide_eq_false_2 (renderToken st = myToken)) by done.
  by rewrite andb_false_r, andb_false_l, andb_false_r.
Qed.

End RenderTokenFacts.

(** The render token does what it is for: once render has run again, the
    callbacks of every earlier render - the existence check of a line, the
    check before the lesson button - change nothing, then and after any
    further events (with the token below 2^53); no button of a lesson that
    is no longer shown is made. *)
Theorem stale_render_callbacks (st : State)
    (view : option (jsstring * list jsstring)) (es : list Event) (myToken : Z) :
  renderToken st < 2 ^ 53 →
  myToken ≤ renderToken st →
  let st' := exec es (step (Navigate view) st) in
  renderToken st < renderToken st'
  ∧ (∀ i exists_, step (SentenceChecked myToken i exists_) st' = st')
  ∧ (∀ results, step (LessonChecked myToken results) st' = st').
Proof.
  intros Hlt Hle st'.
  assert (renderToken st < renderToken st') as Hgt.
  { subst st'. eapply Z.lt_le_trans; [|apply exec_renderToken_ge].
    rewrite step_renderToken, incr_exact by done. lia. }
  split_and!; [done| |].
  - intros i ex. cbn [step]. apply onSentenceChecked_stale. lia.
  - intros results. cbn [step]. apply onLessonChecked_stale. lia.
Qed.

Lemma stale_render_callbacks_witness :
  let st' := step (Navigate (Some (str "English", [str "Go."]))) demoState in
  step (SentenceChecked 1 0 true) st' = st'
  ∧ step (LessonChecked 1 [true; true]) st' = st'.
Proof.
  destruct (stale_render_callbacks demoState
              (Some (str "English", [str "Go."])) [] 1) as (_ & H1 & H2).
  - vm_compute. reflexivity.
  - vm_compute. discriminate.
  - split; [apply (H1 0%nat true)|apply (H2 [true; true])].
Defined.

(** ** Preferences, navigation and start-up *)

Section UiFacts.

Import Ui.

Implicit Types m : Model.
Implicit Types p : Page.
Implicit Types s : Storage.

Lemma storage_keys_distinct :
  STORAGE_lesson ≠ STORAGE_lang ∧ STORAGE_lesson ≠ STORAGE_helperLang
  ∧ STORAGE_lang ≠ STORAGE_helperLang.
Proof. split_and!; by apply (bool_decide_unpack _). Qed.

Lemma persistPreferences_lesson m s :
  persistPreferences m s !! STORAGE_lesson = Some (orEmpty (currentLessonId m)).
Proof.
  destruct storage_keys_distinct as (H1 & H2 & H3). unfold persistPreferences.
  destruct (helperLanguage m) as [[|c h]|].
  - rewrite lookup_delete_ne by done.
    rewrite lookup_insert_ne by done. apply lookup_insert_eq.
  - rewrite lookup_insert_ne by done.
    rewrite lookup_insert_ne by done. apply lookup_insert_eq.
  - rewrite lookup_delete_ne by done.
    rewrite lookup_insert_ne by done. apply lookup_insert_eq.
Qed.

Lemma persistPreferences_lang m s :
  persistPreferences m s !! STORAGE_lang = Some (orEmpty (currentLanguage m)).
Proof.
  destruct storage_keys_distinct as (H1 & H2 & H3). unfold persistPreferences.
  destruct (helperLanguage m) as [[|c h]|].
  - rewrite lookup_delete_ne by done. apply lookup_insert_eq.
  - rewrite lookup_insert_ne by done. apply lookup_insert_eq.
  - rewrite lookup_delete_ne by done. apply lookup_insert_eq.
Qed.

Lemma persistPreferences_helperLang m s :
  persistPreferences m s !! STORAGE_helperLang = orNull (helperLanguage m).
Proof.
  unfold persistPreferences.
  destruct (helperLanguage m) as [[|c h]|]; simpl.
  - apply lookup_delete_eq.
  - apply lookup_insert_eq.
  - apply lookup_delete_eq.
Qed.

Lemma persistPreferences_other m s k :
  k ≠ STORAGE_lesson → k ≠ STORAGE_lang → k ≠ STORAGE_helperLang →
  persistPreferences m s !! k = s !! k.
Proof.
  intros H1 H2 H3. unfold persistPreferences.
  destruct (helperLanguage m) as [[|c h]|];
    rewrite ?lookup_delete_ne, ?lookup_insert_ne by done; done.
Qed.

Lemma orNull_orEmpty v : orNull (Some (orEmpty v)) = orNull v.
Proof. by destruct v as [[|c x]|]. Qed.

Lemma orNull_idemp v : orNull (orNull v) = orNull v.
Proof. by destruct v as [[|c x]|]. Qed.

Lemma hydrate_persist m m0 s :
  preferences (hydratePreferences (persistPreferences m s) m0)
  = (orNull (currentLessonId m), orNull (currentLanguage m),
     orNull (helperLanguage m)).
Proof.
  unfold hydratePreferences, preferences. simpl.
  rewrite persistPreferences_lesson, persistPreferences_lang,
    persistPreferences_helperLang.
  by rewrite !orNull_orEmpty, orNull_idemp.
Qed.

End UiFacts.

(** persistPreferences and hydratePreferences: what one stores the other
    reads back, with an empty string read as no preference; the other keys
    of the store are not touched, and storing twice is storing once. *)
Theorem preferences_round_trip (m m0 : Model) (s : Ui.Storage) :
  Ui.preferences (Ui.hydratePreferences (Ui.persistPreferences m s) m0)
  = (Ui.orNull (currentLessonId m), Ui.orNull (currentLanguage m),
     Ui.orNull (helperLanguage m))
  ∧ (∀ k, k ∉ [Ui.STORAGE_lesson; Ui.STORAGE_lang; Ui.STORAGE_helperLang] →
          Ui.persistPreferences m s !! k = s !! k)
  ∧ Ui.persistPreferences m (Ui.persistPreferences m s)
    = Ui.persistPreferences m s
  ∧ lessons (Ui.hydratePreferences s m0) = lessons m0
  ∧ lessonIds (Ui.hydratePreferences s m0) = lessonIds m0
  ∧ languages (Ui.hydratePreferences s m0) = languages m0.
Proof.
  split_and!; try done.
  - apply hydrate_persist.
  - intros k Hk. apply persistPreferences_other; intros ->; apply Hk.
    + apply list_elem_of_here.
    + apply list_elem_of_further, list_elem_of_here.
    + do 2 apply list_elem_of_further. apply list_elem_of_here.
  - apply map_eq. intros k.
    destruct (decide (k = Ui.STORAGE_lesson)) as [->|H1].
    { by rewrite !persistPreferences_lesson. }
    destruct (decide (k = Ui.STORAGE_lang)) as [->|H2].
    { by rewrite !persistPreferences_lang. }
    destruct (decide (k = Ui.STORAGE_helperLang)) as [->|H3].
    { by rewrite !persistPreferences_helperLang. }
    by rewrite !persistPreferences_other.
Qed.

Section StartFacts.

Import Ui.

Implicit Types m : Model.
Implicit Types p : Page.

Lemma filter_nil_forall {A} (f : A → bool) (l : list A) :
  List.filter f l = [] ↔ Forall (λ x, f x = false) l.
Proof.
  induction l as [|x l IH]; simpl.
  - split; [constructor|done].
  - destruct (f x) eqn:E.
    + split; [done|]. intros H. apply Forall_cons in H as [H _]. congruence.
    + rewrite IH. split; [by constructor|]. by intros [_ ?]%Forall_cons.
Qed.

Lemma languageColsOf_nil (r : Row) :
  languageColsOf r = []
  ↔ Forall (λ k, k ∈ [str "Lesson"; str "Line"; str "CEFR"]) r.*1.
Proof.
  unfold languageColsOf. rewrite filter_nil_forall.
  change (map fst r) with (r.*1).
  apply Forall_iff. intros k. rewrite negb_false_iff.
  apply bool_decide_eq_true.
Qed.

Lemma languageColsOf_fillRow header values :
  languageColsOf (fillRow header 0 values []) = []
  ↔ Forall (λ k, k ∈ [str "Lesson"; str "Line"; str "CEFR"; str "__proto__"])
      header.
Proof.
  rewrite languageColsOf_nil, !Forall_forall. split.
  - intros H k Hk. destruct (decide (k = str "__proto__")) as [->|Hp].
    + do 3 apply list_elem_of_further. apply list_elem_of_here.
    + assert (k ∈ (fillRow header 0 values []).*1) as Hin.
      { apply fillRow_elem. by right. }
      apply H in Hin. rewrite !elem_of_cons in Hin. rewrite !elem_of_cons.
      tauto.
  - intros H k [Hk|[Hk Hp]]%fillRow_elem; [by apply elem_of_nil in Hk|].
    apply H in Hk. rewrite !elem_of_cons in Hk. rewrite !elem_of_cons.
    rewrite elem_of_nil in *. tauto.
Qed.

End StartFacts.

(** init, once the CSV text is there: with fewer than two lines that are
    not blank it shows "CSV contains no rows."; when every field of the
    first line is Lesson, Line, CEFR or __proto__ it shows "No language
    columns found"; in both cases the model, the stored preferences and the
    player stay as they were.  Otherwise the model is built, its
    preferences are stored, and an error is shown only if render raises a
    URIError. *)
Theorem init_failures (localeCompare : jsstring → jsstring → Z)
    (text : jsstring) (p : Ui.Page) :
  let p' := Ui.init_loaded localeCompare (Ui.FetchedText text) p in
  match linesOf text with
  | [] | [_] => p' = Ui.showError (Ui.Raised "CSV contains no rows.") p
  | line0 :: _ :: _ =>
      if bool_decide
           (Forall (λ k, k ∈ [str "Lesson"; str "Line"; str "CEFR";
                              str "__proto__"]) (parseCSVLine line0))
      then p' = Ui.showError
                  (Ui.Raised "No language columns found (expected columns besides Lesson/Line/CEFR).")
                  p
      else ∃ m, buildModel localeCompare (parseCSV text) (Ui.model p) = Built m
             ∧ Ui.model p' = m
             ∧ Ui.localStorage p' = Ui.persistPreferences m (Ui.localStorage p)
             ∧ Ui.errorShown p'
               = if Ui.renderRaises m then Some Ui.URIError else Ui.errorShown p
  end.
Proof.
  intros p'. subst p'. unfold Ui.init_loaded.
  destruct (linesOf text) as [|line0 [|line1 rest]] eqn:El.
  - unfold parseCSV. by rewrite El.
  - rewrite (parseCSV_fmap _ _ _ El). done.
  - rewrite (parseCSV_fmap _ _ _ El). rewrite !fmap_cons.
    set (row0 := fillRow (parseCSVLine line0) 0 (parseCSVLine line1) []).
    set (rows := row0 :: _).
    pose proof (languageColsOf_fillRow (parseCSVLine line0) (parseCSVLine line1))
      as Hcols. fold row0 in Hcols.
    case_bool_decide as Hall.
    + apply Hcols in Hall. unfold buildModel, rows. by rewrite Hall.
    + assert (languageColsOf row0 ≠ []) as Hne by (by rewrite Hcols).
      unfold buildModel, rows. fold rows.
      destruct (languageColsOf row0) as [|c cols] eqn:Ec; [done|].
      eexists. split; [done|].
      cbv zeta. unfold Ui.initializeUIFromModel. cbn [Ui.model Ui.localStorage
        Ui.prevDisabled Ui.nextDisabled Ui.player Ui.errorShown].
      match goal with |- context [Ui.renderPage ?q] => set (q0 := q) end.
      assert (Ui.model (Ui.renderPage q0) = Ui.model q0
              ∧ Ui.localStorage (Ui.renderPage q0) = Ui.localStorage q0
              ∧ Ui.errorShown (Ui.renderPage q0) = Ui.errorShown q0) as (Hm & Hs & He).
      { unfold Ui.renderPage. by destruct (Ui.currentLesson _). }
      rewrite Hm. destruct (Ui.renderRaises _); simpl; by rewrite ?Hm, ?Hs, ?He.
Qed.

Section NavigationFacts.

Import Ui.

Implicit Types m : Model.
Implicit Types p : Page.

Lemma indexOf_from_lookup (l : list jsstring) x : ∀ i k,
  NoDup l → l !! i = Some x → indexOf_from l x k = k + Z.of_nat i.
Proof.
  induction l as [|y l IH]; intros i k Hnd Hi; [done|].
  apply NoDup_cons in Hnd as [Hy Hnd]. destruct i as [|i]; simpl in *.
  - injection Hi as ->. rewrite bool_decide_eq_true_2 by done. lia.
  - rewrite bool_decide_eq_false_2.
    + rewrite (IH i) by done. lia.
    + intros ->. apply Hy. by eapply list_elem_of_lookup_2.
Qed.

Lemma indexOf_lookup (l : list jsstring) x i :
  NoDup l → l !! i = Some x → indexOf l (Some x) = Z.of_nat i.
Proof. intros Hnd Hi. simpl. by rewrite (indexOf_from_lookup l x i 0). Qed.

Lemma indexOf_from_absent (l : list jsstring) x : ∀ k,
  x ∉ l → indexOf_from l x k = -1.
Proof.
  induction l as [|y l IH]; intros k Hx; [done|].
  apply not_elem_of_cons in Hx as [Hy Hx]. simpl.
  rewrite bool_decide_eq_false_2 by done. by apply IH.
Qed.

Lemma currentLesson_found m id :
  lessonId <$> lessons m = lessonIds m → currentLessonId m = Some id →
  id ∈ lessonIds m → is_Some (currentLesson m).
Proof.
  intros Hl Hc Hin. unfold currentLesson. rewrite Hc, <- Hl in *. clear Hl Hc.
  induction (lessons m) as [|l ls IH]; [by apply elem_of_nil in Hin|].
  simpl. rewrite fmap_cons in Hin. case_bool_decide as Hl; [by eexists|].
  apply IH. apply elem_of_cons in Hin as [->|?]; [done|done].
Qed.

Lemma render_model p :
  model (renderPage p) = model p ∧ localStorage (renderPage p) = localStorage p
  ∧ errorShown (renderPage p) = errorShown p
  ∧ player (renderPage p) = Player.render (viewOf (model p)) (player p).
Proof. unfold renderPage. by destruct (currentLesson _). Qed.

Lemma commit_model m p :
  model (commit m p) = m
  ∧ localStorage (commit m p) = persistPreferences m (localStorage p)
  ∧ errorShown (commit m p) = errorShown p
  ∧ player (commit m p) = Player.step (Navigate (viewOf m)) (player p).
Proof.
  unfold commit.
  match goal with |- context [renderPage ?q] =>
    destruct (render_model q) as (-> & -> & -> & ->) end.
  done.
Qed.

(** What render does to the two buttons when the current lesson is the
    [i]-th of the list. *)
Lemma render_buttons p i id :
  NoDup (lessonIds (model p)) →
  lessonId <$> lessons (model p) = lessonIds (model p) →
  lessonIds (model p) !! i = Some id → currentLessonId (model p) = Some id →
  prevDisabled (renderPage p) = bool_decide (i = 0%nat)
  ∧ nextDisabled (renderPage p)
    = bool_decide (S i = length (lessonIds (model p))).
Proof.
  intros Hnd Hl Hi Hc. unfold renderPage.
  destruct (currentLesson_found (model p) id) as [l ->]; [done..| |].
  { by eapply list_elem_of_lookup_2. }
  cbn [prevDisabled nextDisabled]. rewrite Hc, (indexOf_lookup _ id i) by done.
  apply lookup_lt_Some in Hi. split.
  - destruct (Z.leb_spec (Z.of_nat i) 0); case_bool_decide; lia.
  - destruct (Z.leb_spec (Z.of_nat (length (lessonIds (model p))) - 1)
                (Z.of_nat i)); case_bool_decide; lia.
Qed.

Lemma onNextLessonClick_moves p i id id' :
  NoDup (lessonIds (model p)) →
  lessonIds (model p) !! i = Some id → currentLessonId (model p) = Some id →
  lessonIds (model p) !! S i = Some id' →
  onNextLessonClick p = commit (set_currentLessonId (Some id') (model p)) p.
Proof.
  intros Hnd Hi Hc Hi'. unfold onNextLessonClick.
  rewrite Hc, (indexOf_lookup _ id i) by done.
  apply lookup_lt_Some in Hi' as Hlt.
  replace (Z.to_nat (Z.of_nat i + 1)) with (S i) by lia. rewrite Hi'.
  destruct (Z.leb_spec 0 (Z.of_nat i)); [|lia].
  destruct (Z.ltb_spec (Z.of_nat i)
              (Z.of_nat (length (lessonIds (model p))) - 1)); [done|lia].
Qed.

Lemma onNextLessonClick_last p i id :
  NoDup (lessonIds (model p)) →
  lessonIds (model p) !! i = Some id → currentLessonId (model p) = Some id →
  S i = length (lessonIds (model p)) →
  onNextLessonClick p = p.
Proof.
  intros Hnd Hi Hc Hn. unfold onNextLessonClick.
  rewrite Hc, (indexOf_lookup _ id i) by done.
  destruct (Z.ltb_spec (Z.of_nat i)
              (Z.of_nat (length (lessonIds (model p))) - 1)); [lia|].
  by rewrite andb_false_r.
Qed.

Lemma onPrevLessonClick_moves p i id id' :
  NoDup (lessonIds (model p)) →
  lessonIds (model p) !! S i = Some id → currentLessonId (model p) = Some id →
  lessonIds (model p) !! i = Some id' →
  onPrevLessonClick p = commit (set_currentLessonId (Some id') (model p)) p.
Proof.
  intros Hnd Hi Hc Hi'. unfold onPrevLessonClick.
  rewrite Hc, (indexOf_lookup _ id (S i)) by done.
  replace (Z.to_nat (Z.of_nat (S i) - 1)) with i by lia. rewrite Hi'.
  destruct (Z.ltb_spec 0 (Z.of_nat (S i))); [done|lia].
Qed.

Lemma onPrevLessonClick_first p id :
  NoDup (lessonIds (model p)) →
  lessonIds (model p) !! 0%nat = Some id → currentLessonId (model p) = Some id →
  onPrevLessonClick p = p.
Proof.
  intros Hnd Hi Hc. unfold onPrevLessonClick.
  by rewrite Hc, (indexOf_lookup _ id 0%nat) by done.
Qed.

End NavigationFacts.

(** The two lesson buttons and the arrow keys, on a page whose current
    lesson is the [i]-th of the distinct lessons of its model.  render
    disables Previous exactly at the first lesson and Next exactly at the
    last, where a click or the key changes nothing.  Elsewhere Next makes
    the following lesson current and stores it, Previous the preceding one,
    and each undoes the other. *)
Theorem lesson_buttons (p : Ui.Page) (i : nat) (id : jsstring) :
  NoDup (lessonIds (Ui.model p)) →
  lessonId <$> lessons (Ui.model p) = lessonIds (Ui.model p) →
  lessonIds (Ui.model p) !! i = Some id →
  currentLessonId (Ui.model p) = Some id →
  let ids := lessonIds (Ui.model p) in
  let p1 := Ui.renderPage p in
  Ui.prevDisabled p1 = bool_decide (i = 0%nat)
  ∧ Ui.nextDisabled p1 = bool_decide (S i = length ids)
  ∧ (i = 0%nat →
       Ui.clickPrev p1 = p1 ∧ Ui.onKeyDown (str "ArrowLeft") p1 = p1)
  ∧ (S i = length ids →
       Ui.clickNext p1 = p1 ∧ Ui.onKeyDown (str "ArrowRight") p1 = p1)
  ∧ (∀ id', ids !! S i = Some id' →
       let p2 := Ui.clickNext p1 in
       Ui.onKeyDown (str "ArrowRight") p1 = p2
       ∧ currentLessonId (Ui.model p2) = Some id'
       ∧ Ui.localStorage p2 !! Ui.STORAGE_lesson = Some id'
       ∧ currentLessonId (Ui.model (Ui.clickPrev p2)) = Some id)
  ∧ (∀ i' id', i = S i' → ids !! i' = Some id' →
       let p2 := Ui.clickPrev p1 in
       Ui.onKeyDown (str "ArrowLeft") p1 = p2
       ∧ currentLessonId (Ui.model p2) = Some id'
       ∧ Ui.localStorage p2 !! Ui.STORAGE_lesson = Some id'
       ∧ currentLessonId (Ui.model (Ui.clickNext p2)) = Some id).
Proof.
  intros Hnd Hl Hi Hc ids p1.
  destruct (render_buttons p i id Hnd Hl Hi Hc) as [Hprev Hnext].
  destruct (render_model p) as (Hm & Hs & _).
  fold p1 in Hprev, Hnext, Hm, Hs. fold ids in Hnext.
  assert (Hnd1 : NoDup (lessonIds (Ui.model p1))) by by rewrite Hm.
  assert (Hi1 : lessonIds (Ui.model p1) !! i = Some id) by by rewrite Hm.
  assert (Hc1 : currentLessonId (Ui.model p1) = Some id) by by rewrite Hm.
  split_and!; try done.
  - intros ->. unfold Ui.onKeyDown, Ui.clickPrev. rewrite Hprev. done.
  - intros Hn. unfold Ui.onKeyDown, Ui.clickNext. rewrite Hnext.
    rewrite bool_decide_eq_true_2 by done. simpl. split; [done|].
    by rewrite Hnext, bool_decide_eq_true_2.
  - intros id' Hi' p2. subst p2.
    assert (Ui.clickNext p1
            = Ui.commit (Ui.set_currentLessonId (Some id') (Ui.model p1)) p1)
      as Hnext'.
    { unfold Ui.clickNext. rewrite Hnext.
      apply lookup_lt_Some in Hi' as Hlt.
      rewrite bool_decide_eq_false_2 by (unfold ids in *; lia).
      unfold Ui.onNextLessonClick_placeholder.
      apply (onNextLessonClick_moves p1 i id id'); try done. by rewrite Hm. }
    split_and!.
    + unfold Ui.onKeyDown. by repeat case_bool_decide.
    + rewrite Hnext'. by destruct (commit_model
        (Ui.set_currentLessonId (Some id') (Ui.model p1)) p1) as (-> & _).
    + rewrite Hnext'. destruct (commit_model
        (Ui.set_currentLessonId (Some id') (Ui.model p1)) p1) as (_ & -> & _).
      by rewrite persistPreferences_lesson.
    + rewrite Hnext'. unfold Ui.commit.
      match goal with |- context [Ui.renderPage ?q] => set (q0 := q) end.
      assert (Ui.model q0 = Ui.set_currentLessonId (Some id') (Ui.model p1))
        as Hq0 by done.
      assert (lessonIds (Ui.model q0) = lessonIds (Ui.model p)) as Hids
        by by rewrite Hq0, Hm.
      destruct (render_buttons q0 (S i) id') as [Hprev2 _];
        rewrite ?Hids; try done.
      { by rewrite Hq0, Hm. }
      destruct (render_model q0) as (Hm2 & _).
      unfold Ui.clickPrev. rewrite Hprev2.
      rewrite bool_decide_eq_false_2 by done.
      rewrite (onPrevLessonClick_moves _ i id' id); rewrite ?Hm2, ?Hids; try done.
      by destruct (commit_model
        (Ui.set_currentLessonId (Some id) (Ui.model q0)) (Ui.renderPage q0))
        as (-> & _).
  - intros i' id' -> Hi' p2. subst p2.
    assert (Ui.clickPrev p1
            = Ui.commit (Ui.set_currentLessonId (Some id') (Ui.model p1)) p1)
      as Hprev'.
    { unfold Ui.clickPrev. rewrite Hprev.
      rewrite bool_decide_eq_false_2 by done.
      apply (onPrevLessonClick_moves p1 i' id id'); try done. by rewrite Hm. }
    split_and!.
    + unfold Ui.onKeyDown. by repeat case_bool_decide.
    + rewrite Hprev'. by destruct (commit_model
        (Ui.set_currentLessonId (Some id') (Ui.model p1)) p1) as (-> & _).
    + rewrite Hprev'. destruct (commit_model
        (Ui.set_currentLessonId (Some id') (Ui.model p1)) p1) as (_ & -> & _).
      by rewrite persistPreferences_lesson.
    + rewrite Hprev'. unfold Ui.commit.
      match goal with |- context [Ui.renderPage ?q] => set (q0 := q) end.
      assert (Ui.model q0 = Ui.set_currentLessonId (Some id') (Ui.model p1))
        as Hq0 by done.
      assert (lessonIds (Ui.model q0) = lessonIds (Ui.model p)) as Hids
        by by rewrite Hq0, Hm.
      destruct (render_buttons q0 i' id') as [_ Hnext2];
        rewrite ?Hids; try done.
      { by rewrite Hq0, Hm. }
      destruct (render_model q0) as (Hm2 & _).
      unfold Ui.clickNext. rewrite Hnext2. rewrite Hids.
      apply lookup_lt_Some in Hi as Hlt.
      rewrite bool_decide_eq_false_2 by lia.
      unfold Ui.onNextLessonClick_placeholder.
      rewrite (onNextLessonClick_moves _ i' id' id); rewrite ?Hm2, ?Hids; try done.
      by destruct (commit_model
        (Ui.set_currentLessonId (Some id) (Ui.model q0)) (Ui.renderPage q0))
        as (-> & _).
Qed.

Lemma lesson_buttons_witness :
  let p1 := Ui.renderPage Ui.demoPage in
  Ui.prevDisabled p1 = true ∧ Ui.nextDisabled p1 = false
  ∧ currentLessonId (Ui.model (Ui.clickNext p1)) = Some (str "2")
  ∧ currentLessonId (Ui.model (Ui.clickPrev (Ui.clickNext p1))) = Some (str "1").
Proof.
  destruct (lesson_buttons Ui.demoPage 0 (str "1")) as (H1 & H2 & _ & _ & H3 & _).
  - by apply (bool_decide_unpack _).
  - reflexivity.
  - reflexivity.
  - reflexivity.
  - split; [exact H1|]. split; [exact H2|].
    destruct (H3 (str "2") eq_refl) as (_ & H4 & _ & H5).
    split; [exact H4|exact H5].
Defined.

Section PageFacts.

Import Ui.

Variable localeCompare : jsstring → jsstring → Z.

Implicit Types m : Model.
Implicit Types p : Page.

Lemma indexOf_from_range (l : list jsstring) x : ∀ k,
  indexOf_from l x k = -1
  ∨ (k ≤ indexOf_from l x k < k + Z.of_nat (length l)
     ∧ l !! Z.to_nat (indexOf_from l x k - k) = Some x).
Proof.
  induction l as [|y l IH]; intros k; [by left|].
  cbn [indexOf_from length]. case_bool_decide as Hy.
  - right. subst y. replace (k - k) with 0 by lia. split; [lia|done].
  - destruct (IH (k + 1)) as [->|[Hr Hl]]; [by left|]. right.
    split; [lia|].
    replace (Z.to_nat (indexOf_from l x (k + 1) - k))
      with (S (Z.to_nat (indexOf_from l x (k + 1) - (k + 1)))) by lia.
    done.
Qed.

Lemma indexOf_range (l : list jsstring) v :
  indexOf l v = -1 ∨ 0 ≤ indexOf l v < Z.of_nat (length l).
Proof.
  destruct v as [x|]; [|by left]. simpl.
  destruct (indexOf_from_range l x 0) as [?|[? _]]; [by left|right; lia].
Qed.

Lemma commit_kept m0 m p :
  lessons m = lessons m0 → lessonIds m = lessonIds m0 →
  languages m = languages m0 → settled m → kept m0 (commit m p).
Proof.
  intros H1 H2 H3 H4. unfold kept, stored.
  destruct (commit_model m p) as (-> & -> & _). split_and!; eauto.
Qed.

Lemma lookup_lessonId_settled m k id :
  settled m → lessonIds m !! k = Some id →
  settled (set_currentLessonId (Some id) m).
Proof.
  intros (_ & H2 & H3) Hk. split_and!; [|done|done].
  right. exists id. split; [done|]. by eapply list_elem_of_lookup_2.
Qed.

Lemma onPrevLessonClick_kept m0 p : kept m0 p → kept m0 (onPrevLessonClick p).
Proof.
  intros Hk. unfold onPrevLessonClick.
  destruct (Z.ltb_spec 0 (indexOf (lessonIds (model p)) (currentLessonId (model p))))
    as [Hpos|]; [|done].
  destruct (indexOf_range (lessonIds (model p)) (currentLessonId (model p)))
    as [?|Hr]; [lia|].
  destruct (lookup_lt_is_Some_2 (lessonIds (model p))
              (Z.to_nat (indexOf (lessonIds (model p))
                           (currentLessonId (model p)) - 1))) as [id Hid]; [lia|].
  rewrite Hid. destruct Hk as (H1 & H2 & H3 & H4 & _).
  apply commit_kept; try done. by eapply lookup_lessonId_settled.
Qed.

Lemma onNextLessonClick_kept m0 p : kept m0 p → kept m0 (onNextLessonClick p).
Proof.
  intros Hk. unfold onNextLessonClick.
  destruct (Z.leb_spec 0 (indexOf (lessonIds (model p)) (currentLessonId (model p))))
    as [Hpos|]; [|done].
  destruct (Z.ltb_spec (indexOf (lessonIds (model p)) (currentLessonId (model p)))
              (Z.of_nat (length (lessonIds (model p))) - 1)) as [Hlt|]; [|done].
  simpl.
  destruct (lookup_lt_is_Some_2 (lessonIds (model p))
              (Z.to_nat (indexOf (lessonIds (model p))
                           (currentLessonId (model p)) + 1))) as [id Hid]; [lia|].
  rewrite Hid. destruct Hk as (H1 & H2 & H3 & H4 & _).
  apply commit_kept; try done. by eapply lookup_lessonId_settled.
Qed.

Lemma clickPrev_kept m0 p : kept m0 p → kept m0 (clickPrev p).
Proof.
  intros Hk. unfold clickPrev. destruct (prevDisabled p); [done|].
  by apply onPrevLessonClick_kept.
Qed.

Lemma clickNext_kept m0 p : kept m0 p → kept m0 (clickNext p).
Proof.
  intros Hk. unfold clickNext. destruct (nextDisabled p); [done|].
  by apply onNextLessonClick_kept.
Qed.

Lemma step_kept m0 e p : offered m0 e → kept m0 p → kept m0 (pageStep e p).
Proof.
  intros He Hk. destruct e as [value|value|value| | |key|e]; simpl in He |- *.
  - destruct Hk as (H1 & H2 & H3 & (_ & H42 & H43) & _).
    apply commit_kept; try done. split_and!; [|done|done].
    right. exists value. split; [done|]. simpl. by rewrite H2.
  - destruct Hk as (H1 & H2 & H3 & (H41 & _ & H43) & _).
    unfold onLanguageSelectChange. apply commit_kept.
    1-3: by case_bool_decide.
    case_bool_decide as Heq; simpl in *.
    + split_and!; [done| |by left].
      exists value. split; [done|]. simpl. by rewrite H3.
    + split_and!; [done| |].
      * exists value. split; [done|]. simpl. by rewrite H3.
      * destruct H43 as [?|(h & Hh & Hne & Hin & _)]; [by left|].
        right. exists h. split_and!; try done. by rewrite <- Hh.
  - destruct Hk as (H1 & H2 & H3 & (H41 & H42 & _) & _).
    unfold onHelperLanguageSelectChange. apply commit_kept.
    1-3: by case_bool_decide.
    case_bool_decide as Heq; simpl in *.
    + split_and!; [done|done|by left].
    + split_and!; [done|done|].
      destruct value as [|c v]; [by left|]. right.
      exists (c :: v). simpl. split_and!; try done.
      destruct He as [?|?]; [done|]. by rewrite H3.
  - by apply clickPrev_kept.
  - by apply clickNext_kept.
  - unfold onKeyDown.
    set (p1 := if bool_decide (key = str "ArrowLeft") then clickPrev p else p).
    assert (Ui.kept m0 p1) as Hk1.
    { subst p1. destruct (bool_decide _); [by apply clickPrev_kept|done]. }
    destruct (bool_decide (key = str "ArrowRight"));
      [by apply clickNext_kept|done].
  - destruct e; done.
Qed.

Lemma exec_kept m0 es : ∀ p,
  Forall (offered m0) es → kept m0 p → kept m0 (Ui.pageExec es p).
Proof.
  induction es as [|e es IH]; intros p Hes Hk; [done|].
  apply Forall_cons in Hes as [He Hes]. simpl. apply IH; [done|].
  by apply step_kept.
Qed.

Lemma buildModel_settled rows s m0 :
  buildModel localeCompare rows (hydratePreferences s emptyModel) = Built m0 →
  settled m0.
Proof.
  intros Hb.
  destruct (buildModel_chosen _ _ _ _ Hb) as (H1 & H2 & H3 & H4 & _).
  destruct (buildModel_Built _ _ _ _ Hb) as (row0 & rest & cols & _ & _ & _ & Hm).
  split_and!.
  - destruct (lessonIds m0); [by left|by right].
  - done.
  - destruct (helperLanguage m0) as [h|] eqn:Eh; [|by left]. right.
    exists h. split; [done|].
    assert (h ≠ []) as Hne.
    { intros ->. rewrite Hm in Eh. cbn [withDefaults helperLanguage] in Eh.
      unfold hydratePreferences in Eh. cbn [helperLanguage] in Eh.
      destruct (s !! STORAGE_helperLang) as [[|c v]|]; cbn [orNull truthy andb] in Eh;
        repeat case_match; done. }
    split; [done|]. destruct (H4 h eq_refl) as [?|?]; [done|]. done.
Qed.

Lemma init_loaded_kept text s pd nd m0 :
  buildModel localeCompare (parseCSV text) (hydratePreferences s emptyModel)
  = Built m0 →
  kept m0 (init_loaded localeCompare (FetchedText text)
             (init_start (blank s pd nd))).
Proof.
  intros Hb. unfold init_loaded, init_start, blank.
  cbn [model localStorage prevDisabled nextDisabled player errorShown].
  rewrite Hb. cbv zeta. unfold initializeUIFromModel.
  cbn [model localStorage prevDisabled nextDisabled player errorShown].
  match goal with |- context [renderPage ?q] => set (q0 := q) end.
  assert (Ui.kept m0 (renderPage q0)) as Hk.
  { unfold kept, stored. destruct (render_model q0) as (-> & -> & _).
    subst q0. cbn [model localStorage]. split_and!; try done.
    - by eapply buildModel_settled.
    - eauto. }
  by destruct (renderRaises _).
Qed.

Lemma buildModel_any rows X X' m :
  buildModel localeCompare rows X = Built m →
  buildModel localeCompare rows X'
  = Built (withDefaults (lessons m) (lessonIds m) (languages m) X').
Proof.
  unfold buildModel. destruct rows as [|row0 rest]; [done|].
  destruct (languageColsOf row0) as [|c cols]; [done|]. by intros [= <-].
Qed.

Lemma withDefaults_valid L I C X cl cg hl :
  preferences X = (cl, cg, hl) →
  ((I = [] ∧ cl = None) ∨ ∃ id, cl = Some id ∧ id ∈ I ∧ id ≠ []) →
  (∃ lang, cg = Some lang ∧ lang ∈ C ∧ lang ≠ []) →
  (hl = None ∨ ∃ h, hl = Some h ∧ h ≠ [] ∧ h ∈ C ∧ Some h ≠ cg) →
  withDefaults L I C X = mkModel L I C cl cg hl.
Proof.
  unfold preferences. intros [= Hl Hg Hh] H1 (lang & -> & Hlang & Hne) H3.
  unfold withDefaults. rewrite Hl, Hg, Hh.
  assert (truthy (Some lang) = true) as -> by by destruct lang.
  rewrite (includes_elem C lang) by done. cbn [negb orb].
  f_equal.
  - destruct H1 as [[-> ->]|(id & -> & Hin & Hid)]; [done|].
    assert (truthy (Some id) = true) as -> by by destruct id.
    by rewrite (includes_elem I id).
  - destruct H3 as [->|(h & -> & Hh1 & Hh2 & Hh3)]; [done|].
    assert (truthy (Some h) = true) as -> by by destruct h.
    rewrite (includes_elem C h) by done. cbn [negb andb].
    by rewrite bool_decide_eq_false_2.
Qed.

Lemma model_eta m :
  m = mkModel (lessons m) (lessonIds m) (languages m) (currentLessonId m)
        (currentLanguage m) (helperLanguage m).
Proof. by destruct m. Qed.

End PageFacts.

(** From start-up on, whatever the user does with the selects, the two
    buttons and the keys: the lessons and languages of the model stay those
    buildModel made; the current lesson and language are always among
    them; the helper language is off or a language other than the current
    one; and the preferences in the store are those of the model. *)
Theorem preferences_stay_valid (localeCompare : jsstring → jsstring → Z)
    (s : Ui.Storage) (pd nd : bool) (text : jsstring) (m0 : Model)
    (es : list Ui.UiEvent) :
  buildModel localeCompare (parseCSV text)
    (Ui.hydratePreferences s Ui.emptyModel) = Built m0 →
  Forall (Ui.offered m0) es →
  let p := Ui.pageExec es (Ui.init_loaded localeCompare (Ui.FetchedText text)
                         (Ui.init_start (Ui.blank s pd nd))) in
  lessons (Ui.model p) = lessons m0
  ∧ lessonIds (Ui.model p) = lessonIds m0
  ∧ languages (Ui.model p) = languages m0
  ∧ Ui.settled (Ui.model p)
  ∧ helperLanguage (Ui.model p) ≠ currentLanguage (Ui.model p)
  ∧ Ui.localStorage p !! Ui.STORAGE_lesson
    = Some (orEmpty (currentLessonId (Ui.model p)))
  ∧ Ui.localStorage p !! Ui.STORAGE_lang
    = Some (orEmpty (currentLanguage (Ui.model p)))
  ∧ Ui.localStorage p !! Ui.STORAGE_helperLang = helperLanguage (Ui.model p).
Proof.
  intros Hb Hes p.
  assert (Ui.kept m0 p) as (H1 & H2 & H3 & H4 & (s' & Hs)).
  { apply exec_kept; [done|]. by apply init_loaded_kept. }
  split_and!; try done.
  - destruct H4 as (_ & (lang & Hl & _) & [Hh|(h & Hh & _ & _ & Hne)]).
    + by rewrite Hh, Hl.
    + by rewrite Hh.
  - rewrite Hs. apply persistPreferences_lesson.
  - rewrite Hs. apply persistPreferences_lang.
  - rewrite Hs, persistPreferences_helperLang.
    destruct H4 as (_ & _ & [->|(h & -> & Hne & _)]); [done|].
    by destruct h.
Qed.

Lemma preferences_stay_valid_witness :
  let p := Ui.pageExec [Ui.LanguageSelectChange (str "Norsk");
                    Ui.HelperLanguageSelectChange (str "Norsk");
                    Ui.NextLessonClick]
             (Ui.init_loaded (λ _ _, 0) (Ui.FetchedText Ui.demoCsv)
                (Ui.init_start (Ui.blank ∅ false false))) in
  Ui.settled (Ui.model p)
  ∧ helperLanguage (Ui.model p) ≠ currentLanguage (Ui.model p).
Proof.
  assert (∃ m0, buildModel (λ _ _, 0) (parseCSV Ui.demoCsv)
                  (Ui.hydratePreferences ∅ Ui.emptyModel) = Built m0
                ∧ str "Norsk" ∈ languages m0) as (m0 & Hb & Hin).
  { eexists. split; [vm_compute; reflexivity|].
    by apply (bool_decide_unpack _). }
  destruct (preferences_stay_valid (λ _ _, 0) ∅ false false Ui.demoCsv m0
              [Ui.LanguageSelectChange (str "Norsk");
               Ui.HelperLanguageSelectChange (str "Norsk");
               Ui.NextLessonClick] Hb)
    as (_ & _ & _ & H1 & H2 & _).
  - apply Forall_cons. split; [exact Hin|].
    apply Forall_cons. split; [right; exact Hin|].
    apply Forall_cons. split; [exact I|by apply Forall_nil].
  - split; [exact H1|exact H2].
Defined.

(** Loading the page again restores it: after any use of the selects, the
    buttons and the keys, init with the same CSV and the store as it is now
    builds the very model the page has - lessons, languages, current
    lesson, current language and helper language - as long as no column
    has the empty name. *)
Theorem reload_restores_model (localeCompare : jsstring → jsstring → Z)
    (s : Ui.Storage) (pd nd : bool) (text : jsstring) (m0 : Model)
    (es : list Ui.UiEvent) :
  buildModel localeCompare (parseCSV text)
    (Ui.hydratePreferences s Ui.emptyModel) = Built m0 →
  [] ∉ languages m0 →
  Forall (Ui.offered m0) es →
  let p := Ui.pageExec es (Ui.init_loaded localeCompare (Ui.FetchedText text)
                         (Ui.init_start (Ui.blank s pd nd))) in
  buildModel localeCompare (parseCSV text)
    (Ui.hydratePreferences (Ui.localStorage p) Ui.emptyModel)
  = Built (Ui.model p)
  ∧ ∀ pd' nd',
      Ui.model (Ui.init_loaded localeCompare (Ui.FetchedText text)
                  (Ui.init_start (Ui.blank (Ui.localStorage p) pd' nd')))
      = Ui.model p.
Proof.
  intros Hb Hlang Hes p.
  assert (Ui.kept m0 p) as (H1 & H2 & H3 & H4 & (s' & Hs)).
  { apply exec_kept; [done|]. by apply init_loaded_kept. }
  assert (buildModel localeCompare (parseCSV text)
            (Ui.hydratePreferences (Ui.localStorage p) Ui.emptyModel)
          = Built (Ui.model p)) as Hre.
  { rewrite (buildModel_any _ _ _ _ _ Hb).
    rewrite (model_eta (Ui.model p)) at 1. rewrite H1, H2, H3. f_equal.
    destruct (buildModel_listing _ _ _ _ Hb) as (_ & _ & Hids & _).
    destruct H4 as (Hl & (lang & Hg & Hin) & Hh).
    apply withDefaults_valid.
    - rewrite Hs, hydrate_persist. unfold Ui.preferences. f_equal; [f_equal|].
      + destruct Hl as [[_ ->]|(id & -> & Hid)]; [done|].
        rewrite H2 in Hid. apply Hids in Hid as [Hne _]. by destruct id.
      + rewrite Hg. rewrite H3 in Hin. destruct lang; [done|done].
      + destruct Hh as [->|(h & -> & Hne & _)]; [done|]. by destruct h.
    - destruct Hl as [[Hnil ->]|(id & -> & Hid)].
      + left. by rewrite <- H2.
      + right. exists id. rewrite H2 in Hid. split_and!; [done..|].
        by apply Hids in Hid as [Hne _].
    - exists lang. rewrite H3 in Hin. split_and!; [done..|]. by intros ->.
    - destruct Hh as [->|(h & -> & Hne & Hh & Hneq)]; [by left|].
      right. exists h. rewrite H3 in Hh. done. }
  split; [done|]. intros pd' nd'.
  unfold Ui.init_loaded, Ui.init_start, Ui.blank.
  cbn [Ui.model Ui.localStorage Ui.prevDisabled Ui.nextDisabled Ui.player
       Ui.errorShown].
  rewrite Hre. cbv zeta. unfold Ui.initializeUIFromModel.
  cbn [Ui.model Ui.localStorage Ui.prevDisabled Ui.nextDisabled Ui.player
       Ui.errorShown].
  match goal with |- context [Ui.renderPage ?q] =>
    destruct (render_model q) as (Hm & _) end.
  destruct (Ui.renderRaises _); simpl; by rewrite Hm.
Qed.

Lemma reload_restores_model_witness :
  let p := Ui.pageExec [Ui.LanguageSelectChange (str "Norsk"); Ui.NextLessonClick]
             (Ui.init_loaded (λ _ _, 0) (Ui.FetchedText Ui.demoCsv)
                (Ui.init_start (Ui.blank ∅ false false))) in
  currentLessonId (Ui.model p) = Some (str "2")
  ∧ currentLanguage (Ui.model p) = Some (str "Norsk")
  ∧ buildModel (λ _ _, 0) (parseCSV Ui.demoCsv)
      (Ui.hydratePreferences (Ui.localStorage p) Ui.emptyModel)
    = Built (Ui.model p).
Proof.
  split; [by vm_compute|]. split; [by vm_compute|].
  assert (∃ m0, buildModel (λ _ _, 0) (parseCSV Ui.demoCsv)
                  (Ui.hydratePreferences ∅ Ui.emptyModel) = Built m0
                ∧ str "Norsk" ∈ languages m0
                ∧ [] ∉ languages m0) as (m0 & Hb & Hin & Hne).
  { eexists. split; [vm_compute; reflexivity|].
    split; by apply (bool_decide_unpack _). }
  refine (proj1 (reload_restores_model (λ _ _, 0) ∅ false false Ui.demoCsv m0
                   [Ui.LanguageSelectChange (str "Norsk"); Ui.NextLessonClick]
                   Hb Hne _)).
  apply Forall_cons. split; [exact Hin|].
  apply Forall_cons. split; [exact I|by apply Forall_nil].
Defined.

Section PagePlayerFacts.

Import Ui.

Variable localeCompare : jsstring → jsstring → Z.

Implicit Types p : Page.

Lemma playerMoves_refl p : playerMoves p p.
Proof. by exists []. Qed.

Lemma playerMoves_trans p1 p2 p3 :
  playerMoves p1 p2 → playerMoves p2 p3 → playerMoves p1 p3.
Proof.
  intros [es1 H1] [es2 H2]. exists (es1 ++ es2).
  by rewrite exec_app, <- H1.
Qed.

Lemma commit_playerMoves m p : playerMoves p (commit m p).
Proof.
  exists [Navigate (viewOf m)].
  by destruct (commit_model m p) as (_ & _ & _ & ->).
Qed.

Lemma clickPrev_playerMoves p : playerMoves p (clickPrev p).
Proof.
  unfold clickPrev, onPrevLessonClick.
  repeat case_match; first [apply playerMoves_refl|apply commit_playerMoves].
Qed.

Lemma clickNext_playerMoves p : playerMoves p (clickNext p).
Proof.
  unfold clickNext, onNextLessonClick, onNextLessonClick_placeholder.
  repeat case_match; first [apply playerMoves_refl|apply commit_playerMoves].
Qed.

Lemma step_playerMoves e p : playerMoves p (Ui.pageStep e p).
Proof.
  destruct e as [value|value|value| | |key|e]; cbn [Ui.pageStep].
  - apply commit_playerMoves.
  - apply commit_playerMoves.
  - apply commit_playerMoves.
  - apply clickPrev_playerMoves.
  - apply clickNext_playerMoves.
  - unfold onKeyDown.
    eapply playerMoves_trans; [|destruct (bool_decide (key = str "ArrowRight"));
      [apply clickNext_playerMoves|apply playerMoves_refl]].
    destruct (bool_decide _); [apply clickPrev_playerMoves|apply playerMoves_refl].
  - destruct e; [apply playerMoves_refl|..];
      match goal with
      | |- playerMoves _ (mkPage _ _ _ _ (Player.step ?e' _) _) =>
          exists [e']; reflexivity
      end.
Qed.

Lemma exec_playerMoves es : ∀ p, playerMoves p (Ui.pageExec es p).
Proof.
  induction es as [|e es IH]; intros p; [apply playerMoves_refl|].
  simpl. eapply playerMoves_trans; [apply step_playerMoves|apply IH].
Qed.

Lemma init_loaded_playerMoves f p :
  playerMoves p (init_loaded localeCompare f p).
Proof.
  unfold init_loaded. destruct f as [text|status|]; try by exists [].
  destruct (buildModel _ _ _) as [m|msg]; [|by exists []].
  cbv zeta. unfold initializeUIFromModel.
  cbn [model localStorage prevDisabled nextDisabled player errorShown].
  match goal with |- context [Ui.renderPage ?q] => set (q0 := q) end.
  assert (playerMoves p (Ui.renderPage q0)) as Hq.
  { exists [Navigate (viewOf m)].
    by destruct (render_model q0) as (_ & _ & _ & ->). }
  destruct (renderRaises _); [|done].
  destruct Hq as [pes Hq]. by exists pes.
Qed.

Lemma render_silent view st : silent st → silent (Player.render view st).
Proof.
  apply silent_ext; unfold Player.render;
    destruct view as [[language sentences]|]; try done;
    by destruct (collectUrls language sentences).
Qed.

End PagePlayerFacts.

(** The player of the page is always in a state the player's own events
    reach from its initial state: start-up and every listener of the page
    act on it as a navigation or not at all.  So at most one audio sounds
    and at most one sentence button shows as playing on the page, and every
    listener that changes lesson or language leaves the page silent with
    the sequencer idle. *)
Theorem page_player_reachable (localeCompare : jsstring → jsstring → Z)
    (s : Ui.Storage) (pd nd : bool) (f : Ui.Fetched) (es : list Ui.UiEvent) :
  let p := Ui.pageExec es (Ui.init_loaded localeCompare f
                         (Ui.init_start (Ui.blank s pd nd))) in
  (∃ pes, Ui.player p = Player.exec pes Player.init)
  ∧ slotOwns (Ui.player p)
  ∧ (activeSessions (Ui.player p) ≤ 1)%nat
  ∧ (activeButtons (Ui.player p) ≤ 1)%nat
  ∧ ∀ m, let p' := Ui.commit m p in
      silent (Ui.player p')
      ∧ running (lessonPlayback (Ui.player p')) = false
      ∧ activeSessions (Ui.player p') = 0%nat
      ∧ activeButtons (Ui.player p') = 0%nat
      ∧ Ui.model p' = m.
Proof.
  intros p.
  assert (∃ pes, Ui.player p = Player.exec pes Player.init) as [pes Hp].
  { destruct (exec_playerMoves es (Ui.init_loaded localeCompare f
                (Ui.init_start (Ui.blank s pd nd)))) as [es2 H2].
    destruct (init_loaded_playerMoves localeCompare f
                (Ui.init_start (Ui.blank s pd nd))) as [es1 H1].
    exists (es1 ++ es2). fold p in H2. by rewrite exec_app, H2, H1. }
  assert (slotOwns (Ui.player p)) as Hown.
  { rewrite Hp. apply exec_slotOwns, init_slotOwns. }
  split_and!.
  - eauto.
  - done.
  - by apply slotOwns_activeSessions.
  - by apply slotOwns_activeButtons.
  - intros m p'. subst p'.
    destruct (commit_model m p) as (Hm & _ & _ & Hpl). rewrite Hpl. simpl.
    assert (silent (Player.render (Ui.viewOf m)
                      (stopLessonPlayback (Ui.player p)))) as Hs.
    { by apply render_silent, stopLessonPlayback_silent. }
    split_and!; try done.
    + by rewrite render_lessonPlayback, stopLessonPlayback_lessonPlayback.
    + by apply silent_activeSessions.
    + by apply silent_activeButtons.
Qed.
